(** * Correspondent manager: duplicate detection and merge orchestration

    A shallow embedding of [paperless_ngx_correspondent_manager/manager.py]
    (class [PaperlessCorrespondentManager]) together with the part of
    Python's [difflib.SequenceMatcher] that [calculate_similarity] calls
    and the [merge] command of [cli.py].

    Conventions.
    - Python [str] values are lists of characters with code points below
      256; [lower], [strip] and string comparison are the ones of Python
      on that range.
    - Python [int] values are [Z].
    - A Python [float] score [2.0 * m / n] is kept as the exact rational
      [2 * m / n]; thresholds are rationals as well.
    - Insertion-ordered dictionaries whose iteration order is observed are
      association lists; dictionaries and sets that are only looked up are
      [gmap] and [gset].
    - The HTTP service, the paginated fetches and the interactive prompt
      are an explicit world that is threaded through every operation
      together with a log of what was asked of it.
    - The console answers every [input(...)] with a line. A console at
      end of input, where [input] raises [EOFError], is outside the
      model: statements about prompts are statements about runs in which
      the prompts are answered.
    - The paginated fetches are one reaction of that world where only
      what they collect matters; their loops over the pages are modelled
      on their own in [Pages], against the answers of the service.
    - [sys.exit(code)] is one of the two ways a call can end
      ([Catalog.ended]); so is the exit code 2 with which click refuses
      a command line that lacks a required argument. What is printed is
      left out. *)

From Stdlib Require Import ZArith QArith Lia Bool Ascii String Sorted.
From stdpp Require Import base option list gmap strings sorting.

Local Open Scope Z_scope.

(** ** Text: [str.lower], [str.strip], comparison *)

Module Text.

Definition str := list ascii.

Definition lit (s : string) : str := list_ascii_of_string s.

Definition code (c : ascii) : N := N_of_ascii c.

(** [c.lower()] for one character: the upper-case letters below 256 are
    A..Z, U+00C0..U+00D6 and U+00D8..U+00DE, each 32 below its
    lower-case form. *)
Definition char_lower (c : ascii) : ascii :=
  let n := code c in
  if ((65 <=? n) && (n <=? 90) ||
      (192 <=? n) && (n <=? 222) && negb (n =? 215))%N
  then ascii_of_N (n + 32) else c.

(** [c.isspace()] below 256. *)
Definition isspace (c : ascii) : bool :=
  let n := code c in
  ((9 <=? n) && (n <=? 13) || (28 <=? n) && (n <=? 32) ||
   (n =? 133) || (n =? 160))%N.

Definition lower (s : str) : str := map char_lower s.

Fixpoint lstrip (s : str) : str :=
  match s with
  | [] => []
  | c :: s' => if isspace c then lstrip s' else s
  end.

Definition rstrip (s : str) : str := rev (lstrip (rev s)).

Definition strip (s : str) : str := rstrip (lstrip s).

(** [s < t] on Python strings: lexicographic on code points. *)
Fixpoint ltb (s t : str) : bool :=
  match s, t with
  | _, [] => false
  | [], _ :: _ => true
  | c :: s', d :: t' =>
      if (code c <? code d)%N then true
      else if (code d <? code c)%N then false
      else ltb s' t'
  end.

Definition leb (s t : str) : bool := negb (ltb t s).

End Text.

Abbreviation str := Text.str.

(** ** Data model *)

(** A correspondent as the service returns it.  [document_count] is read
    with [.get("document_count", 0)], so it may be absent. *)
Record correspondent := Correspondent {
  id : Z;
  name : str;
  document_count : option Z
}.

Global Instance correspondent_eq_dec : EqDecision correspondent.
Proof. solve_decision. Defined.

(** [correspondent["name"].lower().strip()] *)
Definition normalized_name (c : correspondent) : str :=
  Text.strip (Text.lower (name c)).

(** ** Exact duplicates *)

Module Duplicates.

(** [name_groups]: a dictionary from normalized name to the list of
    correspondents, in insertion order. *)
Definition name_groups_t := list (str * list correspondent).

(** One iteration of the grouping loop:
    [if k not in name_groups: name_groups[k] = []] followed by
    [name_groups[k].append(c)]. *)
Fixpoint add_to_group (k : str) (c : correspondent) (d : name_groups_t)
  : name_groups_t :=
  match d with
  | [] => [(k, [c])]
  | (k', g) :: d' =>
      if decide (k = k') then (k', g ++ [c]) :: d'
      else (k', g) :: add_to_group k c d'
  end.

Definition group_by_name (cs : list correspondent) : name_groups_t :=
  fold_left (fun d c => add_to_group (normalized_name c) c d) cs [].

(** [find_exact_duplicates], on the list [get_correspondents()]
    returned. *)
Definition find_exact_duplicates (cs : list correspondent)
  : list (list correspondent) :=
  filter (fun g => (1 < length g)%nat) (snd <$> group_by_name cs).

(** *** The grouping as the specification words it *)

(** The distinct keys of a list, ordered by first occurrence. *)
Definition note_key (seen : list str) (k : str) : list str :=
  if decide (k ∈ seen) then seen else seen ++ [k].

Definition first_seen (ks : list str) : list str := fold_left note_key ks [].

(** All correspondents with key [k], in input order. *)
Definition members_of (k : str) (cs : list correspondent)
  : list correspondent :=
  filter (fun c => normalized_name c = k) cs.

(** The dictionary that holds, for every key seen in [cs], all the
    members with that key. *)
Definition grouping_of (cs : list correspondent) : name_groups_t :=
  (fun k => (k, members_of k cs)) <$> first_seen (normalized_name <$> cs).

Definition duplicate_groups_spec (cs : list correspondent)
  : list (list correspondent) :=
  filter (fun g => (2 <= length g)%nat)
         ((fun k => members_of k cs) <$> first_seen (normalized_name <$> cs)).

End Duplicates.

(** ** Outcomes of running modelled Python code *)

Inductive exn := ValueError | StopIteration | KeyError.

(** A call either returns, raises, or the model ran out of its step
    budget (which the totality lemmas below rule out). *)
Inductive outcome (A : Type) :=
| Return (a : A)
| Raise (e : exn)
| OutOfFuel.
Arguments Return {A} a.
Arguments Raise {A} e.
Arguments OutOfFuel {A}.

(** ** The external service and the operations that talk to it *)

Module Service.

(** What [session.post(bulk_edit_url, json=payload, timeout=60)]
    followed by [raise_for_status()] can do: complete, raise
    [requests.exceptions.Timeout], or raise another
    [RequestException]. *)
Inductive response := Completed | TimedOut | RequestFailed.

(** The payload of one bulk edit:
    [{"documents": batch, "method": "set_correspondent",
      "parameters": {"correspondent": target}}]. *)
Record bulk_edit := BulkEdit {
  documents : list Z;
  set_correspondent : Z
}.

(** Everything the manager asks of the outside, in order. *)
Inductive event :=
| Posted (payload : bulk_edit) (r : response)
| Fetched (correspondent_id : Z) (document_ids : list Z)
| Asked (answer : str)
| Deleted (correspondent_id : Z) (ok : bool).

(** The outside world: any state [W] with these four reactions. *)
Record world_ops (W : Type) := WorldOps {
  (** the bulk edit endpoint *)
  on_post : bulk_edit -> W -> response * W;
  (** the ids of the documents [get_correspondent_documents] collects *)
  on_fetch_documents : Z -> W -> list Z * W;
  (** what the user types at [input(...)]: the console answers every
      prompt with a line; a console at end of input, where [input]
      raises [EOFError], is not part of this world *)
  on_input : W -> str * W;
  (** whether the DELETE request succeeds *)
  on_delete : Z -> W -> bool * W
}.
Arguments on_post {W}.
Arguments on_fetch_documents {W}.
Arguments on_input {W}.
Arguments on_delete {W}.

Record session (W : Type) := Session {
  world : W;
  log : list event
}.
Arguments Session {W}.
Arguments world {W}.
Arguments log {W}.

(** Computations over a session. *)
Definition M (W A : Type) : Type := session W -> outcome A * session W.

Definition ret {W A} (a : A) : M W A := fun s => (Return a, s).

Definition raise {W A} (e : exn) : M W A := fun s => (Raise e, s).

Definition out_of_fuel {W A} : M W A := fun s => (OutOfFuel, s).

Definition bind {W A B} (m : M W A) (k : A -> M W B) : M W B :=
  fun s =>
    match m s with
    | (Return a, s') => k a s'
    | (Raise e, s') => (Raise e, s')
    | (OutOfFuel, s') => (OutOfFuel, s')
    end.

Declare Scope service_scope.
Delimit Scope service_scope with service.
Notation "'let*' x ':=' m 'in' k" := (bind m (fun x => k))
  (at level 10, x name, m at level 100, k at level 200) : service_scope.

End Service.

(** ** Python built-ins used by the manager *)

Module Py.

(** [len(range(start, stop, step))], as CPython computes it. *)
Definition range_len (start stop step : Z) : Z :=
  if 0 <? step then
    if start <? stop then (stop - start - 1) / step + 1 else 0
  else
    if stop <? start then (start - stop - 1) / (- step) + 1 else 0.

(** [range(start, stop, step)]; a zero step raises [ValueError]. *)
Definition range (start stop step : Z) : option (list Z) :=
  if step =? 0 then None
  else Some ((fun k : nat => start + Z.of_nat k * step) <$>
               seq 0 (Z.to_nat (range_len start stop step))).

(** [xs[lo:hi]] for [0 <= lo <= hi]; the slice is clipped at the end of
    the list. *)
Definition slice {A} (xs : list A) (lo hi : Z) : list A :=
  take (Z.to_nat (hi - lo)) (drop (Z.to_nat lo) xs).

(** [max(first :: rest, key=key)]: the first of the maximal items; an
    item replaces the current maximum only when its key is strictly
    greater. *)
Fixpoint max_from {A} (key : A -> Z) (best : A) (rest : list A) : A :=
  match rest with
  | [] => best
  | x :: rest' => max_from key (if key best <? key x then x else best) rest'
  end.

Definition max_by {A} (key : A -> Z) (xs : list A) : option A :=
  match xs with
  | [] => None
  | x :: rest => Some (max_from key x rest)
  end.

(** [xs.sort(key=key)] is stable; so is insertion from the right, where
    an item goes before the first item with a strictly greater
    position in the order. [lt k1 k2] is [k1 < k2] on keys. *)
Section Sort.
Context {A K : Type} (key : A -> K) (lt : K -> K -> bool).

Fixpoint insert_sorted (x : A) (sorted : list A) : list A :=
  match sorted with
  | [] => [x]
  | y :: sorted' =>
      if lt (key y) (key x) then y :: insert_sorted x sorted'
      else x :: sorted
  end.

Definition sort_by (xs : list A) : list A := foldr insert_sorted [] xs.

(** [x] may stand before [y] in a sorted list. *)
Definition in_order (x y : A) : Prop := lt (key y) (key x) = false.
End Sort.

End Py.

(** ** Batched reassignment and merging *)

Module Engine.
Import Service.
Local Open Scope service_scope.

Section WithWorld.
Context {W : Type} (ops : world_ops W).

(** [self.session.post(bulk_edit_url, json=payload, timeout=60)];
    [response.raise_for_status()] *)
Definition post (payload : bulk_edit) : M W response :=
  fun s =>
    let '(r, w) := on_post ops payload (world s) in
    (Return r, Session w (log s ++ [Posted payload r])).

(** [get_correspondent_documents], then [[doc["id"] for doc in ...]] *)
Definition get_correspondent_documents (correspondent_id : Z)
  : M W (list Z) :=
  fun s =>
    let '(ds, w) := on_fetch_documents ops correspondent_id (world s) in
    (Return ds, Session w (log s ++ [Fetched correspondent_id ds])).

(** [input(prompt)] on a console that answers; the prompt is printed
    and left out. *)
Definition input : M W str :=
  fun s =>
    let '(answer, w) := on_input ops (world s) in
    (Return answer, Session w (log s ++ [Asked answer])).

Definition delete_correspondent (correspondent_id : Z) : M W bool :=
  fun s =>
    let '(ok, w) := on_delete ops correspondent_id (world s) in
    (Return ok, Session w (log s ++ [Deleted correspondent_id ok])).

(** The body of [for i in range(0, len(document_ids), batch_size)],
    iterated over the remaining start indices.  [retry] is the
    recursive call of [bulk_reassign_documents]. *)
Fixpoint batch_loop (retry : list Z -> Z -> Z -> M W bool)
    (document_ids : list Z) (target_correspondent_id batch_size : Z)
    (starts : list Z) (success : bool) : M W bool :=
  match starts with
  | [] => ret success
  | i :: starts' =>
      let batch := Py.slice document_ids i (i + batch_size) in
      let continue := batch_loop retry document_ids
                        target_correspondent_id batch_size starts' in
      let* r := post (BulkEdit batch target_correspondent_id) in
      match r with
      | Completed => continue success
      | TimedOut =>
          if 10 <? batch_size then
            let* smaller_batch_success :=
              retry batch target_correspondent_id (batch_size / 2) in
            continue (if negb smaller_batch_success then false
                      else success)
          else continue false
      | RequestFailed => continue false
      end
  end.

(** [bulk_reassign_documents] with a bound on the depth of its
    recursion. *)
Fixpoint bulk_reassign_documents_rec (depth : nat)
    (document_ids : list Z) (target_correspondent_id batch_size : Z)
  : M W bool :=
  match depth with
  | O => out_of_fuel
  | S depth' =>
      match document_ids with
      | [] => ret true
      | _ :: _ =>
          match Py.range 0 (Z.of_nat (length document_ids)) batch_size with
          | None => raise ValueError
          | Some starts =>
              batch_loop (bulk_reassign_documents_rec depth')
                document_ids target_correspondent_id batch_size
                starts true
          end
      end
  end.

(** A depth that the recursion cannot exceed: the batch size is halved
    at each level and no level below 11 recurses. *)
Definition depth_bound (batch_size : Z) : nat :=
  S (Z.to_nat (Z.log2 batch_size)).

Definition bulk_reassign_documents
    (document_ids : list Z) (target_correspondent_id batch_size : Z)
  : M W bool :=
  bulk_reassign_documents_rec (depth_bound batch_size)
    document_ids target_correspondent_id batch_size.

(** [restore_documents_to_correspondent] *)
Definition restore_documents_to_correspondent
    (document_ids : list Z) (target_correspondent_id : Z) : M W bool :=
  match document_ids with
  | [] => ret true
  | _ :: _ => bulk_reassign_documents document_ids
                target_correspondent_id 25
  end.

(** [merge_correspondents(source_id, target_id)] *)
Definition merge_correspondents (source_id target_id : Z) : M W bool :=
  let* document_ids := get_correspondent_documents source_id in
  match document_ids with
  | [] => ret true
  | _ :: _ => bulk_reassign_documents document_ids target_id 50
  end.

(** [x.get("document_count", 0)] *)
Definition count_of (c : correspondent) : Z :=
  default 0 (document_count c).

(** The loop [for correspondent in group] of
    [merge_correspondent_group]. *)
Fixpoint merge_loop (target_id : Z) (group : list correspondent)
    (success : bool) (merged_sources : list Z)
  : M W (bool * list Z) :=
  match group with
  | [] => ret (success, merged_sources)
  | c :: group' =>
      if decide (id c ≠ target_id) then
        let* ok := merge_correspondents (id c) target_id in
        if ok then merge_loop target_id group' success
                     (merged_sources ++ [id c])
        else merge_loop target_id group' false merged_sources
      else merge_loop target_id group' success merged_sources
  end.

(** [for source_id in merged_sources: self.delete_correspondent(...)] *)
Fixpoint delete_all (merged_sources : list Z) : M W unit :=
  match merged_sources with
  | [] => ret tt
  | source_id :: rest =>
      let* _ok := delete_correspondent source_id in delete_all rest
  end.

(** The target [merge_correspondent_group] settles on, if any. *)
Definition choose_target (group : list correspondent)
    (target_id : option Z) : option correspondent :=
  match target_id with
  | None => Py.max_by count_of group
  | Some t => List.find (fun c => bool_decide (id c = t)) group
  end.

(** [merge_correspondent_group(group, target_id=None)] *)
Definition merge_correspondent_group (group : list correspondent)
    (target_id : option Z) : M W bool :=
  if (length group <? 2)%nat then ret false
  else
    match choose_target group target_id with
    | None => ret false
    | Some target_correspondent =>
        let target_id :=
          match target_id with
          | None => id target_correspondent
          | Some t => t
          end in
        let* r := merge_loop target_id group true [] in
        let '(success, merged_sources) := r in
        match success, merged_sources with
        | true, _ :: _ =>
            let* response := input in
            if decide (Text.lower response = Text.lit "y") then
              let* _done := delete_all merged_sources in ret success
            else ret success
        | _, _ => ret success
        end
    end.

End WithWorld.

End Engine.

(** ** [difflib.SequenceMatcher(None, a, b)] *)

Module Difflib.

(** A match [(i, j, k)]: [a[i:i+k] == b[j:j+k]]. *)
Definition triple : Type := Z * Z * Z.

(** [s[i]] for an index that may be out of range. *)
Definition at_ (s : list ascii) (i : Z) : option ascii :=
  if i <? 0 then None else s !! Z.to_nat i.

Section Matcher.
Variables a b : str.

(** *** [__chain_b] *)

(** [for i, elt in enumerate(b): b2j.setdefault(elt, []).append(i)] *)
Fixpoint index_elements (i : Z) (s : str) (b2j : gmap ascii (list Z))
  : gmap ascii (list Z) :=
  match s with
  | [] => b2j
  | elt :: s' =>
      index_elements (i + 1) s'
        (<[elt := default [] (b2j !! elt) ++ [i]]> b2j)
  end.

(** With [isjunk=None] there is no junk; with [autojunk=True] and
    [len(b) >= 200] every element that occurs more than
    [len(b) // 100 + 1] times is popular and loses its entry. *)
Definition chain_b : gmap ascii (list Z) :=
  let b2j := index_elements 0 b ∅ in
  let n := Z.of_nat (length b) in
  if 200 <=? n then
    let ntest := n / 100 + 1 in
    filter (fun '(_, idxs) => ¬ (ntest < Z.of_nat (length idxs))) b2j
  else b2j.

(** *** [find_longest_match] *)

(** The inner loop [for j in b2j.get(a[i], nothing)] over the
    remaining indices. *)
Fixpoint scan_row (i blo bhi : Z) (j2len : gmap Z Z) (js : list Z)
    (newj2len : gmap Z Z) (best : triple) : gmap Z Z * triple :=
  match js with
  | [] => (newj2len, best)
  | j :: js' =>
      if j <? blo then scan_row i blo bhi j2len js' newj2len best
      else if bhi <=? j then (newj2len, best)
      else
        let k := default 0 (j2len !! (j - 1)) + 1 in
        let '(_, _, bestsize) := best in
        scan_row i blo bhi j2len js' (<[j := k]> newj2len)
          (if bestsize <? k then (i - k + 1, j - k + 1, k) else best)
  end.

(** The loop [for i in range(alo, ahi)] over the remaining rows. *)
Fixpoint scan_rows (b2j : gmap ascii (list Z)) (blo bhi : Z)
    (rows : list Z) (j2len : gmap Z Z) (best : triple) : triple :=
  match rows with
  | [] => best
  | i :: rows' =>
      let js := match at_ a i with
                | Some c => default [] (b2j !! c)
                | None => []
                end in
      let '(newj2len, best') := scan_row i blo bhi j2len js ∅ best in
      scan_rows b2j blo bhi rows' newj2len best'
  end.

(** [a[i] == b[j]] *)
Definition same_at (i j : Z) : bool :=
  match at_ a i, at_ b j with
  | Some x, Some y => bool_decide (x = y)
  | _, _ => false
  end.

(** [while besti > alo and bestj > blo and a[besti-1] == b[bestj-1]];
    the loop ends within [besti - alo] rounds. *)
Fixpoint extend_left (rounds : nat) (alo blo : Z) (best : triple)
  : triple :=
  let '(besti, bestj, bestsize) := best in
  match rounds with
  | O => best
  | S rounds' =>
      if (alo <? besti) && (blo <? bestj) &&
         same_at (besti - 1) (bestj - 1)
      then extend_left rounds' alo blo
             (besti - 1, bestj - 1, bestsize + 1)
      else best
  end.

(** [while besti+bestsize < ahi and bestj+bestsize < bhi and
    a[besti+bestsize] == b[bestj+bestsize]]; the loop ends within
    [ahi - (besti + bestsize)] rounds. *)
Fixpoint extend_right (rounds : nat) (ahi bhi : Z) (best : triple)
  : triple :=
  let '(besti, bestj, bestsize) := best in
  match rounds with
  | O => best
  | S rounds' =>
      if (besti + bestsize <? ahi) && (bestj + bestsize <? bhi) &&
         same_at (besti + bestsize) (bestj + bestsize)
      then extend_right rounds' ahi bhi (besti, bestj, bestsize + 1)
      else best
  end.

(** [find_longest_match(alo, ahi, blo, bhi)].  The junk set is empty,
    so the two loops guarded by [not isbjunk(...)] are the two
    extensions above and the two guarded by [isbjunk(...)] never
    run. *)
Definition find_longest_match (b2j : gmap ascii (list Z))
    (alo ahi blo bhi : Z) : triple :=
  let best := scan_rows b2j blo bhi (seqZ alo (ahi - alo)) ∅
                (alo, blo, 0) in
  let best := extend_left (Z.to_nat (best.1.1 - alo)) alo blo best in
  extend_right (Z.to_nat (ahi - (best.1.1 + best.2))) ahi bhi best.

(** *** [get_matching_blocks] *)

(** The loop [while queue].  The queue is a stack whose top is the
    head of the list. *)
Fixpoint collect_blocks (b2j : gmap ascii (list Z)) (fuel : nat)
    (queue : list (Z * Z * Z * Z)) (matching_blocks : list triple)
  : option (list triple) :=
  match queue with
  | [] => Some matching_blocks
  | (alo, ahi, blo, bhi) :: queue' =>
      match fuel with
      | O => None
      | S fuel' =>
          let '(i, j, k) := find_longest_match b2j alo ahi blo bhi in
          if k =? 0 then collect_blocks b2j fuel' queue' matching_blocks
          else
            let left := if (alo <? i) && (blo <? j)
                        then [(alo, i, blo, j)] else [] in
            let right := if (i + k <? ahi) && (j + k <? bhi)
                         then [(i + k, ahi, j + k, bhi)] else [] in
            collect_blocks b2j fuel' (right ++ left ++ queue')
              (matching_blocks ++ [(i, j, k)])
      end
  end.

(** Tuple comparison [x < y]. *)
Definition triple_ltb (x y : triple) : bool :=
  let '(i1, j1, k1) := x in
  let '(i2, j2, k2) := y in
  (i1 <? i2) || (i1 =? i2) && ((j1 <? j2) || (j1 =? j2) && (k1 <? k2)).

(** The loop that collapses adjacent blocks; [cur] is
    [(i1, j1, k1)]. *)
Fixpoint collapse (cur : triple) (blocks : list triple)
    (non_adjacent : list triple) : list triple :=
  let '(i1, j1, k1) := cur in
  match blocks with
  | [] => if k1 =? 0 then non_adjacent else non_adjacent ++ [cur]
  | (i2, j2, k2) :: blocks' =>
      if (i1 + k1 =? i2) && (j1 + k1 =? j2)
      then collapse (i1, j1, k1 + k2) blocks' non_adjacent
      else collapse (i2, j2, k2) blocks'
             (if k1 =? 0 then non_adjacent else non_adjacent ++ [cur])
  end.

(** Each round of [while queue] with a non-empty match takes at least
    one element of [a] out of play, so [2 * len(a) + 1] rounds are
    enough. *)
Definition rounds_bound : nat := S (2 * length a).

Definition get_matching_blocks : list triple :=
  let la := Z.of_nat (length a) in
  let lb := Z.of_nat (length b) in
  let found := default []
                 (collect_blocks chain_b rounds_bound [(0, la, 0, lb)] [])
  in
  let sorted := Py.sort_by (fun x => x) triple_ltb found in
  collapse (0, 0, 0) sorted [] ++ [(la, lb, 0)].

(** [_calculate_ratio(matches, length)] *)
Definition calculate_ratio (matches length : Z) : Q :=
  if length =? 0 then 1%Q else (2 * matches) # (Z.to_pos length).

(** [ratio()] *)
Definition ratio : Q :=
  let matches := foldr Z.add 0 ((fun x : triple => x.2) <$> get_matching_blocks) in
  calculate_ratio matches (Z.of_nat (length a) + Z.of_nat (length b)).

End Matcher.

End Difflib.

(** ** Similarity and clustering *)

Module Similarity.

(** [calculate_similarity(name1, name2)] *)
Definition calculate_similarity (name1 name2 : str) : Q :=
  let name1 := Text.strip (Text.lower name1) in
  let name2 := Text.strip (Text.lower name2) in
  Difflib.ratio name1 name2.

(** [similarity >= threshold] *)
Definition at_least (similarity threshold : Q) : bool :=
  Qle_bool threshold similarity.

Definition pair : Type := correspondent * correspondent * Q.

(** The inner loop [for _j, corr2 in enumerate(correspondents[i+1:], i+1)]
    for one [corr1]. *)
Definition pairs_with (threshold : Q) (corr1 : correspondent)
    (later : list correspondent) : list pair :=
  omap (fun corr2 =>
          let similarity := calculate_similarity (name corr1) (name corr2) in
          if at_least similarity threshold
          then Some (corr1, corr2, similarity) else None) later.

(** The outer loop [for i, corr1 in enumerate(correspondents)]. *)
Fixpoint collect_pairs (threshold : Q) (correspondents : list correspondent)
  : list pair :=
  match correspondents with
  | [] => []
  | corr1 :: later =>
      pairs_with threshold corr1 later ++ collect_pairs threshold later
  end.

(** [similar_pairs.sort(key=lambda x: x[2], reverse=True)]: descending
    and stable, which is a stable sort for the reversed order. *)
Definition score_gtb (x y : Q) : bool := negb (Qle_bool x y).

(** [find_similar_correspondents_pairs(threshold)] on the list
    [get_correspondents()] returned. *)
Definition find_similar_correspondents_pairs (threshold : Q)
    (correspondents : list correspondent) : list pair :=
  Py.sort_by (fun p : pair => p.2) score_gtb
    (collect_pairs threshold correspondents).

(** The ids [similar_graph[corr1["id"]]] receives: those of the
    correspondents at another position that score at least the
    threshold against [corr1]. *)
Definition similar_ids (threshold : Q) (correspondents : list correspondent)
    (i : nat) (corr1 : correspondent) : list Z :=
  omap (fun '(j, corr2) =>
          if decide (i ≠ j) then
            if at_least (calculate_similarity (name corr1) (name corr2))
                        threshold
            then Some (id corr2) else None
          else None)
       (imap (fun j corr2 => (j, corr2)) correspondents).

(** The loop that fills [similar_graph], over the remaining
    [(i, corr1)]. *)
Fixpoint build_graph (threshold : Q) (correspondents : list correspondent)
    (i : nat) (remaining : list correspondent) (graph : gmap Z (list Z))
  : gmap Z (list Z) :=
  match remaining with
  | [] => graph
  | corr1 :: remaining' =>
      build_graph threshold correspondents (S i) remaining'
        (<[id corr1 := similar_ids threshold correspondents i corr1]> graph)
  end.

(** The loop [while stack].  The top of the stack is the head of the
    list; [next(c for c in correspondents if c["id"] == current_id)]
    raises [StopIteration] when there is none and
    [similar_graph[current_id]] raises [KeyError] when the key is
    absent. *)
Fixpoint traverse (correspondents : list correspondent)
    (graph : gmap Z (list Z)) (fuel : nat) (stack : list Z)
    (visited : gset Z) (group : list correspondent)
  : outcome (gset Z * list correspondent) :=
  match stack with
  | [] => Return (visited, group)
  | current_id :: stack' =>
      match fuel with
      | O => OutOfFuel
      | S fuel' =>
          if decide (current_id ∈ visited)
          then traverse correspondents graph fuel' stack' visited group
          else
            let visited := {[current_id]} ∪ visited in
            match List.find (fun c => bool_decide (id c = current_id))
                            correspondents with
            | None => Raise StopIteration
            | Some current_corr =>
                match graph !! current_id with
                | None => Raise KeyError
                | Some similar =>
                    let pushed :=
                      filter (fun similar_id => similar_id ∉ visited)
                             similar in
                    traverse correspondents graph fuel'
                      (rev pushed ++ stack') visited
                      (group ++ [current_corr])
                end
            end
      end
  end.

(** [group.sort(key=lambda x: x["name"].lower())] *)
Definition sort_group (group : list correspondent) : list correspondent :=
  Py.sort_by (fun c => Text.lower (name c)) Text.ltb group.

(** Rounds of [while stack] that one traversal can take: every round
    pops one id, and ids are pushed only when a correspondent is
    visited, at most [len(correspondents) - 1] of them each time. *)
Definition traverse_bound (correspondents : list correspondent) : nat :=
  S (length correspondents * length correspondents).

(** The loop [for correspondent in correspondents] over the remaining
    correspondents. *)
Fixpoint group_loop (correspondents : list correspondent)
    (graph : gmap Z (list Z)) (remaining : list correspondent)
    (visited : gset Z) (groups : list (list correspondent))
  : outcome (list (list correspondent)) :=
  match remaining with
  | [] => Return groups
  | correspondent :: remaining' =>
      if decide (id correspondent ∈ visited)
      then group_loop correspondents graph remaining' visited groups
      else
        match traverse correspondents graph (traverse_bound correspondents)
                       [id correspondent] visited [] with
        | Return (visited', group) =>
            group_loop correspondents graph remaining' visited'
              (if (1 <? length group)%nat
               then groups ++ [sort_group group] else groups)
        | Raise e => Raise e
        | OutOfFuel => OutOfFuel
        end
  end.

(** [find_similar_correspondents(threshold)] on the list
    [get_correspondents()] returned. *)
Definition find_similar_correspondents (threshold : Q)
    (correspondents : list correspondent)
  : outcome (list (list correspondent)) :=
  let similar_graph :=
    build_graph threshold correspondents 0 correspondents ∅ in
  group_loop correspondents similar_graph correspondents ∅ [].

End Similarity.

(** ** Vocabulary for the statements about the engine *)

Module EngineSpec.
Import Service Engine.
Local Open Scope service_scope.

Section WithWorld.
Context {W : Type} (ops : world_ops W).

(** Run [m1], then [m2] whatever [m1] returned, and return the
    conjunction. *)
Definition both (m1 m2 : M W bool) : M W bool :=
  let* ok1 := m1 in let* ok2 := m2 in ret (ok1 && ok2).

(** Merge every source into the target, one after the other, and
    collect what each merge returned. *)
Fixpoint merge_each (target_id : Z) (source_ids : list Z)
  : M W (list bool) :=
  match source_ids with
  | [] => ret []
  | source_id :: rest =>
      let* ok := merge_correspondents ops source_id target_id in
      let* oks := merge_each target_id rest in
      ret (ok :: oks)
  end.
End WithWorld.

(** The correspondents whose documents were fetched, in order. *)
Definition fetched_ids (events : list event) : list Z :=
  omap (fun e => match e with Fetched c _ => Some c | _ => None end) events.

(** The bulk edits that were posted, in order. *)
Definition posted (events : list event) : list (bulk_edit * response) :=
  omap (fun e => match e with Posted p r => Some (p, r) | _ => None end)
       events.

(** The ids of the group members that are merged into [target_id]. *)
Definition sources_of (group : list correspondent) (target_id : Z) : list Z :=
  id <$> filter (fun c => id c ≠ target_id) group.

(** [ceil(n / d)] for [d >= 1]. *)
Definition ceil_div (n d : Z) : Z := (n + d - 1) / d.

(** Some bulk edit that completed carried the document. *)
Definition reassigned (events : list event) (document_id : Z) : Prop :=
  exists payload,
    Posted payload Completed ∈ events /\ document_id ∈ documents payload.

(** The bulk edit of [batch] to [target], answered with success. *)
Definition completed_post (target : Z) (batch : list Z) : event :=
  Posted (BulkEdit batch target) Completed.

(** An event is a bulk edit that completed. *)
Definition is_completed (e : event) : Prop :=
  exists payload, e = Posted payload Completed.

(** An event is a bulk edit (whatever the answer). *)
Definition is_post (e : event) : Prop :=
  exists payload r, e = Posted payload r.

(** What a computation returned, transformed. *)
Definition on_return {W A B} (f : A -> B) (x : outcome A * session W)
  : outcome B * session W :=
  match x with
  | (Return a, s) => (Return (f a), s)
  | (Raise e, s) => (Raise e, s)
  | (OutOfFuel, s) => (OutOfFuel, s)
  end.

(** The summary of one run of [bulk_reassign_documents] that returned
    [ok] and added [evs] to the log: it only posted bulk edits; a [true]
    means every document went out in a bulk edit that completed and no
    request failed; and when every request completed, the requests are
    consecutive batches of the list. *)
Definition run_summary (ids : list Z) (t bs : Z) (ok : bool)
    (evs : list event) : Prop :=
  Forall is_post evs /\
  (ok = true ->
     (forall doc, doc ∈ ids -> reassigned evs doc) /\
     (forall payload, Posted payload RequestFailed ∉ evs)) /\
  (Forall is_completed evs ->
     ok = true /\
     exists batches,
       evs = completed_post t <$> batches /\
       concat batches = ids /\
       Forall (fun batch => 1 <= Z.of_nat (length batch) <= bs) batches /\
       Z.of_nat (length batches) = ceil_div (Z.of_nat (length ids)) bs).

End EngineSpec.

(** ** A scripted service, as the test-suite mocks it *)

Module Scripted.
Import Service.

(** The answers the bulk edit endpoint will give, in order (success
    once the script is used up), the documents of every correspondent
    and what the user will type (empty lines once the script is used
    up). *)
Record script := Script {
  answers : list response;
  owned : list (Z * list Z);
  typed : list str
}.

Definition documents_of (w : script) (correspondent_id : Z) : list Z :=
  match List.find (fun e => bool_decide (e.1 = correspondent_id)) (owned w) with
  | Some e => e.2
  | None => []
  end.

Definition ops : world_ops script := {|
  on_post := fun _ w =>
    match answers w with
    | [] => (Completed, w)
    | r :: rest => (r, Script rest (owned w) (typed w))
    end;
  on_fetch_documents := fun c w => (documents_of w c, w);
  on_input := fun w =>
    match typed w with
    | [] => ([], w)
    | t :: rest => (t, Script (answers w) (owned w) rest)
    end;
  on_delete := fun _ w => (true, w)
|}.

Definition start (w : script) : session script := Session w [].

End Scripted.

(** ** Concrete inputs used by the examples *)

Module Inputs.
Import Service Scripted.

(** Correspondent 5 owns documents 10 and 11; the service answers every
    request with success. *)
Definition one_owner : script := Script [] [(5, [10; 11])] [].

(** Documents 1..5 in batches of 2: the second batch times out once. *)
Definition second_times_out : script :=
  Script [Completed; TimedOut] [] [].

(** Three correspondents; 2 and 3 tie on the highest document count. *)
Definition tied_group : list correspondent :=
  [ Correspondent 1 (Text.lit "Acme") (Some 3);
    Correspondent 2 (Text.lit "ACME") (Some 7);
    Correspondent 3 (Text.lit "acme") (Some 7) ].

(** Correspondent 1 owns document 20 and its bulk edit fails;
    correspondent 3 owns document 30. *)
Definition first_merge_fails : script :=
  Script [RequestFailed] [(1, [20]); (3, [30])] [].

(** Four names; 1-2 and 3-4 score 0.875, 2-4 and 2-3 score 0.625 and the
    other pairs 0.5. *)
Definition two_clusters : list correspondent :=
  [ Correspondent 1 (Text.lit "abcdefgh") None;
    Correspondent 2 (Text.lit "abcdefgx") None;
    Correspondent 3 (Text.lit "abcdwxyz") None;
    Correspondent 4 (Text.lit "abcdwxyq") None ].

(** Two similar names, the first with a leading blank. *)
Definition leading_blank : list correspondent :=
  [ Correspondent 1 (Text.lit " john doe") None;
    Correspondent 2 (Text.lit "john doa") None ].

(** Two similar names and one unlike both. *)
Definition john_john_jane : list correspondent :=
  [ Correspondent 1 (Text.lit "John Doe") None;
    Correspondent 2 (Text.lit "John D. Doe") None;
    Correspondent 3 (Text.lit "Jane Smith") None ].

(** Two names of 200 characters: an [x] followed by 199 times [a], and
    200 times [a]. *)
Definition x_then_a : str := Text.lit "x" ++ replicate 199 "a"%char.
Definition only_a : str := replicate 200 "a"%char.

(** The names of the duplicate-finder test. *)
Definition john_and_jane : list correspondent :=
  [ Correspondent 1 (Text.lit "John Doe") None;
    Correspondent 2 (Text.lit "JOHN DOE") None;
    Correspondent 3 (Text.lit "  john doe  ") None;
    Correspondent 4 (Text.lit "Jane Smith") None ].

End Inputs.

(** ** Vocabulary for the statements about similar groups *)

Module SimilaritySpec.
Import Similarity.

(** [corr1] scores at least the threshold against [corr2] (in this
    order: the score is computed per ordered pair). *)
Definition similar_to (threshold : Q) (corr1 corr2 : correspondent) : Prop :=
  at_least (calculate_similarity (name corr1) (name corr2)) threshold = true.

(** No other correspondent of the list is similar to [c], in either
    direction. *)
Definition isolated (threshold : Q) (correspondents : list correspondent)
    (c : correspondent) : Prop :=
  forall c', c' ∈ correspondents -> c' ≠ c ->
    ~ similar_to threshold c c' /\ ~ similar_to threshold c' c.

(** The graph [find_similar_correspondents] builds. *)
Definition similar_graph (threshold : Q)
    (correspondents : list correspondent) : gmap Z (list Z) :=
  build_graph threshold correspondents 0 correspondents ∅.

(** The ids of the list, as a set. *)
Definition universe (correspondents : list correspondent) : gset Z :=
  list_to_set (id <$> correspondents).

(** Rounds of [while stack] a traversal still needs at most. *)
Definition rounds (correspondents : list correspondent)
    (stack : list Z) (visited : gset Z) : nat :=
  (length stack +
   length correspondents * size (universe correspondents ∖ visited))%nat.

(** Ascending by the lower-cased name. *)
Definition lower_name_le (x y : correspondent) : Prop :=
  Text.leb (Text.lower (name x)) (Text.lower (name y)) = true.

(** Ascending by the lower-cased and stripped name. *)
Definition normalized_name_le (x y : correspondent) : Prop :=
  Text.leb (normalized_name x) (normalized_name y) = true.

End SimilaritySpec.

(** ** Vocabulary for the statements about [SequenceMatcher] *)

Module DifflibSpec.
Import Difflib.

(** The indices at which [c] occurs in [s], counted from [i]. *)
Fixpoint positions_from (i : Z) (s : str) (c : ascii) : list Z :=
  match s with
  | [] => []
  | x :: s' =>
      (if decide (x = c) then [i] else []) ++ positions_from (i + 1) s' c
  end.

(** [b2j.get(c, [])] *)
Definition get (b2j : gmap ascii (list Z)) (c : ascii) : list Z :=
  default [] (b2j !! c).

(** [b2j] lists, for every element that is not popular, all its
    positions in [b], and nothing for a popular one. *)
Definition indexes (b : str) (popular : ascii -> bool)
    (b2j : gmap ascii (list Z)) : Prop :=
  forall c, get b2j c = if popular c then [] else positions_from 0 b c.

(** Nothing is popular: the index of a second string of fewer than 200
    elements. *)
Definition none_popular (c : ascii) : bool := false.

(** Row-major order on positions. *)
Definition before (p q : Z * Z) : Prop :=
  p.1 < q.1 \/ (p.1 = q.1 /\ p.2 < q.2).

Section Window.
Variables (a b : str) (popular : ascii -> bool).
Variables (alo ahi blo bhi : Z).

(** [a[i] == b[j]] and the element is not popular. *)
Definition matchable (i j : Z) : bool :=
  match at_ a i, at_ b j with
  | Some x, Some y => bool_decide (x = y) && negb (popular y)
  | _, _ => false
  end.

Fixpoint run_len (n : nat) (i j : Z) : Z :=
  match n with
  | O => 0
  | S n' =>
      if (blo <=? j) && matchable i j
      then 1 + run_len n' (i - 1) (j - 1) else 0
  end.

(** The length of the longest run of matchable pairs that ends at
    [(i, j)] and does not start before [(alo, blo)]. *)
Definition run_ending (i j : Z) : Z :=
  run_len (Z.to_nat (i - alo + 1)) i j.

Definition in_window (p : Z * Z) : Prop :=
  alo <= p.1 < ahi /\ blo <= p.2 < bhi.

(** [best] is what the scan holds once every position before [limit]
    has been looked at: the first run of the greatest length among
    those that end inside the window before [limit], or
    [(alo, blo, 0)] when there is none. *)
Definition best_upto (limit : Z * Z) (best : triple) : Prop :=
  let '(besti, bestj, bestsize) := best in
  let e := (besti + bestsize - 1, bestj + bestsize - 1) in
  0 <= bestsize /\
  (forall p, in_window p -> before p limit ->
             run_ending p.1 p.2 <= bestsize) /\
  (bestsize = 0 -> besti = alo /\ bestj = blo) /\
  (0 < bestsize ->
     in_window e /\ before e limit /\
     run_ending e.1 e.2 = bestsize /\
     forall p, in_window p -> before p e ->
               run_ending p.1 p.2 < bestsize).

(** [j2len] holds the run lengths of row [i]. *)
Definition row_of (i : Z) (j2len : gmap Z Z) : Prop :=
  forall j, default 0 (j2len !! j) =
            if (blo <=? j) && (j <? bhi) then run_ending i j else 0.

End Window.

(** The total size of the blocks that the queue loop collects for one
    region, written as a recursion on the region. *)
Fixpoint region_total (a b : str) (b2j : gmap ascii (list Z)) (fuel : nat)
    (region : Z * Z * Z * Z) : Z :=
  match fuel with
  | O => 0
  | S fuel' =>
      let '(alo, ahi, blo, bhi) := region in
      let '(i, j, k) := find_longest_match a b b2j alo ahi blo bhi in
      if k =? 0 then 0
      else
        k + (if (alo <? i) && (blo <? j)
             then region_total a b b2j fuel' (alo, i, blo, j) else 0)
          + (if (i + k <? ahi) && (j + k <? bhi)
             then region_total a b b2j fuel' (i + k, ahi, j + k, bhi)
             else 0)
  end.

(** Rounds of [while queue] a region can need. *)
Definition region_rounds (region : Z * Z * Z * Z) : nat :=
  let '(alo, ahi, _, _) := region in S (2 * Z.to_nat (ahi - alo)).

(** A region is a pair of index ranges, neither of them reversed. *)
Definition valid (region : Z * Z * Z * Z) : Prop :=
  let '(alo, ahi, blo, bhi) := region in alo <= ahi /\ blo <= bhi.

Definition extent (region : Z * Z * Z * Z) : nat :=
  let '(alo, ahi, _, _) := region in Z.to_nat (ahi - alo).

Definition queue_rounds (queue : list (Z * Z * Z * Z)) : nat :=
  foldr Nat.add O (region_rounds <$> queue).

Definition queue_total (a b : str) (b2j : gmap ascii (list Z))
    (queue : list (Z * Z * Z * Z)) : Z :=
  foldr Z.add 0
    ((fun region => region_total a b b2j (region_rounds region) region)
       <$> queue).

Definition sum_sizes (blocks : list triple) : Z :=
  foldr Z.add 0 ((fun x : triple => x.2) <$> blocks).

(** *** The Ratcliff-Obershelp ratio, as the specification words it *)

(** [x[i:i+k] == y[j:j+k]], both slices in range. *)
Definition common_at (x y : str) (i j k : nat) : Prop :=
  (i + k <= length x)%nat /\ (j + k <= length y)%nat /\
  take k (drop i x) = take k (drop j y).

Global Instance common_at_dec x y i j k : Decision (common_at x y i j k).
Proof. unfold common_at. apply _. Defined.

(** Lexicographic order on start positions. *)
Definition lex_lt (p q : nat * nat) : Prop :=
  (p.1 < q.1 \/ (p.1 = q.1 /\ p.2 < q.2))%nat.

(** All start positions [(i, j)], in lexicographic order. *)
Definition starts (x y : str) : list (nat * nat) :=
  i ← seq 0 (S (length x)); (fun j => (i, j)) <$> seq 0 (S (length y)).

(** The first common block of length [k], if there is one. *)
Definition first_common (x y : str) (k : nat) : option (nat * nat) :=
  head (filter (fun p => common_at x y p.1 p.2 k) (starts x y)).

(** The longest common block of length at most [k], the first one among
    those of that length; [None] when the strings share no element. *)
Fixpoint longest_upto (x y : str) (k : nat) : option (nat * nat * nat) :=
  match k with
  | O => None
  | S k' =>
      match first_common x y k with
      | Some (i, j) => Some (i, j, k)
      | None => longest_upto x y k'
      end
  end.

Definition longest_common_substring (x y : str)
  : option (nat * nat * nat) :=
  longest_upto x y (min (length x) (length y)).

(** Take the longest common substring, then do the same with what is
    left of it on both sides and with what is right of it. *)
Fixpoint matches (fuel : nat) (x y : str) : nat :=
  match fuel with
  | O => 0
  | S fuel' =>
      match longest_common_substring x y with
      | None => 0
      | Some (i, j, k) =>
          k + matches fuel' (take i x) (take j y)
            + matches fuel' (drop (i + k) x) (drop (j + k) y)
      end
  end.

(** [M]: every level of the recursion takes at least one element of
    [x] away, so [len(x)] levels are enough. *)
Definition matching_total (x y : str) : nat := matches (length x) x y.

(** [2 * M / T], and 1 when both strings are empty. *)
Definition ratcliff_obershelp (x y : str) : Q :=
  let t := Z.of_nat (length x) + Z.of_nat (length y) in
  if t =? 0 then 1%Q
  else (2 * Z.of_nat (matching_total x y)) # (Z.to_pos t).

End DifflibSpec.

(** ** Vocabulary for the statements about the traversal *)

Module ClusterSpec.

(** Every id in the adjacency list of a visited id is visited or waits
    on the stack. *)
Definition semi_closed (graph : gmap Z (list Z)) (visited : gset Z)
    (stack : list Z) : Prop :=
  forall k v x, k ∈ visited -> graph !! k = Some v -> x ∈ v ->
                x ∈ visited \/ x ∈ stack.

(** [added !! i] was pushed while an earlier member was visited, or its
    id was on the stack to begin with. *)
Definition reached_from (graph : gmap Z (list Z)) (stack : list Z)
    (added : list correspondent) : Prop :=
  forall i m, added !! i = Some m ->
    id m ∈ stack \/
    exists j k v, (j < i)%nat /\ added !! j = Some k /\
                  graph !! id k = Some v /\ id m ∈ v.

(** The two correspondents score at least the threshold against each
    other, in both orders. *)
Definition mutually_similar (threshold : Q) (c1 c2 : correspondent) : Prop :=
  SimilaritySpec.similar_to threshold c1 c2 /\
  SimilaritySpec.similar_to threshold c2 c1.

(** The state of the loop over the correspondents: what was visited
    is closed under the adjacency lists; the members of the groups
    are visited correspondents, none in two groups or twice in one;
    every group holds what [P] asks; and two visited correspondents
    that are similar to each other share a group. *)
Definition loop_state (threshold : Q) (correspondents : list correspondent)
    (P : list correspondent -> Prop)
    (visited : gset Z) (groups : list (list correspondent)) : Prop :=
  semi_closed (SimilaritySpec.similar_graph threshold correspondents)
    visited [] /\
  (forall g m, g ∈ groups -> m ∈ g ->
               m ∈ correspondents /\ id m ∈ visited) /\
  NoDup (id <$> concat groups) /\
  Forall P groups /\
  (forall c1 c2, c1 ∈ correspondents -> c2 ∈ correspondents ->
     c1 ≠ c2 -> id c1 ∈ visited -> mutually_similar threshold c1 c2 ->
     exists g, g ∈ groups /\ c1 ∈ g /\ c2 ∈ g).

End ClusterSpec.

(** ** Vocabulary for the statements about the requests of a run *)

Module RequestSpec.
Import Service.

(** [part] is a run of consecutive items of [whole]. *)
Definition consecutive_in {A} (part whole : list A) : Prop :=
  exists before after, whole = before ++ part ++ after.

(** The event is a bulk edit that sets [target] on between 1 and
    [batch_size] consecutive ids of [document_ids]. *)
Definition edits (document_ids : list Z) (target batch_size : Z)
    (e : event) : Prop :=
  exists batch r,
    e = Posted (BulkEdit batch target) r /\
    consecutive_in batch document_ids /\
    1 <= Z.of_nat (length batch) <= batch_size.

(** The correspondents a DELETE request was sent for, in order. *)
Definition deleted_ids (events : list event) : list Z :=
  omap (fun e => match e with Deleted c _ => Some c | _ => None end) events.

(** What the user typed, in order. *)
Definition answers (events : list event) : list str :=
  omap (fun e => match e with Asked a => Some a | _ => None end) events.

(** The event is a fetch of documents, or a bulk edit that sets
    [target]. *)
Definition moves_to (target : Z) (e : event) : Prop :=
  match e with
  | Fetched _ _ => True
  | Posted payload _ => set_correspondent payload = target
  | _ => False
  end.

End RequestSpec.

(** ** Operations that start from the list of correspondents *)

Module Catalog.
Import Service Engine.
Local Open Scope service_scope.

(** How a call ends when it raises nothing: it returns, or
    [sys.exit(code)] ends the program. *)
Inductive ended (A : Type) :=
| Returned (a : A)
| Exited (code : Z).
Arguments Returned {A} a.
Arguments Exited {A} code.

(** Run [k] on what [m] returned; an exit ends the run. *)
Definition and_then {W A B} (m : M W (ended A)) (k : A -> M W (ended B))
  : M W (ended B) :=
  let* r := m in
  match r with
  | Returned a => k a
  | Exited code => ret (Exited code)
  end.

Notation "'let+' x ':=' m 'in' k" := (and_then m (fun x => k))
  (at level 10, x name, m at level 100, k at level 200) : service_scope.

Section WithWorld.
Context {W : Type} (ops : world_ops W).

(** What the loop of [get_correspondents()] collects from the pages
    of the service, or [None] when a request fails. *)
Variable on_get_correspondents : W -> option (list correspondent) * W.

(** [get_correspondents()]: a failed request is printed and followed
    by [sys.exit(1)]. *)
Definition get_correspondents : M W (ended (list correspondent)) :=
  fun s =>
    let '(r, w) := on_get_correspondents (world s) in
    (Return match r with
            | Some all_correspondents => Returned all_correspondents
            | None => Exited 1
            end,
     Session w (log s)).

(** [find_empty_correspondents()] *)
Definition find_empty_correspondents : M W (ended (list correspondent)) :=
  let+ correspondents := get_correspondents in
  ret (Returned (filter (fun c => count_of c = 0) correspondents)).

(** [print_empty_correspondents()]: it lists the correspondents
    again; what it prints is left out. *)
Definition print_empty_correspondents : M W (ended unit) :=
  let+ _empty_correspondents := find_empty_correspondents in
  ret (Returned tt).

(** The loop [for correspondent in empty_correspondents] of
    [delete_empty_correspondents]. *)
Fixpoint delete_loop (confirm_each : bool)
    (empty_correspondents : list correspondent) (deleted_count : Z)
  : M W Z :=
  match empty_correspondents with
  | [] => ret deleted_count
  | correspondent :: rest =>
      if confirm_each then
        let* response := input ops in
        if decide (Text.lower response = Text.lit "q")
        then ret deleted_count
        else if decide (Text.lower response <> Text.lit "y")
        then delete_loop confirm_each rest deleted_count
        else
          let* ok := delete_correspondent ops (id correspondent) in
          delete_loop confirm_each rest
            (if ok then deleted_count + 1 else deleted_count)
      else
        let* ok := delete_correspondent ops (id correspondent) in
        delete_loop confirm_each rest
          (if ok then deleted_count + 1 else deleted_count)
  end.

(** [delete_empty_correspondents(confirm_each)] *)
Definition delete_empty_correspondents (confirm_each : bool)
  : M W (ended Z) :=
  let+ empty_correspondents := find_empty_correspondents in
  match empty_correspondents with
  | [] => ret (Returned 0)
  | _ :: _ =>
      let+ _printed := print_empty_correspondents in
      if negb confirm_each then
        let* response := input ops in
        if decide (Text.lower response <> Text.lit "y")
        then ret (Returned 0)
        else
          let* deleted_count :=
            delete_loop confirm_each empty_correspondents 0 in
          ret (Returned deleted_count)
      else
        let* deleted_count :=
          delete_loop confirm_each empty_correspondents 0 in
        ret (Returned deleted_count)
  end.

End WithWorld.

(** *** Vocabulary for the statements about deleting *)

(** The correspondents whose DELETE request succeeded, in order. *)
Definition deleted_for_good (events : list event) : list Z :=
  omap (fun e => match e with Deleted c true => Some c | _ => None end)
       events.

(** The ids that are deleted when every correspondent is confirmed on
    its own, given what the user types: those answered with [y], up to
    the first [q]. *)
Fixpoint confirmed_ids (empty_correspondents : list correspondent)
    (answers : list str) : list Z :=
  match empty_correspondents, answers with
  | c :: rest, a :: answers' =>
      if decide (Text.lower a = Text.lit "q") then []
      else if decide (Text.lower a = Text.lit "y")
      then id c :: confirmed_ids rest answers'
      else confirmed_ids rest answers'
  | _, _ => []
  end.

(** The correspondents without documents: [document_count] is 0 or
    absent. *)
Definition without_documents (correspondents : list correspondent)
  : list correspondent :=
  filter (fun c => default 0 (document_count c) = 0) correspondents.

End Catalog.

(** ** The command line: [merge] *)

Module Cli.
Import Service Engine Catalog.
Local Open Scope service_scope.

Section WithWorld.
Context {W : Type} (ops : world_ops W).
Variable on_get_correspondents : W -> option (list correspondent) * W.

(** What [click.confirm(...)] returns, or [None] when the prompt is
    aborted, after which click ends the program with exit code 1. *)
Variable on_confirm : W -> option bool * W.

Definition confirm : M W (option bool) :=
  fun s =>
    let '(r, w) := on_confirm (world s) in (Return r, Session w (log s)).

(** [for source_id in source_ids:
       manager.merge_correspondents(target_id, source_id)];
    the arguments are passed by position, in this order. *)
Fixpoint merge_each_source (target_id : Z) (source_ids : list Z)
  : M W unit :=
  match source_ids with
  | [] => ret tt
  | source_id :: rest =>
      let* _ok := merge_correspondents ops target_id source_id in
      merge_each_source target_id rest
  end.

(** The body of [def merge(ctx, correspondent_ids)]. *)
Definition merge_body (correspondent_ids : list Z) : M W (ended unit) :=
  if (length correspondent_ids <? 2)%nat then ret (Exited 1)
  else
    match correspondent_ids with
    | [] => ret (Exited 1)
    | target_id :: source_ids =>
        let+ correspondents := get_correspondents on_get_correspondents in
        let invalid_ids :=
          filter (fun cid => cid ∉ id <$> correspondents)
                 correspondent_ids in
        match invalid_ids with
        | _ :: _ => ret (Exited 1)
        | [] =>
            let* answer := confirm in
            match answer with
            | Some true =>
                let* _done := merge_each_source target_id source_ids in
                ret (Returned tt)
            | Some false => ret (Returned tt)
            | None => ret (Exited 1)
            end
        end
    end.

(** The command [merge CORRESPONDENT_IDS...] as click runs it.
    [@click.argument("correspondent_ids", nargs=-1, type=int,
    required=True)]: without any id click reports the missing
    argument as a usage error and ends the program with exit code 2;
    the body does not run. *)
Definition merge (correspondent_ids : list Z) : M W (ended unit) :=
  match correspondent_ids with
  | [] => ret (Exited 2)
  | _ :: _ => merge_body correspondent_ids
  end.

End WithWorld.

End Cli.

(** ** The loops over the pages of the service *)

Module Pages.
Import Catalog.

Definition url := str.

(** The JSON object of one page, as far as it is read:
    [data.get("results", [])] and [data.get("next")]. *)
Record page (A : Type) := Page {
  results : list A;
  next : option url
}.
Arguments Page {A} results next.
Arguments results {A} p.
Arguments next {A} p.

(** A GET request: the url and the [params] passed with it. *)
Record request := Get {
  address : url;
  params : list (str * str)
}.

(** What the service answers to one request: a page, or [None] when
    [session.get], [raise_for_status()] or [response.json()] raises a
    [RequestException]. The service is given by its answers to the
    successive requests; a run that needs more answers than there are
    has no outcome. *)
Definition reply (A : Type) : Type := option (page A).

(** [while url:], [if start_date:] -- [None] and the empty string are
    false. *)
Definition truthy (s : option str) : option str :=
  match s with
  | Some (c :: s') => Some (c :: s')
  | _ => None
  end.

(** How the loop [while url: ...] inside [try] ended: what was
    collected, whether a [RequestException] ended it, and the requests
    that were made. *)
Record fetched (A : Type) := Fetched {
  items : list A;
  failed : bool;
  asked : list request
}.
Arguments Fetched {A} items failed asked.
Arguments items {A} f.
Arguments failed {A} f.
Arguments asked {A} f.

Section WithItems.
Context {A : Type}.

(** The loop of [get_correspondents] and of
    [get_correspondent_documents]:
    [response = self.session.get(url)], [raise_for_status()],
    [data = response.json()],
    [documents.extend(data.get("results", []))],
    [url = data.get("next")]. *)
Fixpoint fetch_pages (replies : list (reply A)) (url : option url)
    (collected : list A) (requests : list request)
  : outcome (fetched A) :=
  match truthy url with
  | None => Return (Fetched collected false requests)
  | Some u =>
      match replies with
      | [] => OutOfFuel
      | None :: _ =>
          Return (Fetched collected true (requests ++ [Get u []]))
      | Some data :: replies' =>
          fetch_pages replies' (next data) (collected ++ results data)
            (requests ++ [Get u []])
      end
  end.

(** [get_correspondent_documents(correspondent_id)], where [first_url]
    is the url the loop starts with: the [RequestException] is
    printed and what was collected is returned. *)
Definition get_correspondent_documents (replies : list (reply A))
    (first_url : url) : outcome (list A * list request) :=
  match fetch_pages replies (Some first_url) [] [] with
  | Return f => Return (items f, asked f)
  | Raise e => Raise e
  | OutOfFuel => OutOfFuel
  end.

(** [get_correspondents()]: the [RequestException] is printed and
    followed by [sys.exit(1)]. *)
Definition get_correspondents (replies : list (reply A))
    (first_url : url) : outcome (ended (list A) * list request) :=
  match fetch_pages replies (Some first_url) [] [] with
  | Return f =>
      Return (if failed f then Exited 1 else Returned (items f), asked f)
  | Raise e => Raise e
  | OutOfFuel => OutOfFuel
  end.

(** The loop of [find_documents_by_date_range]: the parameters go
    with the first request only, and the loop is left once 100
    documents or more are collected. *)
Fixpoint fetch_first_hundred (replies : list (reply A))
    (url : option url) (params : list (str * str))
    (documents : list A) (requests : list request)
  : outcome (list A * list request) :=
  match truthy url with
  | None => Return (documents, requests)
  | Some u =>
      match replies with
      | [] => OutOfFuel
      | None :: _ => Return (documents, requests ++ [Get u params])
      | Some data :: replies' =>
          let documents := documents ++ results data in
          if (100 <=? length documents)%nat
          then Return (documents, requests ++ [Get u params])
          else fetch_first_hundred replies' (next data) [] documents
                 (requests ++ [Get u params])
      end
  end.

(** [params] as [find_documents_by_date_range] fills it. *)
Definition date_params (start_date end_date : option str)
  : list (str * str) :=
  match truthy start_date with
  | Some d => [(Text.lit "created__date__gte", d)]
  | None => []
  end ++
  match truthy end_date with
  | Some d => [(Text.lit "created__date__lte", d)]
  | None => []
  end.

(** [find_documents_by_date_range(start_date, end_date)] *)
Definition find_documents_by_date_range (replies : list (reply A))
    (first_url : url) (start_date end_date : option str)
  : outcome (list A * list request) :=
  fetch_first_hundred replies (Some first_url)
    (date_params start_date end_date) [] [].

End WithItems.

(** *** Vocabulary for the statements about pages *)

(** The page names a next page. *)
Definition has_next {A} (p : page A) : Prop := truthy (next p) <> None.

(** The urls asked for when the pages are answered one after the
    other, starting from [first_url]. *)
Fixpoint urls_asked {A} (first_url : url) (pages : list (page A))
  : list request :=
  match pages with
  | [] => [Get first_url []]
  | p :: pages' =>
      Get first_url [] :: urls_asked (default [] (next p)) pages'
  end.

(** All the results of the pages, in order. *)
Definition all_results {A} (pages : list (page A)) : list A :=
  concat (results <$> pages).

(** The reply is a failure or a page of at most [n] results. *)
Definition holds_at_most {A} (n : nat) (r : reply A) : Prop :=
  match r with
  | Some data => (length (results data) <= n)%nat
  | None => True
  end.

(** The reply is a page that names a next page. *)
Definition links_on {A} (r : reply A) : Prop :=
  match r with
  | Some data => has_next data
  | None => False
  end.

(** The parameters of the [i]-th request of a run whose first request
    carries [first]. *)
Definition params_at (first : list (str * str)) (i : nat)
  : list (str * str) :=
  match i with
  | O => first
  | S _ => []
  end.

End Pages.

(** ** [int(s)] on text *)

Module PyInt.

(** The white space [int] skips on both sides of a string with code
    points below 256: tab to carriage return, the blank, U+0085 and
    U+00A0. *)
Definition is_space (c : ascii) : bool :=
  let n := Text.code c in
  ((9 <=? n) && (n <=? 13) || (n =? 32) || (n =? 133) || (n =? 160))%N.

Definition is_digit (c : ascii) : bool :=
  let n := Text.code c in ((48 <=? n) && (n <=? 57))%N.

Definition digit_value (c : ascii) : Z := Z.of_N (Text.code c) - 48.

Fixpoint skip_space (s : str) : str :=
  match s with
  | [] => []
  | c :: s' => if is_space c then skip_space s' else s
  end.

Definition trim (s : str) : str := rev (skip_space (rev (skip_space s))).

(** Decimal digits with single underscores between them: the value
    read so far and the number of digits; [after_digit] tells whether
    the last character read was a digit. *)
Fixpoint digits (s : str) (value : Z) (count : nat) (after_digit : bool)
  : option (Z * nat) :=
  match s with
  | [] => if after_digit then Some (value, count) else None
  | c :: s' =>
      if is_digit c
      then digits s' (10 * value + digit_value c) (S count) true
      else if bool_decide (c = "_"%char) && after_digit
      then digits s' value count false
      else None
  end.

(** [sys.get_int_max_str_digits()] *)
Definition max_str_digits : nat := 4300.

Definition magnitude (s : str) : option Z :=
  match digits s 0 0 false with
  | Some (value, count) =>
      if (max_str_digits <? count)%nat then None else Some value
  | None => None
  end.

(** [int(s)] in base 10; [None] stands for [ValueError]. *)
Definition int (s : str) : option Z :=
  match trim s with
  | c :: s' =>
      if bool_decide (c = "+"%char) then magnitude s'
      else if bool_decide (c = "-"%char) then Z.opp <$> magnitude s'
      else magnitude (c :: s')
  | [] => None
  end.

End PyInt.

(** ** Merging the similar groups one by one *)

Module AutoMerge.
Import Service Engine Catalog.
Local Open Scope service_scope.

(** How the loop [while True] for one group ends. *)
Inductive decision :=
| Quit
| Skipped
| Merged (ok : bool).

Section WithWorld.
Context {W : Type} (ops : world_ops W).
Variable on_get_correspondents : W -> option (list correspondent) * W.

(** The loop [while True] of [auto_merge_similar_correspondents] for
    one group, for at most [rounds] answers to its first question.
    [q] leaves the function, [s] leaves the loop; a number from 1 to
    [len(group)] picks [group[choice_num - 1]], which is there
    exactly for these numbers; anything else, and a [ValueError]
    raised inside [try], starts the loop again. *)
Fixpoint choose_target_loop (rounds : nat) (group : list correspondent)
  : M W decision :=
  match rounds with
  | O => out_of_fuel
  | S rounds' =>
      let* typed := input ops in
      let choice := Text.lower (Text.strip typed) in
      if decide (choice = Text.lit "q") then ret Quit
      else if decide (choice = Text.lit "s") then ret Skipped
      else
        match PyInt.int choice with
        | None => choose_target_loop rounds' group
        | Some choice_num =>
            if 1 <=? choice_num then
              match group !! Z.to_nat (choice_num - 1) with
              | Some target_correspondent =>
                  let target_id := id target_correspondent in
                  let* confirm := input ops in
                  if decide (Text.lower confirm = Text.lit "y") then
                    fun s =>
                      match merge_correspondent_group ops group
                              (Some target_id) s with
                      | (Return ok, s') => (Return (Merged ok), s')
                      | (Raise ValueError, s') =>
                          choose_target_loop rounds' group s'
                      | (Raise e, s') => (Raise e, s')
                      | (OutOfFuel, s') => (OutOfFuel, s')
                      end
                  else ret Skipped
              | None => choose_target_loop rounds' group
              end
            else choose_target_loop rounds' group
        end
  end.

(** The loop [for i, group in enumerate(similar_groups, 1)]. *)
Fixpoint merge_groups (rounds : nat)
    (similar_groups : list (list correspondent)) (merged_count : Z)
  : M W Z :=
  match similar_groups with
  | [] => ret merged_count
  | group :: rest =>
      let* d := choose_target_loop rounds group in
      match d with
      | Quit => ret merged_count
      | Skipped => merge_groups rounds rest merged_count
      | Merged ok =>
          merge_groups rounds rest
            (if ok then merged_count + 1 else merged_count)
      end
  end.

(** [auto_merge_similar_correspondents(threshold)] *)
Definition auto_merge_similar_correspondents (rounds : nat)
    (threshold : Q) : M W (ended Z) :=
  let+ correspondents := get_correspondents on_get_correspondents in
  match Similarity.find_similar_correspondents threshold correspondents
  with
  | Return [] => ret (Returned 0)
  | Return similar_groups =>
      let* merged_count := merge_groups rounds similar_groups 0 in
      ret (Returned merged_count)
  | Raise e => raise e
  | OutOfFuel => out_of_fuel
  end.

End WithWorld.

(** *** Vocabulary for the statements about consent *)

(** Nothing was fetched, edited or deleted. *)
Definition quiet (events : list event) : Prop :=
  EngineSpec.fetched_ids events = [] /\
  EngineSpec.posted events = [] /\
  RequestSpec.deleted_ids events = [].

(** The user answered [y] or [Y] to some question. *)
Definition consented (events : list event) : Prop :=
  exists a, a ∈ RequestSpec.answers events /\
            Text.lower a = Text.lit "y".

End AutoMerge.

(** ** More concrete inputs *)

Module MoreInputs.
Import Service Scripted.

(** Two correspondents with documents and four without. *)
Definition tied_and_empty : list correspondent :=
  [ Correspondent 1 (Text.lit "Acme") (Some 3);
    Correspondent 11 (Text.lit "Bolt") (Some 0);
    Correspondent 2 (Text.lit "ACME") (Some 7);
    Correspondent 12 (Text.lit "Crate") None;
    Correspondent 13 (Text.lit "Dome") (Some 0);
    Correspondent 14 (Text.lit "Eave") None ].

(** The user types [Y], [n], [y] and [q]. *)
Definition yes_no_quit : script :=
  Script [] []
    [Text.lit "Y"; Text.lit "n"; Text.lit "y"; Text.lit "q"].

(** Two pages of document ids; the first names the second. *)
Definition first_page : Pages.page Z :=
  Pages.Page [1; 2] (Some (Text.lit "/api/documents/?page=2")).
Definition second_page : Pages.page Z := Pages.Page [3] None.

(** The user types [Q] with blanks around it. *)
Definition quits : script := Script [] [] [Text.lit " Q "].

(** Correspondent 2 owns documents 21 and 22. The user types a word,
    then [2], then [y], then [n]. *)
Definition picks_second : script :=
  Script [] [(2, [21; 22])]
    [Text.lit "two"; Text.lit "2"; Text.lit "y"; Text.lit "n"].

(** Correspondents 5 and 6. *)
Definition five_and_six : list correspondent :=
  [ Correspondent 5 (Text.lit "Acme") (Some 2);
    Correspondent 6 (Text.lit "Acme Inc") (Some 0) ].

(** Three names; the first and the third differ in case and in the
    blanks around them only. *)
Definition acme_other_acme : list correspondent :=
  [ Correspondent 1 (Text.lit " ACME") None;
    Correspondent 2 (Text.lit "Other") None;
    Correspondent 3 (Text.lit "acme ") None ].

(** [diet] scores 0.5 against [tide], [tide] scores 0.25 against
    [diet]. *)
Definition diet_tide : list correspondent :=
  [ Correspondent 2 (Text.lit "diet") None;
    Correspondent 1 (Text.lit "tide") None ].

(** The second of three members has the most documents. *)
Definition second_has_most : list correspondent :=
  [ Correspondent 1 (Text.lit "Acme") None;
    Correspondent 2 (Text.lit "ACME") (Some 7);
    Correspondent 3 (Text.lit "acme") (Some 4) ].

End MoreInputs.

(** * Exact duplicates: the dictionary loop computes the specified grouping *)

Module DuplicatesFacts.
Import Duplicates.

Lemma members_of_snoc k cs c :
  members_of k (cs ++ [c]) =
  members_of k cs ++ (if decide (normalized_name c = k) then [c] else []).
Proof.
  unfold members_of. rewrite filter_app. reflexivity.
Qed.

Lemma first_seen_snoc ks k :
  first_seen (ks ++ [k]) = note_key (first_seen ks) k.
Proof. unfold first_seen. rewrite fold_left_app. reflexivity. Qed.

Lemma add_to_group_fresh k c (keys : list str) (f : str -> list correspondent) :
  k ∉ keys ->
  add_to_group k c ((fun k' => (k', f k')) <$> keys) =
  ((fun k' => (k', f k')) <$> keys) ++ [(k, [c])].
Proof.
  induction keys as [|k' keys IH]; intros Hk; csimpl; [reflexivity|].
  apply not_elem_of_cons in Hk as [Hne Hk].
  destruct (decide (k = k')) as [->|_]; [contradiction|].
  rewrite IH by assumption. reflexivity.
Qed.

Lemma add_to_group_known k c (keys : list str) (f g : str -> list correspondent) :
  NoDup keys ->
  k ∈ keys ->
  g k = f k ++ [c] ->
  (forall k', k' ≠ k -> g k' = f k') ->
  add_to_group k c ((fun k' => (k', f k')) <$> keys) =
  (fun k' => (k', g k')) <$> keys.
Proof.
  intros Hnd Hk Hg Hother.
  induction Hnd as [|k' keys Hfresh Hnd IH]; csimpl; [inversion Hk|].
  destruct (decide (k = k')) as [<-|Hne].
  - rewrite Hg. f_equal.
    apply list_fmap_ext. intros ? k2 Hk2.
    rewrite Hother; [reflexivity|].
    intros ->. apply Hfresh. eapply list_elem_of_lookup_2, Hk2.
  - rewrite Hother by congruence. f_equal. apply IH.
    apply elem_of_cons in Hk as [?|?]; [contradiction|assumption].
Qed.

Lemma note_key_run_spec ks : forall seen,
  NoDup seen ->
  NoDup (fold_left note_key ks seen) /\
  forall k, k ∈ fold_left note_key ks seen <-> k ∈ seen \/ k ∈ ks.
Proof.
  induction ks as [|k0 ks IH]; intros seen Hnd; simpl.
  - split; [assumption|]. intros k. rewrite elem_of_nil. tauto.
  - assert (Hnd' : NoDup (note_key seen k0)).
    { unfold note_key. destruct (decide (k0 ∈ seen)); [assumption|].
      apply NoDup_app. repeat split; [assumption| |apply NoDup_singleton].
      intros x Hx Hx0. apply list_elem_of_singleton in Hx0 as ->. contradiction. }
    destruct (IH _ Hnd') as [H1 H2]. split; [assumption|].
    intros k. rewrite H2, elem_of_cons. unfold note_key.
    destruct (decide (k0 ∈ seen)) as [Hin|Hout].
    + split; [tauto|]. intros [?|[->|?]]; tauto.
    + rewrite elem_of_app, list_elem_of_singleton. tauto.
Qed.

Lemma first_seen_NoDup ks : NoDup (first_seen ks).
Proof. apply (note_key_run_spec ks []), NoDup_nil_2. Qed.

Lemma elem_of_first_seen ks k : k ∈ first_seen ks <-> k ∈ ks.
Proof.
  unfold first_seen.
  destruct (note_key_run_spec ks [] (NoDup_nil_2)) as [_ H].
  rewrite H, elem_of_nil. tauto.
Qed.

Lemma members_of_nil k cs :
  k ∉ (normalized_name <$> cs) -> members_of k cs = [].
Proof.
  intros Hk. unfold members_of.
  induction cs as [|c cs IH]; [reflexivity|].
  rewrite fmap_cons, not_elem_of_cons in Hk. destruct Hk as [Hne Hk].
  rewrite filter_cons. destruct (decide (normalized_name c = k)); [congruence|].
  apply IH, Hk.
Qed.

(** One round of the loop keeps the dictionary equal to the grouping of
    the correspondents seen so far. *)
Lemma add_to_group_grouping cs c :
  add_to_group (normalized_name c) c (grouping_of cs) =
  grouping_of (cs ++ [c]).
Proof.
  unfold grouping_of. rewrite fmap_app. csimpl. rewrite first_seen_snoc.
  unfold note_key.
  destruct (decide (normalized_name c ∈ first_seen (normalized_name <$> cs)))
    as [Hin|Hout].
  - apply add_to_group_known; [apply first_seen_NoDup|assumption| |].
    + rewrite members_of_snoc. rewrite decide_True by reflexivity. reflexivity.
    + intros k' Hne. rewrite members_of_snoc.
      rewrite decide_False by congruence. apply app_nil_r.
  - rewrite add_to_group_fresh by assumption.
    rewrite fmap_app. simpl. f_equal.
    + apply list_fmap_ext. intros ? k' Hk'. f_equal.
      rewrite members_of_snoc.
      rewrite decide_False; [symmetry; apply app_nil_r|].
      intros Heq. apply Hout. rewrite Heq.
      eapply list_elem_of_lookup_2, Hk'.
    + rewrite members_of_snoc, decide_True by reflexivity.
      rewrite members_of_nil; [reflexivity|].
      rewrite <- elem_of_first_seen. assumption.
Qed.

Lemma group_by_name_grouping cs : group_by_name cs = grouping_of cs.
Proof.
  unfold group_by_name.
  induction cs as [|c cs IH] using rev_ind; [reflexivity|].
  rewrite fold_left_app. simpl. rewrite IH. apply add_to_group_grouping.
Qed.

Lemma find_exact_duplicates_refines cs :
  find_exact_duplicates cs = duplicate_groups_spec cs.
Proof.
  unfold find_exact_duplicates, duplicate_groups_spec.
  rewrite group_by_name_grouping. unfold grouping_of.
  rewrite <- list_fmap_compose.
  apply list_filter_iff. intros g. lia.
Qed.

Lemma first_seen_step ks k :
  first_seen (ks ++ [k]) =
  if decide (k ∈ ks) then first_seen ks else first_seen ks ++ [k].
Proof.
  rewrite first_seen_snoc. unfold note_key.
  destruct (decide (k ∈ first_seen ks)) as [Hin|Hout];
    rewrite elem_of_first_seen in *.
  - rewrite decide_True by assumption. reflexivity.
  - rewrite decide_False by assumption. reflexivity.
Qed.

(** A key that comes earlier in [first_seen] occurs in the input before
    every occurrence of a key that comes later. *)
Lemma first_seen_order ks : forall i j k1 k2,
  first_seen ks !! i = Some k1 ->
  first_seen ks !! j = Some k2 ->
  (i < j)%nat ->
  exists p, ks !! p = Some k1 /\ forall q, ks !! q = Some k2 -> (p < q)%nat.
Proof.
  induction ks as [|k ks IH] using rev_ind; intros i j k1 k2 Hi Hj Hij.
  - apply lookup_lt_Some in Hi. simpl in Hi. lia.
  - rewrite first_seen_step in Hi, Hj.
    assert (Hold : forall i j, first_seen ks !! i = Some k1 ->
               first_seen ks !! j = Some k2 -> (i < j)%nat ->
               exists p, (ks ++ [k]) !! p = Some k1 /\
                 forall q, (ks ++ [k]) !! q = Some k2 -> (p < q)%nat).
    { intros i' j' Hi' Hj' Hlt.
      destruct (IH _ _ _ _ Hi' Hj' Hlt) as (p & Hp & Hq).
      exists p. split; [apply lookup_app_l_Some, Hp|].
      intros q Hq'. apply lookup_lt_Some in Hp as Hlen.
      destruct (decide (q < length ks)%nat) as [Hin|Hout].
      - apply Hq. rewrite lookup_app_l in Hq' by assumption. exact Hq'.
      - lia. }
    destruct (decide (k ∈ ks)) as [Hin|Hout]; [eauto|].
    destruct (decide (j < length (first_seen ks))%nat) as [Hj'|Hj'].
    + rewrite lookup_app_l in Hi, Hj by lia. eauto.
    + rewrite lookup_app_r in Hj by lia.
      rewrite lookup_app_l in Hi.
      2:{ pose proof (lookup_lt_Some _ _ _ Hj) as Hlen.
          simpl in Hlen. lia. }
      apply list_lookup_singleton_Some in Hj as [_ <-].
      assert (Hk1 : k1 ∈ ks).
      { apply elem_of_first_seen. eapply list_elem_of_lookup_2, Hi. }
      apply list_elem_of_lookup_1 in Hk1 as [p Hp].
      exists p. split; [apply lookup_app_l_Some, Hp|].
      intros q Hq. apply lookup_lt_Some in Hp as Hlen.
      destruct (decide (q < length ks)%nat) as [Hlt|Hge]; [|lia].
      rewrite lookup_app_l in Hq by assumption.
      exfalso. apply Hout. eapply list_elem_of_lookup_2, Hq.
Qed.

(** Filtering keeps the relative order of what it keeps. *)
Lemma filter_lookup_order {A} (P : A -> Prop) `{!forall x, Decision (P x)}
    (l : list A) : forall i j x y,
  filter P l !! i = Some x -> filter P l !! j = Some y -> (i < j)%nat ->
  exists i' j', (i' < j')%nat /\ l !! i' = Some x /\ l !! j' = Some y.
Proof.
  induction l as [|z l IH]; intros i j x y Hi Hj Hij.
  - rewrite filter_nil, lookup_nil in Hi. discriminate.
  - rewrite filter_cons in Hi, Hj. destruct (decide (P z)).
    + destruct i as [|i], j as [|j]; try lia; simpl in Hi, Hj.
      * injection Hi as <-.
        assert (Hy : y ∈ l).
        { apply (list_elem_of_filter P). eapply list_elem_of_lookup_2, Hj. }
        apply list_elem_of_lookup_1 in Hy as [j' Hj'].
        exists O, (S j'). repeat split; [lia|exact Hj'].
      * destruct (IH i j x y Hi Hj) as (i' & j' & ? & ? & ?); [lia|].
        exists (S i'), (S j'). repeat split; [lia|assumption..].
    + destruct (IH i j x y Hi Hj Hij) as (i' & j' & ? & ? & ?).
      exists (S i'), (S j'). repeat split; [lia|assumption..].
Qed.

End DuplicatesFacts.

(** C6. [find_exact_duplicates] keys every correspondent by its name,
    lower-cased and then stripped of the white space around it. Its
    result is the list of the groups of equal key, each in input order,
    the groups ordered by the first occurrence of their key, restricted
    to the groups of at least two members. So every returned group has
    at least two members and is the full list of the correspondents of
    one key, every key carried by two or more correspondents has its
    group returned, and a group stands before another when its first
    member stands before every member of the other in the input. The
    result is a function of the input list. *)
Theorem find_exact_duplicates_groups (cs : list correspondent) :
  Duplicates.find_exact_duplicates cs =
    filter (fun g => (2 <= length g)%nat)
      ((fun k => filter (fun c => Text.strip (Text.lower (name c)) = k) cs)
         <$> Duplicates.first_seen
               ((fun c => Text.strip (Text.lower (name c))) <$> cs)) /\
  (forall g, g ∈ Duplicates.find_exact_duplicates cs ->
     (2 <= length g)%nat /\
     exists k, k ∈ ((fun c => Text.strip (Text.lower (name c))) <$> cs) /\
               g = filter (fun c => Text.strip (Text.lower (name c)) = k) cs) /\
  (forall k,
     (2 <= length (filter (fun c => Text.strip (Text.lower (name c)) = k)
                          cs))%nat ->
     filter (fun c => Text.strip (Text.lower (name c)) = k) cs
       ∈ Duplicates.find_exact_duplicates cs) /\
  (forall i j g h,
     Duplicates.find_exact_duplicates cs !! i = Some g ->
     Duplicates.find_exact_duplicates cs !! j = Some h ->
     (i < j)%nat ->
     exists p c, cs !! p = Some c /\ c ∈ g /\
       forall q d, cs !! q = Some d -> d ∈ h -> (p < q)%nat).
Proof.
  pose proof (DuplicatesFacts.find_exact_duplicates_refines cs) as Hrefines.
  unfold Duplicates.duplicate_groups_spec, Duplicates.members_of,
    normalized_name in Hrefines.
  assert (Hmem : forall g, g ∈ Duplicates.find_exact_duplicates cs <->
            (2 <= length g)%nat /\
            exists k,
              k ∈ ((fun c => Text.strip (Text.lower (name c))) <$> cs) /\
              g = filter (fun c => Text.strip (Text.lower (name c)) = k) cs).
  { intros g. rewrite Hrefines.
    rewrite list_elem_of_filter, list_elem_of_fmap.
    pose proof (DuplicatesFacts.elem_of_first_seen
                  (normalized_name <$> cs)) as Hseen.
    unfold normalized_name in Hseen. setoid_rewrite Hseen.
    split; intros [? (k & ? & ?)]; (split; [assumption|exists k; tauto]). }
  split; [exact Hrefines|].
  split; [intros g Hg; apply Hmem, Hg|].
  split.
  - intros k Hk. apply Hmem. split; [exact Hk|]. exists k.
    split; [|reflexivity].
    destruct (decide (k ∈ (fun c => Text.strip (Text.lower (name c)))
                            <$> cs)) as [|Hout]; [assumption|].
    apply (DuplicatesFacts.members_of_nil k cs) in Hout.
    unfold Duplicates.members_of, normalized_name in Hout.
    rewrite Hout in Hk. simpl in Hk. lia.
  - intros i j g h Hi Hj Hij.
    rewrite Hrefines in Hi, Hj.
    destruct (DuplicatesFacts.filter_lookup_order _ _ _ _ _ _ Hi Hj Hij)
      as (i' & j' & Hij' & Hi' & Hj').
    apply list_lookup_fmap_Some in Hi' as (k1 & -> & Hk1).
    apply list_lookup_fmap_Some in Hj' as (k2 & -> & Hk2).
    destruct (DuplicatesFacts.first_seen_order _ _ _ _ _ Hk1 Hk2 Hij')
      as (p & Hp & Hlater).
    apply list_lookup_fmap_Some in Hp as (c & Hkey & Hc).
    exists p, c. split; [exact Hc|]. split.
    + apply list_elem_of_filter. split; [congruence|].
      eapply list_elem_of_lookup_2, Hc.
    + intros q d Hq Hd. apply Hlater.
      apply list_elem_of_filter in Hd as [Hd _].
      rewrite list_lookup_fmap, Hq. simpl. congruence.
Qed.

(** The groups of the three names [" ACME"], [Other] and ["acme "], read
    off the right-hand side of the first equation: the first and the
    third name share the key [acme]. *)
Lemma find_exact_duplicates_groups_witness :
  Duplicates.find_exact_duplicates MoreInputs.acme_other_acme =
    [ [ Correspondent 1 (Text.lit " ACME") None;
        Correspondent 3 (Text.lit "acme ") None ] ].
Proof.
  rewrite (proj1 (find_exact_duplicates_groups MoreInputs.acme_other_acme)).
  vm_compute. reflexivity.
Defined.

(** [" ACME"] and ["acme "] have the key [acme] and form the one group
    returned; [Other] stands alone and is dropped. *)
Example find_exact_duplicates_ignores_case_and_blanks :
  Duplicates.find_exact_duplicates MoreInputs.acme_other_acme =
    [ [ Correspondent 1 (Text.lit " ACME") None;
        Correspondent 3 (Text.lit "acme ") None ] ] /\
  Duplicates.find_exact_duplicates
    [ Correspondent 1 (Text.lit "Acme") None;
      Correspondent 2 (Text.lit "Acme Inc") None ] = [].
Proof. split; vm_compute; reflexivity. Qed.

(** * The batched reassignment engine *)

Module PyFacts.

Lemma range_len_step stop step :
  1 <= step -> 0 < stop ->
  Py.range_len 0 stop step = Py.range_len 0 (Z.max 0 (stop - step)) step + 1.
Proof.
  intros Hstep Hstop. unfold Py.range_len.
  rewrite !(proj2 (Z.ltb_lt 0 step)) by lia.
  rewrite (proj2 (Z.ltb_lt 0 stop)) by lia.
  rewrite !Z.sub_0_r.
  destruct (Z.ltb_spec 0 (Z.max 0 (stop - step))) as [Hpos|Hneg].
  - rewrite Z.max_r by lia.
    replace (stop - 1) with ((stop - step - 1) + 1 * step) by lia.
    rewrite Z.div_add by lia. lia.
  - rewrite Z.div_small by lia. lia.
Qed.

Lemma range_len_nonpos stop step :
  1 <= step -> stop <= 0 -> Py.range_len 0 stop step = 0.
Proof.
  intros Hstep Hstop. unfold Py.range_len.
  rewrite (proj2 (Z.ltb_lt 0 step)) by lia.
  rewrite (proj2 (Z.ltb_ge 0 stop)) by lia. reflexivity.
Qed.

Lemma range_len_nonneg stop step :
  1 <= step -> 0 <= Py.range_len 0 stop step.
Proof.
  intros Hstep. unfold Py.range_len.
  rewrite (proj2 (Z.ltb_lt 0 step)) by lia.
  destruct (Z.ltb_spec 0 stop); [|lia].
  assert (0 <= (stop - 0 - 1) / step) by (apply Z.div_pos; lia). lia.
Qed.

(** The start indices of a non-empty range: [0], then those of the
    range over what is left, shifted by one step. *)
Lemma range_step stop step :
  1 <= step -> 0 < stop ->
  exists starts,
    Py.range 0 (Z.max 0 (stop - step)) step = Some starts /\
    Py.range 0 stop step = Some (0 :: (Z.add step <$> starts)).
Proof.
  intros Hstep Hstop. unfold Py.range.
  rewrite !(proj2 (Z.eqb_neq step 0)) by lia.
  eexists. split; [reflexivity|]. f_equal.
  rewrite (range_len_step stop step) by assumption.
  rewrite Z2Nat.inj_add by (try apply range_len_nonneg; lia).
  rewrite Nat.add_comm. change (Z.to_nat 1) with 1%nat.
  cbn [Nat.add seq fmap list_fmap]. f_equal.
  rewrite <- seq_shift, <- !list_fmap_compose.
  apply list_fmap_ext. intros ? k _. simpl. lia.
Qed.

Lemma range_empty stop step :
  1 <= step -> stop <= 0 -> Py.range 0 stop step = Some [].
Proof.
  intros Hstep Hstop. unfold Py.range.
  rewrite (proj2 (Z.eqb_neq step 0)) by lia.
  rewrite range_len_nonpos by assumption. reflexivity.
Qed.

Lemma range_length stop step starts :
  1 <= step -> 0 <= stop ->
  Py.range 0 stop step = Some starts ->
  Z.of_nat (length starts) = EngineSpec.ceil_div stop step.
Proof.
  intros Hstep Hstop. unfold Py.range.
  rewrite (proj2 (Z.eqb_neq step 0)) by lia.
  intros [= <-]. rewrite length_fmap, length_seq.
  rewrite Z2Nat.id by (apply range_len_nonneg; lia).
  unfold Py.range_len, EngineSpec.ceil_div.
  rewrite (proj2 (Z.ltb_lt 0 step)) by lia.
  destruct (Z.ltb_spec 0 stop).
  - replace (stop + step - 1) with ((stop - 0 - 1) + 1 * step) by lia.
    rewrite Z.div_add by lia. reflexivity.
  - replace stop with 0 by lia. rewrite Z.div_small by lia. reflexivity.
Qed.

Lemma slice_shift {A} (xs : list A) step i :
  0 <= step -> 0 <= i ->
  Py.slice xs (step + i) (step + i + step) =
  Py.slice (drop (Z.to_nat step) xs) i (i + step).
Proof.
  intros Hstep Hi. unfold Py.slice. rewrite drop_drop.
  f_equal; [lia|]. f_equal. lia.
Qed.

Lemma slice_first {A} (xs : list A) step :
  Py.slice xs 0 (0 + step) = take (Z.to_nat step) xs.
Proof. unfold Py.slice. rewrite Z.sub_0_r. reflexivity. Qed.

Lemma range_nonneg stop step starts :
  1 <= step -> Py.range 0 stop step = Some starts ->
  Forall (fun i => 0 <= i) starts.
Proof.
  intros Hstep. unfold Py.range.
  rewrite (proj2 (Z.eqb_neq step 0)) by lia.
  intros [= <-]. apply Forall_fmap, Forall_forall. intros k _. simpl. lia.
Qed.

End PyFacts.

Module EngineFacts.
Import Service Engine EngineSpec.
Local Open Scope service_scope.

Section WithWorld.
Context {W : Type} (ops : world_ops W).

Local Abbreviation post := (Engine.post ops).
Local Abbreviation bulk_rec := (bulk_reassign_documents_rec ops).
Local Abbreviation bulk := (bulk_reassign_documents ops).
Local Abbreviation loop := (batch_loop ops).

Lemma on_return_compose {A B C} (f : A -> B) (g : B -> C) x :
  on_return g (on_return (W:=W) f x) = on_return (fun a => g (f a)) x.
Proof. destruct x as [[a|e|] s]; reflexivity. Qed.

Lemma on_return_ext {A B} (f g : A -> B) x :
  (forall a, f a = g a) -> on_return (W:=W) f x = on_return g x.
Proof. intros H. destruct x as [[a|e|] s]; simpl; rewrite ?H; reflexivity. Qed.

Lemma on_return_id {A} (x : outcome A * session W) :
  on_return (fun a => a) x = x.
Proof. destruct x as [[a|e|] s]; reflexivity. Qed.

Lemma both_ret_false (m : M W bool) s :
  both (ret false) m s = on_return (fun _ => false) (m s).
Proof.
  unfold both, bind, ret. simpl. destruct (m s) as [[a|e|] s']; reflexivity.
Qed.

Lemma both_on_return (m1 m2 : M W bool) s :
  both m1 m2 s =
  match m1 s with
  | (Return ok1, s1) => on_return (andb ok1) (m2 s1)
  | (Raise e, s1) => (Raise e, s1)
  | (OutOfFuel, s1) => (OutOfFuel, s1)
  end.
Proof.
  unfold both, bind, ret. destruct (m1 s) as [[ok1|e|] s1]; reflexivity.
Qed.

(** Shifting every start index by one batch is the same as dropping
    the first batch from the list. *)
Lemma batch_loop_shift retry ids t bs starts : forall success s,
  1 <= bs -> Forall (fun i => 0 <= i) starts ->
  loop retry ids t bs (Z.add bs <$> starts) success s =
  loop retry (drop (Z.to_nat bs) ids) t bs starts success s.
Proof.
  induction starts as [|i starts IH]; intros success s Hbs Hpos;
    [reflexivity|].
  apply Forall_cons in Hpos as [Hi Hpos].
  cbn [fmap list_fmap batch_loop]. fold (fmap (M:=list) (Z.add bs) starts).
  rewrite PyFacts.slice_shift by lia.
  unfold bind. destruct (post _ s) as [[[]|e|] s1]; try reflexivity.
  - apply IH; assumption.
  - destruct (10 <? bs); [|apply IH; assumption].
    destruct (retry _ _ _ s1) as [[ok|e|] s2]; try reflexivity.
    apply IH; assumption.
  - apply IH; assumption.
Qed.

(** The flag the loop starts with is and-ed onto what the loop finds. *)
Lemma batch_loop_flag retry ids t bs starts : forall success s,
  loop retry ids t bs starts success s =
  on_return (andb success) (loop retry ids t bs starts true s).
Proof.
  induction starts as [|i starts IH]; intros success s.
  - simpl. unfold ret. rewrite andb_true_r. reflexivity.
  - cbn [batch_loop]. unfold bind.
    destruct (post _ s) as [[[]|e|] s1]; try reflexivity.
    + apply IH.
    + destruct (10 <? bs).
      * destruct (retry _ _ _ s1) as [[ok|e|] s2]; try reflexivity.
        rewrite IH. rewrite (IH (if negb ok then false else true)).
        rewrite on_return_compose. apply on_return_ext.
        intros a. destruct ok, success, a; reflexivity.
      * rewrite (IH false), on_return_compose.
        apply on_return_ext. intros a. destruct success; reflexivity.
    + rewrite (IH false), on_return_compose.
      apply on_return_ext. intros a. destruct success; reflexivity.
Qed.

Lemma bulk_rec_as_loop d ids t bs starts s :
  1 <= bs ->
  Py.range 0 (Z.of_nat (length ids)) bs = Some starts ->
  bulk_rec (S d) ids t bs s = loop (bulk_rec d) ids t bs starts true s.
Proof.
  intros Hbs Hr. destruct ids as [|x xs].
  - rewrite PyFacts.range_empty in Hr by (simpl; lia).
    injection Hr as <-. reflexivity.
  - cbn [bulk_reassign_documents_rec]. rewrite Hr. reflexivity.
Qed.

Lemma length_drop_Z {A} (xs : list A) bs :
  Z.of_nat (length (drop (Z.to_nat bs) xs)) =
  Z.max 0 (Z.of_nat (length xs) - Z.max 0 bs).
Proof. rewrite length_drop. lia. Qed.

(** The first batch, then the rest: how one level of
    [bulk_reassign_documents] unfolds on a non-empty list. *)
Lemma bulk_rec_first_batch d ids t bs s :
  1 <= bs -> ids <> [] ->
  let batch := take (Z.to_nat bs) ids in
  let rest := drop (Z.to_nat bs) ids in
  bulk_rec (S d) ids t bs s =
  (let* r := post (BulkEdit batch t) in
   match r with
   | Completed => bulk_rec (S d) rest t bs
   | TimedOut =>
       if 10 <? bs
       then both (bulk_rec d batch t (bs / 2)) (bulk_rec (S d) rest t bs)
       else both (ret false) (bulk_rec (S d) rest t bs)
   | RequestFailed => both (ret false) (bulk_rec (S d) rest t bs)
   end) s.
Proof.
  intros Hbs Hne batch rest.
  destruct (PyFacts.range_step (Z.of_nat (length ids)) bs)
    as (starts & Hrest & Hall); [lia|destruct ids; [done|simpl; lia]|].
  rewrite (bulk_rec_as_loop d ids t bs _ s Hbs Hall).
  assert (Hrest' : forall s', bulk_rec (S d) rest t bs s' =
                     loop (bulk_rec d) rest t bs starts true s').
  { intros s'. apply bulk_rec_as_loop; [assumption|].
    unfold rest. rewrite length_drop_Z, (Z.max_r 0 bs) by lia. exact Hrest. }
  assert (Hcont : forall success s',
             loop (bulk_rec d) ids t bs (Z.add bs <$> starts) success s' =
             on_return (andb success) (bulk_rec (S d) rest t bs s')).
  { intros success s'. rewrite batch_loop_shift; [|assumption|].
    - rewrite batch_loop_flag, Hrest'. reflexivity.
    - eapply PyFacts.range_nonneg; [|exact Hrest]. assumption. }
  cbn [batch_loop]. rewrite PyFacts.slice_first. fold batch.
  unfold bind. destruct (post _ s) as [[[]|e|] s1]; try reflexivity.
  - rewrite Hcont. simpl. apply on_return_id.
  - destruct (10 <? bs).
    + rewrite both_on_return.
      destruct (bulk_rec d batch t (bs / 2) s1) as [[ok|e|] s2];
        try reflexivity.
      rewrite Hcont. apply on_return_ext. intros a. destruct ok; reflexivity.
    + rewrite Hcont, both_ret_false. apply on_return_ext. reflexivity.
  - rewrite Hcont, both_ret_false. apply on_return_ext. reflexivity.
Qed.

(** *** Termination *)

Lemma depth_bound_half bs :
  10 < bs -> depth_bound (bs / 2) = Z.to_nat (Z.log2 bs).
Proof.
  intros Hbs. unfold depth_bound.
  change 2 with (2 ^ 1). rewrite <- Z.shiftr_div_pow2 by lia.
  rewrite Z.log2_shiftr by lia.
  assert (Z.log2 (2 ^ 3) <= Z.log2 bs) by (apply Z.log2_le_mono; lia).
  rewrite Z.log2_pow2 in * by lia. lia.
Qed.

Lemma depth_bound_pos bs : (1 <= depth_bound bs)%nat.
Proof. unfold depth_bound. lia. Qed.

Lemma half_bounds bs : 10 < bs -> 1 <= bs / 2 < bs.
Proof.
  intros Hbs. split.
  - apply Z.div_le_lower_bound; lia.
  - apply Z.div_lt; lia.
Qed.

Lemma batch_loop_ext retry1 retry2 ids t bs starts : forall success s,
  (10 < bs -> forall batch s',
      retry1 batch t (bs / 2) s' = retry2 batch t (bs / 2) s') ->
  loop retry1 ids t bs starts success s =
  loop retry2 ids t bs starts success s.
Proof.
  induction starts as [|i starts IH]; intros success s Hretry;
    [reflexivity|].
  cbn [batch_loop]. unfold bind.
  destruct (post _ s) as [[[]|e|] s1]; try reflexivity; auto.
  destruct (Z.ltb_spec 10 bs); [|auto].
  rewrite Hretry by assumption.
  destruct (retry2 _ _ _ s1) as [[ok|e|] s2]; auto.
Qed.

(** Any depth from [depth_bound] on gives the same run. *)
Lemma bulk_rec_stable d1 : forall d2 ids t bs s,
  (depth_bound bs <= d1)%nat -> (depth_bound bs <= d2)%nat ->
  bulk_rec d1 ids t bs s = bulk_rec d2 ids t bs s.
Proof.
  induction d1 as [|d1 IH]; intros d2 ids t bs s H1 H2.
  - pose proof (depth_bound_pos bs). lia.
  - destruct d2 as [|d2]; [pose proof (depth_bound_pos bs); lia|].
    cbn [bulk_reassign_documents_rec].
    destruct ids as [|x xs]; [reflexivity|].
    destruct (Py.range _ _ _) as [starts|]; [|reflexivity].
    apply batch_loop_ext. intros Hbs batch s'.
    pose proof (depth_bound_half bs Hbs). unfold depth_bound in *.
    apply IH; lia.
Qed.

(** *** What a run does *)

Lemma ceil_div_step n bs :
  1 <= bs -> 1 <= n ->
  ceil_div n bs = ceil_div (Z.max 0 (n - bs)) bs + 1.
Proof.
  intros Hbs Hn. unfold ceil_div.
  destruct (Z.le_gt_cases n bs).
  - rewrite Z.max_l by lia. rewrite (Z.div_small (0 + bs - 1)) by lia.
    replace (n + bs - 1) with ((n - 1) + 1 * bs) by lia.
    rewrite Z.div_add, Z.div_small by lia. reflexivity.
  - rewrite Z.max_r by lia.
    replace (n + bs - 1) with ((n - bs + bs - 1) + 1 * bs) by lia.
    rewrite Z.div_add by lia. reflexivity.
Qed.

Lemma ceil_div_0 bs : 1 <= bs -> ceil_div 0 bs = 0.
Proof. intros. unfold ceil_div. apply Z.div_small. lia. Qed.

Lemma reassigned_mono evs1 evs2 evs3 doc :
  reassigned evs2 doc -> reassigned (evs1 ++ evs2 ++ evs3) doc.
Proof.
  intros (p & Hp & Hdoc). exists p. split; [|assumption].
  rewrite !elem_of_app. tauto.
Qed.

Lemma bulk_rec_run d : forall ids t bs s,
  1 <= bs -> (depth_bound bs <= d)%nat ->
  exists ok evs w',
    bulk_rec d ids t bs s = (Return ok, Session w' (log s ++ evs)) /\
    run_summary ids t bs ok evs.
Proof.
  induction d as [|d IHd]; intros ids t bs s Hbs Hd;
    [pose proof (depth_bound_pos bs); lia|].
  remember (length ids) as n eqn:Hn. revert ids s Hn.
  induction n as [n IHn] using lt_wf_ind. intros ids s ->.
  destruct (decide (ids = [])) as [->|Hne].
  { exists true, [], (world s). split.
    - cbn. unfold ret. rewrite app_nil_r. destruct s; reflexivity.
    - split; [constructor|]. split.
      + intros _. split; [intros doc Hdoc; inversion Hdoc|].
        intros p Hp. inversion Hp.
      + intros _. split; [reflexivity|]. exists [].
        repeat split; [constructor|]. simpl. rewrite ceil_div_0; lia. }
  rewrite bulk_rec_first_batch by assumption.
  set (batch := take (Z.to_nat bs) ids).
  set (rest := drop (Z.to_nat bs) ids).
  assert (Hids : ids = batch ++ rest) by (symmetry; apply take_drop).
  assert (Hbatch : 1 <= Z.of_nat (length batch) <= bs).
  { unfold batch. rewrite length_take. destruct ids; [done|]. simpl. lia. }
  assert (Hshort : (length rest < length ids)%nat).
  { unfold rest. rewrite length_drop. destruct ids; [done|]. simpl. lia. }
  assert (Hcount : ceil_div (Z.of_nat (length ids)) bs =
                   ceil_div (Z.of_nat (length rest)) bs + 1).
  { unfold rest. rewrite length_drop_Z, (Z.max_r 0 bs) by lia.
    apply ceil_div_step; [assumption|]. destruct ids; [done|]. simpl. lia. }
  unfold bind at 1. unfold Engine.post at 1.
  destruct (on_post ops _ (world s)) as [r w1].
  set (e1 := Posted (BulkEdit batch t) r).
  set (s1 := Session w1 (log s ++ [e1])).
  destruct (IHn _ Hshort rest s1 eq_refl)
    as (ok2 & evs2 & w2 & Hrun2 & Hpost2 & Htrue2 & Hall2).
  cbn [log s1] in Hrun2. rewrite <- app_assoc in Hrun2. cbn [app] in Hrun2.
  assert (Hfail : both (ret false) (bulk_rec (S d) rest t bs) s1 =
                  (Return false, Session w2 (log s ++ e1 :: evs2))).
  { rewrite both_ret_false, Hrun2. reflexivity. }
  assert (Hnotall : forall evs, r <> Completed ->
             ~ Forall is_completed (e1 :: evs)).
  { intros evs Hr Hall. apply Forall_cons in Hall as [(p & Hp) _].
    unfold e1 in Hp. injection Hp as _ Hp. contradiction. }
  destruct r.
  - (* the batch completed *)
    exists ok2, (e1 :: evs2), w2. split; [exact Hrun2|].
    split; [constructor; [eexists _, _; reflexivity|assumption]|]. split.
    + intros Hok. destruct (Htrue2 Hok) as [Hcov Hnf]. split.
      * intros doc Hdoc. rewrite Hids, elem_of_app in Hdoc.
        destruct Hdoc as [Hdoc|Hdoc].
        -- exists (BulkEdit batch t). split; [apply list_elem_of_here|exact Hdoc].
        -- destruct (Hcov doc Hdoc) as (p & Hp & Hd').
           exists p. split; [apply list_elem_of_further, Hp|exact Hd'].
      * intros p Hp. apply elem_of_cons in Hp as [Hp|Hp];
          [discriminate|exact (Hnf p Hp)].
    + intros Hall. apply Forall_cons in Hall as [_ Hall].
      destruct (Hall2 Hall) as (-> & batches & -> & Hcat & Hlen & Hnum).
      split; [reflexivity|]. exists (batch :: batches).
      split; [reflexivity|]. split; [simpl; congruence|].
      split; [constructor; assumption|].
      rewrite Hcount. simpl length. lia.
  - (* the batch timed out *)
    destruct (Z.ltb_spec 10 bs) as [Hbig|Hsmall].
    + pose proof (depth_bound_half bs Hbig) as Hhalf.
      destruct (IHd batch t (bs / 2) s1) as
        (ok1 & evs1 & w1' & Hrun1 & Hpost1 & Htrue1 & _);
        [apply half_bounds, Hbig|unfold depth_bound in *; lia|].
      set (s1' := Session w1' (log s1 ++ evs1)) in *.
      destruct (IHn _ Hshort rest s1' eq_refl)
        as (ok3 & evs3 & w3 & Hrun3 & Hpost3 & Htrue3 & _).
      exists (ok1 && ok3), (e1 :: evs1 ++ evs3), w3. split.
      * rewrite both_on_return, Hrun1. fold s1'. rewrite Hrun3.
        cbn. rewrite <- !app_assoc. reflexivity.
      * split.
        { constructor; [eexists _, _; reflexivity|].
          apply Forall_app; split; assumption. }
        split.
        -- intros Hok. apply andb_true_iff in Hok as [Hok1 Hok3].
           destruct (Htrue1 Hok1) as [Hcov1 Hnf1].
           destruct (Htrue3 Hok3) as [Hcov3 Hnf3]. split.
           ++ intros doc Hdoc. rewrite Hids, elem_of_app in Hdoc.
              destruct Hdoc as [Hdoc|Hdoc].
              ** apply (reassigned_mono [e1] evs1 evs3), Hcov1, Hdoc.
              ** pose proof (reassigned_mono (e1 :: evs1) evs3 [] doc
                               (Hcov3 doc Hdoc)) as Hcov.
                 rewrite app_nil_r in Hcov. exact Hcov.
           ++ intros p Hp. apply elem_of_cons in Hp as [Hp|Hp];
                [discriminate|].
              apply elem_of_app in Hp as [Hp|Hp];
                [exact (Hnf1 p Hp)|exact (Hnf3 p Hp)].
        -- intros Hall. exfalso. revert Hall. apply Hnotall. discriminate.
    + exists false, (e1 :: evs2), w2.
      split; [exact Hfail|].
      split; [constructor; [eexists _, _; reflexivity|assumption]|].
      split; [discriminate|].
      intros Hall. exfalso. revert Hall. apply Hnotall. discriminate.
  - (* the request failed *)
    exists false, (e1 :: evs2), w2.
    split; [exact Hfail|].
    split; [constructor; [eexists _, _; reflexivity|assumption]|].
    split; [discriminate|].
    intros Hall. exfalso. revert Hall. apply Hnotall. discriminate.
Qed.

Lemma bulk_run ids t bs s :
  1 <= bs ->
  exists ok evs w',
    bulk ids t bs s = (Return ok, Session w' (log s ++ evs)) /\
    run_summary ids t bs ok evs.
Proof. intros Hbs. apply bulk_rec_run; [assumption|lia]. Qed.

Lemma bulk_returns ids t bs s :
  1 <= bs -> exists ok s', bulk ids t bs s = (Return ok, s').
Proof.
  intros Hbs. destruct (bulk_run ids t bs s Hbs) as (ok & evs & w' & H & _).
  eauto.
Qed.

(** The first batch, then the rest, for the function itself. *)
Lemma bulk_first_batch ids t bs s :
  1 <= bs -> ids <> [] ->
  let batch := take (Z.to_nat bs) ids in
  let rest := drop (Z.to_nat bs) ids in
  bulk ids t bs s =
  (let* r := post (BulkEdit batch t) in
   match r with
   | Completed => bulk rest t bs
   | TimedOut =>
       if 10 <? bs
       then both (bulk batch t (bs / 2)) (bulk rest t bs)
       else both (ret false) (bulk rest t bs)
   | RequestFailed => both (ret false) (bulk rest t bs)
   end) s.
Proof.
  intros Hbs Hne batch rest. unfold bulk_reassign_documents.
  change (depth_bound bs) with (S (Z.to_nat (Z.log2 bs))).
  rewrite bulk_rec_first_batch by assumption. fold batch rest.
  destruct (Z.ltb_spec 10 bs) as [Hbig|Hsmall]; [|reflexivity].
  rewrite (depth_bound_half bs Hbig). reflexivity.
Qed.

Lemma both_ret_true (m : M W bool) s : both (ret true) m s = m s.
Proof. rewrite both_on_return. simpl. apply on_return_id. Qed.

Lemma both_assoc (m1 m2 m3 : M W bool) s :
  both (both m1 m2) m3 s = both m1 (both m2 m3) s.
Proof.
  rewrite !both_on_return.
  destruct (m1 s) as [[ok1|e|] s1]; try reflexivity.
  rewrite both_on_return.
  destruct (m2 s1) as [[ok2|e|] s2]; try reflexivity. simpl.
  destruct (m3 s2) as [[ok3|e|] s3]; try reflexivity. simpl.
  rewrite andb_assoc. reflexivity.
Qed.

Lemma both_ext (m1 m2 m2' : M W bool) s :
  (forall s', m2 s' = m2' s') -> both m1 m2 s = both m1 m2' s.
Proof.
  intros H. rewrite !both_on_return.
  destruct (m1 s) as [[ok1|e|] s1]; try reflexivity. rewrite H. reflexivity.
Qed.

(** A list can be cut at any batch boundary: the run on the whole list
    is the run on the part before, followed by the run on the part
    after. *)
Lemma bulk_split (k : nat) : forall done todo t bs s,
  1 <= bs -> Z.of_nat (length done) = Z.of_nat k * bs ->
  bulk (done ++ todo) t bs s = both (bulk done t bs) (bulk todo t bs) s.
Proof.
  induction k as [|k IH]; intros done todo t bs s Hbs Hlen.
  - destruct done; [|simpl in Hlen; lia].
    change (bulk [] t bs) with (ret (W:=W) true).
    rewrite both_ret_true. reflexivity.
  - assert (Hne : done <> []) by (intros ->; simpl in Hlen; lia).
    assert (Hne' : done ++ todo <> []) by (destruct done; done).
    rewrite bulk_first_batch by assumption.
    rewrite both_on_return.
    rewrite (bulk_first_batch done) by assumption.
    rewrite take_app_le, drop_app_le by lia.
    set (batch := take (Z.to_nat bs) done).
    set (rest := drop (Z.to_nat bs) done).
    assert (Hrest : forall s', bulk (rest ++ todo) t bs s' =
                      both (bulk rest t bs) (bulk todo t bs) s').
    { intros s'. apply IH; [assumption|].
      unfold rest. rewrite length_drop. lia. }
    unfold bind. destruct (post _ s) as [[[]|e|] s1]; try reflexivity.
    + rewrite Hrest, both_on_return. reflexivity.
    + destruct (10 <? bs).
      * rewrite <- both_on_return.
        rewrite (both_ext _ _ _ _ Hrest). symmetry. apply both_assoc.
      * rewrite <- both_on_return.
        rewrite (both_ext _ _ _ _ Hrest). symmetry. apply both_assoc.
    + rewrite <- both_on_return.
      rewrite (both_ext _ _ _ _ Hrest). symmetry. apply both_assoc.
Qed.

End WithWorld.
End EngineFacts.

(** C1. Cut the list at any batch boundary: [done] holds the batches
    before, [ids] starts with the batch in question. The run first
    handles [done], then posts the batch once. If the request times out
    and [batch_size > 10], the same batch, with the same ids in the same
    order, is handed to [bulk_reassign_documents] again with
    [batch_size // 2], and what that call returns is and-ed into the
    result. If it times out with [batch_size <= 10], or fails otherwise,
    nothing is retried and the result is [False]. In every case the
    batches after it are still processed, starting from the state the
    batch left. *)
Theorem bulk_reassign_documents_failed_batch {W : Type}
    (ops : Service.world_ops W) (done ids : list Z) (k : nat) (t bs : Z)
    (s : Service.session W) :
  1 <= bs ->
  Z.of_nat (length done) = Z.of_nat k * bs ->
  ids <> [] ->
  let batch := take (Z.to_nat bs) ids in
  let rest := drop (Z.to_nat bs) ids in
  exists ok0 s0,
    Engine.bulk_reassign_documents ops done t bs s = (Return ok0, s0) /\
    forall r w1,
      Service.on_post ops (Service.BulkEdit batch t) (Service.world s0) = (r, w1) ->
      let s1 := Service.Session w1
                  (Service.log s0 ++ [Service.Posted (Service.BulkEdit batch t) r]) in
      exists okb s2 okr s3,
        Engine.bulk_reassign_documents ops rest t bs s2 = (Return okr, s3) /\
        Engine.bulk_reassign_documents ops (done ++ ids) t bs s =
          (Return (ok0 && (okb && okr)), s3) /\
        match r with
        | Service.Completed => okb = true /\ s2 = s1
        | Service.TimedOut =>
            if 10 <? bs
            then Engine.bulk_reassign_documents ops batch t (bs / 2) s1 =
                   (Return okb, s2)
            else okb = false /\ s2 = s1
        | Service.RequestFailed => okb = false /\ s2 = s1
        end.
Proof.
  intros Hbs Hlen Hne batch rest.
  destruct (EngineFacts.bulk_returns ops done t bs s Hbs) as (ok0 & s0 & Hdone).
  exists ok0, s0. split; [exact Hdone|]. intros r w1 Hpost s1.
  rewrite (EngineFacts.bulk_split ops k) by assumption.
  rewrite EngineFacts.both_on_return, Hdone.
  rewrite EngineFacts.bulk_first_batch by assumption. fold batch rest.
  unfold Service.bind at 1, Engine.post at 1. rewrite Hpost. fold s1.
  destruct r.
  - destruct (EngineFacts.bulk_returns ops rest t bs s1 Hbs) as (okr & s3 & Hr).
    exists true, s1, okr, s3. rewrite Hr. repeat split; reflexivity.
  - destruct (Z.ltb_spec 10 bs) as [Hbig|Hsmall].
    + destruct (EngineFacts.bulk_returns ops batch t (bs / 2) s1)
        as (okb & s2 & Hb); [apply EngineFacts.half_bounds, Hbig|].
      destruct (EngineFacts.bulk_returns ops rest t bs s2 Hbs) as (okr & s3 & Hr).
      exists okb, s2, okr, s3. rewrite EngineFacts.both_on_return, Hb, Hr.
      repeat split; reflexivity.
    + destruct (EngineFacts.bulk_returns ops rest t bs s1 Hbs) as (okr & s3 & Hr).
      exists false, s1, okr, s3. rewrite EngineFacts.both_ret_false, Hr.
      simpl. rewrite andb_false_r. repeat split; reflexivity.
  - destruct (EngineFacts.bulk_returns ops rest t bs s1 Hbs) as (okr & s3 & Hr).
    exists false, s1, okr, s3. rewrite EngineFacts.both_ret_false, Hr.
    simpl. rewrite andb_false_r. repeat split; reflexivity.
Qed.

Lemma bulk_reassign_documents_failed_batch_witness :
  1 <= 2 /\
  Z.of_nat (length [1; 2]) = Z.of_nat 1 * 2 /\
  [3; 4; 5] <> [] /\
  exists ok0 s0,
    Engine.bulk_reassign_documents Scripted.ops [1; 2] 9 2
      (Scripted.start Inputs.second_times_out) = (Return ok0, s0) /\
    exists r w1,
      Service.on_post Scripted.ops (Service.BulkEdit [3; 4] 9)
        (Service.world s0) = (r, w1) /\
      exists ok s3,
        Engine.bulk_reassign_documents Scripted.ops ([1; 2] ++ [3; 4; 5]) 9 2
          (Scripted.start Inputs.second_times_out) = (Return ok, s3).
Proof.
  assert (H1 : 1 <= 2) by lia.
  assert (H2 : Z.of_nat (length [1; 2]) = Z.of_nat 1 * 2) by reflexivity.
  assert (H3 : [3; 4; 5] <> []) by discriminate.
  repeat (split; [assumption|]).
  pose proof (bulk_reassign_documents_failed_batch Scripted.ops
                [1; 2] [3; 4; 5] 1 9 2
                (Scripted.start Inputs.second_times_out) H1 H2 H3) as H.
  cbv zeta in H. destruct H as (ok0 & s0 & Hdone & Hbatch).
  exists ok0, s0. split; [exact Hdone|].
  destruct (Service.on_post Scripted.ops (Service.BulkEdit [3; 4] 9)
              (Service.world s0)) as [r w1] eqn:Hpost.
  exists r, w1. split; [reflexivity|].
  destruct (Hbatch r w1 Hpost) as (okb & s2 & okr & s3 & _ & Hall & _).
  eauto.
Defined.

(** C2. An empty list returns [True] and leaves the session, log
    included, as it was. Otherwise, for [batch_size >= 1], the call
    returns and only posts bulk edits. When every request completes, the
    requests are exactly the batches of a partition of the list into
    consecutive, non-empty pieces of at most [batch_size] ids, in order,
    [ceil(n / batch_size)] of them, and the result is [True]. A [True]
    result means that every document id went out in some bulk edit that
    completed (the batch itself or a retry of it) and that no request
    failed for a reason other than a timeout. *)
Theorem bulk_reassign_documents_batches {W : Type}
    (ops : Service.world_ops W) (ids : list Z) (t bs : Z)
    (s : Service.session W) :
  1 <= bs ->
  Engine.bulk_reassign_documents ops [] t bs s = (Return true, s) /\
  exists ok evs w',
    Engine.bulk_reassign_documents ops ids t bs s =
      (Return ok, Service.Session w' (Service.log s ++ evs)) /\
    Forall EngineSpec.is_post evs /\
    (Forall EngineSpec.is_completed evs ->
       ok = true /\
       exists batches,
         evs = EngineSpec.completed_post t <$> batches /\
         concat batches = ids /\
         Forall (fun batch => 1 <= Z.of_nat (length batch) <= bs) batches /\
         Z.of_nat (length batches) =
           EngineSpec.ceil_div (Z.of_nat (length ids)) bs) /\
    (ok = true ->
       (forall doc, doc ∈ ids -> EngineSpec.reassigned evs doc) /\
       (forall payload,
          Service.Posted payload Service.RequestFailed ∉ evs)).
Proof.
  intros Hbs. split; [reflexivity|].
  destruct (EngineFacts.bulk_run ops ids t bs s Hbs)
    as (ok & evs & w' & Hrun & Hposts & Htrue & Hall).
  exists ok, evs, w'. tauto.
Qed.

Lemma bulk_reassign_documents_batches_witness :
  1 <= 2 /\
  exists ok evs w',
    Engine.bulk_reassign_documents Scripted.ops [1; 2; 3; 4; 5] 9 2
      (Scripted.start Inputs.one_owner) =
      (Return ok, Service.Session w' ([] ++ evs)) /\
    Forall EngineSpec.is_post evs.
Proof.
  assert (H1 : 1 <= 2) by lia. split; [exact H1|].
  destruct (bulk_reassign_documents_batches Scripted.ops [1; 2; 3; 4; 5] 9 2
              (Scripted.start Inputs.one_owner) H1)
    as (_ & ok & evs & w' & Hrun & Hposts & _).
  exists ok, evs, w'. split; [exact Hrun|exact Hposts].
Defined.

(** C10. For [batch_size >= 1] the call returns, whatever the service
    answers, at every recursion depth from [depth_bound batch_size] on,
    so the depth of the retries is bounded by it; the loop runs over the
    [ceil(n / batch_size)] start indices of [range]; the retry is taken
    with [batch_size // 2], which is at least 1, strictly smaller, and
    has a strictly smaller depth bound; and with [batch_size <= 10] one
    level is enough, since no retry is made. *)
Theorem bulk_reassign_documents_terminates {W : Type}
    (ops : Service.world_ops W) (ids : list Z) (t bs : Z)
    (s : Service.session W) :
  1 <= bs ->
  (exists ok s',
     Engine.bulk_reassign_documents ops ids t bs s = (Return ok, s') /\
     forall depth, (Engine.depth_bound bs <= depth)%nat ->
       Engine.bulk_reassign_documents_rec ops depth ids t bs s =
         (Return ok, s')) /\
  (exists starts,
     Py.range 0 (Z.of_nat (length ids)) bs = Some starts /\
     Z.of_nat (length starts) =
       EngineSpec.ceil_div (Z.of_nat (length ids)) bs) /\
  (10 < bs ->
     1 <= bs / 2 < bs /\
     (Engine.depth_bound (bs / 2) < Engine.depth_bound bs)%nat) /\
  (bs <= 10 ->
     Engine.bulk_reassign_documents_rec ops 1 ids t bs s =
     Engine.bulk_reassign_documents ops ids t bs s).
Proof.
  intros Hbs. split; [|split; [|split]].
  - destruct (EngineFacts.bulk_returns ops ids t bs s Hbs) as (ok & s' & Hrun).
    exists ok, s'. split; [exact Hrun|]. intros depth Hdepth.
    rewrite <- Hrun. apply EngineFacts.bulk_rec_stable; [assumption|lia].
  - unfold Py.range. rewrite (proj2 (Z.eqb_neq bs 0)) by lia.
    eexists. split; [reflexivity|].
    apply (PyFacts.range_length (Z.of_nat (length ids)) bs); [lia..|].
    unfold Py.range. rewrite (proj2 (Z.eqb_neq bs 0)) by lia. reflexivity.
  - intros Hbig. split; [apply EngineFacts.half_bounds, Hbig|].
    rewrite (EngineFacts.depth_bound_half bs Hbig). unfold Engine.depth_bound. lia.
  - intros Hsmall. unfold Engine.bulk_reassign_documents.
    destruct (Engine.depth_bound bs) as [|d] eqn:Hd;
      [pose proof (EngineFacts.depth_bound_pos bs); lia|].
    cbn [Engine.bulk_reassign_documents_rec].
    destruct ids as [|x xs]; [reflexivity|].
    destruct (Py.range _ _ _); [|reflexivity].
    apply EngineFacts.batch_loop_ext. intros Hbig. lia.
Qed.

Lemma bulk_reassign_documents_terminates_witness :
  1 <= 50 /\
  exists ok s',
    Engine.bulk_reassign_documents Scripted.ops (seqZ 1 120) 9 50
      (Scripted.start Inputs.second_times_out) = (Return ok, s').
Proof.
  assert (H1 : 1 <= 50) by lia. split; [exact H1|].
  destruct (bulk_reassign_documents_terminates Scripted.ops (seqZ 1 120) 9 50
              (Scripted.start Inputs.second_times_out) H1)
    as ((ok & s' & Hrun & _) & _).
  exists ok, s'. exact Hrun.
Defined.

(** The examples of the specification, run on the scripted service. *)

(** 150 ids in batches of 50: three requests of 50 ids each. *)
Example three_batches_of_fifty :
  let run := Engine.bulk_reassign_documents Scripted.ops (seqZ 1 150) 9 50
               (Scripted.start Inputs.one_owner) in
  run.1 = Return true /\
  (fun e => length (Service.documents e.1))
    <$> EngineSpec.posted (Service.log run.2) = [50; 50; 50]%nat.
Proof. vm_compute. split; reflexivity. Qed.

(** A timeout at batch size 50 is retried with batch size 25 on the same
    50 ids, and the result is [True] when the retry succeeds. *)
Example timeout_at_fifty_retries_with_twenty_five :
  let run := Engine.bulk_reassign_documents Scripted.ops (seqZ 1 100) 9 50
               (Scripted.start Inputs.second_times_out) in
  run.1 = Return true /\
  (fun e => (Service.documents e.1, e.2))
    <$> EngineSpec.posted (Service.log run.2) =
    [ (seqZ 1 50, Service.Completed);
      (seqZ 51 50, Service.TimedOut);
      (seqZ 51 25, Service.Completed);
      (seqZ 76 25, Service.Completed) ].
Proof. vm_compute. split; reflexivity. Qed.

(** A timeout at batch size 10 is final for its batch, and the batches
    after it are still sent. *)
Example timeout_at_ten_is_final :
  let run := Engine.bulk_reassign_documents Scripted.ops (seqZ 1 30) 9 10
               (Scripted.start Inputs.second_times_out) in
  run.1 = Return false /\
  (fun e => (Service.documents e.1, e.2))
    <$> EngineSpec.posted (Service.log run.2) =
    [ (seqZ 1 10, Service.Completed);
      (seqZ 11 10, Service.TimedOut);
      (seqZ 21 10, Service.Completed) ].
Proof. vm_compute. split; reflexivity. Qed.

(** * Merging *)

Module MergeFacts.
Import Service Engine EngineSpec.
Local Open Scope service_scope.

(** [max(..., key=...)] returns the first of the maximal items. *)
Lemma max_from_spec {A} (key : A -> Z) (rest : list A) : forall best,
  exists i,
    (best :: rest) !! i = Some (Py.max_from key best rest) /\
    (forall c, c ∈ best :: rest -> key c <= key (Py.max_from key best rest)) /\
    (forall j c, (j < i)%nat -> (best :: rest) !! j = Some c ->
                 key c < key (Py.max_from key best rest)).
Proof.
  induction rest as [|x rest IH]; intros best.
  - exists O. simpl. split; [reflexivity|]. split.
    + intros c Hc. apply list_elem_of_singleton in Hc as ->. lia.
    + intros j c Hj. lia.
  - cbn [Py.max_from].
    destruct (Z.ltb_spec (key best) (key x)) as [Hlt|Hge].
    + destruct (IH x) as (i & Hi & Hmax & Hfirst).
      set (t := Py.max_from key x rest) in *.
      assert (key x <= key t) by (apply Hmax, list_elem_of_here).
      exists (S i). split; [exact Hi|]. split.
      * intros c Hc. apply elem_of_cons in Hc as [->|Hc]; [lia|auto].
      * intros [|j] c Hj Hc; simpl in Hc.
        -- injection Hc as <-. lia.
        -- apply (Hfirst j); [lia|exact Hc].
    + destruct (IH best) as (i & Hi & Hmax & Hfirst).
      set (t := Py.max_from key best rest) in *.
      assert (key best <= key t) by (apply Hmax, list_elem_of_here).
      destruct i as [|i].
      * exists O. simpl in Hi. split; [exact Hi|]. split.
        -- intros c Hc. apply elem_of_cons in Hc as [->|Hc]; [lia|].
           apply elem_of_cons in Hc as [->|Hc]; [lia|].
           apply Hmax, list_elem_of_further, Hc.
        -- intros j c Hj. lia.
      * exists (S (S i)). split; [exact Hi|]. split.
        -- intros c Hc. apply elem_of_cons in Hc as [->|Hc]; [lia|].
           apply elem_of_cons in Hc as [->|Hc]; [lia|].
           apply Hmax, list_elem_of_further, Hc.
        -- assert (key best < key t) by (apply (Hfirst O); [lia|reflexivity]).
           intros [|[|j]] c Hj Hc; simpl in Hc.
           ++ injection Hc as <-. lia.
           ++ injection Hc as <-. lia.
           ++ apply (Hfirst (S j)); [lia|exact Hc].
Qed.

Lemma fetched_ids_posts evs : Forall is_post evs -> fetched_ids evs = [].
Proof.
  induction 1 as [|e evs (p & r & ->) _ IH]; [reflexivity|].
  unfold fetched_ids in *. simpl. exact IH.
Qed.

Lemma fetched_ids_app evs1 evs2 :
  fetched_ids (evs1 ++ evs2) = fetched_ids evs1 ++ fetched_ids evs2.
Proof. apply omap_app. Qed.

Lemma posted_app evs1 evs2 : posted (evs1 ++ evs2) = posted evs1 ++ posted evs2.
Proof. apply omap_app. Qed.

Section WithWorld.
Context {W : Type} (ops : world_ops W).

(** One merge: fetch the documents of the source; with none, return
    [True]; otherwise hand them to [bulk_reassign_documents] with the
    default batch size. Nothing compares the two ids. *)
Lemma merge_correspondents_unfold source_id target_id s :
  merge_correspondents ops source_id target_id s =
  let '(docs, w0) := on_fetch_documents ops source_id (world s) in
  let s0 := Session w0 (log s ++ [Fetched source_id docs]) in
  match docs with
  | [] => (Return true, s0)
  | _ :: _ => bulk_reassign_documents ops docs target_id 50 s0
  end.
Proof.
  unfold merge_correspondents, bind, get_correspondent_documents.
  destruct (on_fetch_documents ops source_id (world s)) as [[|d docs] w0];
    reflexivity.
Qed.

Lemma merge_correspondents_run source_id target_id s :
  exists ok evs w',
    merge_correspondents ops source_id target_id s =
      (Return ok, Session w' (log s ++ evs)) /\
    fetched_ids evs = [source_id].
Proof.
  rewrite merge_correspondents_unfold.
  destruct (on_fetch_documents ops source_id (world s)) as [docs w0].
  destruct docs as [|d docs].
  - exists true, [Fetched source_id []], w0. split; reflexivity.
  - destruct (EngineFacts.bulk_run ops (d :: docs) target_id 50
                (Session w0 (log s ++ [Fetched source_id (d :: docs)])))
      as (ok & evs & w' & Hrun & Hposts & _); [lia|].
    exists ok, (Fetched source_id (d :: docs) :: evs), w'. split.
    + cbv beta iota zeta. rewrite Hrun. cbn. rewrite <- app_assoc. reflexivity.
    + change (fetched_ids (Fetched source_id (d :: docs) :: evs))
        with (source_id :: fetched_ids evs).
      rewrite fetched_ids_posts by assumption. reflexivity.
Qed.

Lemma merge_each_run target_id : forall source_ids s,
  exists oks evs w',
    merge_each ops target_id source_ids s =
      (Return oks, Session w' (log s ++ evs)) /\
    length oks = length source_ids /\
    fetched_ids evs = source_ids.
Proof.
  induction source_ids as [|x source_ids IH]; intros s.
  - exists [], [], (world s). cbn. unfold ret. rewrite app_nil_r.
    destruct s; repeat split; reflexivity.
  - destruct (merge_correspondents_run x target_id s)
      as (ok & evs1 & w1 & Hrun1 & Hf1).
    destruct (IH (Session w1 (log s ++ evs1)))
      as (oks & evs2 & w2 & Hrun2 & Hlen & Hf2).
    exists (ok :: oks), (evs1 ++ evs2), w2. split; [|split].
    + cbn [merge_each]. unfold bind, ret. rewrite Hrun1, Hrun2.
      cbn. rewrite <- app_assoc. reflexivity.
    + simpl. congruence.
    + rewrite fetched_ids_app, Hf1, Hf2. reflexivity.
Qed.

(** The loop of [merge_correspondent_group] merges every member whose
    id is not the target's, one after the other whatever the earlier
    merges returned, and ands the results onto its flag. *)
Lemma merge_loop_run target_id : forall group success merged s,
  exists oks s' merged',
    merge_each ops target_id (sources_of group target_id) s =
      (Return oks, s') /\
    merge_loop ops target_id group success merged s =
      (Return (success && forallb (fun ok => ok) oks, merged'), s').
Proof.
  induction group as [|c group IH]; intros success merged s.
  - exists [], s, merged. cbn. unfold ret. rewrite andb_true_r.
    split; reflexivity.
  - cbn [merge_loop]. unfold sources_of. rewrite filter_cons.
    destruct (decide (id c ≠ target_id)) as [Hne|Heq].
    + rewrite fmap_cons. fold (sources_of group target_id).
      cbn [merge_each]. unfold bind at 1 3.
      destruct (merge_correspondents_run (id c) target_id s)
        as (ok & evs1 & w1 & Hrun1 & _).
      rewrite Hrun1. destruct ok.
      * destruct (IH success (merged ++ [id c])
                    (Session w1 (log s ++ evs1)))
          as (oks & s' & merged' & Heach & Hloop).
        exists (true :: oks), s', merged'. unfold bind, ret.
        rewrite Heach, Hloop. split; reflexivity.
      * destruct (IH false merged (Session w1 (log s ++ evs1)))
          as (oks & s' & merged' & Heach & Hloop).
        exists (false :: oks), s', merged'. unfold bind, ret.
        rewrite Heach, Hloop. simpl. rewrite andb_false_r.
        split; reflexivity.
    + fold (sources_of group target_id). apply IH.
Qed.

Lemma delete_all_run : forall merged s,
  exists evs w',
    delete_all ops merged s = (Return tt, Session w' (log s ++ evs)) /\
    fetched_ids evs = [] /\ posted evs = [].
Proof.
  induction merged as [|x merged IH]; intros s.
  - exists [], (world s). cbn. unfold ret. rewrite app_nil_r.
    destruct s; repeat split; reflexivity.
  - cbn [delete_all]. unfold bind, delete_correspondent.
    destruct (on_delete ops x (world s)) as [ok w1].
    destruct (IH (Session w1 (log s ++ [Deleted x ok])))
      as (evs & w' & Hrun & Hf & Hp).
    exists (Deleted x ok :: evs), w'. rewrite Hrun. cbn.
    rewrite <- app_assoc. repeat split; assumption.
Qed.

End WithWorld.
End MergeFacts.

(** C8. Without an explicit target, a group of at least two members is
    merged into the member with the greatest [document_count] (a member
    without the field counts as 0), the first such member in group
    order: no member has a greater count, and every member before the
    target has a strictly smaller one. Every member
    whose id differs from the target's is then merged on its own, in group
    order, whatever the earlier merges returned: the run is the run of
    one [merge_correspondents] per such member, as the fetches in the log
    show, and the result is the conjunction of what these calls
    returned. After the merges the function only prompts and deletes. *)
Theorem merge_correspondent_group_default_target {W : Type}
    (ops : Service.world_ops W) (group : list correspondent)
    (s : Service.session W) :
  (2 <= length group)%nat ->
  exists target i,
    Engine.choose_target group None = Some target /\
    group !! i = Some target /\
    (forall c, c ∈ group ->
       default 0 (document_count c) <= default 0 (document_count target)) /\
    (forall j c, (j < i)%nat -> group !! j = Some c ->
       default 0 (document_count c) < default 0 (document_count target)) /\
    exists oks evs w1 evs' s2,
      EngineSpec.merge_each ops (id target)
        (EngineSpec.sources_of group (id target)) s =
        (Return oks, Service.Session w1 (Service.log s ++ evs)) /\
      length oks = length (EngineSpec.sources_of group (id target)) /\
      EngineSpec.fetched_ids evs = EngineSpec.sources_of group (id target) /\
      Engine.merge_correspondent_group ops group None s =
        (Return (forallb (fun ok => ok) oks), s2) /\
      Service.log s2 = Service.log s ++ evs ++ evs' /\
      EngineSpec.fetched_ids evs' = [] /\
      EngineSpec.posted evs' = [].
Proof.
  intros Hlen. destruct group as [|c0 rest]; [simpl in Hlen; lia|].
  destruct (MergeFacts.max_from_spec Engine.count_of rest c0)
    as (i & Hi & Hmax & Hfirst).
  set (target := Py.max_from Engine.count_of c0 rest) in *.
  exists target, i. repeat (split; [first [reflexivity|assumption]|]).
  destruct (MergeFacts.merge_each_run ops (id target)
              (EngineSpec.sources_of (c0 :: rest) (id target)) s)
    as (oks & evs & w1 & Heach & Hoks & Hfetched).
  destruct (MergeFacts.merge_loop_run ops (id target) (c0 :: rest) true [] s)
    as (oks' & s1 & merged & Heach' & Hloop).
  rewrite Heach in Heach'. injection Heach' as <- <-.
  unfold Engine.merge_correspondent_group.
  rewrite (proj2 (Nat.ltb_ge _ _) Hlen).
  change (Engine.choose_target (c0 :: rest) None) with (Some target).
  cbv beta iota. unfold Service.bind at 1. rewrite Hloop. cbn [andb].
  assert (Hplain : exists evs' s2,
            Service.ret (forallb (fun ok => ok) oks)
              (Service.Session w1 (Service.log s ++ evs)) =
              (Return (forallb (fun ok => ok) oks), s2) /\
            Service.log s2 = Service.log s ++ evs ++ evs' /\
            EngineSpec.fetched_ids evs' = [] /\ EngineSpec.posted evs' = []).
  { exists [], (Service.Session w1 (Service.log s ++ evs)).
    rewrite app_nil_r. repeat split; reflexivity. }
  destruct (forallb (fun ok => ok) oks) eqn:Hall, merged as [|m merged];
    try (destruct Hplain as (evs' & s2 & Hret & Hlog & Hf & Hp);
         exists oks, evs, w1, evs', s2; rewrite ?Hall; tauto).
  clear Hplain. exists oks, evs, w1. rewrite Hall.
  unfold Service.bind at 1, Engine.input.
  cbn [Service.world Service.log].
  destruct (Service.on_input ops w1) as [answer w2].
  destruct (decide (Text.lower answer = Text.lit "y")).
  - unfold Service.bind.
    destruct (MergeFacts.delete_all_run ops (m :: merged)
                (Service.Session w2
                   ((Service.log s ++ evs) ++ [Service.Asked answer])))
      as (evs3 & w3 & Hdel & Hf & Hp).
    rewrite Hdel. eexists (Service.Asked answer :: evs3), _.
    repeat (split; [first [reflexivity|assumption]|]).
    split; [|split; assumption].
    cbn. rewrite <- !app_assoc. reflexivity.
  - eexists [Service.Asked answer], _.
    repeat (split; [first [reflexivity|assumption]|]).
    split; [|split; reflexivity].
    cbn. rewrite <- !app_assoc. reflexivity.
Qed.

Lemma merge_correspondent_group_default_target_witness :
  (2 <= length MoreInputs.second_has_most)%nat /\
  exists target,
    target = Correspondent 2 (Text.lit "ACME") (Some 7) /\
    MoreInputs.second_has_most !! 1%nat = Some target /\
    (forall c, c ∈ MoreInputs.second_has_most ->
       default 0 (document_count c) <= 7) /\
    exists oks s2,
      Engine.merge_correspondent_group Scripted.ops
        MoreInputs.second_has_most None
        (Scripted.start Inputs.first_merge_fails) =
        (Return (forallb (fun ok => ok) oks), s2) /\
      EngineSpec.fetched_ids (Service.log s2) = [1; 3].
Proof.
  assert (H1 : (2 <= length MoreInputs.second_has_most)%nat)
    by (simpl; lia).
  split; [exact H1|].
  destruct (merge_correspondent_group_default_target Scripted.ops
              MoreInputs.second_has_most
              (Scripted.start Inputs.first_merge_fails) H1)
    as (target & i & Htarget & _ & Hmax & _ &
        oks & evs & w1 & evs' & s2 & _ & _ & Hfetched & Hrun & Hlog &
        Hquiet & _).
  assert (Heq : target = Correspondent 2 (Text.lit "ACME") (Some 7))
    by (injection Htarget as <-; reflexivity).
  exists target. split; [exact Heq|].
  split; [rewrite Heq; reflexivity|].
  split.
  { intros c Hc. pose proof (Hmax c Hc) as Hle. rewrite Heq in Hle.
    exact Hle. }
  exists oks, s2. split; [exact Hrun|].
  rewrite Hlog, !MergeFacts.fetched_ids_app, Hfetched, Hquiet, Heq.
  reflexivity.
Defined.

(** With a tie on the document count the first of the tied members is the
    target; the merge of correspondent 1 fails, correspondent 3 is still
    merged, and the result is [False]. *)
Example tied_group_merge :
  let run := Engine.merge_correspondent_group Scripted.ops Inputs.tied_group
               None (Scripted.start Inputs.first_merge_fails) in
  id <$> Engine.choose_target Inputs.tied_group None = Some 2 /\
  run.1 = Return false /\
  EngineSpec.fetched_ids (Service.log run.2) = [1; 3] /\
  EngineSpec.posted (Service.log run.2) =
    [ (Service.BulkEdit [20] 2, Service.RequestFailed);
      (Service.BulkEdit [30] 2, Service.Completed) ].
Proof. vm_compute. repeat split; reflexivity. Qed.

(** C9, as the code behaves. [merge_correspondents] does not compare its
    two ids and never raises: called with the same id twice it fetches
    the documents of that correspondent and, if there are any, reassigns
    them to the same id through [bulk_reassign_documents] with batch size
    50, returning what that call returns; with no documents it returns
    [True]. *)
Theorem merge_correspondents_same_id {W : Type}
    (ops : Service.world_ops W) (x : Z) (s : Service.session W) :
  (exists ok s', Engine.merge_correspondents ops x x s = (Return ok, s')) /\
  Engine.merge_correspondents ops x x s =
    (let '(docs, w0) := Service.on_fetch_documents ops x (Service.world s) in
     let s0 := Service.Session w0
                 (Service.log s ++ [Service.Fetched x docs]) in
     match docs with
     | [] => (Return true, s0)
     | _ :: _ => Engine.bulk_reassign_documents ops docs x 50 s0
     end).
Proof.
  split; [|apply MergeFacts.merge_correspondents_unfold].
  destruct (MergeFacts.merge_correspondents_run ops x x s)
    as (ok & evs & w' & Hrun & _).
  eauto.
Qed.

(** C9, as stated, fails: merging correspondent 5 into itself returns
    [True] and posts a bulk edit for its two documents. *)
Lemma merge_correspondents_same_id_reassigns :
  let run := Engine.merge_correspondents Scripted.ops 5 5
               (Scripted.start Inputs.one_owner) in
  run = (Return true,
         Service.Session Inputs.one_owner
           [Service.Fetched 5 [10; 11];
            Service.Posted (Service.BulkEdit [10; 11] 5) Service.Completed]) /\
  ~ ((exists e, run.1 = Raise e) /\ EngineSpec.posted (Service.log run.2) = []).
Proof.
  split; [vm_compute; reflexivity|].
  intros [[e He] _]. vm_compute in He. discriminate.
Qed.

(** * Similar pairs and the threshold *)

Module PairsFacts.
Import Similarity.

Lemma at_least_mono (similarity t1 t2 : Q) :
  (t1 <= t2)%Q -> at_least similarity t2 = true ->
  at_least similarity t1 = true.
Proof.
  unfold at_least. rewrite !Qle_bool_iff. intros H12 H2.
  eapply Qle_trans; eassumption.
Qed.

Lemma length_insert_sorted {A K} (key : A -> K) (lt : K -> K -> bool) x xs :
  length (Py.insert_sorted key lt x xs) = S (length xs).
Proof.
  induction xs as [|y xs IH]; [reflexivity|]. simpl.
  destruct (lt (key y) (key x)); simpl; congruence.
Qed.

Lemma length_sort_by {A K} (key : A -> K) (lt : K -> K -> bool) xs :
  length (Py.sort_by key lt xs) = length xs.
Proof.
  induction xs as [|x xs IH]; [reflexivity|].
  unfold Py.sort_by in *. simpl. rewrite length_insert_sorted. congruence.
Qed.

Lemma pairs_with_mono t1 t2 corr1 later :
  (t1 <= t2)%Q ->
  (length (pairs_with t2 corr1 later) <= length (pairs_with t1 corr1 later))%nat.
Proof.
  intros H12. unfold pairs_with.
  induction later as [|corr2 later IH]; [reflexivity|]. cbn [omap list_omap].
  destruct (at_least _ t2) eqn:H2.
  - rewrite (at_least_mono _ t1 t2 H12 H2). simpl. lia.
  - destruct (at_least _ t1); simpl; lia.
Qed.

Lemma collect_pairs_mono t1 t2 cs :
  (t1 <= t2)%Q ->
  (length (collect_pairs t2 cs) <= length (collect_pairs t1 cs))%nat.
Proof.
  intros H12. induction cs as [|corr1 later IH]; [reflexivity|].
  cbn [collect_pairs]. rewrite !length_app.
  pose proof (pairs_with_mono t1 t2 corr1 later H12). lia.
Qed.

End PairsFacts.

(** Raising the threshold never adds a pair: for thresholds [t1 <= t2]
    the pairs found at [t2] are at most as many as the pairs found at
    [t1]. *)
Theorem similar_pairs_antitone (cs : list correspondent) (t1 t2 : Q) :
  (t1 <= t2)%Q ->
  (length (Similarity.find_similar_correspondents_pairs t2 cs) <=
   length (Similarity.find_similar_correspondents_pairs t1 cs))%nat.
Proof.
  intros H12. unfold Similarity.find_similar_correspondents_pairs.
  rewrite !PairsFacts.length_sort_by.
  apply PairsFacts.collect_pairs_mono, H12.
Qed.

Lemma similar_pairs_antitone_witness :
  (1 # 2 <= 8 # 10)%Q /\
  (length (Similarity.find_similar_correspondents_pairs (8 # 10)
             Inputs.two_clusters) <=
   length (Similarity.find_similar_correspondents_pairs (1 # 2)
             Inputs.two_clusters))%nat.
Proof.
  assert (H : (1 # 2 <= 8 # 10)%Q) by (unfold Qle; simpl; lia).
  split; [exact H|].
  apply (similar_pairs_antitone Inputs.two_clusters (1 # 2) (8 # 10) H).
Defined.

(** C5. The code does not keep the group count monotone, although the
    repository's integration test asserts
    [len(similar_low_threshold) >= len(similar_high_threshold)]: on four
    correspondents named [abcdefgh], [abcdefgx], [abcdwxyz], [abcdwxyq],
    [find_similar_correspondents] returns one group of four at threshold
    0.5 and two groups of two at threshold 0.8, so raising the threshold
    increases the number of groups. *)
Lemma similar_groups_can_increase :
  (1 # 2 <= 8 # 10)%Q /\
  exists g1 g2,
    Similarity.find_similar_correspondents (1 # 2) Inputs.two_clusters =
      Return g1 /\
    Similarity.find_similar_correspondents (8 # 10) Inputs.two_clusters =
      Return g2 /\
    length g1 = 1%nat /\ length g2 = 2%nat /\
    ~ (length g2 <= length g1)%nat.
Proof.
  split; [unfold Qle; simpl; lia|].
  eexists _, _. split; [vm_compute; reflexivity|].
  split; [vm_compute; reflexivity|].
  split; [reflexivity|]. split; [reflexivity|]. simpl. lia.
Qed.

(** * Similar groups *)

Module TextFacts.

Lemma ltb_irrefl s : Text.ltb s s = false.
Proof.
  induction s as [|c s IH]; [reflexivity|]. simpl.
  rewrite N.ltb_irrefl. exact IH.
Qed.

Lemma ltb_asym s : forall t, Text.ltb s t = true -> Text.ltb t s = false.
Proof.
  induction s as [|c s IH]; intros [|d t]; simpl; try congruence.
  destruct (N.ltb_spec (Text.code c) (Text.code d)),
           (N.ltb_spec (Text.code d) (Text.code c)); try lia; try congruence.
  apply IH.
Qed.

Lemma code_inj c d : Text.code c = Text.code d -> c = d.
Proof.
  unfold Text.code. intros H.
  rewrite <- (ascii_N_embedding c), <- (ascii_N_embedding d). congruence.
Qed.

Lemma ltb_trans s : forall t u,
  Text.ltb s t = true -> Text.ltb t u = true -> Text.ltb s u = true.
Proof.
  induction s as [|c s IH]; intros [|d t] [|e u]; simpl; try congruence.
  destruct (N.ltb_spec (Text.code c) (Text.code d)),
           (N.ltb_spec (Text.code d) (Text.code c)),
           (N.ltb_spec (Text.code d) (Text.code e)),
           (N.ltb_spec (Text.code e) (Text.code d)),
           (N.ltb_spec (Text.code c) (Text.code e)),
           (N.ltb_spec (Text.code e) (Text.code c));
    try lia; try congruence.
  apply IH.
Qed.

Lemma ltb_total s : forall t,
  Text.ltb s t = false -> Text.ltb t s = false -> s = t.
Proof.
  induction s as [|c s IH]; intros [|d t]; simpl; try congruence.
  destruct (N.ltb_spec (Text.code c) (Text.code d)),
           (N.ltb_spec (Text.code d) (Text.code c)); try lia; try congruence.
  intros Hs Ht. f_equal; [apply code_inj; lia|apply IH; assumption].
Qed.

Lemma leb_trans s t u :
  Text.leb s t = true -> Text.leb t u = true -> Text.leb s u = true.
Proof.
  unfold Text.leb. rewrite !negb_true_iff. intros Hts Hut.
  destruct (Text.ltb u s) eqn:Hus; [|reflexivity].
  destruct (Text.ltb s t) eqn:Hst.
  - rewrite (ltb_trans _ _ _ Hus Hst) in Hut. discriminate.
  - rewrite (ltb_total _ _ Hst Hts) in Hus. congruence.
Qed.

End TextFacts.

Module SortFacts.
Section Sort.
Context {A K : Type} (key : A -> K) (lt : K -> K -> bool).
Hypothesis lt_asym : forall k1 k2, lt k1 k2 = true -> lt k2 k1 = false.

Local Abbreviation le := (Py.in_order key lt).

Lemma insert_sorted_perm x xs : Py.insert_sorted key lt x xs ≡ₚ x :: xs.
Proof.
  induction xs as [|y xs IH]; [reflexivity|]. simpl.
  destruct (lt (key y) (key x)); [|reflexivity].
  rewrite IH. apply Permutation_swap.
Qed.

Lemma sort_by_perm xs : Py.sort_by key lt xs ≡ₚ xs.
Proof.
  induction xs as [|x xs IH]; [reflexivity|].
  unfold Py.sort_by in *. simpl. rewrite insert_sorted_perm, IH. reflexivity.
Qed.

Lemma insert_sorted_HdRel z x xs :
  le z x -> HdRel le z xs -> HdRel le z (Py.insert_sorted key lt x xs).
Proof.
  intros Hzx Hz. destruct xs as [|y xs]; simpl; [constructor; exact Hzx|].
  destruct (lt (key y) (key x)); constructor; [|exact Hzx].
  inversion Hz; assumption.
Qed.

Lemma insert_sorted_Sorted x xs :
  Sorted le xs -> Sorted le (Py.insert_sorted key lt x xs).
Proof.
  induction 1 as [|y xs Hs IH Hy]; simpl; [repeat constructor|].
  destruct (lt (key y) (key x)) eqn:Hyx.
  - constructor; [exact IH|].
    apply insert_sorted_HdRel; [|exact Hy].
    unfold le. apply lt_asym, Hyx.
  - constructor; [constructor; assumption|].
    constructor. exact Hyx.
Qed.

Lemma sort_by_Sorted xs : Sorted le (Py.sort_by key lt xs).
Proof.
  induction xs as [|x xs IH]; [constructor|].
  unfold Py.sort_by in *. simpl. apply insert_sorted_Sorted, IH.
Qed.
End Sort.

Lemma Sorted_mono {A} (R R' : A -> A -> Prop) l :
  (forall x y, R x y -> R' x y) -> Sorted R l -> Sorted R' l.
Proof.
  intros Himpl. induction 1 as [|x l Hs IH Hhd]; constructor; [exact IH|].
  destruct Hhd; constructor. auto.
Qed.
End SortFacts.

Module GroupFacts.
Import Similarity SimilaritySpec.

Section Graph.
Variables (threshold : Q) (correspondents : list correspondent).

Local Abbreviation n := (length correspondents).
Local Abbreviation ids := (id <$> correspondents).

(** What is in an adjacency list. *)
Lemma elem_of_similar_ids x i corr1 :
  x ∈ similar_ids threshold correspondents i corr1 ->
  exists j corr2,
    correspondents !! j = Some corr2 /\ i ≠ j /\ x = id corr2 /\
    similar_to threshold corr1 corr2.
Proof.
  unfold similar_ids. rewrite list_elem_of_omap.
  intros ([j corr2] & Hin & Hsome).
  apply elem_of_lookup_imap in Hin as (j' & c' & [= -> ->] & Hj).
  destruct (decide (i ≠ j')) as [Hij|]; [|discriminate].
  destruct (at_least _ _) eqn:Hsim; [|discriminate].
  injection Hsome as <-. exists j', c'. repeat split; assumption.
Qed.

Lemma similar_ids_nil i corr1 :
  (forall j corr2, correspondents !! j = Some corr2 -> i ≠ j ->
                   ~ similar_to threshold corr1 corr2) ->
  similar_ids threshold correspondents i corr1 = [].
Proof.
  intros Hnone.
  destruct (similar_ids threshold correspondents i corr1) as [|x l] eqn:E;
    [reflexivity|].
  assert (Hx : x ∈ similar_ids threshold correspondents i corr1)
    by (rewrite E; apply list_elem_of_here).
  apply elem_of_similar_ids in Hx as (j & corr2 & Hj & Hij & _ & Hsim).
  exfalso. exact (Hnone j corr2 Hj Hij Hsim).
Qed.

Lemma length_omap_le {A B} (f : A -> option B) (l : list A) :
  (length (omap f l) <= length l)%nat.
Proof.
  induction l as [|x l IH]; [reflexivity|]. cbn [omap list_omap].
  destruct (f x); simpl; lia.
Qed.

Lemma length_similar_ids i corr1 :
  (length (similar_ids threshold correspondents i corr1) <= n)%nat.
Proof.
  unfold similar_ids. etransitivity; [apply length_omap_le|].
  rewrite length_imap. reflexivity.
Qed.

(** Every entry of the graph is the adjacency list of a correspondent
    with that id, and every id has an entry. *)
Lemma build_graph_spec remaining : forall i graph,
  let graph' := build_graph threshold correspondents i remaining graph in
  (forall k v, graph' !! k = Some v ->
     graph !! k = Some v \/
     exists p corr1, remaining !! p = Some corr1 /\ id corr1 = k /\
       v = similar_ids threshold correspondents (i + p) corr1) /\
  (forall k, is_Some (graph !! k) \/ k ∈ id <$> remaining ->
             is_Some (graph' !! k)).
Proof.
  induction remaining as [|corr1 remaining IH]; intros i graph; cbn zeta.
  - split; [auto|]. intros k [H|H]; [exact H|inversion H].
  - cbn [build_graph].
    destruct (IH (S i)
                (<[id corr1 := similar_ids threshold correspondents i corr1]>
                   graph)) as [Hval Hkey].
    split.
    + intros k v Hk. destruct (Hval k v Hk) as [Hin|(p & c & Hp & Hid & Hv)].
      * rewrite lookup_insert in Hin. case_decide as Hkk.
        -- injection Hin as <-. right. exists O, corr1. simpl.
           rewrite Nat.add_0_r. auto.
        -- left. exact Hin.
      * right. exists (S p), c. simpl.
        rewrite Nat.add_succ_r. auto.
    + intros k Hk. apply Hkey.
      destruct (decide (id corr1 = k)) as [<-|Hne].
      * left. rewrite lookup_insert_eq. eauto.
      * rewrite lookup_insert_ne by assumption.
        destruct Hk as [Hk|Hk]; [left; exact Hk|].
        rewrite fmap_cons in Hk.
        apply elem_of_cons in Hk as [Hk|Hk]; [congruence|right; exact Hk].
Qed.

Local Abbreviation similar_graph :=
  (SimilaritySpec.similar_graph threshold correspondents).

Lemma similar_graph_values k v :
  similar_graph !! k = Some v ->
  exists p corr1, correspondents !! p = Some corr1 /\ id corr1 = k /\
    v = similar_ids threshold correspondents p corr1.
Proof.
  intros Hk.
  destruct (build_graph_spec correspondents 0 ∅) as [Hval _].
  destruct (Hval k v Hk) as [Hin|H]; [|exact H].
  rewrite lookup_empty in Hin. discriminate.
Qed.

Lemma similar_graph_keys c :
  c ∈ correspondents -> is_Some (similar_graph !! id c).
Proof.
  intros Hc.
  destruct (build_graph_spec correspondents 0 ∅) as [_ Hkey].
  apply Hkey. right. apply list_elem_of_fmap_2, Hc.
Qed.

Lemma similar_graph_ids k v x :
  similar_graph !! k = Some v -> x ∈ v -> x ∈ ids.
Proof.
  intros Hk Hx.
  apply similar_graph_values in Hk as (p & corr1 & _ & _ & ->).
  apply elem_of_similar_ids in Hx as (j & corr2 & Hj & _ & -> & _).
  apply list_elem_of_fmap_2. eapply list_elem_of_lookup_2, Hj.
Qed.

Lemma find_by_id k :
  k ∈ ids ->
  exists c, List.find (fun c => bool_decide (id c = k)) correspondents
              = Some c /\ c ∈ correspondents /\ id c = k.
Proof.
  intros Hk. apply list_elem_of_fmap in Hk as (c0 & -> & Hc0).
  destruct (List.find _ correspondents) as [c|] eqn:Hfind.
  - apply find_some in Hfind as [Hin Hid].
    apply bool_decide_eq_true in Hid. apply list_elem_of_In in Hin. eauto.
  - exfalso. apply list_elem_of_In in Hc0.
    pose proof (find_none _ _ Hfind c0 Hc0) as Hno. simpl in Hno.
    apply bool_decide_eq_false in Hno. congruence.
Qed.

(** *** The traversal *)

Local Abbreviation universe := (SimilaritySpec.universe correspondents).
Local Abbreviation rounds := (SimilaritySpec.rounds correspondents).

Lemma size_list_to_set_le (l : list Z) :
  (size (list_to_set (C:=gset Z) l) <= length l)%nat.
Proof.
  induction l as [|x l IH]; [rewrite list_to_set_nil, size_empty; lia|].
  rewrite list_to_set_cons, size_union_alt, size_singleton.
  assert (size (list_to_set (C:=gset Z) l ∖ {[x]}) <=
          size (list_to_set (C:=gset Z) l))%nat
    by (apply subseteq_size; set_solver).
  simpl. lia.
Qed.

Lemma size_universe : (size universe <= n)%nat.
Proof.
  unfold universe. etransitivity; [apply size_list_to_set_le|].
  rewrite length_fmap. reflexivity.
Qed.

Lemma elem_of_rev {A} (x : A) l : x ∈ rev l <-> x ∈ l.
Proof. rewrite !list_elem_of_In. symmetry. apply in_rev. Qed.

Lemma size_visit k visited :
  k ∈ ids -> k ∉ visited ->
  size (universe ∖ visited) =
  S (size (universe ∖ ({[k]} ∪ visited))).
Proof.
  intros Hk Hnew.
  replace (universe ∖ ({[k]} ∪ visited))
    with ((universe ∖ visited) ∖ {[k]}) by set_solver.
  rewrite (size_difference (universe ∖ visited) {[k]}).
  - rewrite size_singleton.
    assert (size (universe ∖ visited) ≠ 0%nat); [|lia].
    apply size_non_empty_iff. intros Hempty.
    assert (Hin : k ∈ universe ∖ visited); [|set_solver].
    apply elem_of_difference. split; [|exact Hnew].
    apply elem_of_list_to_set, Hk.
  - apply singleton_subseteq_l, elem_of_difference. split; [|exact Hnew].
    apply elem_of_list_to_set, Hk.
Qed.

(** With enough rounds the traversal returns; it only adds to what was
    visited; and every member it adds is a correspondent of the list
    whose id was on the stack or is in some adjacency list. *)
Lemma traverse_spec fuel : forall stack visited group,
  (forall x, x ∈ stack -> x ∈ ids) ->
  (rounds stack visited <= fuel)%nat ->
  exists visited' group',
    traverse correspondents similar_graph fuel stack visited group =
      Return (visited', group') /\
    visited ⊆ visited' /\
    (length group <= length group')%nat /\
    forall m, m ∈ group' ->
      m ∈ group \/
      (m ∈ correspondents /\
       (id m ∈ stack \/
        exists k v, similar_graph !! k = Some v /\ id m ∈ v)).
Proof.
  induction fuel as [|fuel IH]; intros stack visited group Hstack Hfuel.
  - destruct stack as [|x stack]; [|unfold rounds in Hfuel; simpl in Hfuel; lia].
    exists visited, group. simpl. repeat split; auto.
  - destruct stack as [|current_id stack'].
    { exists visited, group. simpl. repeat split; auto. }
    cbn [traverse].
    assert (Hcur : current_id ∈ ids) by (apply Hstack, list_elem_of_here).
    assert (Hstack' : forall x, x ∈ stack' -> x ∈ ids)
      by (intros x Hx; apply Hstack, list_elem_of_further, Hx).
    destruct (decide (current_id ∈ visited)) as [Hseen|Hnew].
    + destruct (IH stack' visited group Hstack') as
        (visited' & group' & Hrun & Hsub & Hlen & Hmem).
      { unfold rounds in *. simpl in Hfuel. lia. }
      exists visited', group'. repeat split; try assumption.
      intros m Hm. destruct (Hmem m Hm) as [?|(? & [?|?])]; auto.
      right. split; [assumption|]. left. apply list_elem_of_further. assumption.
    + destruct (find_by_id current_id Hcur) as (c & -> & Hc & Hid).
      destruct (similar_graph_keys c Hc) as [similar Hsimilar].
      rewrite Hid in Hsimilar. rewrite Hsimilar.
      set (visited1 := {[current_id]} ∪ visited).
      set (pushed := filter (fun similar_id => similar_id ∉ visited1) similar).
      assert (Hpushed : forall x, x ∈ pushed -> x ∈ similar)
        by (intros x Hx; apply list_elem_of_filter in Hx; tauto).
      destruct (IH (rev pushed ++ stack') visited1 (group ++ [c])) as
        (visited' & group' & Hrun & Hsub & Hlen & Hmem).
      { intros x Hx. apply elem_of_app in Hx as [Hx|Hx]; [|auto].
        apply elem_of_rev, Hpushed in Hx.
        eapply similar_graph_ids; eassumption. }
      { unfold rounds in *. simpl in Hfuel.
        rewrite (size_visit current_id visited Hcur Hnew) in Hfuel.
        fold visited1 in Hfuel.
        rewrite length_app, length_rev.
        assert (length pushed <= n)%nat.
        { etransitivity; [apply length_filter|].
          apply similar_graph_values in Hsimilar as (p & c1 & _ & _ & ->).
          apply length_similar_ids. }
        lia. }
      exists visited', group'. split; [exact Hrun|].
      split; [set_solver|]. split.
      { rewrite length_app in Hlen. simpl in Hlen. lia. }
      intros m Hm. destruct (Hmem m Hm) as [Hold|(Hin & Hfrom)].
      * apply elem_of_app in Hold as [Hold|Hold]; [left; exact Hold|].
        apply list_elem_of_singleton in Hold as ->.
        right. split; [exact Hc|]. left. rewrite Hid. apply list_elem_of_here.
      * right. split; [exact Hin|].
        destruct Hfrom as [Hst|Hadj]; [|right; exact Hadj].
        apply elem_of_app in Hst as [Hst|Hst].
        -- right. exists current_id, similar. split; [exact Hsimilar|].
           apply Hpushed, elem_of_rev, Hst.
        -- left. apply list_elem_of_further, Hst.
Qed.

(** *** The loop over the correspondents *)

Lemma rounds_start k visited :
  (rounds [k] visited <= traverse_bound correspondents)%nat.
Proof.
  unfold rounds, traverse_bound. simpl.
  assert (size (universe ∖ visited) <= n)%nat.
  { etransitivity; [|apply size_universe].
    apply subseteq_size. set_solver. }
  nia.
Qed.

(** The loop returns, and what holds of every traversal that yields
    more than one member holds of every group returned. *)
Lemma group_loop_spec (P : list correspondent -> Prop) :
  (forall c0 visited visited' group,
      c0 ∈ correspondents -> id c0 ∉ visited ->
      traverse correspondents similar_graph
        (traverse_bound correspondents) [id c0] visited [] =
        Return (visited', group) ->
      (1 < length group)%nat ->
      P (sort_group group)) ->
  forall remaining visited groups,
    (forall c, c ∈ remaining -> c ∈ correspondents) ->
    Forall P groups ->
    exists groups',
      group_loop correspondents similar_graph remaining visited groups =
        Return groups' /\
      Forall P groups'.
Proof.
  intros Hstep.
  induction remaining as [|c0 remaining IH];
    intros visited groups Hsub Hgroups.
  - exists groups. split; [reflexivity|assumption].
  - cbn [group_loop].
    assert (Hc0 : c0 ∈ correspondents) by (apply Hsub, list_elem_of_here).
    assert (Hsub' : forall c, c ∈ remaining -> c ∈ correspondents)
      by (intros c Hc; apply Hsub, list_elem_of_further, Hc).
    destruct (decide (id c0 ∈ visited)) as [Hseen|Hnew]; [apply IH; assumption|].
    destruct (traverse_spec (traverse_bound correspondents)
                [id c0] visited []) as (visited' & group & Hrun & _).
    { intros x Hx. apply list_elem_of_singleton in Hx as ->.
      apply list_elem_of_fmap_2, Hc0. }
    { apply rounds_start. }
    rewrite Hrun. apply IH; [assumption|].
    destruct (Nat.ltb_spec 1 (length group)) as [Hbig|Hsmall];
      [|assumption].
    apply Forall_app. split; [assumption|].
    constructor; [|constructor].
    eapply Hstep; eassumption.
Qed.

(** *** Isolated correspondents, for pairwise distinct ids *)

Hypothesis ids_distinct : NoDup ids.

Lemma same_id_same c c' :
  c ∈ correspondents -> c' ∈ correspondents -> id c = id c' -> c = c'.
Proof.
  intros Hc Hc' Hid.
  apply list_elem_of_lookup_1 in Hc as [i Hi].
  apply list_elem_of_lookup_1 in Hc' as [j Hj].
  assert (i = j); [|congruence].
  apply (NoDup_lookup ids i j (id c)); [assumption| |].
  - rewrite list_lookup_fmap, Hi. reflexivity.
  - rewrite list_lookup_fmap, Hj. simpl. congruence.
Qed.

Lemma same_position i j c :
  correspondents !! i = Some c -> correspondents !! j = Some c -> i = j.
Proof.
  intros Hi Hj.
  apply (NoDup_lookup ids i j (id c)); [assumption| |].
  - rewrite list_lookup_fmap, Hi. reflexivity.
  - rewrite list_lookup_fmap, Hj. reflexivity.
Qed.

Lemma isolated_not_adjacent c k v :
  c ∈ correspondents -> isolated threshold correspondents c ->
  similar_graph !! k = Some v -> id c ∉ v.
Proof.
  intros Hc Hiso Hk Hin.
  apply similar_graph_values in Hk as (p & corr1 & Hp & _ & ->).
  apply elem_of_similar_ids in Hin as (j & corr2 & Hj & Hpj & Hid & Hsim).
  assert (corr2 = c) as ->.
  { symmetry. apply same_id_same; [assumption| |assumption].
    eapply list_elem_of_lookup_2, Hj. }
  assert (Hne : corr1 ≠ c).
  { intros ->. apply Hpj. eapply same_position; eassumption. }
  destruct (Hiso corr1) as [_ Hno]; [|exact Hne|exact (Hno Hsim)].
  eapply list_elem_of_lookup_2, Hp.
Qed.

Lemma isolated_no_neighbours c :
  c ∈ correspondents -> isolated threshold correspondents c ->
  similar_graph !! id c = Some [].
Proof.
  intros Hc Hiso.
  destruct (similar_graph_keys c Hc) as [v Hv]. rewrite Hv. f_equal.
  apply similar_graph_values in Hv as (p & corr1 & Hp & Hid & ->).
  assert (corr1 = c) as ->.
  { apply same_id_same; [|assumption..].
    eapply list_elem_of_lookup_2, Hp. }
  apply similar_ids_nil. intros j corr2 Hj Hpj Hsim.
  assert (Hne : corr2 ≠ c).
  { intros ->. apply Hpj. eapply same_position; eassumption. }
  destruct (Hiso corr2) as [Hno _]; [|exact Hne|exact (Hno Hsim)].
  eapply list_elem_of_lookup_2, Hj.
Qed.

(** A traversal that starts from an isolated correspondent finds it
    alone. *)
Lemma traverse_isolated c visited fuel :
  c ∈ correspondents -> isolated threshold correspondents c ->
  id c ∉ visited ->
  traverse correspondents similar_graph (S fuel) [id c] visited [] =
  Return ({[id c]} ∪ visited, [c]).
Proof.
  intros Hc Hiso Hnew. cbn [traverse].
  rewrite decide_False by assumption.
  destruct (find_by_id (id c)) as (c' & -> & Hc' & Hid);
    [apply list_elem_of_fmap_2, Hc|].
  rewrite (isolated_no_neighbours c Hc Hiso).
  rewrite filter_nil. simpl. destruct fuel; simpl;
    rewrite (same_id_same c' c Hc' Hc Hid); reflexivity.
Qed.

(** An isolated correspondent is in no traversal that yields more
    than one member. *)
Lemma isolated_not_grouped c c0 visited visited' group :
  c ∈ correspondents -> isolated threshold correspondents c ->
  c0 ∈ correspondents -> id c0 ∉ visited ->
  traverse correspondents similar_graph
    (traverse_bound correspondents) [id c0] visited [] =
    Return (visited', group) ->
  (1 < length group)%nat ->
  c ∉ group.
Proof.
  intros Hc Hiso Hc0 Hnew Hrun Hbig Hin.
  destruct (traverse_spec (traverse_bound correspondents)
              [id c0] visited []) as (v' & g' & Hrun' & _ & _ & Hmem).
  { intros x Hx. apply list_elem_of_singleton in Hx as ->.
    apply list_elem_of_fmap_2, Hc0. }
  { apply rounds_start. }
  rewrite Hrun in Hrun'. injection Hrun' as <- <-.
  destruct (Hmem c Hin) as [Hnil|(_ & [Hstart|(k & v & Hk & Hadj)])].
  - inversion Hnil.
  - apply list_elem_of_singleton in Hstart.
    assert (c = c0) as <- by (apply same_id_same; assumption).
    unfold traverse_bound in Hrun.
    rewrite (traverse_isolated c visited _ Hc Hiso Hnew) in Hrun.
    injection Hrun as _ <-. simpl in Hbig. lia.
  - exact (isolated_not_adjacent c k v Hc Hiso Hk Hadj).
Qed.

End Graph.
End GroupFacts.

(** C7, as the code behaves. [find_similar_correspondents] returns; every
    group it returns has at least two members and is sorted ascending by
    the lower-cased name, [name.lower()], which is not stripped; and when
    the ids are pairwise distinct, a correspondent that no other
    correspondent is similar to, in either direction, is in no group. *)
Theorem similar_groups_sorted_by_lower_name
    (threshold : Q) (correspondents : list correspondent) :
  exists groups,
    Similarity.find_similar_correspondents threshold correspondents =
      Return groups /\
    (forall g, g ∈ groups ->
       (2 <= length g)%nat /\
       StronglySorted SimilaritySpec.lower_name_le g) /\
    (NoDup (id <$> correspondents) ->
     forall c, c ∈ correspondents ->
       SimilaritySpec.isolated threshold correspondents c ->
       forall g, g ∈ groups -> c ∉ g).
Proof.
  set (P := fun g : list correspondent =>
              ((2 <= length g)%nat /\
               StronglySorted SimilaritySpec.lower_name_le g) /\
              (NoDup (id <$> correspondents) ->
               forall c, c ∈ correspondents ->
                 SimilaritySpec.isolated threshold correspondents c -> c ∉ g)).
  destruct (GroupFacts.group_loop_spec threshold correspondents P)
    with (remaining := correspondents) (visited := (∅ : gset Z))
         (groups := @nil (list correspondent))
    as (groups & Hrun & Hall).
  - intros c0 visited visited' group Hc0 Hnew Hrun Hbig.
    assert (Hperm : Similarity.sort_group group ≡ₚ group)
      by apply SortFacts.sort_by_perm.
    split; [split|].
    + rewrite Hperm. lia.
    + apply Sorted_StronglySorted.
      * intros x y z. apply TextFacts.leb_trans.
      * eapply SortFacts.Sorted_mono;
          [|apply (SortFacts.sort_by_Sorted
                     (fun c => Text.lower (name c)) Text.ltb);
            intros k1 k2; apply TextFacts.ltb_asym].
        intros x y Hxy. unfold SimilaritySpec.lower_name_le, Text.leb.
        rewrite Hxy. reflexivity.
    + intros Hnd c Hc Hiso. rewrite Hperm.
      apply (GroupFacts.isolated_not_grouped threshold correspondents Hnd
               c c0 visited visited' group); assumption.
  - auto.
  - constructor.
  - exists groups. split; [exact Hrun|].
    rewrite Forall_forall in Hall. split.
    + intros g Hg. apply (Hall g Hg).
    + intros Hnd c Hc Hiso g Hg. apply (Hall g Hg); assumption.
Qed.

Lemma similar_groups_sorted_by_lower_name_witness :
  NoDup (id <$> Inputs.john_john_jane) /\
  exists groups,
    Similarity.find_similar_correspondents (8 # 10) Inputs.john_john_jane =
      Return groups /\
    forall g, g ∈ groups ->
      Correspondent 3 (Text.lit "Jane Smith") None ∉ g.
Proof.
  assert (Hnd : NoDup (id <$> Inputs.john_john_jane)).
  { apply (bool_decide_unpack _). vm_compute. reflexivity. }
  split; [exact Hnd|].
  destruct (similar_groups_sorted_by_lower_name (8 # 10) Inputs.john_john_jane)
    as (groups & Hrun & _ & Hiso).
  exists groups. split; [exact Hrun|].
  apply (Hiso Hnd).
  - apply (bool_decide_unpack _). vm_compute. reflexivity.
  - intros c' Hc' Hne.
    unfold Inputs.john_john_jane in Hc'.
    repeat (apply elem_of_cons in Hc' as [->|Hc']);
      [| |contradiction|inversion Hc'];
      (split; intros Hsim; vm_compute in Hsim; discriminate).
Defined.

(** C7, as stated, fails for the order: the one group found for
    [" john doe"] and ["john doa"] has the name with the leading blank
    first, while its stripped form is the greater of the two. *)
Lemma similar_group_not_sorted_by_stripped_name :
  exists g,
    Similarity.find_similar_correspondents (8 # 10) Inputs.leading_blank =
      Return [g] /\
    ~ Sorted SimilaritySpec.normalized_name_le g.
Proof.
  eexists. split; [vm_compute; reflexivity|].
  intros Hsorted. inversion Hsorted as [|? ? _ Hhd]; subst.
  inversion Hhd as [|? ? Hle]; subst.
  vm_compute in Hle. discriminate.
Qed.

(** Similarity is computed per ordered pair and a group grows along the
    list of whoever is visited: at threshold 0.4 [tide] lists nobody
    (it scores 0.25 against [diet]), yet [diet], which scores 0.5 against
    [tide], lists it, and the two are returned as one group. So only a
    correspondent that is similar to nobody and that nobody is similar
    to is sure to be left out. *)
Example one_way_similarity_groups :
  Similarity.similar_ids (4 # 10) MoreInputs.diet_tide 1
    (Correspondent 1 (Text.lit "tide") None) = [] /\
  Similarity.similar_ids (4 # 10) MoreInputs.diet_tide 0
    (Correspondent 2 (Text.lit "diet") None) = [1] /\
  Similarity.find_similar_correspondents (4 # 10) MoreInputs.diet_tide =
    Return [ [ Correspondent 2 (Text.lit "diet") None;
               Correspondent 1 (Text.lit "tide") None ] ].
Proof. repeat split; vm_compute; reflexivity. Qed.

(** * [SequenceMatcher]: what [find_longest_match] finds *)

Module IndexFacts.
Import Difflib DifflibSpec.

Lemma at_Some (s : list ascii) i c :
  at_ s i = Some c <-> 0 <= i /\ s !! Z.to_nat i = Some c.
Proof.
  unfold at_. destruct (Z.ltb_spec i 0); split.
  - discriminate.
  - intros [? _]. lia.
  - auto.
  - tauto.
Qed.

Lemma at_lt_length (s : list ascii) i c :
  at_ s i = Some c -> 0 <= i < Z.of_nat (length s).
Proof.
  intros H. apply at_Some in H as [Hi H]. apply lookup_lt_Some in H. lia.
Qed.

Lemma at_in_range (s : list ascii) i :
  0 <= i < Z.of_nat (length s) -> exists c, at_ s i = Some c.
Proof.
  intros Hi. destruct (lookup_lt_is_Some_2 s (Z.to_nat i)) as [c Hc]; [lia|].
  exists c. apply at_Some. split; [lia|exact Hc].
Qed.

Lemma at_cons_0 c (s : list ascii) : at_ (c :: s) 0 = Some c.
Proof. reflexivity. Qed.

Lemma at_cons_pos c (s : list ascii) i : 0 < i -> at_ (c :: s) i = at_ s (i - 1).
Proof.
  intros Hi. unfold at_.
  rewrite (proj2 (Z.ltb_ge i 0)), (proj2 (Z.ltb_ge (i - 1) 0)) by lia.
  replace (Z.to_nat i) with (S (Z.to_nat (i - 1))) by lia. reflexivity.
Qed.

Lemma elem_of_positions_from s : forall i c j,
  j ∈ positions_from i s c <-> i <= j /\ at_ s (j - i) = Some c.
Proof.
  induction s as [|x s IH]; intros i c j.
  - simpl. rewrite elem_of_nil. split; [tauto|]. intros [_ H].
    apply at_lt_length in H. simpl in H. lia.
  - cbn [positions_from]. rewrite elem_of_app, IH.
    destruct (Z.eq_dec j i) as [->|Hne].
    + rewrite Z.sub_diag, at_cons_0.
      destruct (decide (x = c)) as [->|Hxc].
      * rewrite list_elem_of_singleton. intuition lia.
      * rewrite elem_of_nil. split; [intros [[]|[? _]]; lia|].
        intros [_ [= ?]]. contradiction.
    + assert (~ j ∈ (if decide (x = c) then [i] else [])).
      { destruct (decide (x = c)); [|apply not_elem_of_nil].
        rewrite list_elem_of_singleton. exact Hne. }
      destruct (Z.le_gt_cases j i).
      * split; [intros [?|[? _]]; [contradiction|lia]|intros [? _]; lia].
      * rewrite at_cons_pos by lia.
        replace (j - (i + 1)) with (j - i - 1) by lia.
        split; [intros [?|[? ?]]; [contradiction|]|intros [? ?]; right];
          (split; [lia|assumption]).
Qed.

Lemma positions_from_sorted s : forall i c,
  StronglySorted Z.lt (positions_from i s c).
Proof.
  induction s as [|x s IH]; intros i c; [constructor|].
  cbn [positions_from]. destruct (decide (x = c)); [|apply IH].
  simpl. constructor; [apply IH|].
  apply Forall_forall. intros j Hj.
  apply elem_of_positions_from in Hj. lia.
Qed.

Lemma index_elements_get s : forall i b2j c,
  get (index_elements i s b2j) c = get b2j c ++ positions_from i s c.
Proof.
  induction s as [|x s IH]; intros i b2j c.
  - simpl. rewrite app_nil_r. reflexivity.
  - cbn [index_elements positions_from]. rewrite IH. unfold get at 1.
    rewrite lookup_insert. destruct (decide (x = c)) as [->|Hne].
    + simpl. rewrite <- app_assoc. reflexivity.
    + reflexivity.
Qed.

(** The entries of the index hold all positions of their element, and
    the only missing ones are the popular elements. *)
Lemma chain_b_indexes (b : str) :
  exists popular : ascii -> bool,
    (Z.of_nat (length b) < 200 -> forall c, popular c = false) /\
    indexes b popular (chain_b b).
Proof.
  unfold chain_b. destruct (Z.leb_spec 200 (Z.of_nat (length b))) as [Hbig|Hsmall].
  - set (ntest := Z.of_nat (length b) / 100 + 1).
    exists (fun c => bool_decide
              (ntest < Z.of_nat (length (positions_from 0 b c)))).
    split; [lia|]. intros c. unfold get at 1.
    pose proof (index_elements_get b 0 ∅ c) as Hc. unfold get in Hc.
    rewrite lookup_empty in Hc. simpl in Hc.
    destruct (index_elements 0 b ∅ !! c) as [idxs|] eqn:Hidx; simpl in Hc.
    + subst idxs. case_bool_decide as Hpop.
      * rewrite map_lookup_filter_None_2; [reflexivity|].
        right. intros idxs Hlook. rewrite Hidx in Hlook.
        injection Hlook as <-. simpl. tauto.
      * erewrite map_lookup_filter_Some_2; [reflexivity|exact Hidx|].
        simpl. exact Hpop.
    + rewrite map_lookup_filter_None_2 by (left; exact Hidx).
      rewrite <- Hc. destruct (bool_decide _); reflexivity.
  - exists (fun _ => false). split; [reflexivity|]. intros c.
    rewrite index_elements_get. unfold get. rewrite lookup_empty. reflexivity.
Qed.

End IndexFacts.

Module ScanFacts.
Import Difflib DifflibSpec.

Section Window.
Variables (a b : str) (popular : ascii -> bool).
Variable b2j : gmap ascii (list Z).
Hypothesis b2j_indexes : indexes b popular b2j.
Variables (alo ahi blo bhi : Z).
Hypothesis blo_le_bhi : blo <= bhi.

Local Abbreviation matchable := (matchable a b popular).
Local Abbreviation run_len := (run_len a b popular blo).
Local Abbreviation run_ending := (run_ending a b popular alo blo).
Local Abbreviation in_window := (in_window alo ahi blo bhi).
Local Abbreviation best_upto := (best_upto a b popular alo ahi blo bhi).
Local Abbreviation row_of := (row_of a b popular alo blo bhi).

(** *** Run lengths *)

Lemma run_len_nonneg n : forall i j, 0 <= run_len n i j.
Proof.
  induction n as [|n IH]; intros i j; simpl; [lia|].
  destruct (_ && _); [|lia]. specialize (IH (i - 1) (j - 1)). lia.
Qed.

Lemma run_ending_nonneg i j : 0 <= run_ending i j.
Proof. apply run_len_nonneg. Qed.

Lemma run_ending_step i j :
  alo <= i ->
  run_ending i j =
  if (blo <=? j) && matchable i j
  then 1 + run_ending (i - 1) (j - 1) else 0.
Proof.
  intros Hi. unfold DifflibSpec.run_ending.
  replace (Z.to_nat (i - alo + 1)) with (S (Z.to_nat (i - 1 - alo + 1)))
    by lia.
  reflexivity.
Qed.

Lemma run_ending_above i j : i < alo -> run_ending i j = 0.
Proof.
  intros Hi. unfold DifflibSpec.run_ending.
  replace (Z.to_nat (i - alo + 1)) with O by lia. reflexivity.
Qed.

Lemma run_ending_unmatched i j :
  matchable i j = false -> run_ending i j = 0.
Proof.
  intros Hm. destruct (Z.lt_ge_cases i alo); [apply run_ending_above; lia|].
  rewrite run_ending_step, Hm, andb_false_r by lia. reflexivity.
Qed.

Lemma run_len_ge n : forall i j k,
  1 <= k ->
  (k <= run_len n i j <->
   k <= Z.of_nat n /\
   forall d, 0 <= d < k -> blo <= j - d /\ matchable (i - d) (j - d) = true).
Proof.
  induction n as [|n IH]; intros i j k Hk.
  - simpl. split; [lia|]. intros [? _]. lia.
  - cbn [DifflibSpec.run_len].
    destruct ((blo <=? j) && matchable i j) eqn:Hc.
    + apply andb_true_iff in Hc as [Hj Hm]. apply Z.leb_le in Hj.
      pose proof (run_len_nonneg n (i - 1) (j - 1)) as Hr.
      destruct (Z.eq_dec k 1) as [->|Hk1].
      * split; [|lia]. intros _. split; [lia|]. intros d Hd.
        replace d with 0 by lia. rewrite !Z.sub_0_r. auto.
      * specialize (IH (i - 1) (j - 1) (k - 1)).
        split.
        -- intros Hle. destruct IH as [IH _]; [lia|].
           destruct IH as [Hn Hall]; [lia|]. split; [lia|].
           intros d Hd. destruct (Z.eq_dec d 0) as [->|Hd0].
           ++ rewrite !Z.sub_0_r. auto.
           ++ specialize (Hall (d - 1)).
              replace (i - 1 - (d - 1)) with (i - d) in Hall by lia.
              replace (j - 1 - (d - 1)) with (j - d) in Hall by lia.
              apply Hall. lia.
        -- intros [Hn Hall]. destruct IH as [_ IH]; [lia|].
           cut (k - 1 <= run_len n (i - 1) (j - 1)); [lia|].
           apply IH. split; [lia|]. intros d Hd.
           specialize (Hall (d + 1)).
           replace (i - (d + 1)) with (i - 1 - d) in Hall by lia.
           replace (j - (d + 1)) with (j - 1 - d) in Hall by lia.
           apply Hall. lia.
    + split; [lia|]. intros [_ Hall]. exfalso.
      specialize (Hall 0). rewrite !Z.sub_0_r in Hall.
      destruct Hall as [Hj Hm]; [lia|].
      apply Z.leb_le in Hj. rewrite Hj, Hm in Hc. discriminate.
Qed.

(** A run of length [k] ends at [(i, j)] exactly when the [k] pairs
    back from [(i, j)] are matchable and none lies before
    [(alo, blo)]. *)
Lemma run_ending_ge i j k :
  1 <= k ->
  (k <= run_ending i j <->
   alo <= i - k + 1 /\
   forall d, 0 <= d < k -> blo <= j - d /\ matchable (i - d) (j - d) = true).
Proof.
  intros Hk. unfold DifflibSpec.run_ending. rewrite run_len_ge by assumption.
  split; intros [Hn Hall]; (split; [lia|exact Hall]).
Qed.

(** *** One row *)

Lemma best_upto_extend i lo hi best :
  alo <= i -> lo <= hi ->
  (forall j, lo <= j < hi -> blo <= j < bhi -> matchable i j = false) ->
  best_upto (i, lo) best -> best_upto (i, hi) best.
Proof.
  intros Hi Hlohi Hnone. destruct best as [[besti bestj] bestsize].
  unfold DifflibSpec.best_upto, before. cbn [fst snd].
  intros (Hpos & Hbound & Hzero & Hbest).
  split; [exact Hpos|]. split; [|split; [exact Hzero|]].
  - intros [pi pj] [Hwi Hwj] Hbefore. cbn [fst snd] in *.
    destruct (Z.lt_ge_cases pj lo) as [Hlt|Hge].
    + apply (Hbound (pi, pj)); [split; assumption|]. cbn [fst snd]. lia.
    + destruct (Z.eq_dec pi i) as [->|Hne].
      * rewrite run_ending_unmatched; [lia|]. apply Hnone; lia.
      * apply (Hbound (pi, pj)); [split; assumption|]. cbn [fst snd]. lia.
  - intros Hsize. destruct (Hbest Hsize) as (Hin & Hbef & Hrun & Hfirst).
    repeat split; try assumption; try apply Hin. lia.
Qed.

Lemma best_upto_next_row i hi best :
  bhi <= hi -> best_upto (i, hi) best -> best_upto (i + 1, blo) best.
Proof.
  intros Hhi. destruct best as [[besti bestj] bestsize].
  unfold DifflibSpec.best_upto, before. cbn [fst snd].
  intros (Hpos & Hbound & Hzero & Hbest).
  split; [exact Hpos|]. split; [|split; [exact Hzero|]].
  - intros [pi pj] [Hwi Hwj] Hbefore. cbn [fst snd] in *.
    apply (Hbound (pi, pj)); [split; assumption|]. cbn [fst snd]. lia.
  - intros Hsize. destruct (Hbest Hsize) as (Hin & Hbef & Hrun & Hfirst).
    repeat split; try assumption; try apply Hin.
    destruct Hin as [_ Hin]. cbn [fst snd] in Hin. lia.
Qed.

(** Looking at [(i, j)], where a run of length [k] ends. *)
Lemma best_upto_visit i j k best :
  alo <= i < ahi -> blo <= j < bhi ->
  run_ending i j = k -> 1 <= k ->
  best_upto (i, j) best ->
  best_upto (i, j + 1)
    (let '(_, _, bestsize) := best in
     if bestsize <? k then (i - k + 1, j - k + 1, k) else best).
Proof.
  intros Hi Hj Hrun Hk. destruct best as [[besti bestj] bestsize].
  unfold DifflibSpec.best_upto, before. cbn [fst snd].
  intros (Hpos & Hbound & Hzero & Hbest).
  assert (Hcases : forall p : Z * Z,
             p.1 < i \/ p.1 = i /\ p.2 < j + 1 ->
             (p.1 < i \/ p.1 = i /\ p.2 < j) \/ p = (i, j)).
  { intros [pi pj]. cbn [fst snd]. intros H.
    destruct (Z.eq_dec pi i) as [->|?], (Z.eq_dec pj j) as [->|?];
      first [right; reflexivity | left; lia]. }
  destruct (Z.ltb_spec bestsize k) as [Hlt|Hge].
  - replace (i - k + 1 + k - 1) with i by lia.
    replace (j - k + 1 + k - 1) with j by lia.
    split; [lia|]. split; [|split; [lia|]].
    + intros p Hw Hbefore. destruct (Hcases p Hbefore) as [Hold| ->].
      * specialize (Hbound p Hw Hold). lia.
      * cbn [fst snd]. lia.
    + intros _. split; [split; assumption|]. split; [lia|].
      split; [exact Hrun|]. intros p Hw Hbefore.
      specialize (Hbound p Hw Hbefore). lia.
  - split; [exact Hpos|]. split; [|split; [exact Hzero|]].
    + intros p Hw Hbefore. destruct (Hcases p Hbefore) as [Hold| ->].
      * exact (Hbound p Hw Hold).
      * cbn [fst snd]. lia.
    + intros Hsize. destruct (Hbest Hsize) as (Hin & Hbef & Hr & Hfirst).
      repeat split; try assumption; try apply Hin. lia.
Qed.

(** The inner loop, from column [lo] on. *)
Lemma scan_row_ok i j2len js : forall lo newj2len best,
  alo <= i < ahi -> blo <= lo <= bhi ->
  row_of (i - 1) j2len ->
  StronglySorted Z.lt js ->
  (forall j, j ∈ js -> matchable i j = true) ->
  (forall j, j ∈ js -> j < blo \/ lo <= j) ->
  (forall j, lo <= j -> blo <= j < bhi -> matchable i j = true -> j ∈ js) ->
  (forall j, default 0 (newj2len !! j) =
             if (blo <=? j) && (j <? lo) then run_ending i j else 0) ->
  best_upto (i, lo) best ->
  let '(newj2len', best') :=
    scan_row i blo bhi j2len js newj2len best in
  row_of i newj2len' /\ best_upto (i + 1, blo) best'.
Proof.
  intros lo newj2len best Hi. revert lo newj2len best.
  assert (Hfinish : forall lo newj2len best,
             blo <= lo <= bhi ->
             (forall j, lo <= j -> blo <= j < bhi -> matchable i j = false) ->
             (forall j, default 0 (newj2len !! j) =
                if (blo <=? j) && (j <? lo) then run_ending i j else 0) ->
             best_upto (i, lo) best ->
             row_of i newj2len /\ best_upto (i + 1, blo) best).
  { intros lo newj2len best Hlo Hnone Hnew Hbest. split.
    - intros j. rewrite Hnew.
      destruct (Z.leb_spec blo j), (Z.ltb_spec j lo), (Z.ltb_spec j bhi);
        cbn [andb]; try reflexivity; try lia.
      symmetry. apply run_ending_unmatched, Hnone; lia.
    - apply (best_upto_next_row i bhi); [lia|].
      apply (best_upto_extend i lo bhi); [lia|lia| |exact Hbest].
      intros j Hj Hw. apply Hnone; lia. }
  induction js as [|j js IH];
    intros lo newj2len best Hlo Hrow Hsorted Hm Hskip Hcomplete Hnew Hbest.
  - cbn [scan_row]. apply (Hfinish lo); try assumption.
    intros j Hj Hw. destruct (matchable i j) eqn:E; [|reflexivity].
    exfalso. apply (not_elem_of_nil j). apply Hcomplete; assumption.
  - cbn [scan_row].
    apply StronglySorted_inv in Hsorted as [Hsorted Hgt].
    rewrite Forall_forall in Hgt.
    assert (Hm' : forall j', j' ∈ js -> matchable i j' = true)
      by (intros j' Hj'; apply Hm, list_elem_of_further, Hj').
    destruct (Z.ltb_spec j blo) as [Hleft|Hin].
    { apply (IH lo); try assumption.
      - intros j' Hj'. apply Hskip, list_elem_of_further, Hj'.
      - intros j' Hj' Hw Hmj'.
        pose proof (Hcomplete j' Hj' Hw Hmj') as Hc.
        apply elem_of_cons in Hc as [->|Hc]; [lia|exact Hc]. }
    destruct (Z.leb_spec bhi j) as [Hright|Hinside].
    { apply (Hfinish lo); try assumption.
      intros j' Hj' Hw. destruct (matchable i j') eqn:E; [|reflexivity].
      exfalso. specialize (Hcomplete j' Hj' Hw E).
      apply elem_of_cons in Hcomplete as [->|Hin']; [lia|].
      specialize (Hgt j' Hin'). lia. }
    assert (Hloj : lo <= j).
    { destruct (Hskip j (list_elem_of_here _ _)); lia. }
    assert (Hnone : forall j', lo <= j' < j -> blo <= j' < bhi ->
                               matchable i j' = false).
    { intros j' Hj' Hw. destruct (matchable i j') eqn:E; [|reflexivity].
      exfalso. specialize (Hcomplete j' (proj1 Hj') Hw E).
      apply elem_of_cons in Hcomplete as [->|Hin']; [lia|].
      specialize (Hgt j' Hin'). lia. }
    set (k := default 0 (j2len !! (j - 1)) + 1).
    assert (Hk : run_ending i j = k).
    { rewrite run_ending_step by lia.
      rewrite (proj2 (Z.leb_le blo j)) by lia.
      rewrite (Hm j (list_elem_of_here _ _)). cbn [andb].
      unfold k. rewrite (Hrow (j - 1)).
      destruct (Z.leb_spec blo (j - 1)).
      - rewrite (proj2 (Z.ltb_lt (j - 1) bhi)) by lia. cbn [andb]. lia.
      - cbn [andb].
        replace (DifflibSpec.run_ending a b popular alo blo (i - 1) (j - 1))
          with 0; [lia|].
        symmetry. destruct (Z.lt_ge_cases (i - 1) alo).
        + apply run_ending_above. lia.
        + rewrite run_ending_step by lia.
          rewrite (proj2 (Z.leb_gt blo (j - 1))) by lia. reflexivity. }
    assert (Hk1 : 1 <= k).
    { pose proof (run_ending_nonneg (i - 1) (j - 1)).
      rewrite run_ending_step in Hk by lia.
      rewrite (proj2 (Z.leb_le blo j)) in Hk by lia.
      rewrite (Hm j (list_elem_of_here _ _)) in Hk. cbn [andb] in Hk. lia. }
    destruct best as [[besti bestj] bestsize].
    apply (IH (j + 1)); try assumption.
    + lia.
    + intros j' Hj'. right. specialize (Hgt j' Hj'). lia.
    + intros j' Hj' Hw Hmj'.
      assert (Hj0 : lo <= j') by lia.
      specialize (Hcomplete j' Hj0 Hw Hmj').
      apply elem_of_cons in Hcomplete as [->|Hin']; [lia|exact Hin'].
    + intros j'. rewrite lookup_insert.
      destruct (decide (j = j')) as [<-|Hne].
      * cbn [from_option Datatypes.id]. rewrite (proj2 (Z.leb_le blo j)) by lia.
        rewrite (proj2 (Z.ltb_lt j (j + 1))) by lia. cbn [andb]. lia.
      * rewrite Hnew.
        destruct (Z.leb_spec blo j'), (Z.ltb_spec j' lo),
                 (Z.ltb_spec j' (j + 1)); cbn [andb];
          try reflexivity; try lia.
        symmetry. apply run_ending_unmatched, Hnone; lia.
    + apply (best_upto_visit i j k (besti, bestj, bestsize));
        try assumption; try lia.
      apply (best_upto_extend i lo j); try assumption; lia.
Qed.

(** *** All rows *)

(** The candidates of row [i] are the columns that are matchable with
    it, in ascending order. *)
Lemma row_candidates i :
  let js := match at_ a i with
            | Some c => default [] (b2j !! c)
            | None => []
            end in
  StronglySorted Z.lt js /\
  forall j, j ∈ js <-> matchable i j = true.
Proof.
  unfold DifflibSpec.matchable.
  destruct (at_ a i) as [c|]; cbv beta iota zeta.
  - fold (get b2j c). pose proof (b2j_indexes c) as Hget.
    destruct (popular c) eqn:Hpop; rewrite Hget.
    + split; [constructor|]. intros j. rewrite elem_of_nil.
      split; [tauto|]. destruct (at_ b j) as [y|]; [|discriminate].
      rewrite andb_true_iff, bool_decide_eq_true, negb_true_iff.
      intros [<- Hy]. congruence.
    + split; [apply IndexFacts.positions_from_sorted|]. intros j.
      rewrite IndexFacts.elem_of_positions_from, Z.sub_0_r.
      destruct (at_ b j) as [y|] eqn:Hy.
      * rewrite andb_true_iff, bool_decide_eq_true, negb_true_iff.
        split.
        -- intros [_ [= ->]]. auto.
        -- intros [-> _]. split; [|reflexivity].
           apply IndexFacts.at_lt_length in Hy. lia.
      * split; [intros [_ ?]; discriminate|discriminate].
  - split; [constructor|]. intros j. rewrite elem_of_nil.
    split; [tauto|discriminate].
Qed.

Lemma scan_rows_ok n : forall i j2len best,
  alo <= i -> i + Z.of_nat n <= ahi ->
  row_of (i - 1) j2len ->
  best_upto (i, blo) best ->
  best_upto (i + Z.of_nat n, blo)
    (scan_rows a b2j blo bhi (seqZ i (Z.of_nat n)) j2len best).
Proof.
  induction n as [|n IH]; intros i j2len best Hi Hn Hrow Hbest.
  - simpl. rewrite Z.add_0_r. exact Hbest.
  - rewrite seqZ_cons by lia. change (Z.succ i) with (i + 1).
    replace (Z.pred (Z.of_nat (S n))) with (Z.of_nat n) by lia.
    cbn [scan_rows].
    destruct (row_candidates i) as [Hsorted Hjs]. cbv zeta.
    match goal with
    | |- context [scan_row _ _ _ _ ?l _ _] => set (js := l) in *
    end.
    pose proof (scan_row_ok i j2len js blo ∅ best) as Hrowok.
    destruct (scan_row i blo bhi j2len js ∅ best) as [newj2len best'].
    destruct Hrowok as [Hrow' Hbest']; try assumption; try lia.
    + intros j Hj. apply Hjs, Hj.
    + intros j _ _ Hm. apply Hjs, Hm.
    + intros j. rewrite lookup_empty.
      destruct (Z.leb_spec blo j), (Z.ltb_spec j blo); cbn [andb];
        try reflexivity; lia.
    + replace (i + Z.of_nat (S n)) with (i + 1 + Z.of_nat n) by lia.
      apply IH; try lia.
      * replace (i + 1 - 1) with i by lia. exact Hrow'.
      * exact Hbest'.
Qed.

(** The scan of the whole window. *)
Lemma scan_window_ok :
  alo <= ahi ->
  best_upto (ahi, blo)
    (scan_rows a b2j blo bhi (seqZ alo (ahi - alo)) ∅ (alo, blo, 0)).
Proof.
  intros Hle.
  pose proof (scan_rows_ok (Z.to_nat (ahi - alo)) alo ∅ (alo, blo, 0))
    as Hscan.
  replace (Z.of_nat (Z.to_nat (ahi - alo))) with (ahi - alo) in Hscan
    by lia.
  replace (alo + (ahi - alo)) with ahi in Hscan by lia.
  apply Hscan; try lia.
  - intros j. rewrite lookup_empty. cbn [from_option].
    rewrite run_ending_above by lia. destruct (_ && _); reflexivity.
  - unfold DifflibSpec.best_upto, before. cbn [fst snd].
    split; [lia|]. split; [|split; [auto|lia]].
    intros [pi pj] [Hwi Hwj]. cbn [fst snd] in *. lia.
Qed.

Lemma best_upto_bounds limit besti bestj bestsize :
  alo <= ahi ->
  best_upto limit (besti, bestj, bestsize) ->
  alo <= besti /\ blo <= bestj /\ 0 <= bestsize /\
  besti + bestsize <= ahi /\ bestj + bestsize <= bhi.
Proof.
  intros Hle. unfold DifflibSpec.best_upto. cbn [fst snd].
  intros (Hpos & _ & Hzero & Hbest).
  destruct (Z.eq_dec bestsize 0) as [->|Hne].
  - destruct (Hzero eq_refl) as [-> ->]. lia.
  - destruct Hbest as ([Hwi Hwj] & _ & Hrun & _); [lia|].
    cbn [fst snd] in *.
    assert (Hge : bestsize <=
                  run_ending (besti + bestsize - 1) (bestj + bestsize - 1))
      by lia.
    apply run_ending_ge in Hge as [Hi Hall]; [|lia].
    destruct (Hall (bestsize - 1)) as [Hj _]; lia.
Qed.

End Window.

(** *** The two extension loops *)

Section Extend.
Variables (a b : str).

Lemma extend_left_spec alo blo rounds : forall besti bestj bestsize,
  alo <= besti -> blo <= bestj ->
  (Z.to_nat (besti - alo) <= rounds)%nat ->
  exists e,
    0 <= e /\
    extend_left a b rounds alo blo (besti, bestj, bestsize) =
      (besti - e, bestj - e, bestsize + e) /\
    alo <= besti - e /\ blo <= bestj - e /\
    (forall d, 1 <= d <= e -> same_at a b (besti - d) (bestj - d) = true) /\
    (besti - e = alo \/ bestj - e = blo \/
     same_at a b (besti - e - 1) (bestj - e - 1) = false).
Proof.
  induction rounds as [|rounds IH]; intros besti bestj bestsize Hi Hj Hr.
  - exists 0. cbn [extend_left]. rewrite !Z.sub_0_r, Z.add_0_r.
    repeat split; lia.
  - cbn [extend_left].
    destruct (Z.ltb_spec alo besti) as [Hi'|Hi'];
      [destruct (Z.ltb_spec blo bestj) as [Hj'|Hj'];
       [destruct (same_at a b (besti - 1) (bestj - 1)) eqn:Hsame|]|];
      cbn [andb].
    + destruct (IH (besti - 1) (bestj - 1) (bestsize + 1))
        as (e & He & Hrun & Hia & Hja & Hall & Hstop); try lia.
      exists (e + 1). rewrite Hrun.
      replace (besti - 1 - e) with (besti - (e + 1)) in * by lia.
      replace (bestj - 1 - e) with (bestj - (e + 1)) in * by lia.
      repeat split; try lia; try (f_equal; lia).
      * intros d Hd. destruct (Z.eq_dec d 1) as [->|Hne]; [exact Hsame|].
        specialize (Hall (d - 1)).
        replace (besti - 1 - (d - 1)) with (besti - d) in Hall by lia.
        replace (bestj - 1 - (d - 1)) with (bestj - d) in Hall by lia.
        apply Hall. lia.
      * exact Hstop.
    + exists 0. rewrite !Z.sub_0_r, Z.add_0_r.
      repeat split; try lia. right. right. exact Hsame.
    + exists 0. rewrite !Z.sub_0_r, Z.add_0_r.
      repeat split; lia.
    + exists 0. rewrite !Z.sub_0_r, Z.add_0_r.
      repeat split; lia.
Qed.

Lemma extend_right_spec ahi bhi rounds : forall besti bestj bestsize,
  besti + bestsize <= ahi -> bestj + bestsize <= bhi ->
  (Z.to_nat (ahi - (besti + bestsize)) <= rounds)%nat ->
  exists e,
    0 <= e /\
    extend_right a b rounds ahi bhi (besti, bestj, bestsize) =
      (besti, bestj, bestsize + e) /\
    besti + bestsize + e <= ahi /\ bestj + bestsize + e <= bhi /\
    (forall d, 0 <= d < e ->
       same_at a b (besti + bestsize + d) (bestj + bestsize + d) = true) /\
    (besti + bestsize + e = ahi \/ bestj + bestsize + e = bhi \/
     same_at a b (besti + bestsize + e) (bestj + bestsize + e) = false).
Proof.
  induction rounds as [|rounds IH]; intros besti bestj bestsize Hi Hj Hr.
  - exists 0. cbn [extend_right]. rewrite !Z.add_0_r.
    repeat split; lia.
  - cbn [extend_right].
    destruct (Z.ltb_spec (besti + bestsize) ahi) as [Hi'|Hi'];
      [destruct (Z.ltb_spec (bestj + bestsize) bhi) as [Hj'|Hj'];
       [destruct (same_at a b (besti + bestsize) (bestj + bestsize))
          eqn:Hsame|]|];
      cbn [andb].
    + destruct (IH besti bestj (bestsize + 1))
        as (e & He & Hrun & Hia & Hja & Hall & Hstop); try lia.
      exists (e + 1). rewrite Hrun.
      replace (besti + (bestsize + 1) + e)
        with (besti + bestsize + (e + 1)) in * by lia.
      replace (bestj + (bestsize + 1) + e)
        with (bestj + bestsize + (e + 1)) in * by lia.
      repeat split; try lia; try (f_equal; lia).
      * intros d Hd. destruct (Z.eq_dec d 0) as [->|Hne];
          [rewrite !Z.add_0_r; exact Hsame|].
        specialize (Hall (d - 1)).
        replace (besti + (bestsize + 1) + (d - 1))
          with (besti + bestsize + d) in Hall by lia.
        replace (bestj + (bestsize + 1) + (d - 1))
          with (bestj + bestsize + d) in Hall by lia.
        apply Hall. lia.
      * exact Hstop.
    + exists 0. rewrite !Z.add_0_r.
      repeat split; try lia. right. right. exact Hsame.
    + exists 0. rewrite !Z.add_0_r.
      repeat split; lia.
    + exists 0. rewrite !Z.add_0_r.
      repeat split; lia.
Qed.

End Extend.
End ScanFacts.

Module MatchFacts.
Import Difflib DifflibSpec.

Section Matcher.
Variables (a b : str) (popular : ascii -> bool).
Variable b2j : gmap ascii (list Z).
Hypothesis b2j_indexes : indexes b popular b2j.

(** What [find_longest_match] returns: the result of the scan,
    extended on both sides as far as the elements agree. *)
Lemma find_longest_match_spec alo ahi blo bhi :
  alo <= ahi -> blo <= bhi ->
  exists besti bestj bestsize el er,
    best_upto a b popular alo ahi blo bhi (ahi, blo)
      (besti, bestj, bestsize) /\
    find_longest_match a b b2j alo ahi blo bhi =
      (besti - el, bestj - el, bestsize + el + er) /\
    0 <= el /\ 0 <= er /\
    alo <= besti - el /\ blo <= bestj - el /\
    besti + bestsize + er <= ahi /\ bestj + bestsize + er <= bhi /\
    (forall d, 1 <= d <= el ->
       same_at a b (besti - d) (bestj - d) = true) /\
    (besti - el = alo \/ bestj - el = blo \/
     same_at a b (besti - el - 1) (bestj - el - 1) = false) /\
    (forall d, 0 <= d < er ->
       same_at a b (besti + bestsize + d) (bestj + bestsize + d) = true) /\
    (besti + bestsize + er = ahi \/ bestj + bestsize + er = bhi \/
     same_at a b (besti + bestsize + er) (bestj + bestsize + er) = false).
Proof.
  intros Ha Hb. unfold find_longest_match.
  pose proof (ScanFacts.scan_window_ok a b popular b2j b2j_indexes
                alo ahi blo bhi Hb Ha) as Hscan.
  destruct (scan_rows a b2j blo bhi (seqZ alo (ahi - alo)) ∅ (alo, blo, 0))
    as [[besti bestj] bestsize].
  destruct (ScanFacts.best_upto_bounds a b popular alo ahi blo bhi Hb
              _ _ _ _ Ha Hscan) as (Hi & Hj & Hs & Hie & Hje).
  cbn [fst snd].
  destruct (ScanFacts.extend_left_spec a b alo blo
              (Z.to_nat (besti - alo)) besti bestj bestsize)
    as (el & Hel & Hleft & Hil & Hjl & Hlall & Hlstop); try lia.
  rewrite Hleft. cbn [fst snd].
  destruct (ScanFacts.extend_right_spec a b ahi bhi
              (Z.to_nat (ahi - (besti - el + (bestsize + el))))
              (besti - el) (bestj - el) (bestsize + el))
    as (er & Her & Hright & Hir & Hjr & Hrall & Hrstop); try lia.
  rewrite Hright.
  replace (besti - el + (bestsize + el)) with (besti + bestsize) in * by lia.
  replace (bestj - el + (bestsize + el)) with (bestj + bestsize) in * by lia.
  exists besti, bestj, bestsize, el, er.
  repeat (split; [first [assumption | reflexivity | lia]|]).
  exact Hrstop.
Qed.

Lemma find_longest_match_bounds alo ahi blo bhi i j k :
  alo <= ahi -> blo <= bhi ->
  find_longest_match a b b2j alo ahi blo bhi = (i, j, k) ->
  alo <= i /\ blo <= j /\ 0 <= k /\ i + k <= ahi /\ j + k <= bhi.
Proof.
  intros Ha Hb Hflm.
  destruct (find_longest_match_spec alo ahi blo bhi Ha Hb)
    as (besti & bestj & bestsize & el & er & Hbest & Heq & Hrest).
  rewrite Hflm in Heq. injection Heq as -> -> ->.
  apply ScanFacts.best_upto_bounds in Hbest; [lia..].
Qed.

(** *** The queue loop *)

Lemma region_total_stable f : forall f' region,
  valid region -> (extent region < f)%nat -> (extent region < f')%nat ->
  region_total a b b2j f region = region_total a b b2j f' region.
Proof.
  induction f as [|f IH]; intros f' [[[alo ahi] blo] bhi] [Ha Hb] Hf Hf';
    [lia|].
  destruct f' as [|f']; [lia|]. cbn [region_total]. cbn [extent] in *.
  destruct (find_longest_match a b b2j alo ahi blo bhi) as [[i j] k] eqn:E.
  destruct (find_longest_match_bounds _ _ _ _ _ _ _ Ha Hb E)
    as (Hi & Hj & Hk & Hik & Hjk).
  destruct (Z.eqb_spec k 0) as [|Hk0]; [reflexivity|].
  f_equal; [f_equal|].
  - destruct (_ && _); [|reflexivity].
    apply IH; [split; lia|cbn [extent]; lia..].
  - destruct (_ && _); [|reflexivity].
    apply IH; [split; lia|cbn [extent]; lia..].
Qed.

Local Abbreviation queue_total := (DifflibSpec.queue_total a b b2j).

Lemma sum_sizes_cons x l : sum_sizes (x :: l) = x.2 + sum_sizes l.
Proof. reflexivity. Qed.

Lemma sum_sizes_app l1 l2 :
  sum_sizes (l1 ++ l2) = sum_sizes l1 + sum_sizes l2.
Proof.
  induction l1 as [|x l1 IH]; [reflexivity|].
  rewrite <- app_comm_cons, !sum_sizes_cons, IH. lia.
Qed.

(** The loop ends within the rounds of its queue, and the sizes of
    the blocks it adds are those of the recursion on each region. *)
Lemma collect_blocks_spec fuel : forall queue blocks,
  Forall valid queue -> (queue_rounds queue <= fuel)%nat ->
  exists found,
    collect_blocks a b b2j fuel queue blocks = Some (blocks ++ found) /\
    sum_sizes found = queue_total queue.
Proof.
  induction fuel as [|fuel IH]; intros queue blocks Hvalid Hfuel.
  - destruct queue as [|[[[alo ahi] blo] bhi] queue];
      [|cbn in Hfuel; lia].
    exists []. rewrite app_nil_r. split; reflexivity.
  - destruct queue as [|[[[alo ahi] blo] bhi] queue].
    { exists []. rewrite app_nil_r. split; reflexivity. }
    apply Forall_cons in Hvalid as [[Ha Hb] Hvalid].
    cbn [collect_blocks].
    unfold queue_total. rewrite fmap_cons. cbn [foldr].
    fold (queue_total queue). cbn [region_rounds region_total].
    unfold queue_rounds in Hfuel. rewrite fmap_cons in Hfuel.
    cbn [foldr region_rounds] in Hfuel. fold (queue_rounds queue) in Hfuel.
    destruct (find_longest_match a b b2j alo ahi blo bhi) as [[i j] k] eqn:E.
    destruct (find_longest_match_bounds _ _ _ _ _ _ _ Ha Hb E)
      as (Hi & Hj & Hk & Hik & Hjk).
    destruct (Z.eqb_spec k 0) as [Hk0|Hk0].
    + destruct (IH queue blocks Hvalid) as (found & Hrun & Hsum); [lia|].
      exists found. split; [exact Hrun|]. lia.
    + set (left := if (alo <? i) && (blo <? j)
                   then [(alo, i, blo, j)] else []).
      set (right := if (i + k <? ahi) && (j + k <? bhi)
                    then [(i + k, ahi, j + k, bhi)] else []).
      destruct (IH (right ++ left ++ queue) (blocks ++ [(i, j, k)]))
        as (found & Hrun & Hsum).
      { repeat apply Forall_app_2; [| |exact Hvalid].
        - unfold right.
          destruct ((i + k <? ahi) && (j + k <? bhi)); [|constructor].
          apply Forall_singleton. split; lia.
        - unfold left.
          destruct ((alo <? i) && (blo <? j)); [|constructor].
          apply Forall_singleton. split; lia. }
      { unfold queue_rounds. rewrite !fmap_app, !foldr_app.
        fold (queue_rounds queue).
        assert (Hshift : forall (l : list nat) (n : nat),
                   foldr Nat.add n l = (foldr Nat.add O l + n)%nat).
        { induction l as [|x l IHl]; intros n; simpl; [lia|].
          rewrite IHl. lia. }
        rewrite (Hshift (region_rounds <$> right)),
                (Hshift (region_rounds <$> left)).
        unfold right, left.
        destruct ((i + k <? ahi) && (j + k <? bhi)),
                 ((alo <? i) && (blo <? j)); simpl; lia. }
      exists ((i, j, k) :: found). split.
      * rewrite Hrun, <- app_assoc. reflexivity.
      * change (sum_sizes ((i, j, k) :: found)) with (k + sum_sizes found).
        rewrite Hsum. unfold queue_total.
        rewrite !fmap_app, !foldr_app. fold (queue_total queue).
        assert (Hshift : forall (l : list Z) (n : Z),
                   foldr Z.add n l = foldr Z.add 0 l + n).
        { induction l as [|x l IHl]; intros n; simpl; [lia|].
          rewrite IHl. lia. }
        rewrite (Hshift (_ <$> right)), (Hshift (_ <$> left)).
        assert (Hl : foldr Z.add 0
                       ((fun region => region_total a b b2j
                                         (region_rounds region) region)
                          <$> left) =
                     if (alo <? i) && (blo <? j)
                     then region_total a b b2j
                            (2 * Z.to_nat (ahi - alo)) (alo, i, blo, j)
                     else 0).
        { unfold left. destruct ((alo <? i) && (blo <? j)); [|reflexivity].
          cbn [foldr fmap list_fmap].
          rewrite Z.add_0_r. apply region_total_stable;
            [split; lia|cbn; lia..]. }
        assert (Hr : foldr Z.add 0
                       ((fun region => region_total a b b2j
                                         (region_rounds region) region)
                          <$> right) =
                     if (i + k <? ahi) && (j + k <? bhi)
                     then region_total a b b2j
                            (2 * Z.to_nat (ahi - alo))
                            (i + k, ahi, j + k, bhi)
                     else 0).
        { unfold right.
          destruct ((i + k <? ahi) && (j + k <? bhi)); [|reflexivity].
          cbn [foldr fmap list_fmap].
          rewrite Z.add_0_r. apply region_total_stable;
            [split; lia|cbn; lia..]. }
        rewrite Hl, Hr. lia.
Qed.

(** *** Sorting and collapsing keep the total size *)

Lemma sum_sizes_perm l1 l2 : l1 ≡ₚ l2 -> sum_sizes l1 = sum_sizes l2.
Proof.
  induction 1; rewrite ?sum_sizes_cons in *; lia.
Qed.

Lemma sum_sizes_collapse blocks : forall cur non_adjacent,
  sum_sizes (collapse cur blocks non_adjacent) =
  sum_sizes non_adjacent + cur.2 + sum_sizes blocks.
Proof.
  induction blocks as [|[[i2 j2] k2] blocks IH];
    intros [[i1 j1] k1] non_adjacent; cbn [collapse snd].
  - destruct (Z.eqb_spec k1 0) as [->|_].
    + unfold sum_sizes at 3. simpl. lia.
    + rewrite sum_sizes_app. unfold sum_sizes at 2 4. simpl. lia.
  - change (sum_sizes ((i2, j2, k2) :: blocks))
      with (k2 + sum_sizes blocks).
    destruct ((i1 + k1 =? i2) && (j1 + k1 =? j2)).
    + rewrite IH. cbn [snd]. lia.
    + rewrite IH. cbn [snd]. destruct (Z.eqb_spec k1 0) as [->|_]; [lia|].
      rewrite sum_sizes_app. unfold sum_sizes at 2. simpl. lia.
Qed.

End Matcher.

(** [ratio()] is [_calculate_ratio] of the total of the recursion on
    the whole of both strings. *)
Lemma ratio_region_total (a b : str) :
  ratio a b =
  calculate_ratio
    (region_total a b (chain_b b) (rounds_bound a)
       (0, Z.of_nat (length a), 0, Z.of_nat (length b)))
    (Z.of_nat (length a) + Z.of_nat (length b)).
Proof.
  unfold ratio. f_equal. fold (sum_sizes (get_matching_blocks a b)).
  unfold get_matching_blocks.
  destruct (IndexFacts.chain_b_indexes b) as (popular & _ & Hidx).
  destruct (collect_blocks_spec a b popular (chain_b b) Hidx
              (rounds_bound a)
              [(0, Z.of_nat (length a), 0, Z.of_nat (length b))] [])
    as (found & Hrun & Hsum).
  { repeat constructor; lia. }
  { unfold queue_rounds, rounds_bound. simpl. lia. }
  rewrite Hrun. cbn [from_option Datatypes.id app].
  rewrite sum_sizes_app, sum_sizes_collapse. cbn [snd].
  rewrite (sum_sizes_perm _ _ (SortFacts.sort_by_perm _ _ found)).
  rewrite Hsum. unfold queue_total, sum_sizes, rounds_bound. simpl.
  replace (Z.to_nat (Z.of_nat (length a) - 0)) with (length a) by lia.
  lia.
Qed.

End MatchFacts.

(** * The ratio in the cases the specification singles out *)

Module EdgeFacts.
Import Difflib DifflibSpec.

Lemma same_at_diag (a : str) x :
  0 <= x < Z.of_nat (length a) -> same_at a a x x = true.
Proof.
  intros Hx. unfold same_at.
  destruct (IndexFacts.at_in_range a x Hx) as [c ->].
  apply bool_decide_eq_true. reflexivity.
Qed.

(** On two equal strings the scan ends on the diagonal, whatever
    is popular, and the extensions then cover the whole string. *)
Lemma find_longest_match_same (a : str) popular b2j :
  indexes a popular b2j ->
  let n := Z.of_nat (length a) in
  find_longest_match a a b2j 0 n 0 n = (0, 0, n).
Proof.
  intros Hidx n.
  destruct (MatchFacts.find_longest_match_spec a a popular b2j Hidx 0 n 0 n)
    as (besti & bestj & bestsize & el & er & Hbest & -> & Hel & Her &
        Hil & Hjl & Hir & Hjr & _ & Hlstop & _ & Hrstop); [lia..|].
  assert (Hsize : 0 <= bestsize).
  { apply ScanFacts.best_upto_bounds in Hbest; lia. }
  assert (Hdiag : besti = bestj).
  { unfold best_upto in Hbest. cbn [fst snd] in Hbest.
    destruct Hbest as (Hpos & _ & Hzero & Hfirst).
    destruct (Z.eq_dec bestsize 0) as [Hz|Hnz];
      [destruct (Hzero Hz); lia|].
    destruct Hfirst as ([Hwi Hwj] & _ & Hrun & Hbefore); [lia|].
    cbn [fst snd] in *.
    set (ei := besti + bestsize - 1) in *.
    set (ej := bestj + bestsize - 1) in *.
    assert (Hge : bestsize <= run_ending a a popular 0 0 ei ej) by lia.
    apply ScanFacts.run_ending_ge in Hge as [Hstart Hall]; [|lia].
    destruct (Z.eq_dec ei ej) as [|Hne]; [lia|]. exfalso.
    set (m := Z.min ei ej).
    assert (Hm : bestsize <= run_ending a a popular 0 0 m m).
    { apply ScanFacts.run_ending_ge; [lia|].
      destruct (Hall (bestsize - 1)) as [Hj0 _]; [lia|].
      split; [lia|]. intros d Hd. destruct (Hall d Hd) as [Hjd Hmd].
      split; [lia|]. unfold matchable in *.
      destruct (at_ a (ei - d)) as [x|] eqn:Hx; [|discriminate].
      destruct (at_ a (ej - d)) as [y|] eqn:Hy; [|discriminate].
      apply andb_true_iff in Hmd as [Hxy Hpop].
      apply bool_decide_eq_true in Hxy as ->.
      assert (Hmd : at_ a (m - d) = Some y).
      { unfold m. destruct (Z.min_spec ei ej) as [[_ ->]|[_ ->]]; assumption. }
      rewrite Hmd, Hpop. rewrite bool_decide_eq_true_2; reflexivity. }
    specialize (Hbefore (m, m)). cbn [fst snd] in Hbefore.
    assert (run_ending a a popular 0 0 m m < bestsize); [|lia].
    apply Hbefore.
    - unfold in_window. cbn [fst snd]. lia.
    - unfold before. cbn [fst snd]. lia. }
  subst bestj. unfold n in *.
  assert (Hleft : besti - el = 0).
  { destruct Hlstop as [?|[?|Hstop]]; [lia..|].
    destruct (Z.eq_dec (besti - el) 0); [assumption|].
    rewrite same_at_diag in Hstop by lia. discriminate. }
  assert (Hright : besti + bestsize + er = Z.of_nat (length a)).
  { destruct Hrstop as [?|[?|Hstop]]; [lia..|].
    destruct (Z.eq_dec (besti + bestsize + er) (Z.of_nat (length a)));
      [assumption|].
    rewrite same_at_diag in Hstop by lia. discriminate. }
  f_equal; [f_equal|]; lia.
Qed.

Lemma region_total_same (a : str) popular b2j fuel :
  indexes a popular b2j ->
  let n := Z.of_nat (length a) in
  region_total a a b2j (S fuel) (0, n, 0, n) = n.
Proof.
  intros Hidx n. subst n. cbn [region_total].
  pose proof (find_longest_match_same a popular b2j Hidx) as Hflm.
  cbv zeta in Hflm. rewrite Hflm.
  rewrite !Z.ltb_irrefl. cbn [andb].
  destruct (Z.eqb_spec (Z.of_nat (length a)) 0); lia.
Qed.

Lemma calculate_ratio_all n :
  0 <= n -> (calculate_ratio n (n + n) == 1)%Q.
Proof.
  intros Hn. unfold calculate_ratio.
  destruct (Z.eqb_spec (n + n) 0) as [|Hne]; [reflexivity|].
  unfold Qeq. cbn [Qnum Qden]. rewrite Z2Pos.id by lia. lia.
Qed.

Lemma calculate_ratio_none n :
  0 < n -> (calculate_ratio 0 n == 0)%Q.
Proof.
  intros Hn. unfold calculate_ratio.
  destruct (Z.eqb_spec n 0) as [|Hne]; [lia|]. reflexivity.
Qed.

(** Equal strings score 1. *)
Lemma ratio_same (a : str) : (ratio a a == 1)%Q.
Proof.
  rewrite MatchFacts.ratio_region_total.
  destruct (IndexFacts.chain_b_indexes a) as (popular & _ & Hidx).
  unfold rounds_bound.
  rewrite (region_total_same a popular (chain_b a) _ Hidx).
  apply calculate_ratio_all. lia.
Qed.

(** An empty first string shares nothing with a non-empty second one. *)
Lemma ratio_nil_l (b : str) : b ≠ [] -> (ratio [] b == 0)%Q.
Proof.
  intros Hb. rewrite MatchFacts.ratio_region_total.
  change (region_total [] b (chain_b b) (rounds_bound [])
            (0, Z.of_nat (length (@nil ascii)), 0, Z.of_nat (length b)))
    with 0.
  apply calculate_ratio_none. destruct b; [done|]. simpl. lia.
Qed.

Lemma scan_rows_empty_index (a : str) blo bhi rows : forall j2len best,
  scan_rows a ∅ blo bhi rows j2len best = best.
Proof.
  induction rows as [|i rows IH]; intros j2len best; [reflexivity|].
  cbn [scan_rows]. destruct (at_ a i); rewrite ?lookup_empty; apply IH.
Qed.

(** A non-empty first string shares nothing with an empty second one. *)
Lemma ratio_nil_r (a : str) : a ≠ [] -> (ratio a [] == 0)%Q.
Proof.
  intros Ha. rewrite MatchFacts.ratio_region_total.
  assert (Hflm : find_longest_match a [] (chain_b [])
                   0 (Z.of_nat (length a)) 0 (Z.of_nat (length (@nil ascii)))
                 = (0, 0, 0)).
  { unfold find_longest_match. change (chain_b []) with (∅ : gmap ascii (list Z)).
    rewrite scan_rows_empty_index. cbn [fst snd].
    change (Z.to_nat (0 - 0)) with O. cbn [extend_left].
    destruct (Z.to_nat _); [reflexivity|].
    cbn [extend_right]. change (Z.of_nat (length (@nil ascii))) with 0.
    change (0 + 0) with 0. rewrite Z.ltb_irrefl, andb_false_r.
    reflexivity. }
  unfold rounds_bound. cbn [region_total]. rewrite Hflm. cbn.
  apply calculate_ratio_none. destruct a; [done|]. simpl. lia.
Qed.

End EdgeFacts.

(** * The longest common substring, as specified *)

Module SpecFacts.
Import DifflibSpec.
Local Open Scope nat_scope.

Lemma elem_of_starts (x y : str) i j :
  (i, j) ∈ starts x y <-> i <= length x /\ j <= length y.
Proof.
  unfold starts. rewrite list_elem_of_bind. split.
  - intros (i' & Hj & Hi). apply list_elem_of_fmap in Hj as (j' & [= -> ->] & Hj).
    apply elem_of_seq in Hi, Hj. lia.
  - intros [Hi Hj]. exists i. split.
    + apply list_elem_of_fmap. exists j. split; [reflexivity|].
      apply elem_of_seq. lia.
    + apply elem_of_seq. lia.
Qed.

Lemma seq_sorted m : forall s, StronglySorted lt (seq s m).
Proof.
  induction m as [|m IH]; intros s; [constructor|].
  cbn [seq]. constructor; [apply IH|].
  apply Forall_forall. intros j Hj. apply elem_of_seq in Hj. lia.
Qed.

Lemma row_sorted i m :
  StronglySorted lex_lt ((fun j => (i, j)) <$> seq 0 m).
Proof.
  apply (StronglySorted_fmap _ lt).
  - intros j j' Hlt. right. simpl. lia.
  - apply seq_sorted.
Qed.

Lemma rows_sorted m n : forall s,
  StronglySorted lex_lt (i ← seq s n; (fun j => (i, j)) <$> seq 0 m).
Proof.
  induction n as [|n IH]; intros s; [constructor|].
  cbn [seq]. rewrite bind_cons. apply StronglySorted_app_2.
  - intros [i1 j1] [i2 j2] H1 H2.
    apply list_elem_of_fmap in H1 as (? & [= -> ->] & _).
    apply list_elem_of_bind in H2 as (i' & H2 & Hi').
    apply list_elem_of_fmap in H2 as (? & [= -> ->] & _).
    apply elem_of_seq in Hi'. left. simpl. lia.
  - apply row_sorted.
  - apply IH.
Qed.

Lemma starts_sorted (x y : str) : StronglySorted lex_lt (starts x y).
Proof. apply rows_sorted. Qed.

Lemma common_at_range (x y : str) i j k :
  common_at x y i j k -> i + k <= length x /\ j + k <= length y.
Proof. unfold common_at. tauto. Qed.

Lemma first_common_Some (x y : str) k i j :
  first_common x y k = Some (i, j) ->
  common_at x y i j k /\
  forall i' j', common_at x y i' j' k ->
                (i, j) = (i', j') \/ lex_lt (i, j) (i', j').
Proof.
  unfold first_common. intros Hhead. split.
  - apply head_Some_elem_of, list_elem_of_filter in Hhead as [H _]. exact H.
  - intros i' j' Hc.
    apply head_filter_Some in Hhead as (l1 & l2 & Hl & Hnone).
    assert (Hin : (i', j') ∈ starts x y).
    { apply elem_of_starts. apply common_at_range in Hc. lia. }
    pose proof (starts_sorted x y) as Hs. rewrite Hl in Hs, Hin.
    apply elem_of_app in Hin as [Hin|Hin].
    + rewrite Forall_forall in Hnone. exfalso. exact (Hnone _ Hin Hc).
    + apply elem_of_cons in Hin as [Hin|Hin]; [left; congruence|right].
      apply StronglySorted_app_1_r, StronglySorted_cons in Hs as [Hs _].
      rewrite Forall_forall in Hs. exact (Hs _ Hin).
Qed.

Lemma first_common_None (x y : str) k i j :
  first_common x y k = None -> ~ common_at x y i j k.
Proof.
  unfold first_common. intros Hhead Hc.
  assert (Hin : (i, j) ∈
            filter (fun p => common_at x y p.1 p.2 k) (starts x y)).
  { apply list_elem_of_filter. split; [exact Hc|].
    apply elem_of_starts. apply common_at_range in Hc. lia. }
  destruct (filter _ (starts x y)); [inversion Hin|discriminate].
Qed.

Lemma longest_upto_spec (x y : str) n :
  match longest_upto x y n with
  | None => forall i j k, 1 <= k <= n -> ~ common_at x y i j k
  | Some (i, j, k) =>
      1 <= k <= n /\ common_at x y i j k /\
      (forall i' j' k', k < k' <= n -> ~ common_at x y i' j' k') /\
      (forall i' j', common_at x y i' j' k ->
                     (i, j) = (i', j') \/ lex_lt (i, j) (i', j'))
  end.
Proof.
  induction n as [|n IH]; cbn [longest_upto]; [intros; lia|].
  destruct (first_common x y (S n)) as [[i j]|] eqn:Hfirst.
  - apply first_common_Some in Hfirst as [Hc Hmin].
    split; [lia|]. split; [exact Hc|]. split; [intros; lia|exact Hmin].
  - destruct (longest_upto x y n) as [[[i j] k]|].
    + destruct IH as (Hk & Hc & Hlonger & Hmin).
      split; [lia|]. split; [exact Hc|]. split; [|exact Hmin].
      intros i' j' k' Hk'. destruct (decide (k' = S n)) as [->|Hne].
      * apply first_common_None, Hfirst.
      * apply Hlonger. lia.
    + intros i j k Hk. destruct (decide (k = S n)) as [->|Hne].
      * apply first_common_None, Hfirst.
      * apply IH. lia.
Qed.

(** What [longest_common_substring] returns: nothing when the strings
    share no element; otherwise a common block that no common block
    exceeds in length, the first in lexicographic order among the
    common blocks of its length. *)
Lemma longest_common_substring_spec (x y : str) :
  match longest_common_substring x y with
  | None => forall i j k, 1 <= k -> ~ common_at x y i j k
  | Some (i, j, k) =>
      1 <= k /\ common_at x y i j k /\
      (forall i' j' k', k < k' -> ~ common_at x y i' j' k') /\
      (forall i' j', common_at x y i' j' k ->
                     (i, j) = (i', j') \/ lex_lt (i, j) (i', j'))
  end.
Proof.
  unfold longest_common_substring.
  pose proof (longest_upto_spec x y (min (length x) (length y))) as H.
  assert (Hrange : forall i j k, min (length x) (length y) < k ->
                                 ~ common_at x y i j k).
  { intros i j k Hk Hc. apply common_at_range in Hc. lia. }
  destruct (longest_upto x y _) as [[[i j] k]|].
  - destruct H as (Hk & Hc & Hlonger & Hmin).
    split; [lia|]. split; [exact Hc|]. split; [|exact Hmin].
    intros i' j' k' Hk'.
    destruct (decide (k' <= min (length x) (length y))).
    + apply Hlonger. lia.
    + apply Hrange. lia.
  - intros i j k Hk.
    destruct (decide (k <= min (length x) (length y))).
    + apply H. lia.
    + apply Hrange. lia.
Qed.

Lemma longest_common_substring_nil_l (y : str) :
  longest_common_substring [] y = None.
Proof. reflexivity. Qed.

Lemma longest_common_substring_nil_r (x : str) :
  longest_common_substring x [] = None.
Proof.
  unfold longest_common_substring. simpl length.
  rewrite Nat.min_0_r. reflexivity.
Qed.

Lemma matches_nil_l fuel (y : str) : matches fuel [] y = 0.
Proof. destruct fuel; reflexivity. Qed.

Lemma matches_nil_r fuel (x : str) : matches fuel x [] = 0.
Proof.
  destruct fuel; [reflexivity|]. cbn [matches].
  rewrite longest_common_substring_nil_r. reflexivity.
Qed.

(** The recursion does not depend on its depth bound once that is at
    least the length of the first string. *)
Lemma matches_stable f : forall f' (x y : str),
  length x <= f -> length x <= f' -> matches f x y = matches f' x y.
Proof.
  induction f as [|f IH]; intros f' x y Hf Hf'.
  - destruct x; [|simpl in Hf; lia]. rewrite !matches_nil_l. reflexivity.
  - destruct f' as [|f'].
    { destruct x; [|simpl in Hf'; lia]. rewrite !matches_nil_l. reflexivity. }
    cbn [matches].
    pose proof (longest_common_substring_spec x y) as Hspec.
    destruct (longest_common_substring x y) as [[[i j] k]|]; [|reflexivity].
    destruct Hspec as (Hk & Hc & _). apply common_at_range in Hc.
    f_equal; [f_equal|].
    + apply IH; rewrite length_take; lia.
    + apply IH; rewrite length_drop; lia.
Qed.

End SpecFacts.

(** * Without popular elements the matcher finds the specified blocks *)

Module RefineFacts.
Import Difflib DifflibSpec.

Lemma slice_alt {A} (xs : list A) lo hi :
  0 <= lo <= hi ->
  Py.slice xs lo hi = drop (Z.to_nat lo) (take (Z.to_nat hi) xs).
Proof.
  intros H. unfold Py.slice. rewrite take_drop_commute.
  do 2 f_equal. lia.
Qed.

Lemma length_slice {A} (xs : list A) lo hi :
  0 <= lo <= hi -> hi <= Z.of_nat (length xs) ->
  length (Py.slice xs lo hi) = Z.to_nat (hi - lo).
Proof.
  intros H Hhi. unfold Py.slice. rewrite length_take, length_drop. lia.
Qed.

Lemma slice_take {A} (xs : list A) lo mid hi :
  0 <= lo <= mid -> mid <= hi ->
  take (Z.to_nat (mid - lo)) (Py.slice xs lo hi) = Py.slice xs lo mid.
Proof.
  intros H1 H2. unfold Py.slice. rewrite take_take. f_equal. lia.
Qed.

Lemma slice_drop {A} (xs : list A) lo mid hi :
  0 <= lo <= mid -> mid <= hi ->
  drop (Z.to_nat (mid - lo)) (Py.slice xs lo hi) = Py.slice xs mid hi.
Proof.
  intros H1 H2. rewrite !slice_alt by lia. rewrite drop_drop.
  f_equal. lia.
Qed.

Lemma slice_all {A} (xs : list A) :
  Py.slice xs 0 (Z.of_nat (length xs)) = xs.
Proof.
  unfold Py.slice. rewrite Z.sub_0_r, Nat2Z.id. simpl. apply firstn_all.
Qed.

Lemma at_slice (xs : str) lo hi d :
  0 <= lo -> 0 <= d < hi - lo ->
  at_ (Py.slice xs lo hi) d = at_ xs (lo + d).
Proof.
  intros Hlo Hd. unfold at_, Py.slice.
  rewrite (proj2 (Z.ltb_ge d 0)), (proj2 (Z.ltb_ge (lo + d) 0)) by lia.
  rewrite lookup_take_lt by lia. rewrite lookup_drop. f_equal. lia.
Qed.

Section Window.
Variables (a b : str) (b2j : gmap ascii (list Z)).
Hypothesis b2j_indexes : indexes b none_popular b2j.
Variables (alo ahi blo bhi : Z).
Hypothesis a_bounds : 0 <= alo <= ahi /\ ahi <= Z.of_nat (length a).
Hypothesis b_bounds : 0 <= blo <= bhi /\ bhi <= Z.of_nat (length b).

Local Abbreviation x := (Py.slice a alo ahi).
Local Abbreviation y := (Py.slice b blo bhi).
Local Abbreviation matchable := (matchable a b none_popular).
Local Abbreviation run_ending := (run_ending a b none_popular alo blo).

Lemma matchable_same_at i j : matchable i j = same_at a b i j.
Proof.
  unfold DifflibSpec.matchable, same_at, none_popular.
  destruct (at_ a i), (at_ b j); try reflexivity. apply andb_true_r.
Qed.

Lemma matchable_iff i j :
  matchable i j = true <->
  exists c, at_ a i = Some c /\ at_ b j = Some c.
Proof.
  unfold DifflibSpec.matchable, none_popular.
  destruct (at_ a i) as [c|], (at_ b j) as [c'|]; cbn [negb];
    rewrite ?andb_true_r, ?bool_decide_eq_true.
  - split; [intros ->; eauto|intros (? & [= ->] & [= ->]); reflexivity].
  - split; [discriminate|intros (? & _ & ?); discriminate].
  - split; [discriminate|intros (? & ? & _); discriminate].
  - split; [discriminate|intros (? & ? & _); discriminate].
Qed.

(** A common block of the two slices, in the indices of the whole
    strings. *)
Lemma common_at_matchable (i j k : nat) :
  common_at x y i j k <->
  Z.of_nat (i + k) <= ahi - alo /\ Z.of_nat (j + k) <= bhi - blo /\
  forall d, 0 <= d < Z.of_nat k ->
    matchable (alo + Z.of_nat i + d) (blo + Z.of_nat j + d) = true.
Proof.
  unfold common_at. rewrite !length_slice by lia.
  split.
  - intros (Hi & Hj & Heq). split; [lia|]. split; [lia|].
    intros d Hd. apply matchable_iff.
    assert (Hx : at_ x (Z.of_nat i + d) = at_ y (Z.of_nat j + d)).
    { unfold at_.
      rewrite (proj2 (Z.ltb_ge (Z.of_nat i + d) 0)),
              (proj2 (Z.ltb_ge (Z.of_nat j + d) 0)) by lia.
      pose proof (f_equal (fun l => l !! Z.to_nat d) Heq) as Hd'.
      cbv beta in Hd'. rewrite !lookup_take_lt, !lookup_drop in Hd' by lia.
      replace (Z.to_nat (Z.of_nat i + d)) with (i + Z.to_nat d)%nat by lia.
      replace (Z.to_nat (Z.of_nat j + d)) with (j + Z.to_nat d)%nat by lia.
      exact Hd'. }
    rewrite !at_slice in Hx by lia.
    destruct (IndexFacts.at_in_range a (alo + (Z.of_nat i + d))) as [c Hc];
      [lia|].
    exists c. rewrite !Z.add_assoc in *. split; [exact Hc|].
    rewrite <- Hx. exact Hc.
  - intros (Hi & Hj & Hall). split; [lia|]. split; [lia|].
    apply list_eq. intros n. rewrite !lookup_take.
    destruct (decide (n < k)%nat) as [Hn|]; [|reflexivity].
    rewrite !lookup_drop.
    assert (Hm : matchable (alo + Z.of_nat i + Z.of_nat n)
                           (blo + Z.of_nat j + Z.of_nat n) = true)
      by (apply Hall; lia).
    apply matchable_iff in Hm as (c & Ha & Hb).
    rewrite <- Z.add_assoc in Ha, Hb.
    rewrite <- at_slice with (hi := ahi) in Ha by lia.
    rewrite <- at_slice with (hi := bhi) in Hb by lia.
    apply IndexFacts.at_Some in Ha as [_ Ha'].
    apply IndexFacts.at_Some in Hb as [_ Hb'].
    replace (Z.to_nat (Z.of_nat i + Z.of_nat n)) with (i + n)%nat in Ha' by lia.
    replace (Z.to_nat (Z.of_nat j + Z.of_nat n)) with (j + n)%nat in Hb' by lia.
    congruence.
Qed.

(** A run of length at least [k] ends where a block of length [k]
    ends. *)
Lemma run_ending_block i j k :
  1 <= k ->
  (k <= run_ending (i + k - 1) (j + k - 1) <->
   alo <= i /\ blo <= j /\
   forall d, 0 <= d < k -> matchable (i + d) (j + d) = true).
Proof.
  intros Hk. rewrite ScanFacts.run_ending_ge by assumption. split.
  - intros [Hi Hall]. split; [lia|].
    destruct (Hall (k - 1)) as [Hj _]; [lia|]. split; [lia|].
    intros d Hd. destruct (Hall (k - 1 - d)) as [_ Hm]; [lia|].
    replace (i + k - 1 - (k - 1 - d)) with (i + d) in Hm by lia.
    replace (j + k - 1 - (k - 1 - d)) with (j + d) in Hm by lia.
    exact Hm.
  - intros (Hi & Hj & Hall). split; [lia|]. intros d Hd.
    split; [lia|]. specialize (Hall (k - 1 - d)).
    replace (i + (k - 1 - d)) with (i + k - 1 - d) in Hall by lia.
    replace (j + (k - 1 - d)) with (j + k - 1 - d) in Hall by lia.
    apply Hall. lia.
Qed.

Lemma common_at_run (i j k : nat) :
  (1 <= k)%nat ->
  (common_at x y i j k <->
   Z.of_nat (i + k) <= ahi - alo /\ Z.of_nat (j + k) <= bhi - blo /\
   Z.of_nat k <=
     run_ending (alo + Z.of_nat i + Z.of_nat k - 1)
                (blo + Z.of_nat j + Z.of_nat k - 1)).
Proof.
  intros Hk. rewrite common_at_matchable, run_ending_block by lia.
  split; [intros (? & ? & ?)|intros (? & ? & _ & _ & ?)];
    repeat (split; [first [assumption | lia]|]); assumption.
Qed.

Local Abbreviation best_upto :=
  (best_upto a b none_popular alo ahi blo bhi).

(** With nothing popular the two extension loops have nothing to add:
    [find_longest_match] returns what the scan found. *)
Lemma find_longest_match_scan :
  exists besti bestj bestsize,
    find_longest_match a b b2j alo ahi blo bhi = (besti, bestj, bestsize) /\
    best_upto (ahi, blo) (besti, bestj, bestsize).
Proof.
  destruct (MatchFacts.find_longest_match_spec a b none_popular b2j
              b2j_indexes alo ahi blo bhi)
    as (besti & bestj & bestsize & el & er & Hbest & Hflm & Hel & Her &
        Hil & Hjl & Hir & Hjr & Hlall & _ & Hrall & _); [lia..|].
  exists besti, bestj, bestsize. split; [|exact Hbest].
  pose proof (ScanFacts.best_upto_bounds a b none_popular alo ahi blo bhi
                ltac:(lia) _ _ _ _ ltac:(lia) Hbest)
    as (Hbi & Hbj & Hbs & Hbie & Hbje).
  unfold DifflibSpec.best_upto in Hbest. cbn [fst snd] in Hbest.
  destruct Hbest as (_ & Hbound & Hzero & Hfirst).
  assert (Hblock : forall d, 0 <= d < bestsize ->
             matchable (besti + d) (bestj + d) = true).
  { intros d Hd. destruct Hfirst as (_ & _ & Hrun & _); [lia|].
    assert (Hge : bestsize <=
              run_ending (besti + bestsize - 1) (bestj + bestsize - 1))
      by lia.
    apply run_ending_block in Hge as (_ & _ & Hall); [|lia].
    apply Hall, Hd. }
  assert (Hel0 : el = 0).
  { destruct (Z.eq_dec el 0) as [|Hne]; [assumption|]. exfalso.
    destruct (Z.eq_dec bestsize 0) as [Hz|Hnz];
      [destruct (Hzero Hz); lia|].
    destruct Hfirst as (_ & _ & Hrun & _); [lia|].
    assert (Hge : bestsize + 1 <=
              run_ending (besti - 1 + (bestsize + 1) - 1)
                         (bestj - 1 + (bestsize + 1) - 1)).
    { apply run_ending_block; [lia|]. split; [lia|]. split; [lia|].
      intros d Hd. destruct (Z.eq_dec d 0) as [->|Hd0].
      - rewrite !Z.add_0_r, matchable_same_at. apply Hlall. lia.
      - replace (besti - 1 + d) with (besti + (d - 1)) by lia.
        replace (bestj - 1 + d) with (bestj + (d - 1)) by lia.
        apply Hblock. lia. }
    replace (besti - 1 + (bestsize + 1) - 1)
      with (besti + bestsize - 1) in Hge by lia.
    replace (bestj - 1 + (bestsize + 1) - 1)
      with (bestj + bestsize - 1) in Hge by lia.
    lia. }
  assert (Her0 : er = 0).
  { destruct (Z.eq_dec er 0) as [|Hne]; [assumption|]. exfalso.
    assert (Hge : bestsize + 1 <=
              run_ending (besti + (bestsize + 1) - 1)
                         (bestj + (bestsize + 1) - 1)).
    { apply run_ending_block; [lia|]. split; [lia|]. split; [lia|].
      intros d Hd. destruct (Z.eq_dec d bestsize) as [->|Hd0].
      - rewrite matchable_same_at.
        specialize (Hrall 0). rewrite !Z.add_0_r in Hrall.
        apply Hrall. lia.
      - apply Hblock. lia. }
    replace (besti + (bestsize + 1) - 1) with (besti + bestsize) in Hge
      by lia.
    replace (bestj + (bestsize + 1) - 1) with (bestj + bestsize) in Hge
      by lia.
    specialize (Hbound (besti + bestsize, bestj + bestsize)).
    cbn [fst snd] in Hbound.
    assert (run_ending (besti + bestsize) (bestj + bestsize) <= bestsize);
      [|lia].
    apply Hbound.
    - unfold in_window. cbn [fst snd]. lia.
    - unfold before. cbn [fst snd]. lia. }
  rewrite Hflm. subst el er. f_equal; [f_equal|]; lia.
Qed.

(** [find_longest_match] on a region returns the longest common
    substring of the two slices, moved to the region. *)
Lemma find_longest_match_longest :
  match longest_common_substring x y with
  | None => exists i j, find_longest_match a b b2j alo ahi blo bhi = (i, j, 0)
  | Some (i, j, k) =>
      find_longest_match a b b2j alo ahi blo bhi =
        (alo + Z.of_nat i, blo + Z.of_nat j, Z.of_nat k)
  end.
Proof.
  destruct find_longest_match_scan
    as (besti & bestj & bestsize & -> & Hbest).
  pose proof (ScanFacts.best_upto_bounds a b none_popular alo ahi blo bhi
                ltac:(lia) _ _ _ _ ltac:(lia) Hbest)
    as (Hbi & Hbj & Hbs & Hbie & Hbje).
  unfold DifflibSpec.best_upto in Hbest. cbn [fst snd] in Hbest.
  destruct Hbest as (_ & Hbound & Hzero & Hfirst).
  (* what the scan found is a common block of the slices *)
  assert (Hfound : 0 < bestsize ->
            common_at x y (Z.to_nat (besti - alo)) (Z.to_nat (bestj - blo))
              (Z.to_nat bestsize)).
  { intros Hpos. destruct Hfirst as (_ & _ & Hrun & _); [lia|].
    apply common_at_run; [lia|]. split; [lia|]. split; [lia|].
    replace (alo + Z.of_nat (Z.to_nat (besti - alo)) +
             Z.of_nat (Z.to_nat bestsize) - 1)
      with (besti + bestsize - 1) by lia.
    replace (blo + Z.of_nat (Z.to_nat (bestj - blo)) +
             Z.of_nat (Z.to_nat bestsize) - 1)
      with (bestj + bestsize - 1) by lia.
    lia. }
  (* every common block of the slices is a run the scan has seen *)
  assert (Hseen : forall i j k : nat, (1 <= k)%nat ->
            common_at x y i j k ->
            Z.of_nat k <= bestsize /\
            (Z.of_nat k = bestsize ->
             ~ before (alo + Z.of_nat i + Z.of_nat k - 1,
                       blo + Z.of_nat j + Z.of_nat k - 1)
                      (besti + bestsize - 1, bestj + bestsize - 1))).
  { intros i j k Hk Hc. apply common_at_run in Hc as (Hi & Hj & Hrun);
      [|assumption].
    set (p := (alo + Z.of_nat i + Z.of_nat k - 1,
               blo + Z.of_nat j + Z.of_nat k - 1)) in *.
    assert (Hw : in_window alo ahi blo bhi p).
    { unfold in_window, p. cbn [fst snd]. lia. }
    assert (Hle : run_ending p.1 p.2 <= bestsize).
    { apply Hbound; [exact Hw|]. unfold before, p. cbn [fst snd]. lia. }
    unfold p in Hle. cbn [fst snd] in Hle. split; [lia|].
    intros Heq Hbefore. destruct Hfirst as (_ & _ & _ & Hlt); [lia|].
    specialize (Hlt p Hw Hbefore). unfold p in Hlt.
    cbn [fst snd] in Hlt. lia. }
  pose proof (SpecFacts.longest_common_substring_spec x y) as Hspec.
  destruct (longest_common_substring x y) as [[[i j] k]|].
  - destruct Hspec as (Hk & Hc & Hlonger & Hmin).
    destruct (Hseen i j k Hk Hc) as [Hle Hnot].
    assert (Hpos : 0 < bestsize) by lia.
    specialize (Hfound Hpos).
    assert (Hsize : Z.of_nat k = bestsize).
    { destruct (Z.eq_dec (Z.of_nat k) bestsize); [assumption|].
      exfalso.
      apply (Hlonger (Z.to_nat (besti - alo)) (Z.to_nat (bestj - blo))
               (Z.to_nat bestsize)); [lia|exact Hfound]. }
    specialize (Hnot Hsize).
    replace (Z.to_nat bestsize) with k in Hfound by lia.
    destruct (Hmin _ _ Hfound) as [Heq|Hlt].
    + injection Heq as -> ->. f_equal; [f_equal|]; lia.
    + exfalso. apply Hnot. unfold before, lex_lt in *.
      cbn [fst snd] in *. lia.
  - destruct (Z.eq_dec bestsize 0) as [->|Hne]; [eauto|].
    exfalso. assert (Hpos : 0 < bestsize) by lia.
    apply (Hspec (Z.to_nat (besti - alo)) (Z.to_nat (bestj - blo))
             (Z.to_nat bestsize)); [lia|exact (Hfound Hpos)].
Qed.

End Window.
End RefineFacts.

Module RatioFacts.
Import Difflib DifflibSpec RefineFacts.

Section Matcher.
Variables (a b : str) (b2j : gmap ascii (list Z)).
Hypothesis b2j_indexes : indexes b none_popular b2j.

(** The recursion on regions computes the total of the specified
    recursion on the slices. *)
Lemma region_total_matches f : forall alo ahi blo bhi,
  0 <= alo <= ahi /\ ahi <= Z.of_nat (length a) ->
  0 <= blo <= bhi /\ bhi <= Z.of_nat (length b) ->
  (Z.to_nat (ahi - alo) < f)%nat ->
  region_total a b b2j f (alo, ahi, blo, bhi) =
  Z.of_nat (matches f (Py.slice a alo ahi) (Py.slice b blo bhi)).
Proof.
  induction f as [|f IH]; intros alo ahi blo bhi Ha Hb Hf; [lia|].
  cbn [region_total matches].
  pose proof (find_longest_match_longest a b b2j b2j_indexes
                alo ahi blo bhi Ha Hb) as Hflm.
  pose proof (SpecFacts.longest_common_substring_spec
                (Py.slice a alo ahi) (Py.slice b blo bhi)) as Hspec.
  destruct (longest_common_substring _ _) as [[[i j] k]|].
  - rewrite Hflm. destruct Hspec as (Hk & Hc & _).
    apply SpecFacts.common_at_range in Hc as [Hi Hj].
    rewrite !length_slice in Hi, Hj by lia.
    rewrite (proj2 (Z.eqb_neq (Z.of_nat k) 0)) by lia.
    rewrite !Nat2Z.inj_add. f_equal; [f_equal|].
    + destruct (Z.ltb_spec alo (alo + Z.of_nat i)) as [Hi0|Hi0];
        [destruct (Z.ltb_spec blo (blo + Z.of_nat j)) as [Hj0|Hj0]|];
        cbn [andb].
      * rewrite IH by lia.
        rewrite <- (slice_take a alo (alo + Z.of_nat i) ahi) by lia.
        rewrite <- (slice_take b blo (blo + Z.of_nat j) bhi) by lia.
        do 3 f_equal; lia.
      * replace j with O by lia. rewrite take_0.
        rewrite SpecFacts.matches_nil_r. reflexivity.
      * replace i with O by lia. rewrite take_0.
        rewrite SpecFacts.matches_nil_l. reflexivity.
    + destruct (Z.ltb_spec (alo + Z.of_nat i + Z.of_nat k) ahi) as [Hi0|Hi0];
        [destruct (Z.ltb_spec (blo + Z.of_nat j + Z.of_nat k) bhi)
           as [Hj0|Hj0]|];
        cbn [andb].
      * rewrite IH by lia.
        rewrite <- (slice_drop a alo (alo + Z.of_nat i + Z.of_nat k) ahi)
          by lia.
        rewrite <- (slice_drop b blo (blo + Z.of_nat j + Z.of_nat k) bhi)
          by lia.
        do 3 f_equal; lia.
      * rewrite (drop_ge (Py.slice b blo bhi))
          by (rewrite length_slice; lia).
        rewrite SpecFacts.matches_nil_r. reflexivity.
      * rewrite (drop_ge (Py.slice a alo ahi))
          by (rewrite length_slice; lia).
        rewrite SpecFacts.matches_nil_l. reflexivity.
  - destruct Hflm as (i & j & ->). reflexivity.
Qed.

End Matcher.

(** For a second string of fewer than 200 elements, [ratio()] is the
    Ratcliff-Obershelp ratio. *)
Lemma ratio_ratcliff_obershelp (a b : str) :
  Z.of_nat (length b) < 200 -> ratio a b = ratcliff_obershelp a b.
Proof.
  intros Hshort. rewrite MatchFacts.ratio_region_total.
  destruct (IndexFacts.chain_b_indexes b) as (popular & Hnone & Hidx).
  assert (Hidx' : indexes b none_popular (chain_b b)).
  { intros c. rewrite Hidx, (Hnone Hshort c). reflexivity. }
  rewrite (region_total_matches a b (chain_b b) Hidx');
    [|lia|lia|unfold rounds_bound; lia].
  rewrite !slice_all.
  rewrite (SpecFacts.matches_stable _ (length a))
    by (unfold rounds_bound; lia).
  reflexivity.
Qed.

End RatioFacts.

(** * The similarity score *)

(** C3, as the code behaves. The score is computed on the lower-cased,
    stripped names. When the second of them has fewer than 200
    characters it is the Ratcliff-Obershelp ratio [2 * M / T]: [M] adds
    up the longest common substring (the first one, by position in the
    first and then in the second string, among the longest) and what the
    same search finds to its left and to its right, and [T] is the sum of
    the two lengths. For all names: two empty normalized names score 1,
    an empty and a non-empty one score 0, and equal normalized names
    score 1. *)
Theorem calculate_similarity_ratio (name1 name2 : str) :
  let a := Text.strip (Text.lower name1) in
  let b := Text.strip (Text.lower name2) in
  (Z.of_nat (length b) < 200 ->
   Similarity.calculate_similarity name1 name2 =
   DifflibSpec.ratcliff_obershelp a b) /\
  (a = [] -> b = [] ->
   (Similarity.calculate_similarity name1 name2 == 1)%Q) /\
  (a = [] -> b ≠ [] ->
   (Similarity.calculate_similarity name1 name2 == 0)%Q) /\
  (a ≠ [] -> b = [] ->
   (Similarity.calculate_similarity name1 name2 == 0)%Q) /\
  (a = b -> (Similarity.calculate_similarity name1 name2 == 1)%Q).
Proof.
  intros a b. unfold Similarity.calculate_similarity. fold a b.
  split; [apply RatioFacts.ratio_ratcliff_obershelp|].
  split; [intros -> ->; reflexivity|].
  split; [intros ->; apply EdgeFacts.ratio_nil_l|].
  split; [intros Ha ->; apply EdgeFacts.ratio_nil_r, Ha|].
  intros ->. apply EdgeFacts.ratio_same.
Qed.

Lemma calculate_similarity_ratio_witness :
  Text.strip (Text.lower (Text.lit "John Doe")) =
    Text.strip (Text.lower (Text.lit "  JOHN DOE  ")) /\
  (Similarity.calculate_similarity
     (Text.lit "John Doe") (Text.lit "  JOHN DOE  ") == 1)%Q.
Proof.
  assert (H : Text.strip (Text.lower (Text.lit "John Doe")) =
              Text.strip (Text.lower (Text.lit "  JOHN DOE  ")))
    by reflexivity.
  split; [exact H|].
  apply (calculate_similarity_ratio
           (Text.lit "John Doe") (Text.lit "  JOHN DOE  ")), H.
Defined.

(** C3, as stated, fails for long names: with 200 characters in the
    second name every character that fills more than 1% of it is left
    out of the search, and the score of [x_then_a] against [only_a] is 0
    where the Ratcliff-Obershelp ratio is 398/400. *)
Lemma calculate_similarity_long_names :
  Similarity.calculate_similarity Inputs.x_then_a Inputs.only_a = 0 # 400 /\
  DifflibSpec.ratcliff_obershelp
    (Text.strip (Text.lower Inputs.x_then_a))
    (Text.strip (Text.lower Inputs.only_a)) = 398 # 400 /\
  ~ (Similarity.calculate_similarity Inputs.x_then_a Inputs.only_a ==
     DifflibSpec.ratcliff_obershelp
       (Text.strip (Text.lower Inputs.x_then_a))
       (Text.strip (Text.lower Inputs.only_a)))%Q.
Proof.
  assert (H1 : Similarity.calculate_similarity Inputs.x_then_a Inputs.only_a
               = 0 # 400) by (vm_compute; reflexivity).
  assert (H2 : DifflibSpec.ratcliff_obershelp
                 (Text.strip (Text.lower Inputs.x_then_a))
                 (Text.strip (Text.lower Inputs.only_a)) = 398 # 400)
    by (vm_compute; reflexivity).
  split; [exact H1|]. split; [exact H2|].
  rewrite H1, H2. unfold Qeq. simpl. lia.
Qed.

(** C4, the part that holds. The score does not depend on the order of
    the two names when their normalized forms are equal or one of them is
    empty. *)
Theorem calculate_similarity_symmetric_cases (name1 name2 : str) :
  let a := Text.strip (Text.lower name1) in
  let b := Text.strip (Text.lower name2) in
  a = b \/ a = [] \/ b = [] ->
  (Similarity.calculate_similarity name1 name2 ==
   Similarity.calculate_similarity name2 name1)%Q.
Proof.
  intros a b H. unfold Similarity.calculate_similarity. fold a b.
  destruct H as [->|[->| ->]]; [reflexivity| |].
  - destruct b as [|c b]; [reflexivity|].
    rewrite EdgeFacts.ratio_nil_l, EdgeFacts.ratio_nil_r by discriminate.
    reflexivity.
  - destruct a as [|c a]; [reflexivity|].
    rewrite EdgeFacts.ratio_nil_l, EdgeFacts.ratio_nil_r by discriminate.
    reflexivity.
Qed.

Lemma calculate_similarity_symmetric_cases_witness :
  (Text.strip (Text.lower (Text.lit "John Doe")) =
     Text.strip (Text.lower (Text.lit " JOHN DOE")) \/
   Text.strip (Text.lower (Text.lit "John Doe")) = [] \/
   Text.strip (Text.lower (Text.lit " JOHN DOE")) = []) /\
  (Similarity.calculate_similarity (Text.lit "John Doe") (Text.lit " JOHN DOE")
   == Similarity.calculate_similarity
        (Text.lit " JOHN DOE") (Text.lit "John Doe"))%Q.
Proof.
  assert (H : Text.strip (Text.lower (Text.lit "John Doe")) =
                Text.strip (Text.lower (Text.lit " JOHN DOE")) \/
              Text.strip (Text.lower (Text.lit "John Doe")) = [] \/
              Text.strip (Text.lower (Text.lit " JOHN DOE")) = [])
    by (left; reflexivity).
  split; [exact H|].
  apply (calculate_similarity_symmetric_cases
           (Text.lit "John Doe") (Text.lit " JOHN DOE") H).
Defined.

(** C4, as stated, fails: ["tide"] scores 0.25 against ["diet"], and
    ["diet"] scores 0.5 against ["tide"]. *)
Lemma calculate_similarity_not_symmetric :
  Similarity.calculate_similarity (Text.lit "tide") (Text.lit "diet") = 2 # 8 /\
  Similarity.calculate_similarity (Text.lit "diet") (Text.lit "tide") = 4 # 8 /\
  ~ (Similarity.calculate_similarity (Text.lit "tide") (Text.lit "diet") ==
     Similarity.calculate_similarity (Text.lit "diet") (Text.lit "tide"))%Q.
Proof.
  assert (H1 : Similarity.calculate_similarity
                 (Text.lit "tide") (Text.lit "diet") = 2 # 8)
    by (vm_compute; reflexivity).
  assert (H2 : Similarity.calculate_similarity
                 (Text.lit "diet") (Text.lit "tide") = 4 # 8)
    by (vm_compute; reflexivity).
  split; [exact H1|]. split; [exact H2|].
  rewrite H1, H2. unfold Qeq. simpl. lia.
Qed.

(** The scores the specification lists. *)
Example listed_scores :
  (Similarity.calculate_similarity (Text.lit "") (Text.lit "") == 1)%Q /\
  (Similarity.calculate_similarity (Text.lit "A") (Text.lit "") == 0)%Q /\
  Similarity.calculate_similarity
    (Text.lit "John Doe") (Text.lit "John D. Doe") = 16 # 19.
Proof. vm_compute. repeat split; discriminate. Qed.

(** * The range of the score *)

Module ScoreFacts.
Import Difflib DifflibSpec.

Section Matcher.
Variables (a b : str) (popular : ascii -> bool).
Variable b2j : gmap ascii (list Z).
Hypothesis b2j_indexes : indexes b popular b2j.

Lemma matchable_same i j :
  matchable a b popular i j = true -> same_at a b i j = true.
Proof.
  unfold matchable, same_at.
  destruct (at_ a i), (at_ b j); try discriminate.
  intros H. apply andb_true_iff in H as [H _]. exact H.
Qed.

(** The block [find_longest_match] returns is common to both
    strings. *)
Lemma find_longest_match_common alo ahi blo bhi i j k :
  alo <= ahi -> blo <= bhi ->
  find_longest_match a b b2j alo ahi blo bhi = (i, j, k) ->
  forall d, 0 <= d < k -> same_at a b (i + d) (j + d) = true.
Proof.
  intros Ha Hb Hflm d Hd.
  destruct (MatchFacts.find_longest_match_spec a b popular b2j b2j_indexes
              alo ahi blo bhi Ha Hb)
    as (besti & bestj & bestsize & el & er & Hbest & Heq & Hel & Her &
        _ & _ & _ & _ & Hleft & _ & Hright & _).
  rewrite Hflm in Heq. injection Heq as -> -> ->.
  pose proof (ScanFacts.best_upto_bounds a b popular alo ahi blo bhi Hb
                _ _ _ _ Ha Hbest) as (_ & _ & Hsize & _ & _).
  destruct (Z.lt_ge_cases d el) as [Hd1|Hd1].
  { specialize (Hleft (el - d)).
    replace (besti - el + d) with (besti - (el - d)) by lia.
    replace (bestj - el + d) with (bestj - (el - d)) by lia.
    apply Hleft. lia. }
  destruct (Z.lt_ge_cases d (el + bestsize)) as [Hd2|Hd2].
  { destruct Hbest as (_ & _ & _ & Hrun). cbn [fst snd] in Hrun.
    destruct Hrun as (_ & _ & Hrun & _); [lia|].
    assert (Hge : bestsize <=
                  run_ending a b popular alo blo
                    (besti + bestsize - 1) (bestj + bestsize - 1)) by lia.
    apply ScanFacts.run_ending_ge in Hge as [_ Hall]; [|lia].
    destruct (Hall (bestsize - 1 - (d - el))) as [_ Hm]; [lia|].
    apply matchable_same in Hm.
    replace (besti - el + d)
      with (besti + bestsize - 1 - (bestsize - 1 - (d - el))) by lia.
    replace (bestj - el + d)
      with (bestj + bestsize - 1 - (bestsize - 1 - (d - el))) by lia.
    exact Hm. }
  specialize (Hright (d - el - bestsize)).
  replace (besti - el + d) with (besti + bestsize + (d - el - bestsize))
    by lia.
  replace (bestj - el + d) with (bestj + bestsize + (d - el - bestsize))
    by lia.
  apply Hright. lia.
Qed.

(** The blocks of a region take no more than either side holds. *)
Lemma region_total_bounds f : forall alo ahi blo bhi,
  alo <= ahi -> blo <= bhi ->
  0 <= region_total a b b2j f (alo, ahi, blo, bhi) /\
  region_total a b b2j f (alo, ahi, blo, bhi) <= ahi - alo /\
  region_total a b b2j f (alo, ahi, blo, bhi) <= bhi - blo.
Proof.
  induction f as [|f IH]; intros alo ahi blo bhi Ha Hb;
    cbn [region_total]; [lia|].
  destruct (find_longest_match a b b2j alo ahi blo bhi)
    as [[i j] k] eqn:Hflm.
  destruct (MatchFacts.find_longest_match_bounds a b popular b2j
              b2j_indexes alo ahi blo bhi i j k Ha Hb Hflm)
    as (Hi & Hj & Hk & Hie & Hje).
  destruct (Z.eqb_spec k 0) as [->|Hk0]; [lia|].
  pose proof (IH alo i blo j Hi Hj) as HL.
  pose proof (IH (i + k) ahi (j + k) bhi Hie Hje) as HR.
  destruct ((alo <? i) && (blo <? j)),
           ((i + k <? ahi) && (j + k <? bhi)); lia.
Qed.

(** When the blocks of a region take all of both sides, the two sides
    are equal, element by element. *)
Lemma region_total_full f : forall alo ahi blo bhi,
  alo <= ahi -> blo <= bhi ->
  region_total a b b2j f (alo, ahi, blo, bhi) = ahi - alo ->
  ahi - alo = bhi - blo ->
  forall d, 0 <= d < ahi - alo -> same_at a b (alo + d) (blo + d) = true.
Proof.
  induction f as [|f IH]; intros alo ahi blo bhi Ha Hb Htot Hlen d Hd;
    cbn [region_total] in Htot; [lia|].
  destruct (find_longest_match a b b2j alo ahi blo bhi)
    as [[i j] k] eqn:Hflm.
  destruct (MatchFacts.find_longest_match_bounds a b popular b2j
              b2j_indexes alo ahi blo bhi i j k Ha Hb Hflm)
    as (Hi & Hj & Hk & Hie & Hje).
  destruct (Z.eqb_spec k 0) as [->|Hk0]; [lia|].
  pose proof (region_total_bounds f alo i blo j Hi Hj) as HL.
  pose proof (region_total_bounds f (i + k) ahi (j + k) bhi Hie Hje) as HR.
  pose proof (IH alo i blo j Hi Hj) as IHL.
  pose proof (IH (i + k) ahi (j + k) bhi Hie Hje) as IHR.
  destruct (Z.lt_ge_cases d (i - alo)) as [Hd1|Hd1].
  { destruct (Z.ltb_spec alo i); [|lia].
    destruct (Z.ltb_spec blo j);
      destruct ((i + k <? ahi) && (j + k <? bhi));
      cbn [andb] in Htot; try lia; apply IHL; lia. }
  destruct (Z.lt_ge_cases d (i - alo + k)) as [Hd2|Hd2].
  { assert (j - blo = i - alo).
    { destruct ((alo <? i) && (blo <? j)),
               ((i + k <? ahi) && (j + k <? bhi)); lia. }
    replace (alo + d) with (i + (d - (i - alo))) by lia.
    replace (blo + d) with (j + (d - (i - alo))) by lia.
    apply (find_longest_match_common alo ahi blo bhi i j k Ha Hb Hflm).
    lia. }
  assert (j - blo = i - alo).
  { destruct ((alo <? i) && (blo <? j)),
             ((i + k <? ahi) && (j + k <? bhi)); lia. }
  destruct (Z.ltb_spec (i + k) ahi); [|lia].
  replace (alo + d) with (i + k + (d - (i - alo + k))) by lia.
  replace (blo + d) with (j + k + (d - (i - alo + k))) by lia.
  destruct (Z.ltb_spec (j + k) bhi);
    destruct ((alo <? i) && (blo <? j));
    cbn [andb] in Htot; try lia; apply IHR; lia.
Qed.

End Matcher.

Lemma same_at_eq (a b : list ascii) i :
  same_at a b i i = true -> a !! Z.to_nat i = b !! Z.to_nat i.
Proof.
  unfold same_at, at_. destruct (i <? 0); [discriminate|].
  destruct (a !! Z.to_nat i), (b !! Z.to_nat i); try discriminate.
  intros H. apply bool_decide_eq_true in H. congruence.
Qed.

(** The number of matched elements lies between 0 and the length of
    the shorter string. *)
Lemma matched_bounds (a b : str) :
  let m := region_total a b (chain_b b) (rounds_bound a)
             (0, Z.of_nat (length a), 0, Z.of_nat (length b)) in
  0 <= m /\ m <= Z.of_nat (length a) /\ m <= Z.of_nat (length b).
Proof.
  destruct (IndexFacts.chain_b_indexes b) as (popular & _ & Hidx).
  pose proof (region_total_bounds a b popular (chain_b b) Hidx
                (rounds_bound a) 0 (Z.of_nat (length a))
                0 (Z.of_nat (length b))) as H.
  cbn zeta. lia.
Qed.

Lemma ratio_bounds (a b : str) : (0 <= ratio a b <= 1)%Q.
Proof.
  rewrite MatchFacts.ratio_region_total.
  pose proof (matched_bounds a b) as (H0 & Ha & Hb). cbn zeta in *.
  unfold calculate_ratio.
  destruct (Z.eqb_spec (Z.of_nat (length a) + Z.of_nat (length b)) 0)
    as [_|Hne].
  - split; unfold Qle; simpl; lia.
  - split; unfold Qle; cbn [Qnum Qden]; rewrite ?Z2Pos.id by lia; lia.
Qed.

Lemma ratio_one (a b : str) : (ratio a b == 1)%Q -> a = b.
Proof.
  rewrite MatchFacts.ratio_region_total.
  pose proof (matched_bounds a b) as (H0 & Ha & Hb). cbn zeta in *.
  unfold calculate_ratio.
  destruct (Z.eqb_spec (Z.of_nat (length a) + Z.of_nat (length b)) 0)
    as [Hnil|Hne].
  - intros _. destruct a, b; simpl in Hnil; try lia. reflexivity.
  - unfold Qeq. cbn [Qnum Qden]. rewrite Z2Pos.id by lia. intros Hone.
    destruct (IndexFacts.chain_b_indexes b) as (popular & _ & Hidx).
    pose proof (region_total_full a b popular (chain_b b) Hidx
                  (rounds_bound a) 0 (Z.of_nat (length a))
                  0 (Z.of_nat (length b))) as Hfull.
    apply list_eq. intros n.
    destruct (Nat.lt_ge_cases n (length a)) as [Hn|Hn].
    + specialize (Hfull ltac:(lia) ltac:(lia) ltac:(lia) ltac:(lia)
                    (Z.of_nat n) ltac:(lia)).
      rewrite !Z.add_0_l in Hfull. apply same_at_eq in Hfull.
      rewrite Nat2Z.id in Hfull. exact Hfull.
    + rewrite !lookup_ge_None_2; [reflexivity|lia..].
Qed.

End ScoreFacts.

(** [calculate_similarity] returns a score between 0 and 1. *)
Theorem calculate_similarity_between_0_and_1 (name1 name2 : str) :
  (0 <= Similarity.calculate_similarity name1 name2 <= 1)%Q.
Proof. apply ScoreFacts.ratio_bounds. Qed.

(** [calculate_similarity] returns 1 exactly when the two names are equal
    once lower-cased and stripped. *)
Theorem calculate_similarity_one_iff (name1 name2 : str) :
  (Similarity.calculate_similarity name1 name2 == 1)%Q <->
  Text.strip (Text.lower name1) = Text.strip (Text.lower name2).
Proof.
  unfold Similarity.calculate_similarity. split.
  - apply ScoreFacts.ratio_one.
  - intros ->. apply EdgeFacts.ratio_same.
Qed.

(** * The list of similar pairs *)

Module PairListFacts.
Import Similarity.

Lemma elem_of_pairs_with t corr1 later (p : pair) :
  p ∈ pairs_with t corr1 later <->
  exists corr2, corr2 ∈ later /\
    p = (corr1, corr2, calculate_similarity (name corr1) (name corr2)) /\
    (t <= calculate_similarity (name corr1) (name corr2))%Q.
Proof.
  unfold pairs_with. rewrite list_elem_of_omap. split.
  - intros (corr2 & Hin & Hsome). exists corr2. split; [exact Hin|].
    cbn zeta in Hsome. destruct (at_least _ _) eqn:Hle; [|discriminate].
    injection Hsome as <-. split; [reflexivity|].
    apply Qle_bool_iff, Hle.
  - intros (corr2 & Hin & -> & Hle). exists corr2. split; [exact Hin|].
    cbn zeta. unfold at_least.
    rewrite (proj2 (Qle_bool_iff _ _) Hle). reflexivity.
Qed.

Lemma elem_of_collect_pairs t cs (p : pair) :
  p ∈ collect_pairs t cs <->
  exists i j c1 c2,
    (i < j)%nat /\ cs !! i = Some c1 /\ cs !! j = Some c2 /\
    p = (c1, c2, calculate_similarity (name c1) (name c2)) /\
    (t <= calculate_similarity (name c1) (name c2))%Q.
Proof.
  induction cs as [|corr1 later IH]; cbn [collect_pairs].
  - split; [intros H; inversion H|].
    intros (i & j & c1 & c2 & _ & Hi & _). discriminate.
  - rewrite elem_of_app, elem_of_pairs_with, IH. split.
    + intros [(corr2 & Hin & -> & Hle)|(i & j & c1 & c2 & Hij & Hi & Hj & Hp)].
      * apply list_elem_of_lookup_1 in Hin as [j Hj].
        exists O, (S j), corr1, corr2. repeat split; [lia|exact Hj|exact Hle].
      * exists (S i), (S j), c1, c2. split; [lia|]. auto.
    + intros (i & j & c1 & c2 & Hij & Hi & Hj & Hp).
      destruct j as [|j]; [lia|]. simpl in Hj. destruct i as [|i].
      * injection Hi as <-. left. exists c2.
        split; [eapply list_elem_of_lookup_2, Hj|exact Hp].
      * right. exists i, j, c1, c2. split; [lia|]. auto.
Qed.

Lemma score_gtb_asym k1 k2 :
  score_gtb k1 k2 = true -> score_gtb k2 k1 = false.
Proof.
  unfold score_gtb. rewrite negb_true_iff, negb_false_iff.
  intros H. apply Qle_bool_iff.
  destruct (Qlt_le_dec k2 k1) as [Hlt|Hle]; [apply Qlt_le_weak, Hlt|].
  apply Qle_bool_iff in Hle. congruence.
Qed.

(** Two positions that pass a filter leave at least two items. *)
Lemma filter_two {A} (P : A -> Prop) `{!forall x, Decision (P x)}
    (l : list A) : forall i j x y,
  (i < j)%nat -> l !! i = Some x -> l !! j = Some y -> P x -> P y ->
  (2 <= length (filter P l))%nat /\ x ∈ filter P l /\ y ∈ filter P l.
Proof.
  intros i j x y Hij Hi Hj Hx Hy.
  assert (Hxin : x ∈ filter P l)
    by (apply list_elem_of_filter; split;
        [exact Hx|eapply list_elem_of_lookup_2, Hi]).
  assert (Hyin : y ∈ filter P l)
    by (apply list_elem_of_filter; split;
        [exact Hy|eapply list_elem_of_lookup_2, Hj]).
  split; [|split; assumption].
  rewrite <- (take_drop_middle l j y Hj), filter_app, filter_cons.
  rewrite decide_True by exact Hy. rewrite length_app. simpl.
  assert (Hpre : x ∈ filter P (take j l)).
  { apply list_elem_of_filter. split; [exact Hx|].
    apply (list_elem_of_lookup_2 _ i). rewrite lookup_take_lt by lia.
    exact Hi. }
  destruct (filter P (take j l)); [inversion Hpre|]. simpl. lia.
Qed.

(** Two correspondents at different positions with the same key are
    both in the group of that key, which is returned. *)
Lemma same_key_grouped cs i j c1 c2 :
  (i < j)%nat -> cs !! i = Some c1 -> cs !! j = Some c2 ->
  normalized_name c1 = normalized_name c2 ->
  exists g, g ∈ Duplicates.find_exact_duplicates cs /\ c1 ∈ g /\ c2 ∈ g.
Proof.
  intros Hij Hi Hj Hkey.
  exists (Duplicates.members_of (normalized_name c1) cs).
  destruct (filter_two (fun c => normalized_name c = normalized_name c1)
              cs i j c1 c2 Hij Hi Hj eq_refl (eq_sym Hkey))
    as (Hlen & Hin1 & Hin2).
  split; [|split; assumption].
  rewrite DuplicatesFacts.find_exact_duplicates_refines.
  unfold Duplicates.duplicate_groups_spec.
  apply list_elem_of_filter. split; [exact Hlen|].
  apply list_elem_of_fmap. exists (normalized_name c1).
  split; [reflexivity|].
  apply DuplicatesFacts.elem_of_first_seen, list_elem_of_fmap_2.
  eapply list_elem_of_lookup_2, Hi.
Qed.

End PairListFacts.

(** [find_similar_correspondents_pairs] returns, with its score, every
    pair of a correspondent and a later one in the list whose names score
    at least the threshold, and nothing else. *)
Theorem similar_pairs_members (threshold : Q) (cs : list correspondent)
    (c1 c2 : correspondent) (s : Q) :
  (c1, c2, s) ∈ Similarity.find_similar_correspondents_pairs threshold cs <->
  (exists i j, (i < j)%nat /\ cs !! i = Some c1 /\ cs !! j = Some c2) /\
  s = Similarity.calculate_similarity (name c1) (name c2) /\
  (threshold <= s)%Q.
Proof.
  unfold Similarity.find_similar_correspondents_pairs.
  rewrite (SortFacts.sort_by_perm _ _ (Similarity.collect_pairs threshold cs)).
  rewrite PairListFacts.elem_of_collect_pairs. split.
  - intros (i & j & d1 & d2 & Hij & Hi & Hj & [= -> -> ->] & Hle). eauto 10.
  - intros ((i & j & Hij & Hi & Hj) & -> & Hle).
    exists i, j, c1, c2. auto.
Qed.

(** The pairs come with the highest score first: no pair is followed by
    one with a greater score. *)
Theorem similar_pairs_sorted_descending (threshold : Q)
    (cs : list correspondent) :
  StronglySorted (fun p q : Similarity.pair => (q.2 <= p.2)%Q)
    (Similarity.find_similar_correspondents_pairs threshold cs).
Proof.
  apply Sorted_StronglySorted.
  - intros p q r Hqp Hrq. eapply Qle_trans; eassumption.
  - eapply SortFacts.Sorted_mono;
      [|apply (SortFacts.sort_by_Sorted
                 (fun p : Similarity.pair => p.2) Similarity.score_gtb);
        exact PairListFacts.score_gtb_asym].
    intros p q Hpq. unfold Py.in_order, Similarity.score_gtb in Hpq.
    apply negb_false_iff, Qle_bool_iff in Hpq. exact Hpq.
Qed.

(** At threshold 1 the similar pairs are the pairs of exact duplicates:
    a correspondent and a later one are returned as a pair exactly when
    their lower-cased, stripped names are equal, and both are then
    members of one group of [find_exact_duplicates]. *)
Theorem similar_pairs_at_one_are_duplicates (cs : list correspondent)
    (c1 c2 : correspondent) :
  ((exists s, (c1, c2, s) ∈ Similarity.find_similar_correspondents_pairs 1 cs)
   <->
   (exists i j, (i < j)%nat /\ cs !! i = Some c1 /\ cs !! j = Some c2) /\
   normalized_name c1 = normalized_name c2) /\
  ((exists s, (c1, c2, s) ∈ Similarity.find_similar_correspondents_pairs 1 cs)
   -> exists g, g ∈ Duplicates.find_exact_duplicates cs /\ c1 ∈ g /\ c2 ∈ g).
Proof.
  assert (Hiff :
    (exists s, (c1, c2, s) ∈ Similarity.find_similar_correspondents_pairs 1 cs)
    <->
    (exists i j, (i < j)%nat /\ cs !! i = Some c1 /\ cs !! j = Some c2) /\
    normalized_name c1 = normalized_name c2).
  { unfold Similarity.find_similar_correspondents_pairs. split.
    - intros (s & Hin).
      rewrite (SortFacts.sort_by_perm _ _ (Similarity.collect_pairs 1 cs))
        in Hin.
      apply PairListFacts.elem_of_collect_pairs in Hin
        as (i & j & d1 & d2 & Hij & Hi & Hj & [= -> -> ->] & Hle).
      split; [eauto|].
      apply ScoreFacts.ratio_one. apply Qle_antisym; [|exact Hle].
      apply ScoreFacts.ratio_bounds.
    - intros ((i & j & Hij & Hi & Hj) & Hkey).
      exists (Similarity.calculate_similarity (name c1) (name c2)).
      rewrite (SortFacts.sort_by_perm _ _ (Similarity.collect_pairs 1 cs)).
      apply PairListFacts.elem_of_collect_pairs.
      exists i, j, c1, c2. repeat split; try assumption.
      unfold Similarity.calculate_similarity.
      unfold normalized_name in Hkey. rewrite Hkey.
      rewrite EdgeFacts.ratio_same. apply Qle_refl. }
  split; [exact Hiff|].
  intros Hin. apply Hiff in Hin as ((i & j & Hij & Hi & Hj) & Hkey).
  eapply PairListFacts.same_key_grouped; eassumption.
Qed.

(** * What the groups of similar correspondents hold *)

Module ClusterFacts.
Import Similarity SimilaritySpec ClusterSpec.

Lemma elem_of_concat {A} (x : A) (ls : list (list A)) :
  x ∈ concat ls <-> exists l, x ∈ l /\ l ∈ ls.
Proof.
  induction ls as [|l ls IH]; simpl.
  - split; [intros H; inversion H|intros (l & _ & H); inversion H].
  - rewrite elem_of_app, IH. split.
    + intros [H|(l' & ? & ?)].
      * exists l. split; [exact H|apply list_elem_of_here].
      * exists l'. split; [assumption|apply list_elem_of_further; assumption].
    + intros (l' & Hx & Hl). apply elem_of_cons in Hl as [->|Hl]; eauto.
Qed.

Section Graph.
Variables (threshold : Q) (correspondents : list correspondent).
Hypothesis ids_distinct : NoDup (id <$> correspondents).

Local Abbreviation ids := (id <$> correspondents).
Local Abbreviation graph :=
  (SimilaritySpec.similar_graph threshold correspondents).
Local Abbreviation rounds := (SimilaritySpec.rounds correspondents).

Lemma elem_of_similar_ids_2 i j corr1 corr2 :
  correspondents !! j = Some corr2 -> i ≠ j ->
  similar_to threshold corr1 corr2 ->
  id corr2 ∈ similar_ids threshold correspondents i corr1.
Proof.
  intros Hj Hij Hsim. unfold similar_ids. apply list_elem_of_omap.
  exists (j, corr2). split.
  - apply elem_of_lookup_imap. exists j, corr2. auto.
  - rewrite decide_True by assumption.
    unfold similar_to in Hsim. rewrite Hsim. reflexivity.
Qed.

(** The adjacency list of a correspondent holds the id of every other
    correspondent it scores at least the threshold against. *)
Lemma edge c1 c2 :
  c1 ∈ correspondents -> c2 ∈ correspondents -> c1 ≠ c2 ->
  similar_to threshold c1 c2 ->
  exists v, graph !! id c1 = Some v /\ id c2 ∈ v.
Proof.
  intros H1 H2 Hne Hsim.
  destruct (GroupFacts.similar_graph_keys threshold correspondents c1 H1)
    as [v Hv].
  exists v. split; [exact Hv|].
  apply GroupFacts.similar_graph_values in Hv as (p & corr1 & Hp & Hid & ->).
  assert (corr1 = c1) as ->.
  { apply (GroupFacts.same_id_same correspondents ids_distinct);
      [eapply list_elem_of_lookup_2, Hp|assumption..]. }
  apply list_elem_of_lookup_1 in H2 as [j Hj].
  apply (elem_of_similar_ids_2 p j); [exact Hj| |exact Hsim].
  intros ->. congruence.
Qed.

(** What an adjacency list holds. *)
Lemma edge_inv k v m :
  k ∈ correspondents -> m ∈ correspondents ->
  graph !! id k = Some v -> id m ∈ v ->
  k ≠ m /\ similar_to threshold k m.
Proof.
  intros Hk Hm Hv Hin.
  apply GroupFacts.similar_graph_values in Hv as (p & corr1 & Hp & Hid & ->).
  assert (corr1 = k) as ->.
  { apply (GroupFacts.same_id_same correspondents ids_distinct);
      [eapply list_elem_of_lookup_2, Hp|assumption..]. }
  apply GroupFacts.elem_of_similar_ids in Hin
    as (j & corr2 & Hj & Hpj & Hid2 & Hsim).
  assert (corr2 = m) as ->.
  { symmetry.
    apply (GroupFacts.same_id_same correspondents ids_distinct);
      [assumption|eapply list_elem_of_lookup_2, Hj|assumption]. }
  split; [|exact Hsim]. intros ->. apply Hpj.
  eapply (GroupFacts.same_position correspondents ids_distinct);
    eassumption.
Qed.

(** One traversal: it returns; the members it adds are correspondents
    that were not visited before, each once; what is visited
    afterwards is what was visited before and the ids of the new
    members; everything that was on the stack is visited; nothing
    reachable is left out; and every new member was reached from the
    stack or from an earlier new member. *)
Lemma traverse_run fuel : forall stack visited group,
  (forall x, x ∈ stack -> x ∈ ids) ->
  (rounds stack visited <= fuel)%nat ->
  exists visited' added,
    traverse correspondents graph fuel stack visited group =
      Return (visited', group ++ added) /\
    NoDup (id <$> added) /\
    (forall m, m ∈ added ->
       m ∈ correspondents /\ (id m ∉ visited) /\ id m ∈ visited') /\
    (forall k, k ∈ visited' -> k ∈ visited \/ k ∈ id <$> added) /\
    visited ⊆ visited' /\
    (forall x, x ∈ stack -> x ∈ visited') /\
    (semi_closed graph visited stack -> semi_closed graph visited' []) /\
    reached_from graph stack added.
Proof.
  induction fuel as [|fuel IH]; intros stack visited group Hstack Hfuel.
  - destruct stack as [|x stack];
      [|unfold SimilaritySpec.rounds in Hfuel; simpl in Hfuel; lia].
    exists visited, []. simpl. rewrite app_nil_r.
    split; [reflexivity|]. split; [constructor|].
    split; [intros m Hm; inversion Hm|]. split; [auto|].
    split; [reflexivity|]. split; [intros x Hx; inversion Hx|].
    split; [auto|]. intros i m Hi. discriminate.
  - destruct stack as [|current_id stack'].
    { exists visited, []. simpl. rewrite app_nil_r.
      split; [reflexivity|]. split; [constructor|].
      split; [intros m Hm; inversion Hm|]. split; [auto|].
      split; [reflexivity|]. split; [intros x Hx; inversion Hx|].
      split; [auto|]. intros i m Hi. discriminate. }
    cbn [traverse].
    assert (Hcur : current_id ∈ ids) by (apply Hstack, list_elem_of_here).
    assert (Hstack' : forall x, x ∈ stack' -> x ∈ ids)
      by (intros x Hx; apply Hstack, list_elem_of_further, Hx).
    destruct (decide (current_id ∈ visited)) as [Hseen|Hnew].
    + destruct (IH stack' visited group Hstack') as
        (visited' & added & Hrun & Hnd & Hmem & Hvis & Hsub & Hst &
         Hclosed & Hreach).
      { unfold SimilaritySpec.rounds in *. simpl in Hfuel. lia. }
      exists visited', added. split; [exact Hrun|].
      split; [exact Hnd|]. split; [exact Hmem|]. split; [exact Hvis|].
      split; [exact Hsub|]. split.
      { intros x Hx. apply elem_of_cons in Hx as [->|Hx]; [|auto].
        apply Hsub, Hseen. }
      split.
      { intros Hsc. apply Hclosed. intros k v x Hk Hv Hx.
        destruct (Hsc k v x Hk Hv Hx) as [?|Hin]; [auto|].
        apply elem_of_cons in Hin as [->|Hin]; auto. }
      intros i m Hi. destruct (Hreach i m Hi) as [Hin|Hp]; [|auto].
      left. apply list_elem_of_further, Hin.
    + destruct (GroupFacts.find_by_id correspondents current_id Hcur)
        as (c & -> & Hc & Hid).
      destruct (GroupFacts.similar_graph_keys threshold correspondents c Hc)
        as [similar Hsimilar].
      rewrite Hid in Hsimilar. rewrite Hsimilar.
      set (visited1 := {[current_id]} ∪ visited).
      set (pushed := filter (fun similar_id => similar_id ∉ visited1)
                            similar).
      assert (Hpushed : forall x, x ∈ pushed -> x ∈ similar)
        by (intros x Hx; apply list_elem_of_filter in Hx; tauto).
      destruct (IH (rev pushed ++ stack') visited1 (group ++ [c])) as
        (visited' & added & Hrun & Hnd & Hmem & Hvis & Hsub & Hst &
         Hclosed & Hreach).
      { intros x Hx. apply elem_of_app in Hx as [Hx|Hx]; [|auto].
        apply GroupFacts.elem_of_rev, Hpushed in Hx.
        eapply GroupFacts.similar_graph_ids; eassumption. }
      { unfold SimilaritySpec.rounds in *. simpl in Hfuel.
        rewrite (GroupFacts.size_visit correspondents
                   current_id visited Hcur Hnew) in Hfuel.
        fold visited1 in Hfuel.
        rewrite length_app, length_rev.
        assert (length pushed <= length correspondents)%nat.
        { etransitivity; [apply length_filter|].
          apply GroupFacts.similar_graph_values in Hsimilar
            as (p & c1 & _ & _ & ->).
          apply GroupFacts.length_similar_ids. }
        lia. }
      exists visited', (c :: added). split.
      { rewrite Hrun, <- app_assoc. reflexivity. }
      assert (Hcv : current_id ∈ visited')
        by (apply Hsub; unfold visited1; set_solver).
      split.
      { rewrite fmap_cons. constructor; [|exact Hnd].
        intros Hin. apply list_elem_of_fmap in Hin as (m & Hidm & Hm).
        destruct (Hmem m Hm) as (_ & Hout & _). apply Hout.
        unfold visited1. rewrite <- Hidm, Hid. set_solver. }
      split.
      { intros m Hm. apply elem_of_cons in Hm as [->|Hm].
        - rewrite Hid. auto.
        - destruct (Hmem m Hm) as (? & Hout & ?).
          repeat split; try assumption.
          intros Hin. apply Hout. unfold visited1. set_solver. }
      split.
      { intros k Hk. rewrite fmap_cons.
        destruct (Hvis k Hk) as [Hin|Hin].
        - unfold visited1 in Hin.
          apply elem_of_union in Hin as [Hin|Hin]; [|auto].
          apply elem_of_singleton in Hin as ->. right. rewrite Hid.
          apply list_elem_of_here.
        - right. apply list_elem_of_further, Hin. }
      split; [unfold visited1 in Hsub; set_solver|]. split.
      { intros x Hx. apply elem_of_cons in Hx as [->|Hx]; [exact Hcv|].
        apply Hst, elem_of_app. right. exact Hx. }
      split.
      { intros Hsc. apply Hclosed. intros k v x Hk Hv Hx.
        destruct (decide (x ∈ visited1)) as [?|Hout]; [auto|].
        right. apply elem_of_app.
        unfold visited1 in Hk.
        apply elem_of_union in Hk as [Hk|Hk].
        - apply elem_of_singleton in Hk as ->.
          left. apply GroupFacts.elem_of_rev, list_elem_of_filter.
          split; [exact Hout|]. congruence.
        - destruct (Hsc k v x Hk Hv Hx) as [Hin|Hin].
          + exfalso. apply Hout. unfold visited1. set_solver.
          + apply elem_of_cons in Hin as [->|Hin]; [|auto].
            exfalso. apply Hout. unfold visited1. set_solver. }
      intros [|i] m Hi; simpl in Hi.
      { injection Hi as <-. left. rewrite Hid. apply list_elem_of_here. }
      destruct (Hreach i m Hi) as [Hin|(j & k & v & Hj & Hk & Hv & Hm)].
      * apply elem_of_app in Hin as [Hin|Hin].
        -- right. exists O, c, similar. split; [lia|].
           split; [reflexivity|]. rewrite Hid. split; [exact Hsimilar|].
           apply Hpushed, GroupFacts.elem_of_rev, Hin.
        -- left. apply list_elem_of_further, Hin.
      * right. exists (S j), k, v. split; [lia|]. auto.
Qed.

Local Abbreviation loop_state :=
  (ClusterSpec.loop_state threshold correspondents).

Lemma sort_group_perm group : sort_group group ≡ₚ group.
Proof. apply SortFacts.sort_by_perm. Qed.

Lemma group_loop_run (P : list correspondent -> Prop) :
  (forall c0 visited visited' added,
      c0 ∈ correspondents ->
      traverse correspondents graph
        (traverse_bound correspondents) [id c0] visited [] =
        Return (visited', added) ->
      reached_from graph [id c0] added ->
      (forall m, m ∈ added -> m ∈ correspondents) ->
      NoDup (id <$> added) ->
      (1 < length added)%nat ->
      P (sort_group added)) ->
  forall remaining visited groups,
    (forall c, c ∈ remaining -> c ∈ correspondents) ->
    loop_state P visited groups ->
    (forall c, c ∈ correspondents -> c ∈ remaining \/ id c ∈ visited) ->
    exists visited' groups',
      group_loop correspondents graph remaining visited groups =
        Return groups' /\
      loop_state P visited' groups' /\
      (forall c, c ∈ correspondents -> id c ∈ visited').
Proof.
  intros Hstep.
  induction remaining as [|c0 remaining IH];
    intros visited groups Hsub Hstate Hdone.
  - exists visited, groups. split; [reflexivity|]. split; [exact Hstate|].
    intros c Hc. destruct (Hdone c Hc) as [Hin|?]; [inversion Hin|auto].
  - cbn [group_loop].
    assert (Hc0 : c0 ∈ correspondents) by (apply Hsub, list_elem_of_here).
    assert (Hsub' : forall c, c ∈ remaining -> c ∈ correspondents)
      by (intros c Hc; apply Hsub, list_elem_of_further, Hc).
    destruct (decide (id c0 ∈ visited)) as [Hseen|Hnew].
    { apply IH; [assumption..|]. intros c Hc.
      destruct (Hdone c Hc) as [Hin|?]; [|auto].
      apply elem_of_cons in Hin as [->|Hin]; auto. }
    destruct (traverse_run (traverse_bound correspondents)
                [id c0] visited [])
      as (visited' & added & Hrun & Hnd & Hmem & Hvis & Hvsub & Hst &
          Hclosed & Hreach).
    { intros x Hx. apply list_elem_of_singleton in Hx as ->.
      apply list_elem_of_fmap_2, Hc0. }
    { apply GroupFacts.rounds_start. }
    rewrite Hrun. cbn [app].
    destruct Hstate as (Hsc & Hgm & Hdisj & HP & Hmut).
    assert (Hsc' : semi_closed graph visited' []).
    { apply Hclosed. intros k v x Hk Hv Hx.
      destruct (Hsc k v x Hk Hv Hx) as [?|Hin]; [auto|inversion Hin]. }
    assert (Hin_added : forall c, c ∈ correspondents ->
              id c ∈ visited' -> id c ∉ visited -> c ∈ added).
    { intros c Hc Hv' Hv. destruct (Hvis _ Hv') as [?|Hin]; [tauto|].
      apply list_elem_of_fmap in Hin as (m & Hidm & Hm).
      destruct (Hmem m Hm) as (Hmc & _).
      rewrite (GroupFacts.same_id_same correspondents ids_distinct
                 c m Hc Hmc Hidm). exact Hm. }
    apply IH; [assumption| |].
    2:{ intros c Hc. destruct (Hdone c Hc) as [Hin|?]; [|auto].
        apply elem_of_cons in Hin as [->|Hin]; [|auto].
        right. apply Hst, list_elem_of_here. }
    destruct (Nat.ltb_spec 1 (length added)) as [Hbig|Hsmall].
    + split; [exact Hsc'|]. split; [|split; [|split]].
      * intros g m Hg Hm. apply elem_of_app in Hg as [Hg|Hg].
        -- destruct (Hgm g m Hg Hm). auto.
        -- apply list_elem_of_singleton in Hg as ->.
           rewrite sort_group_perm in Hm.
           destruct (Hmem m Hm) as (? & _ & ?). auto.
      * rewrite concat_app, fmap_app. simpl. rewrite app_nil_r.
        apply NoDup_app. split; [exact Hdisj|]. split.
        -- intros x Hx Hx'.
           apply list_elem_of_fmap in Hx as (m & -> & Hm).
           apply elem_of_concat in Hm as (g & Hm & Hg).
           destruct (Hgm g m Hg Hm) as [_ Hv].
           apply list_elem_of_fmap in Hx' as (m' & Hid' & Hm').
           rewrite sort_group_perm in Hm'.
           destruct (Hmem m' Hm') as (_ & Hout & _).
           apply Hout. rewrite <- Hid'. exact Hv.
        -- rewrite sort_group_perm. exact Hnd.
      * apply Forall_app. split; [exact HP|].
        constructor; [|constructor].
        apply (Hstep c0 visited visited' added); try assumption.
        intros m Hm. apply (Hmem m Hm).
      * intros c1 c2 H1 H2 Hne Hv1 Hms.
        destruct (decide (id c1 ∈ visited)) as [Hold|Hfresh].
        { destruct (Hmut c1 c2 H1 H2 Hne Hold Hms) as (g & Hg & ?).
          exists g. split; [|assumption].
          apply elem_of_app. left. exact Hg. }
        exists (sort_group added). split.
        { apply elem_of_app. right. apply list_elem_of_here. }
        rewrite !sort_group_perm.
        split; [apply Hin_added; assumption|].
        destruct Hms as [H12 H21].
        destruct (edge c1 c2 H1 H2 Hne H12) as (v & Hv & Hin).
        destruct (edge c2 c1 H2 H1 (not_eq_sym Hne) H21)
          as (v' & Hv' & Hin').
        apply Hin_added; [assumption| |].
        -- destruct (Hsc' _ _ _ Hv1 Hv Hin) as [?|Hnil];
             [assumption|inversion Hnil].
        -- intros Hv2.
           destruct (Hsc _ _ _ Hv2 Hv' Hin') as [?|Hnil];
             [tauto|inversion Hnil].
    + split; [exact Hsc'|]. split; [|split; [|split]].
      * intros g m Hg Hm. destruct (Hgm g m Hg Hm). auto.
      * exact Hdisj.
      * exact HP.
      * intros c1 c2 H1 H2 Hne Hv1 Hms.
        destruct (decide (id c1 ∈ visited)) as [Hold|Hfresh];
          [exact (Hmut c1 c2 H1 H2 Hne Hold Hms)|].
        exfalso.
        assert (Hc1 : c1 ∈ added) by (apply Hin_added; assumption).
        destruct Hms as [H12 H21].
        destruct (edge c1 c2 H1 H2 Hne H12) as (v & Hv & Hin).
        destruct (edge c2 c1 H2 H1 (not_eq_sym Hne) H21)
          as (v' & Hv' & Hin').
        assert (Hc2 : c2 ∈ added).
        { apply Hin_added; [assumption| |].
          - destruct (Hsc' _ _ _ Hv1 Hv Hin) as [?|Hnil];
              [assumption|inversion Hnil].
          - intros Hv2.
            destruct (Hsc _ _ _ Hv2 Hv' Hin') as [?|Hnil];
              [tauto|inversion Hnil]. }
        destruct added as [|m1 [|m2 added]]; simpl in Hsmall; try lia.
        -- inversion Hc1.
        -- apply list_elem_of_singleton in Hc1, Hc2. congruence.
Qed.

(** Every member of a traversal of more than one member is similar to
    another member or has another member similar to it. *)
Lemma reached_neighbour c0 added m :
  c0 ∈ correspondents ->
  reached_from graph [id c0] added ->
  (forall m, m ∈ added -> m ∈ correspondents) ->
  NoDup (id <$> added) ->
  (1 < length added)%nat ->
  m ∈ added ->
  exists m', m' ∈ added /\ m' ≠ m /\
    (similar_to threshold m m' \/ similar_to threshold m' m).
Proof.
  intros Hc0 Hreach Hsub Hnd Hbig Hm.
  assert (Hparent : forall i x, added !! S i = Some x ->
            exists j k, (j < S i)%nat /\ added !! j = Some k /\
              k ≠ x /\ similar_to threshold k x).
  { intros i x Hi.
    destruct (Hreach (S i) x Hi) as [Hin|(j & k & v & Hj & Hk & Hv & Hx)].
    - apply list_elem_of_singleton in Hin.
      destruct added as [|x0 added0] eqn:E; [discriminate|].
      destruct (Hreach O x0 eq_refl) as [Hin0|(j & ? & ? & Hj & _)];
        [|lia].
      apply list_elem_of_singleton in Hin0.
      exfalso. rewrite fmap_cons in Hnd. apply NoDup_cons in Hnd as [Hout _].
      apply Hout. rewrite Hin0, <- Hin. apply list_elem_of_fmap_2.
      eapply list_elem_of_lookup_2. exact Hi.
    - exists j, k. split; [exact Hj|]. split; [exact Hk|].
      apply (edge_inv k v x); try assumption.
      + apply Hsub. eapply list_elem_of_lookup_2, Hk.
      + apply Hsub. eapply list_elem_of_lookup_2, Hi. }
  apply list_elem_of_lookup_1 in Hm as [i Hi].
  destruct i as [|i].
  - destruct added as [|x0 [|x1 added1]]; simpl in Hbig; try lia.
    simpl in Hi. injection Hi as ->.
    destruct (Hparent O x1 eq_refl) as (j & k & Hj & Hk & Hne & Hsim).
    assert (j = O) as -> by lia. simpl in Hk. injection Hk as <-.
    exists x1. split; [apply list_elem_of_further, list_elem_of_here|].
    split; [congruence|]. left. exact Hsim.
  - destruct (Hparent i m Hi) as (j & k & Hj & Hk & Hne & Hsim).
    exists k. split; [eapply list_elem_of_lookup_2, Hk|].
    split; [exact Hne|]. right. exact Hsim.
Qed.

(** The whole run. *)
Lemma find_similar_correspondents_run :
  exists groups,
    find_similar_correspondents threshold correspondents =
      Return groups /\
    NoDup (id <$> concat groups) /\
    (forall g m, g ∈ groups -> m ∈ g -> m ∈ correspondents) /\
    (forall g m, g ∈ groups -> m ∈ g ->
       exists m', m' ∈ g /\ m' ≠ m /\
         (similar_to threshold m m' \/ similar_to threshold m' m)) /\
    (forall c1 c2, c1 ∈ correspondents -> c2 ∈ correspondents ->
       c1 ≠ c2 -> mutually_similar threshold c1 c2 ->
       exists g, g ∈ groups /\ c1 ∈ g /\ c2 ∈ g).
Proof.
  set (P := fun g : list correspondent =>
              forall m, m ∈ g ->
                exists m', m' ∈ g /\ m' ≠ m /\
                  (similar_to threshold m m' \/
                   similar_to threshold m' m)).
  destruct (group_loop_run P) with
    (remaining := correspondents) (visited := (∅ : gset Z))
    (groups := @nil (list correspondent))
    as (visited' & groups & Hrun & Hstate & Hall).
  - intros c0 visited visited' added Hc0 _ Hreach Hsub Hnd Hbig m Hm.
    rewrite sort_group_perm in Hm.
    destruct (reached_neighbour c0 added m Hc0 Hreach Hsub Hnd Hbig Hm)
      as (m' & Hm' & Hne & Hsim).
    exists m'. rewrite sort_group_perm. auto.
  - auto.
  - split; [intros k v x Hk; set_solver|].
    split; [intros g m Hg; inversion Hg|].
    split; [constructor|]. split; [constructor|].
    intros c1 c2 _ _ _ Hin. set_solver.
  - auto.
  - destruct Hstate as (_ & Hgm & Hdisj & HP & Hmut).
    exists groups. split; [exact Hrun|]. split; [exact Hdisj|].
    split; [intros g m Hg Hm; apply (Hgm g m Hg Hm)|]. split.
    + intros g m Hg Hm. rewrite Forall_forall in HP.
      apply (HP g Hg m Hm).
    + intros c1 c2 H1 H2 Hne Hms.
      apply (Hmut c1 c2 H1 H2 Hne (Hall c1 H1) Hms).
Qed.

End Graph.
End ClusterFacts.

(** With pairwise distinct ids, [find_similar_correspondents] puts no
    correspondent in two groups or twice in one group, and every member
    of a group is a correspondent of the list. *)
Theorem similar_groups_disjoint (threshold : Q)
    (correspondents : list correspondent) :
  NoDup (id <$> correspondents) ->
  exists groups,
    Similarity.find_similar_correspondents threshold correspondents =
      Return groups /\
    NoDup (id <$> concat groups) /\
    forall g m, g ∈ groups -> m ∈ g -> m ∈ correspondents.
Proof.
  intros Hnd.
  destruct (ClusterFacts.find_similar_correspondents_run
              threshold correspondents Hnd)
    as (groups & Hrun & Hdisj & Hmem & _).
  exists groups. auto.
Qed.

Lemma similar_groups_disjoint_witness :
  NoDup (id <$> Inputs.two_clusters) /\
  exists groups,
    Similarity.find_similar_correspondents (8 # 10) Inputs.two_clusters =
      Return groups /\
    NoDup (id <$> concat groups).
Proof.
  assert (Hnd : NoDup (id <$> Inputs.two_clusters)).
  { apply (bool_decide_unpack _). vm_compute. reflexivity. }
  split; [exact Hnd|].
  destruct (similar_groups_disjoint (8 # 10) Inputs.two_clusters Hnd)
    as (groups & Hrun & Hdisj & _).
  exists groups. split; assumption.
Defined.

(** With pairwise distinct ids, two correspondents that score at least
    the threshold against each other in both orders are members of one
    returned group. *)
Theorem mutually_similar_share_group (threshold : Q)
    (correspondents : list correspondent) (c1 c2 : correspondent) :
  NoDup (id <$> correspondents) ->
  c1 ∈ correspondents -> c2 ∈ correspondents -> c1 ≠ c2 ->
  ClusterSpec.mutually_similar threshold c1 c2 ->
  exists groups g,
    Similarity.find_similar_correspondents threshold correspondents =
      Return groups /\
    g ∈ groups /\ c1 ∈ g /\ c2 ∈ g.
Proof.
  intros Hnd H1 H2 Hne Hms.
  destruct (ClusterFacts.find_similar_correspondents_run
              threshold correspondents Hnd)
    as (groups & Hrun & _ & _ & _ & Hmut).
  destruct (Hmut c1 c2 H1 H2 Hne Hms) as (g & Hg & Hin).
  exists groups, g. auto.
Qed.

Lemma mutually_similar_share_group_witness :
  exists groups g,
    Similarity.find_similar_correspondents (8 # 10) Inputs.john_john_jane =
      Return groups /\
    g ∈ groups /\
    Correspondent 1 (Text.lit "John Doe") None ∈ g /\
    Correspondent 2 (Text.lit "John D. Doe") None ∈ g.
Proof.
  apply (mutually_similar_share_group (8 # 10) Inputs.john_john_jane).
  - apply (bool_decide_unpack _). vm_compute. reflexivity.
  - apply (bool_decide_unpack _). vm_compute. reflexivity.
  - apply (bool_decide_unpack _). vm_compute. reflexivity.
  - discriminate.
  - split; vm_compute; reflexivity.
Defined.

(** With pairwise distinct ids, every member of a returned group scores
    at least the threshold against another member of its group, or
    another member does against it. *)
Theorem similar_group_members_linked (threshold : Q)
    (correspondents : list correspondent) :
  NoDup (id <$> correspondents) ->
  exists groups,
    Similarity.find_similar_correspondents threshold correspondents =
      Return groups /\
    forall g m, g ∈ groups -> m ∈ g ->
      exists m', m' ∈ g /\ m' ≠ m /\
        (SimilaritySpec.similar_to threshold m m' \/
         SimilaritySpec.similar_to threshold m' m).
Proof.
  intros Hnd.
  destruct (ClusterFacts.find_similar_correspondents_run
              threshold correspondents Hnd)
    as (groups & Hrun & _ & _ & Hlinked & _).
  exists groups. auto.
Qed.

Lemma similar_group_members_linked_witness :
  NoDup (id <$> Inputs.two_clusters) /\
  exists groups,
    Similarity.find_similar_correspondents (1 # 2) Inputs.two_clusters =
      Return groups /\
    forall g m, g ∈ groups -> m ∈ g ->
      exists m', m' ∈ g /\ m' ≠ m /\
        (SimilaritySpec.similar_to (1 # 2) m m' \/
         SimilaritySpec.similar_to (1 # 2) m' m).
Proof.
  assert (Hnd : NoDup (id <$> Inputs.two_clusters)).
  { apply (bool_decide_unpack _). vm_compute. reflexivity. }
  split; [exact Hnd|].
  exact (similar_group_members_linked (1 # 2) Inputs.two_clusters Hnd).
Defined.

(** Exact duplicates are similar at every threshold up to 1: with
    pairwise distinct ids, two correspondents whose lower-cased, stripped
    names are equal are members of one group of
    [find_similar_correspondents]. *)
Theorem exact_duplicates_share_similar_group (threshold : Q)
    (correspondents : list correspondent) (c1 c2 : correspondent) :
  (threshold <= 1)%Q ->
  NoDup (id <$> correspondents) ->
  c1 ∈ correspondents -> c2 ∈ correspondents -> c1 ≠ c2 ->
  normalized_name c1 = normalized_name c2 ->
  exists groups g,
    Similarity.find_similar_correspondents threshold correspondents =
      Return groups /\
    g ∈ groups /\ c1 ∈ g /\ c2 ∈ g.
Proof.
  intros Ht Hnd H1 H2 Hne Hkey.
  destruct (ClusterFacts.find_similar_correspondents_run
              threshold correspondents Hnd)
    as (groups & Hrun & _ & _ & _ & Hmut).
  assert (Hone : forall x y, normalized_name x = normalized_name y ->
            SimilaritySpec.similar_to threshold x y).
  { intros x y Hxy. unfold SimilaritySpec.similar_to, Similarity.at_least.
    apply Qle_bool_iff. unfold Similarity.calculate_similarity.
    unfold normalized_name in Hxy. rewrite Hxy, EdgeFacts.ratio_same.
    exact Ht. }
  destruct (Hmut c1 c2 H1 H2 Hne) as (g & Hg & Hin).
  { split; apply Hone; congruence. }
  exists groups, g. auto.
Qed.

Lemma exact_duplicates_share_similar_group_witness :
  exists groups g,
    Similarity.find_similar_correspondents (9 # 10) Inputs.john_and_jane =
      Return groups /\
    g ∈ groups /\
    Correspondent 1 (Text.lit "John Doe") None ∈ g /\
    Correspondent 3 (Text.lit "  john doe  ") None ∈ g.
Proof.
  apply (exact_duplicates_share_similar_group (9 # 10) Inputs.john_and_jane).
  - unfold Qle. simpl. lia.
  - apply (bool_decide_unpack _). vm_compute. reflexivity.
  - apply (bool_decide_unpack _). vm_compute. reflexivity.
  - apply (bool_decide_unpack _). vm_compute. reflexivity.
  - discriminate.
  - vm_compute. reflexivity.
Defined.

(** * The requests of a reassignment and of a merge *)

Module RequestFacts.
Import Service Engine EngineSpec RequestSpec.
Local Open Scope service_scope.

Lemma edits_rest batch rest t bs e :
  edits rest t bs e -> edits (batch ++ rest) t bs e.
Proof.
  intros (b & r & -> & (pre & post & ->) & Hlen).
  exists b, r. split; [reflexivity|]. split; [|exact Hlen].
  exists (batch ++ pre), post. rewrite <- app_assoc. reflexivity.
Qed.

Lemma edits_retry batch rest t bs bs' e :
  bs' <= bs -> edits batch t bs' e -> edits (batch ++ rest) t bs e.
Proof.
  intros Hle (b & r & -> & (pre & post & ->) & Hlen).
  exists b, r. split; [reflexivity|]. split; [|lia].
  exists pre, (post ++ rest). rewrite <- !app_assoc. reflexivity.
Qed.

Lemma edits_first batch rest t bs r :
  1 <= Z.of_nat (length batch) <= bs ->
  edits (batch ++ rest) t bs (Posted (BulkEdit batch t) r).
Proof.
  intros Hlen. exists batch, r. split; [reflexivity|]. split; [|exact Hlen].
  exists [], rest. reflexivity.
Qed.

Section WithWorld.
Context {W : Type} (ops : world_ops W).

Local Abbreviation bulk_rec := (bulk_reassign_documents_rec ops).
Local Abbreviation bulk := (bulk_reassign_documents ops).

(** Every request of a run, retries included, carries a run of
    consecutive ids of the list, at least one and at most the batch
    size, for the target. *)
Lemma bulk_rec_edits d : forall ids t bs s,
  1 <= bs -> (depth_bound bs <= d)%nat ->
  exists ok evs w',
    bulk_rec d ids t bs s = (Return ok, Session w' (log s ++ evs)) /\
    Forall (edits ids t bs) evs.
Proof.
  induction d as [|d IHd]; intros ids t bs s Hbs Hd;
    [pose proof (EngineFacts.depth_bound_pos bs); lia|].
  remember (length ids) as n eqn:Hn. revert ids s Hn.
  induction n as [n IHn] using lt_wf_ind. intros ids s ->.
  destruct (decide (ids = [])) as [->|Hne].
  { exists true, [], (world s). split; [|constructor].
    cbn. unfold ret. rewrite app_nil_r. destruct s; reflexivity. }
  rewrite EngineFacts.bulk_rec_first_batch by assumption.
  set (batch := take (Z.to_nat bs) ids).
  set (rest := drop (Z.to_nat bs) ids).
  assert (Hids : ids = batch ++ rest) by (symmetry; apply take_drop).
  assert (Hbatch : 1 <= Z.of_nat (length batch) <= bs).
  { unfold batch. rewrite length_take. destruct ids; [done|]. simpl. lia. }
  assert (Hshort : (length rest < length ids)%nat).
  { unfold rest. rewrite length_drop. destruct ids; [done|]. simpl. lia. }
  unfold bind at 1. unfold Engine.post at 1.
  destruct (on_post ops _ (world s)) as [r w1].
  set (e1 := Posted (BulkEdit batch t) r).
  set (s1 := Session w1 (log s ++ [e1])).
  assert (He1 : edits ids t bs e1)
    by (rewrite Hids; apply edits_first, Hbatch).
  destruct (IHn _ Hshort rest s1 eq_refl)
    as (ok2 & evs2 & w2 & Hrun2 & Hall2).
  cbn [log s1] in Hrun2. rewrite <- app_assoc in Hrun2. cbn [app] in Hrun2.
  assert (Hall2' : Forall (edits ids t bs) (e1 :: evs2)).
  { constructor; [exact He1|]. rewrite Hids.
    eapply Forall_impl; [exact Hall2|]. intros e. apply edits_rest. }
  assert (Hfail : both (ret false) (bulk_rec (S d) rest t bs) s1 =
                  (Return false, Session w2 (log s ++ e1 :: evs2))).
  { rewrite EngineFacts.both_ret_false, Hrun2. reflexivity. }
  destruct r.
  - exists ok2, (e1 :: evs2), w2. split; [exact Hrun2|exact Hall2'].
  - destruct (Z.ltb_spec 10 bs) as [Hbig|Hsmall].
    + pose proof (EngineFacts.depth_bound_half bs Hbig) as Hhalf.
      pose proof (EngineFacts.half_bounds bs Hbig) as Hhb.
      destruct (IHd batch t (bs / 2) s1) as
        (ok1 & evs1 & w1' & Hrun1 & Hall1);
        [lia|unfold depth_bound in *; lia|].
      set (s1' := Session w1' (log s1 ++ evs1)) in *.
      destruct (IHn _ Hshort rest s1' eq_refl)
        as (ok3 & evs3 & w3 & Hrun3 & Hall3).
      exists (ok1 && ok3), (e1 :: evs1 ++ evs3), w3. split.
      * rewrite EngineFacts.both_on_return, Hrun1. fold s1'. rewrite Hrun3.
        cbn. rewrite <- !app_assoc. reflexivity.
      * constructor; [exact He1|]. rewrite Hids. apply Forall_app. split.
        -- eapply Forall_impl; [exact Hall1|]. intros e.
           apply edits_retry. lia.
        -- eapply Forall_impl; [exact Hall3|]. intros e. apply edits_rest.
    + exists false, (e1 :: evs2), w2. split; [exact Hfail|exact Hall2'].
  - exists false, (e1 :: evs2), w2. split; [exact Hfail|exact Hall2'].
Qed.

(** The run of [bulk_reassign_documents]: its summary and what its
    requests carry. *)
Lemma bulk_requests ids t bs s :
  1 <= bs ->
  exists ok evs w',
    bulk ids t bs s = (Return ok, Session w' (log s ++ evs)) /\
    run_summary ids t bs ok evs /\
    Forall (edits ids t bs) evs.
Proof.
  intros Hbs.
  destruct (EngineFacts.bulk_run ops ids t bs s Hbs)
    as (ok & evs & w' & Hrun & Hsum).
  destruct (bulk_rec_edits (depth_bound bs) ids t bs s Hbs (le_n _))
    as (ok' & evs' & w'' & Hrun' & Hall).
  unfold bulk_reassign_documents in Hrun. rewrite Hrun in Hrun'.
  injection Hrun' as _ _ Hlog. apply app_inv_head in Hlog as <-.
  exists ok, evs, w'. auto.
Qed.

End WithWorld.
End RequestFacts.

(** For [batch_size >= 1], every request [bulk_reassign_documents] sends,
    retries included, is a bulk edit that sets the given correspondent on
    a run of consecutive ids of the list, at least one and at most
    [batch_size] of them. *)
Theorem bulk_reassign_documents_requests {W : Type}
    (ops : Service.world_ops W) (ids : list Z) (t bs : Z)
    (s : Service.session W) :
  1 <= bs ->
  exists ok evs w',
    Engine.bulk_reassign_documents ops ids t bs s =
      (Return ok, Service.Session w' (Service.log s ++ evs)) /\
    Forall (RequestSpec.edits ids t bs) evs.
Proof.
  intros Hbs.
  destruct (RequestFacts.bulk_requests ops ids t bs s Hbs)
    as (ok & evs & w' & Hrun & _ & Hall).
  exists ok, evs, w'. auto.
Qed.

Lemma bulk_reassign_documents_requests_witness :
  1 <= 50 /\
  exists ok evs w',
    Engine.bulk_reassign_documents Scripted.ops (seqZ 1 120) 9 50
      (Scripted.start Inputs.second_times_out) =
      (Return ok, Service.Session w' evs) /\
    Forall (RequestSpec.edits (seqZ 1 120) 9 50) evs.
Proof.
  assert (H1 : 1 <= 50) by lia. split; [exact H1|].
  exact (bulk_reassign_documents_requests Scripted.ops (seqZ 1 120) 9 50
           (Scripted.start Inputs.second_times_out) H1).
Defined.

(** A batch size that is not positive: with a non-empty list, a batch
    size of 0 raises [ValueError] (the step of [range] is zero) and a
    negative batch size returns [True]; in both cases nothing is
    requested. *)
Theorem bulk_reassign_documents_nonpositive_batch_size {W : Type}
    (ops : Service.world_ops W) (ids : list Z) (t bs : Z)
    (s : Service.session W) :
  ids <> [] -> bs <= 0 ->
  Engine.bulk_reassign_documents ops ids t bs s =
    (if bs =? 0 then Raise ValueError else Return true, s).
Proof.
  intros Hne Hbs. unfold Engine.bulk_reassign_documents.
  assert (Engine.depth_bound bs = 1%nat) as ->.
  { unfold Engine.depth_bound. rewrite Z.log2_nonpos by assumption.
    reflexivity. }
  destruct ids as [|x ids]; [done|]. cbn [Engine.bulk_reassign_documents_rec].
  unfold Py.range. destruct (Z.eqb_spec bs 0) as [->|Hnz]; [reflexivity|].
  unfold Py.range_len. rewrite (proj2 (Z.ltb_ge 0 bs)) by lia.
  rewrite (proj2 (Z.ltb_ge (Z.of_nat (length (x :: ids))) 0)) by lia.
  reflexivity.
Qed.

Lemma bulk_reassign_documents_nonpositive_batch_size_witness :
  Engine.bulk_reassign_documents Scripted.ops [1; 2; 3] 9 (-5)
    (Scripted.start Inputs.one_owner) =
    (Return true, Scripted.start Inputs.one_owner) /\
  Engine.bulk_reassign_documents Scripted.ops [1; 2; 3] 9 0
    (Scripted.start Inputs.one_owner) =
    (Raise ValueError, Scripted.start Inputs.one_owner).
Proof.
  split.
  - apply (bulk_reassign_documents_nonpositive_batch_size Scripted.ops
             [1; 2; 3] 9 (-5) (Scripted.start Inputs.one_owner));
      [discriminate|lia].
  - apply (bulk_reassign_documents_nonpositive_batch_size Scripted.ops
             [1; 2; 3] 9 0 (Scripted.start Inputs.one_owner));
      [discriminate|lia].
Defined.

(** * Merging: what is fetched, moved, asked and deleted *)

Module MergeLogFacts.
Import Service Engine EngineSpec RequestSpec.
Local Open Scope service_scope.

Lemma deleted_ids_app evs1 evs2 :
  deleted_ids (evs1 ++ evs2) = deleted_ids evs1 ++ deleted_ids evs2.
Proof. apply omap_app. Qed.

Lemma answers_app evs1 evs2 :
  answers (evs1 ++ evs2) = answers evs1 ++ answers evs2.
Proof. apply omap_app. Qed.

(** Fetches and bulk edits hold no answer and no deletion. *)
Lemma moves_quiet t evs :
  Forall (moves_to t) evs -> answers evs = [] /\ deleted_ids evs = [].
Proof.
  induction 1 as [|e evs He _ [IHa IHd]]; [split; reflexivity|].
  destruct e; try contradiction; split; assumption.
Qed.

Lemma moves_posted t evs p r :
  Forall (moves_to t) evs -> Posted p r ∈ evs -> set_correspondent p = t.
Proof.
  intros Hall Hin. rewrite Forall_forall in Hall. exact (Hall _ Hin).
Qed.

Lemma edits_moves docs t bs e : edits docs t bs e -> moves_to t e.
Proof. intros (b & r & -> & _). reflexivity. Qed.

Section WithWorld.
Context {W : Type} (ops : world_ops W).

(** One merge: the fetch of the source, then bulk edits of what was
    fetched, in batches of at most 50, to the target. *)
Lemma merge_correspondents_log source target s :
  exists ok evs w',
    merge_correspondents ops source target s =
      (Return ok,
       Session w'
         (log s ++
          Fetched source (on_fetch_documents ops source (world s)).1
            :: evs)) /\
    Forall (edits (on_fetch_documents ops source (world s)).1 target 50)
      evs /\
    ((on_fetch_documents ops source (world s)).1 = [] ->
     ok = true /\ evs = []) /\
    (ok = true ->
     forall doc, doc ∈ (on_fetch_documents ops source (world s)).1 ->
                 reassigned evs doc).
Proof.
  rewrite MergeFacts.merge_correspondents_unfold.
  destruct (on_fetch_documents ops source (world s)) as [docs w0].
  cbn [fst]. destruct docs as [|d docs].
  - exists true, [], w0. split; [reflexivity|]. split; [constructor|].
    split; [auto|]. intros _ doc Hdoc. inversion Hdoc.
  - destruct (RequestFacts.bulk_requests ops (d :: docs) target 50
                (Session w0 (log s ++ [Fetched source (d :: docs)])))
      as (ok & evs & w' & Hrun & (_ & Htrue & _) & Hall); [lia|].
    exists ok, evs, w'. split.
    + cbv beta iota zeta. rewrite Hrun. cbn. rewrite <- app_assoc.
      reflexivity.
    + split; [exact Hall|]. split; [discriminate|].
      intros Hok. apply (Htrue Hok).
Qed.

Lemma merge_correspondents_moves source target s :
  exists ok evs w',
    merge_correspondents ops source target s =
      (Return ok, Session w' (log s ++ evs)) /\
    fetched_ids evs = [source] /\ Forall (moves_to target) evs.
Proof.
  destruct (merge_correspondents_log source target s)
    as (ok & evs & w' & Hrun & Hall & _).
  exists ok, (Fetched source (on_fetch_documents ops source (world s)).1
                :: evs), w'.
  split; [exact Hrun|]. split.
  - change (fetched_ids (Fetched source _ :: evs))
      with (source :: fetched_ids evs).
    rewrite MergeFacts.fetched_ids_posts; [reflexivity|].
    eapply Forall_impl; [exact Hall|].
    intros e (b & r & -> & _). eexists _, _. reflexivity.
  - constructor; [exact I|].
    eapply Forall_impl; [exact Hall|]. intros e. apply edits_moves.
Qed.

(** The loop of [merge_correspondent_group]: it fetches the sources
    in group order, moves documents to the target only, keeps a flag
    that is [True] only if it was and every merge returned [True],
    and then has collected every source. *)
Lemma merge_loop_log target : forall group success merged s,
  exists ok merged' evs w',
    merge_loop ops target group success merged s =
      (Return (ok, merged'), Session w' (log s ++ evs)) /\
    fetched_ids evs = sources_of group target /\
    Forall (moves_to target) evs /\
    (ok = true ->
     success = true /\ merged' = merged ++ sources_of group target).
Proof.
  induction group as [|c group IH]; intros success merged s.
  - exists success, merged, [], (world s). cbn. unfold ret.
    rewrite !app_nil_r. destruct s. repeat split; auto.
  - cbn [merge_loop]. unfold sources_of. rewrite filter_cons.
    destruct (decide (id c ≠ target)) as [Hne|Heq].
    + rewrite fmap_cons. fold (sources_of group target).
      unfold bind at 1.
      destruct (merge_correspondents_moves (id c) target s)
        as (ok1 & evs1 & w1 & Hrun1 & Hf1 & Hm1).
      rewrite Hrun1. destruct ok1.
      * destruct (IH success (merged ++ [id c])
                    (Session w1 (log s ++ evs1)))
          as (ok & merged' & evs & w' & Hloop & Hf & Hm & Hok).
        exists ok, merged', (evs1 ++ evs), w'. split.
        { rewrite Hloop. cbn. rewrite <- app_assoc. reflexivity. }
        split; [rewrite MergeFacts.fetched_ids_app, Hf1, Hf; reflexivity|].
        split; [apply Forall_app; split; assumption|].
        intros Htrue. destruct (Hok Htrue) as [-> ->].
        rewrite <- app_assoc. split; reflexivity.
      * destruct (IH false merged (Session w1 (log s ++ evs1)))
          as (ok & merged' & evs & w' & Hloop & Hf & Hm & Hok).
        exists ok, merged', (evs1 ++ evs), w'. split.
        { rewrite Hloop. cbn. rewrite <- app_assoc. reflexivity. }
        split; [rewrite MergeFacts.fetched_ids_app, Hf1, Hf; reflexivity|].
        split; [apply Forall_app; split; assumption|].
        intros Htrue. destruct (Hok Htrue) as [Hfalse _]. discriminate.
    + fold (sources_of group target). apply IH.
Qed.

Lemma delete_all_log : forall merged s,
  exists evs w',
    delete_all ops merged s = (Return tt, Session w' (log s ++ evs)) /\
    deleted_ids evs = merged /\ answers evs = [] /\
    fetched_ids evs = [] /\ posted evs = [].
Proof.
  induction merged as [|x merged IH]; intros s.
  - exists [], (world s). cbn. unfold ret. rewrite app_nil_r.
    destruct s; repeat split; reflexivity.
  - cbn [delete_all]. unfold bind, delete_correspondent.
    destruct (on_delete ops x (world s)) as [ok w1].
    destruct (IH (Session w1 (log s ++ [Deleted x ok])))
      as (evs & w' & Hrun & Hd & Ha & Hf & Hp).
    exists (Deleted x ok :: evs), w'. split.
    + rewrite Hrun. cbn. rewrite <- app_assoc. reflexivity.
    + change (deleted_ids (Deleted x ok :: evs))
        with (x :: deleted_ids evs).
      rewrite Hd. repeat split; assumption.
Qed.

(** The target a call settles on has the id the merges are given. *)
Lemma choose_target_id group target_id target :
  choose_target group target_id = Some target ->
  match target_id with
  | None => id target
  | Some t => t
  end = id target /\ target ∈ group.
Proof.
  destruct target_id as [t|]; cbn [choose_target].
  - intros Hfind. apply find_some in Hfind as [Hin Hid].
    apply bool_decide_eq_true in Hid. apply list_elem_of_In in Hin. auto.
  - destruct group as [|c0 rest]; [discriminate|]. intros [= <-].
    split; [reflexivity|].
    destruct (MergeFacts.max_from_spec count_of rest c0) as (i & Hi & _).
    eapply list_elem_of_lookup_2, Hi.
Qed.

Lemma choose_target_explicit group t :
  t ∈ id <$> group <-> is_Some (choose_target group (Some t)).
Proof.
  cbn [choose_target]. split.
  - intros Hin. apply list_elem_of_fmap in Hin as (c & -> & Hc).
    destruct (List.find _ group) as [c'|] eqn:Hfind; [eauto|].
    apply list_elem_of_In in Hc.
    pose proof (find_none _ _ Hfind c Hc) as Hno. simpl in Hno.
    apply bool_decide_eq_false in Hno. congruence.
  - intros [c Hfind]. apply find_some in Hfind as [Hin Hid].
    apply bool_decide_eq_true in Hid. apply list_elem_of_In in Hin.
    rewrite <- Hid. apply list_elem_of_fmap_2, Hin.
Qed.

(** The whole of [merge_correspondent_group] on a group of at least
    two members with a target: the merges, then nothing, or the
    question alone, or the question and the deletion of every
    source. *)
Lemma merge_group_log group target_id target s :
  (2 <= length group)%nat ->
  choose_target group target_id = Some target ->
  exists ok evs w1 tail s2,
    merge_correspondent_group ops group target_id s = (Return ok, s2) /\
    log s2 = log s ++ evs ++ tail /\
    fetched_ids evs = sources_of group (id target) /\
    Forall (moves_to (id target)) evs /\
    (exists merged,
       merge_loop ops (id target) group true [] s =
         (Return (ok, merged), Session w1 (log s ++ evs))) /\
    fetched_ids tail = [] /\ posted tail = [] /\
    (tail = [] /\ (ok = false \/ sources_of group (id target) = []) \/
     ok = true /\ sources_of group (id target) <> [] /\
     exists answer,
       answers tail = [answer] /\
       (Text.lower answer <> Text.lit "y" /\ deleted_ids tail = [] \/
        Text.lower answer = Text.lit "y" /\
        deleted_ids tail = sources_of group (id target))).
Proof.
  intros Hlen Htarget.
  destruct (choose_target_id group target_id target Htarget) as [Hid _].
  destruct (merge_loop_log (id target) group true [] s)
    as (ok & merged & evs & w1 & Hloop & Hf & Hm & Hok).
  assert (Hrun :
    merge_correspondent_group ops group target_id s =
    match ok, merged with
    | true, _ :: _ =>
        let* response := input ops in
        if decide (Text.lower response = Text.lit "y") then
          let* _done := delete_all ops merged in ret ok
        else ret ok
    | _, _ => ret ok
    end (Session w1 (log s ++ evs))).
  { unfold merge_correspondent_group.
    rewrite (proj2 (Nat.ltb_ge _ _) Hlen), Htarget. cbv beta iota.
    rewrite Hid. unfold bind at 1. rewrite Hloop. reflexivity. }
  rewrite Hrun. clear Hrun.
  exists ok, evs, w1.
  assert (Hplain : ok = false \/ sources_of group (id target) = [] ->
            merged = [] \/ ok = false ->
            exists tail s2,
              ret ok (Session w1 (log s ++ evs)) = (Return ok, s2) /\
              log s2 = log s ++ evs ++ tail /\
              fetched_ids evs = sources_of group (id target) /\
              Forall (moves_to (id target)) evs /\
              (exists merged0,
                 merge_loop ops (id target) group true [] s =
                   (Return (ok, merged0), Session w1 (log s ++ evs))) /\
              fetched_ids tail = [] /\ posted tail = [] /\
              (tail = [] /\
               (ok = false \/ sources_of group (id target) = []) \/
               ok = true /\ sources_of group (id target) <> [] /\
               exists answer,
                 answers tail = [answer] /\
                 (Text.lower answer <> Text.lit "y" /\
                  deleted_ids tail = [] \/
                  Text.lower answer = Text.lit "y" /\
                  deleted_ids tail = sources_of group (id target)))).
  { intros Hcase _. exists [], (Session w1 (log s ++ evs)).
    rewrite app_nil_r. repeat (split; [first [reflexivity|eauto]|]).
    left. auto. }
  destruct ok.
  - destruct (Hok eq_refl) as [_ Hmerged]. simpl in Hmerged.
    destruct merged as [|m merged].
    + cbv beta iota. apply Hplain; [right; congruence|left; reflexivity].
    + clear Hplain. unfold bind at 1, input.
      cbn [world log].
      destruct (on_input ops w1) as [answer w2].
      destruct (decide (Text.lower answer = Text.lit "y")) as [Hy|Hn].
      * unfold bind.
        destruct (delete_all_log (m :: merged)
                    (Session w2 ((log s ++ evs) ++ [Asked answer])))
          as (dels & w3 & Hdel & Hd & Ha & Hfd & Hpd).
        rewrite Hdel. eexists (Asked answer :: dels), _.
        split; [reflexivity|]. split.
        { cbn. rewrite <- !app_assoc. reflexivity. }
        split; [exact Hf|]. split; [exact Hm|]. split; [eauto|].
        split; [exact Hfd|]. split; [exact Hpd|].
        right. split; [reflexivity|]. split; [congruence|].
        exists answer. split.
        { change (answers (Asked answer :: dels))
            with (answer :: answers dels). rewrite Ha. reflexivity. }
        right. split; [exact Hy|].
        change (deleted_ids (Asked answer :: dels)) with (deleted_ids dels).
        congruence.
      * eexists [Asked answer], _.
        split; [reflexivity|]. split.
        { cbn. rewrite <- !app_assoc. reflexivity. }
        split; [exact Hf|]. split; [exact Hm|]. split; [eauto|].
        split; [reflexivity|]. split; [reflexivity|].
        right. split; [reflexivity|]. split; [congruence|].
        exists answer. split; [reflexivity|]. left. auto.
  - destruct merged; cbv beta iota; apply Hplain; auto.
Qed.

End WithWorld.
End MergeLogFacts.

(** [merge_correspondents] fetches the documents of the source once, and
    first; every request after that is a bulk edit that sets the target
    on at least one and at most 50 consecutive documents of those
    fetched. With no document fetched it returns [True] and requests
    nothing more; and when it returns [True], every fetched document
    went out in a bulk edit that completed. *)
Theorem merge_correspondents_requests {W : Type}
    (ops : Service.world_ops W) (source_id target_id : Z)
    (s : Service.session W) :
  let docs :=
    (Service.on_fetch_documents ops source_id (Service.world s)).1 in
  exists ok evs w',
    Engine.merge_correspondents ops source_id target_id s =
      (Return ok,
       Service.Session w'
         (Service.log s ++ Service.Fetched source_id docs :: evs)) /\
    Forall (RequestSpec.edits docs target_id 50) evs /\
    (docs = [] -> ok = true /\ evs = []) /\
    (ok = true -> forall doc, doc ∈ docs -> EngineSpec.reassigned evs doc).
Proof. apply MergeLogFacts.merge_correspondents_log. Qed.

(** [merge_correspondent_group] returns [False] and asks nothing of the
    service or the user when the group has fewer than two members, or
    when the given target id is the id of no member. *)
Theorem merge_correspondent_group_rejects {W : Type}
    (ops : Service.world_ops W) (group : list correspondent)
    (target_id : option Z) (s : Service.session W) :
  (length group < 2)%nat \/
  (exists t, target_id = Some t /\ t ∉ id <$> group) ->
  Engine.merge_correspondent_group ops group target_id s = (Return false, s).
Proof.
  intros Hbad. unfold Engine.merge_correspondent_group.
  destruct (Nat.ltb_spec (length group) 2) as [Hshort|Hlong]; [reflexivity|].
  destruct Hbad as [Hshort|(t & -> & Hout)]; [lia|].
  destruct (Engine.choose_target group (Some t)) as [c|] eqn:Hfind;
    [|reflexivity].
  exfalso. apply Hout. apply MergeLogFacts.choose_target_explicit. eauto.
Qed.

Lemma merge_correspondent_group_rejects_witness :
  Engine.merge_correspondent_group Scripted.ops Inputs.tied_group (Some 9)
    (Scripted.start Inputs.first_merge_fails) =
    (Return false, Scripted.start Inputs.first_merge_fails).
Proof.
  apply (merge_correspondent_group_rejects Scripted.ops Inputs.tied_group
           (Some 9) (Scripted.start Inputs.first_merge_fails)).
  right. exists 9. split; [reflexivity|].
  apply (bool_decide_unpack _). vm_compute. reflexivity.
Defined.

(** [merge_correspondent_group] with a target id that a member of a group
    of at least two carries: the documents of every member with another
    id are fetched, in group order, and of no one else; every bulk edit
    sets the target; the result is the conjunction of what the merges of
    these members returned; and the target is not deleted. *)
Theorem merge_correspondent_group_explicit_target {W : Type}
    (ops : Service.world_ops W) (group : list correspondent) (t : Z)
    (s : Service.session W) :
  (2 <= length group)%nat -> t ∈ id <$> group ->
  exists ok evs w' oks s1,
    Engine.merge_correspondent_group ops group (Some t) s =
      (Return ok, Service.Session w' (Service.log s ++ evs)) /\
    EngineSpec.fetched_ids evs = EngineSpec.sources_of group t /\
    (forall payload r, Service.Posted payload r ∈ evs ->
                       Service.set_correspondent payload = t) /\
    EngineSpec.merge_each ops t (EngineSpec.sources_of group t) s =
      (Return oks, s1) /\
    ok = forallb (fun ok => ok) oks /\
    t ∉ RequestSpec.deleted_ids evs.
Proof.
  intros Hlen Hin.
  apply MergeLogFacts.choose_target_explicit in Hin as [target Htarget].
  destruct (MergeLogFacts.choose_target_id group (Some t) target Htarget)
    as [Hid _].
  destruct (MergeLogFacts.merge_group_log ops group (Some t) target s
              Hlen Htarget)
    as (ok & evs & w1 & tail & s2 & Hrun & Hlog & Hf & Hm & (merged & Hloop) &
        Hft & Hpt & Htail).
  rewrite <- Hid in *.
  destruct (MergeFacts.merge_loop_run ops t group true [] s)
    as (oks & s1 & merged' & Heach & Hloop').
  rewrite Hloop in Hloop'. injection Hloop' as Hok _ _.
  exists ok, (evs ++ tail), (Service.world s2), oks, s1.
  split; [rewrite Hrun, <- Hlog; destruct s2; reflexivity|].
  split; [rewrite MergeFacts.fetched_ids_app, Hf, Hft, app_nil_r; reflexivity|].
  split.
  { intros p r Hp. apply elem_of_app in Hp as [Hp|Hp].
    - eapply MergeLogFacts.moves_posted; eassumption.
    - exfalso.
      assert (Hin : (p, r) ∈ EngineSpec.posted tail).
      { unfold EngineSpec.posted. apply list_elem_of_omap.
        exists (Service.Posted p r). split; [exact Hp|reflexivity]. }
      rewrite Hpt in Hin. inversion Hin. }
  split; [exact Heach|]. split; [exact Hok|].
  rewrite MergeLogFacts.deleted_ids_app.
  destruct (MergeLogFacts.moves_quiet t evs Hm) as [_ ->]. cbn [app].
  destruct Htail as [[-> _]|(_ & _ & answer & _ & [[_ ->]|[_ ->]])].
  - intros H. inversion H.
  - intros H. inversion H.
  - unfold EngineSpec.sources_of. intros H.
    apply list_elem_of_fmap in H as (c & Hc & Hfil).
    apply list_elem_of_filter in Hfil as [Hne _]. congruence.
Qed.

Lemma merge_correspondent_group_explicit_target_witness :
  exists ok evs w' oks s1,
    Engine.merge_correspondent_group Scripted.ops Inputs.tied_group (Some 3)
      (Scripted.start Inputs.first_merge_fails) =
      (Return ok, Service.Session w' evs) /\
    EngineSpec.fetched_ids evs = [1; 2] /\
    (forall payload r, Service.Posted payload r ∈ evs ->
                       Service.set_correspondent payload = 3) /\
    EngineSpec.merge_each Scripted.ops 3 [1; 2]
      (Scripted.start Inputs.first_merge_fails) = (Return oks, s1) /\
    ok = forallb (fun ok => ok) oks /\
    3 ∉ RequestSpec.deleted_ids evs.
Proof.
  apply (merge_correspondent_group_explicit_target Scripted.ops
           Inputs.tied_group 3 (Scripted.start Inputs.first_merge_fails)).
  - simpl. lia.
  - apply (bool_decide_unpack _). vm_compute. reflexivity.
Defined.

(** [merge_correspondent_group] deletes with care. It returns, and: when
    it returns [False] the user is asked nothing and nothing is deleted;
    when a DELETE request is sent, the result is [True], the user was
    asked once and the answer, lower-cased, is ["y"], and the
    correspondents deleted are the members whose id is not the target's,
    every one of them, in group order. The target is never deleted. *)
Theorem merge_correspondent_group_deletion {W : Type}
    (ops : Service.world_ops W) (group : list correspondent)
    (target_id : option Z) (s : Service.session W) :
  exists ok evs w',
    Engine.merge_correspondent_group ops group target_id s =
      (Return ok, Service.Session w' (Service.log s ++ evs)) /\
    (ok = false ->
     RequestSpec.answers evs = [] /\ RequestSpec.deleted_ids evs = []) /\
    (RequestSpec.deleted_ids evs <> [] ->
     ok = true /\
     exists target answer,
       Engine.choose_target group target_id = Some target /\
       RequestSpec.answers evs = [answer] /\
       Text.lower answer = Text.lit "y" /\
       RequestSpec.deleted_ids evs = EngineSpec.sources_of group (id target)) /\
    (forall target, Engine.choose_target group target_id = Some target ->
                    id target ∉ RequestSpec.deleted_ids evs).
Proof.
  assert (Hnone : Engine.merge_correspondent_group ops group target_id s =
                    (Return false, s) ->
            exists ok evs w',
              Engine.merge_correspondent_group ops group target_id s =
                (Return ok, Service.Session w' (Service.log s ++ evs)) /\
              (ok = false ->
               RequestSpec.answers evs = [] /\
               RequestSpec.deleted_ids evs = []) /\
              (RequestSpec.deleted_ids evs <> [] ->
               ok = true /\
               exists target answer,
                 Engine.choose_target group target_id = Some target /\
                 RequestSpec.answers evs = [answer] /\
                 Text.lower answer = Text.lit "y" /\
                 RequestSpec.deleted_ids evs =
                   EngineSpec.sources_of group (id target)) /\
              (forall target,
                 Engine.choose_target group target_id = Some target ->
                 id target ∉ RequestSpec.deleted_ids evs)).
  { intros Hrun. exists false, [], (Service.world s).
    rewrite Hrun, app_nil_r. destruct s. split; [reflexivity|].
    split; [auto|]. split; [intros H; contradiction|].
    intros target _ H. inversion H. }
  destruct (Nat.ltb_spec (length group) 2) as [Hshort|Hlong].
  { apply Hnone. unfold Engine.merge_correspondent_group.
    rewrite (proj2 (Nat.ltb_lt _ _) Hshort). reflexivity. }
  destruct (Engine.choose_target group target_id) as [target|] eqn:Htarget.
  2:{ apply Hnone. unfold Engine.merge_correspondent_group.
      rewrite (proj2 (Nat.ltb_ge _ _) Hlong), Htarget. reflexivity. }
  clear Hnone.
  destruct (MergeLogFacts.merge_group_log ops group target_id target s
              Hlong Htarget)
    as (ok & evs & w1 & tail & s2 & Hrun & Hlog & Hf & Hm & _ &
        Hft & Hpt & Htail).
  destruct (MergeLogFacts.moves_quiet (id target) evs Hm) as [Ha Hd].
  exists ok, (evs ++ tail), (Service.world s2).
  split; [rewrite Hrun, <- Hlog; destruct s2; reflexivity|].
  rewrite MergeLogFacts.answers_app, MergeLogFacts.deleted_ids_app, Ha, Hd.
  cbn [app].
  assert (Hnot : id target ∉ EngineSpec.sources_of group (id target)).
  { unfold EngineSpec.sources_of. intros H.
    apply list_elem_of_fmap in H as (c & Hc & Hfil).
    apply list_elem_of_filter in Hfil as [Hne _]. congruence. }
  destruct Htail as [[-> Hcase]|(-> & Hne & answer & Hans & Hdel)].
  - split; [auto|]. split; [intros H; contradiction|].
    intros target' _ H. inversion H.
  - split; [discriminate|]. split.
    + intros Hsome. split; [reflexivity|]. exists target, answer.
      split; [reflexivity|]. split; [exact Hans|].
      destruct Hdel as [[_ Hnil]|[Hy Hall]]; [congruence|auto].
    + intros target' [= <-].
      destruct Hdel as [[_ ->]|[_ ->]]; [intros H; inversion H|exact Hnot].
Qed.

(** * When there are no exact duplicates, and how the groups differ *)

Module DuplicateGroupFacts.
Import Duplicates.



Lemma members_of_inj (cs : list correspondent) k1 k2 :
  (1 <= length (members_of k1 cs))%nat ->
  members_of k1 cs = members_of k2 cs -> k1 = k2.
Proof.
  intros Hlen Heq.
  destruct (members_of k1 cs) as [|c ms] eqn:E; [simpl in Hlen; lia|].
  assert (H1 : c ∈ members_of k1 cs) by (rewrite E; apply list_elem_of_here).
  assert (H2 : c ∈ members_of k2 cs)
    by (rewrite <- Heq; apply list_elem_of_here).
  apply list_elem_of_filter in H1 as [H1 _].
  apply list_elem_of_filter in H2 as [H2 _]. congruence.
Qed.

(** The groups returned are the member lists of pairwise different
    keys. *)
Lemma groups_keys (cs : list correspondent) :
  exists ks,
    NoDup ks /\
    find_exact_duplicates cs = (fun k => members_of k cs) <$> ks.
Proof.
  rewrite DuplicatesFacts.find_exact_duplicates_refines.
  unfold duplicate_groups_spec.
  pose proof (DuplicatesFacts.first_seen_NoDup (normalized_name <$> cs))
    as Hnd.
  induction (first_seen (normalized_name <$> cs)) as [|k ks IH].
  - exists []. split; [constructor|reflexivity].
  - apply NoDup_cons in Hnd as [Hout Hnd].
    destruct (IH Hnd) as (ks' & Hnd' & Heq).
    assert (Hsub : forall x, x ∈ ks' -> x ∈ ks).
    { clear -Heq. revert ks' Heq.
      induction ks as [|k0 ks IHks]; intros ks' Heq x Hx.
      - rewrite fmap_nil, filter_nil in Heq.
        destruct ks'; [inversion Hx|discriminate].
      - rewrite fmap_cons, filter_cons in Heq.
        destruct (decide _) as [Hbig|Hsmall].
        + destruct ks' as [|k1 ks'']; [inversion Hx|].
          rewrite fmap_cons in Heq. injection Heq as Hhead Htail.
          apply elem_of_cons in Hx as [->|Hx].
          * rewrite (members_of_inj cs k0 k1); [apply list_elem_of_here| |].
            -- lia.
            -- exact Hhead.
          * apply list_elem_of_further. eapply IHks; eassumption.
        + apply list_elem_of_further. eapply IHks; eassumption. }
    rewrite fmap_cons, filter_cons. destruct (decide _).
    + exists (k :: ks'). split; [|rewrite fmap_cons, Heq; reflexivity].
      constructor; [|exact Hnd']. intros Hin. apply Hout, Hsub, Hin.
    + exists ks'. split; assumption.
Qed.

End DuplicateGroupFacts.


(** Two groups at different positions of the result of
    [find_exact_duplicates] belong to different keys: no member of the
    one has the lower-cased, stripped name of a member of the other, so
    no correspondent is reported in two groups. *)
Theorem find_exact_duplicates_groups_apart (cs : list correspondent)
    (i j : nat) (g h : list correspondent) (c d : correspondent) :
  Duplicates.find_exact_duplicates cs !! i = Some g ->
  Duplicates.find_exact_duplicates cs !! j = Some h ->
  i <> j -> c ∈ g -> d ∈ h ->
  normalized_name c <> normalized_name d.
Proof.
  destruct (DuplicateGroupFacts.groups_keys cs) as (ks & Hnd & ->).
  rewrite !list_lookup_fmap. intros Hi Hj Hij Hc Hd Heq.
  destruct (ks !! i) as [k1|] eqn:H1; [|discriminate].
  destruct (ks !! j) as [k2|] eqn:H2; [|discriminate].
  injection Hi as <-. injection Hj as <-.
  apply list_elem_of_filter in Hc as [Hc _].
  apply list_elem_of_filter in Hd as [Hd _].
  apply Hij. apply (NoDup_lookup ks i j k1 Hnd H1). congruence.
Qed.

Lemma find_exact_duplicates_groups_apart_witness :
  normalized_name (Correspondent 1 (Text.lit "Acme") None) <>
  normalized_name (Correspondent 3 (Text.lit "Bolt") None).
Proof.
  apply (find_exact_duplicates_groups_apart
           [ Correspondent 1 (Text.lit "Acme") None;
             Correspondent 2 (Text.lit " ACME") None;
             Correspondent 3 (Text.lit "Bolt") None;
             Correspondent 4 (Text.lit "bolt ") None ]
           0 1
           [ Correspondent 1 (Text.lit "Acme") None;
             Correspondent 2 (Text.lit " ACME") None ]
           [ Correspondent 3 (Text.lit "Bolt") None;
             Correspondent 4 (Text.lit "bolt ") None ]).
  - vm_compute. reflexivity.
  - vm_compute. reflexivity.
  - discriminate.
  - apply list_elem_of_here.
  - apply list_elem_of_here.
Defined.

(** * Deleting the correspondents without documents *)

Module CatalogFacts.
Import Service Engine EngineSpec RequestSpec Catalog.
Local Open Scope service_scope.

Lemma length_deleted_for_good_cons c ok evs :
  Z.of_nat (length (deleted_for_good (Deleted c ok :: evs))) =
  (if ok then 1 else 0) + Z.of_nat (length (deleted_for_good evs)).
Proof.
  unfold deleted_for_good. cbn [omap list_omap].
  destruct ok; cbn [length]; lia.
Qed.

Section WithWorld.
Context {W : Type} (ops : world_ops W).
Variable listing : W -> option (list correspondent) * W.

(** The loop asks and deletes, and nothing else; it deletes members
    of the list only, in the order of the list; and it counts the
    deletions that succeeded. *)
Lemma delete_loop_log confirm_each : forall empty n s,
  exists n' evs w',
    delete_loop ops confirm_each empty n s =
      (Return n', Session w' (log s ++ evs)) /\
    fetched_ids evs = [] /\ posted evs = [] /\
    n' = n + Z.of_nat (length (deleted_for_good evs)) /\
    sublist (deleted_ids evs) (id <$> empty) /\
    (length (answers evs) <= length empty)%nat /\
    (confirm_each = true ->
     deleted_ids evs = confirmed_ids empty (answers evs)) /\
    (confirm_each = false ->
     answers evs = [] /\ deleted_ids evs = id <$> empty).
Proof.
  induction empty as [|c rest IH]; intros n s.
  - exists n, [], (world s). cbn. unfold ret. rewrite app_nil_r.
    destruct s. repeat split; try reflexivity; try constructor; lia.
  - assert (Hdelete : exists n' evs w',
      (let* ok := delete_correspondent ops (id c) in
       delete_loop ops confirm_each rest (if ok then n + 1 else n)) s =
        (Return n', Session w' (log s ++ evs)) /\
      fetched_ids evs = [] /\ posted evs = [] /\
      n' = n + Z.of_nat (length (deleted_for_good evs)) /\
      (exists tail, deleted_ids evs = id c :: deleted_ids tail /\
         answers evs = answers tail /\
         sublist (deleted_ids tail) (id <$> rest) /\
         (length (answers tail) <= length rest)%nat /\
         (confirm_each = true ->
          deleted_ids tail = confirmed_ids rest (answers tail)) /\
         (confirm_each = false ->
          answers tail = [] /\ deleted_ids tail = id <$> rest))).
    { unfold bind, delete_correspondent.
      destruct (on_delete ops (id c) (world s)) as [ok w1].
      destruct (IH (if ok then n + 1 else n)
                   (Session w1 (log s ++ [Deleted (id c) ok])))
        as (n' & evs & w' & Hrun & Hf & Hp & Hn & Hsub & Hlen & Hc & Hb).
      exists n', (Deleted (id c) ok :: evs), w'. split.
      { rewrite Hrun. cbn. rewrite <- app_assoc. reflexivity. }
      split; [exact Hf|]. split; [exact Hp|]. split.
      { rewrite length_deleted_for_good_cons. destruct ok; lia. }
      exists evs. auto 10. }
    cbn [delete_loop]. destruct confirm_each.
    + unfold bind at 1, input.
      destruct (on_input ops (world s)) as [answer w1].
      set (s1 := Session w1 (log s ++ [Asked answer])).
      destruct (decide (Text.lower answer = Text.lit "q")) as [Hq|Hnq].
      { exists n, [Asked answer], w1. split; [reflexivity|].
        repeat split; try reflexivity.
        - cbn. lia.
        - apply sublist_nil_l.
        - cbn. lia.
        - intros _. cbn [answers omap list_omap confirmed_ids].
          rewrite decide_True by assumption. reflexivity.
        - discriminate.
        - discriminate. }
      destruct (decide (Text.lower answer <> Text.lit "y")) as [Hny|Hy].
      * destruct (IH n s1)
          as (n' & evs & w' & Hrun & Hf & Hp & Hn & Hsub & Hlen & Hc & _).
        exists n', (Asked answer :: evs), w'. split.
        { rewrite Hrun. cbn. rewrite <- app_assoc. reflexivity. }
        split; [exact Hf|]. split; [exact Hp|]. split; [exact Hn|].
        split.
        { rewrite fmap_cons. apply sublist_cons. exact Hsub. }
        change (answers (Asked answer :: evs)) with (answer :: answers evs).
        change (deleted_ids (Asked answer :: evs)) with (deleted_ids evs).
        split; [cbn [length]; lia|].
        split; [|discriminate]. intros _.
        cbn [confirmed_ids].
        rewrite decide_False by assumption.
        rewrite decide_False by assumption. apply Hc. reflexivity.
      * assert (Hyes : Text.lower answer = Text.lit "y")
          by (destruct (decide (Text.lower answer = Text.lit "y"));
              [assumption|contradiction]).
        clear Hdelete.
        unfold bind, delete_correspondent.
        cbn [world log s1].
        destruct (on_delete ops (id c) w1) as [ok w2].
        destruct (IH (if ok then n + 1 else n)
                     (Session w2 ((log s ++ [Asked answer]) ++
                                  [Deleted (id c) ok])))
          as (n' & evs & w' & Hrun & Hf & Hp & Hn & Hsub & Hlen & Hc & _).
        exists n', (Asked answer :: Deleted (id c) ok :: evs), w'. split.
        { rewrite Hrun. cbn. rewrite <- !app_assoc. reflexivity. }
        split; [exact Hf|]. split; [exact Hp|]. split.
        { change (deleted_for_good (Asked answer :: Deleted (id c) ok :: evs))
            with (deleted_for_good (Deleted (id c) ok :: evs)).
          rewrite length_deleted_for_good_cons. destruct ok; lia. }
        split.
        { rewrite fmap_cons.
          change (deleted_ids (Asked answer :: Deleted (id c) ok :: evs))
            with (id c :: deleted_ids evs).
          apply sublist_skip. exact Hsub. }
        change (answers (Asked answer :: Deleted (id c) ok :: evs))
          with (answer :: answers evs).
        split; [cbn [length]; lia|].
        split; [|discriminate]. intros _.
        change (deleted_ids (Asked answer :: Deleted (id c) ok :: evs))
          with (id c :: deleted_ids evs).
        cbn [confirmed_ids].
        rewrite decide_False by assumption.
        rewrite decide_True by assumption. f_equal. apply Hc. reflexivity.
    + destruct Hdelete as (n' & evs & w' & Hrun & Hf & Hp & Hn &
                           tail & Hd & Ha & Hsub & Hlen & _ & Hb).
      exists n', evs, w'. split; [exact Hrun|].
      split; [exact Hf|]. split; [exact Hp|]. split; [exact Hn|].
      destruct (Hb eq_refl) as [Hta Htd].
      split.
      { rewrite Hd, fmap_cons. apply sublist_skip. exact Hsub. }
      split; [rewrite Ha, Hta; cbn; lia|].
      split; [discriminate|]. intros _.
      split; [congruence|]. rewrite Hd, Htd. reflexivity.
Qed.

(** How the first lines of [delete_empty_correspondents] end. *)
Lemma find_empty_correspondents_run s :
  find_empty_correspondents listing s =
  (Return match (listing (world s)).1 with
          | Some cs => Returned (without_documents cs)
          | None => Exited 1
          end,
   Session (listing (world s)).2 (log s)).
Proof.
  unfold find_empty_correspondents, and_then, bind, get_correspondents.
  destruct (listing (world s)) as [[cs|] w]; reflexivity.
Qed.

(** The whole run, for both modes. *)
Lemma delete_empty_correspondents_log confirm_each s :
  exists r evs w',
    delete_empty_correspondents ops listing confirm_each s =
      (Return r, Session w' (log s ++ evs)) /\
    fetched_ids evs = [] /\ posted evs = [] /\
    match r with
    | Exited code =>
        code = 1 /\ evs = [] /\
        ((listing (world s)).1 = None \/
         exists cs,
           (listing (world s)).1 = Some cs /\
           without_documents cs <> [] /\
           (listing (listing (world s)).2).1 = None)
    | Returned n =>
        exists cs,
          (listing (world s)).1 = Some cs /\
          sublist (deleted_ids evs) (id <$> without_documents cs) /\
          n = Z.of_nat (length (deleted_for_good evs)) /\
          (confirm_each = true ->
           deleted_ids evs =
             confirmed_ids (without_documents cs) (answers evs) /\
           (length (answers evs) <= length (without_documents cs))%nat) /\
          (confirm_each = false ->
           match answers evs with
           | [] => without_documents cs = [] /\ evs = []
           | [a] =>
               if decide (Text.lower a = Text.lit "y")
               then deleted_ids evs = id <$> without_documents cs
               else n = 0 /\ deleted_ids evs = []
           | _ => False
           end)
    end.
Proof.
  unfold delete_empty_correspondents, and_then at 1. unfold bind at 1.
  rewrite find_empty_correspondents_run.
  destruct (listing (world s)) as [[cs|] w0] eqn:Hfirst; cbn [fst snd].
  2:{ exists (Exited 1), [], w0. rewrite app_nil_r.
      split; [reflexivity|]. split; [reflexivity|].
      split; [reflexivity|]. split; [reflexivity|].
      split; [reflexivity|]. left. reflexivity. }
  destruct (without_documents cs) as [|c0 rest] eqn:Hempty.
  { exists (Returned 0), [], w0. rewrite app_nil_r.
    split; [reflexivity|]. split; [reflexivity|]. split; [reflexivity|].
    exists cs. split; [reflexivity|]. split; [apply sublist_nil_l|].
    split; [reflexivity|]. rewrite Hempty.
    split; [intros _; split; [reflexivity|cbn; lia]|].
    intros _. split; reflexivity. }
  unfold and_then at 1, print_empty_correspondents, and_then at 1.
  unfold bind at 1 2. rewrite find_empty_correspondents_run.
  cbn [world log].
  destruct (listing w0) as [[cs2|] w1] eqn:Hsecond; cbn [fst snd].
  2:{ exists (Exited 1), [], w1. rewrite app_nil_r.
      split; [reflexivity|]. split; [reflexivity|].
      split; [reflexivity|]. split; [reflexivity|].
      split; [reflexivity|]. right. exists cs.
      split; [reflexivity|]. rewrite Hempty. split; [discriminate|].
      reflexivity. }
  unfold ret at 1. cbv beta iota.
  destruct confirm_each; cbn [negb].
  - destruct (delete_loop_log true (c0 :: rest) 0 (Session w1 (log s)))
      as (n & evs & w' & Hrun & Hf & Hp & Hn & Hsub & Hlen & Hc & _).
    exists (Returned n), evs, w'. unfold bind. rewrite Hrun.
    split; [reflexivity|]. split; [exact Hf|]. split; [exact Hp|].
    exists cs. split; [reflexivity|]. rewrite ?Hempty. split; [exact Hsub|].
    split; [lia|]. split; [auto|discriminate].
  - unfold bind at 1, input. cbn [world log].
    destruct (on_input ops w1) as [answer w2].
    destruct (decide (Text.lower answer <> Text.lit "y")) as [Hny|Hy].
    + exists (Returned 0), [Asked answer], w2.
      split; [reflexivity|]. split; [reflexivity|]. split; [reflexivity|].
      exists cs. split; [reflexivity|]. rewrite ?Hempty. split; [apply sublist_nil_l|].
      split; [reflexivity|]. split; [discriminate|]. intros _.
      cbn [answers omap list_omap].
      rewrite decide_False by assumption. split; reflexivity.
    + assert (Hyes : Text.lower answer = Text.lit "y")
        by (destruct (decide (Text.lower answer = Text.lit "y"));
            [assumption|contradiction]).
      destruct (delete_loop_log false (c0 :: rest) 0
                  (Session w2 (log s ++ [Asked answer])))
        as (n & evs & w' & Hrun & Hf & Hp & Hn & Hsub & Hlen & _ & Hb).
      exists (Returned n), (Asked answer :: evs), w'.
      unfold bind. rewrite Hrun. split.
      { cbn. rewrite <- app_assoc. reflexivity. }
      split; [exact Hf|]. split; [exact Hp|].
      exists cs. split; [reflexivity|]. rewrite ?Hempty.
      change (deleted_ids (Asked answer :: evs)) with (deleted_ids evs).
      change (deleted_for_good (Asked answer :: evs))
        with (deleted_for_good evs).
      change (answers (Asked answer :: evs)) with (answer :: answers evs).
      split; [exact Hsub|]. split; [lia|]. split; [discriminate|].
      intros _. destruct (Hb eq_refl) as [-> Hall].
      rewrite decide_True by assumption. exact Hall.
Qed.

End WithWorld.
End CatalogFacts.

(** [delete_empty_correspondents] deletes nothing that has documents.
    However a run ends, it has fetched and edited no document, and a
    DELETE request was sent only for correspondents that the first
    listing shows with a document count of 0 or none, in the order of
    the listing and each at most as often as listed; when the first
    listing fails nothing is asked or deleted. When the function returns
    a number, it is the number of DELETE requests that succeeded. When
    the program is ended instead, the exit code is 1, nothing was asked
    or deleted, and a listing of the correspondents failed: the first
    one, or the second one, which [print_empty_correspondents] makes
    when the first shows a correspondent without documents. *)
Theorem delete_empty_correspondents_only_empty {W : Type}
    (ops : Service.world_ops W)
    (listing : W -> option (list correspondent) * W)
    (confirm_each : bool) (s : Service.session W) :
  exists out evs w',
    Catalog.delete_empty_correspondents ops listing confirm_each s =
      (out, Service.Session w' (Service.log s ++ evs)) /\
    EngineSpec.fetched_ids evs = [] /\ EngineSpec.posted evs = [] /\
    match (listing (Service.world s)).1 with
    | Some cs =>
        sublist (RequestSpec.deleted_ids evs)
                (id <$> Catalog.without_documents cs)
    | None => evs = []
    end /\
    (forall n, out = Return (Catalog.Returned n) ->
       n = Z.of_nat (length (Catalog.deleted_for_good evs))) /\
    (forall code, out = Return (Catalog.Exited code) ->
       code = 1 /\ evs = [] /\
       ((listing (Service.world s)).1 = None \/
        exists cs,
          (listing (Service.world s)).1 = Some cs /\
          Catalog.without_documents cs <> [] /\
          (listing (listing (Service.world s)).2).1 = None)).
Proof.
  destruct (CatalogFacts.delete_empty_correspondents_log ops listing
              confirm_each s) as (r & evs & w' & Hrun & Hf & Hp & Hr).
  exists (Return r), evs, w'. split; [exact Hrun|]. split; [exact Hf|].
  split; [exact Hp|]. destruct r as [n|code].
  - destruct Hr as (cs & Hcs & Hsub & Hn & _). rewrite Hcs.
    split; [exact Hsub|]. split.
    + intros n' Heq. injection Heq as <-. exact Hn.
    + intros code Heq. discriminate Heq.
  - destruct Hr as (-> & -> & Hfailed). split.
    + destruct ((listing (Service.world s)).1); [apply sublist_nil_l|reflexivity].
    + split; [intros n Heq; discriminate Heq|].
      intros code Heq. injection Heq as <-. auto.
Qed.





(** Four correspondents without documents and the answers [Y], [n], [y],
    [q]: the first and the third are deleted, the fourth is kept. *)
Example delete_empty_yes_no_yes_quit :
  let run := Catalog.delete_empty_correspondents Scripted.ops
               (fun w => (Some MoreInputs.tied_and_empty, w)) true
               (Scripted.start MoreInputs.yes_no_quit) in
  run.1 = Return (Catalog.Returned 2) /\
  RequestSpec.deleted_ids (Service.log run.2) = [11; 13].
Proof. vm_compute. split; reflexivity. Qed.

(** * The [merge] command *)

Module CliFacts.
Import Service Engine EngineSpec RequestSpec Catalog Cli.
Local Open Scope service_scope.

Lemma no_invalid_ids (ids : list Z) (correspondent_ids : list Z) :
  (forall cid, cid ∈ correspondent_ids -> cid ∈ ids) ->
  filter (fun cid => cid ∉ ids) correspondent_ids = [].
Proof.
  intros Hall.
  destruct (filter (fun cid => cid ∉ ids) correspondent_ids)
    as [|x l] eqn:E; [reflexivity|].
  assert (Hx : x ∈ filter (fun cid => cid ∉ ids) correspondent_ids)
    by (rewrite E; apply list_elem_of_here).
  apply list_elem_of_filter in Hx as [Hout Hin].
  destruct (Hout (Hall x Hin)).
Qed.


Section WithWorld.
Context {W : Type} (ops : world_ops W).

(** One merge per id after the first: each fetches the documents of
    the first id and moves what it fetched to the id of its turn. *)
Lemma merge_each_source_log target_id : forall source_ids s,
  exists evs w',
    merge_each_source ops target_id source_ids s =
      (Return tt, Session w' (log s ++ evs)) /\
    fetched_ids evs = replicate (length source_ids) target_id /\
    (forall payload r, Posted payload r ∈ evs ->
                       set_correspondent payload ∈ source_ids) /\
    deleted_ids evs = [] /\ answers evs = [].
Proof.
  induction source_ids as [|source_id rest IH]; intros s.
  - exists [], (world s). cbn. unfold ret. rewrite app_nil_r.
    destruct s. repeat split; try reflexivity.
    intros p r H. inversion H.
  - cbn [merge_each_source]. unfold bind at 1.
    destruct (MergeLogFacts.merge_correspondents_moves ops
                target_id source_id s)
      as (ok & evs1 & w1 & Hrun1 & Hf1 & Hm1).
    rewrite Hrun1.
    destruct (IH (Session w1 (log s ++ evs1)))
      as (evs2 & w2 & Hrun2 & Hf2 & Hp2 & Hd2 & Ha2).
    exists (evs1 ++ evs2), w2. split.
    { rewrite Hrun2. cbn. rewrite <- app_assoc. reflexivity. }
    split.
    { rewrite MergeFacts.fetched_ids_app, Hf1, Hf2. reflexivity. }
    destruct (MergeLogFacts.moves_quiet source_id evs1 Hm1) as [Ha1 Hd1].
    split.
    { intros p r Hin. apply elem_of_app in Hin as [Hin|Hin].
      - rewrite (MergeLogFacts.moves_posted source_id evs1 p r Hm1 Hin).
        apply list_elem_of_here.
      - apply list_elem_of_further. exact (Hp2 p r Hin). }
    rewrite MergeLogFacts.deleted_ids_app, MergeLogFacts.answers_app.
    rewrite Hd1, Hd2, Ha1, Ha2. split; reflexivity.
Qed.

End WithWorld.
End CliFacts.

(** The command [merge T S1 ... Sn], once every id is listed and the
    prompt is confirmed, passes [T] to [merge_correspondents] as the
    source and each [Si] as the target: it fetches the documents of [T],
    once for every [Si], and every bulk edit it sends assigns documents
    to one of the [Si]. So no document is assigned to [T], unless [T] is
    given again among the [Si]. *)
Theorem cli_merge_moves_documents_of_first_id {W : Type}
    (ops : Service.world_ops W)
    (listing : W -> option (list correspondent) * W)
    (confirming : W -> option bool * W)
    (target_id : Z) (source_ids : list Z) (s : Service.session W)
    (cs : list correspondent) :
  source_ids <> [] ->
  (listing (Service.world s)).1 = Some cs ->
  (forall cid, cid ∈ target_id :: source_ids -> cid ∈ id <$> cs) ->
  (confirming (listing (Service.world s)).2).1 = Some true ->
  exists evs w',
    Cli.merge ops listing confirming (target_id :: source_ids) s =
      (Return (Catalog.Returned tt),
       Service.Session w' (Service.log s ++ evs)) /\
    EngineSpec.fetched_ids evs = replicate (length source_ids) target_id /\
    (forall payload r, Service.Posted payload r ∈ evs ->
                       Service.set_correspondent payload ∈ source_ids) /\
    (target_id ∉ source_ids ->
     forall payload r, Service.Posted payload r ∈ evs ->
                       Service.set_correspondent payload <> target_id).
Proof.
  intros Hne Hcs Hvalid Hyes. unfold Cli.merge, Cli.merge_body.
  destruct source_ids as [|s1 rest]; [done|].
  cbn [length Nat.ltb Nat.leb].
  unfold Catalog.and_then, Service.bind at 1, Catalog.get_correspondents.
  destruct (listing (Service.world s)) as [r w0]. cbn [fst snd] in *.
  subst r. cbv beta iota zeta.
  rewrite (CliFacts.no_invalid_ids _ _ Hvalid).
  unfold Service.bind at 1, Cli.confirm. cbn [Service.world Service.log].
  destruct (confirming w0) as [a w1]. cbn [fst] in Hyes. subst a.
  cbv beta iota. unfold Service.bind.
  destruct (CliFacts.merge_each_source_log ops target_id (s1 :: rest)
              (Service.Session w1 (Service.log s)))
    as (evs & w' & Hrun & Hf & Hp & _).
  rewrite Hrun. exists evs, w'. split; [reflexivity|].
  split; [exact Hf|]. split; [exact Hp|].
  intros Hout payload r Hin Heq. apply Hout. rewrite <- Heq.
  exact (Hp payload r Hin).
Qed.

Lemma cli_merge_moves_documents_of_first_id_witness :
  exists evs w',
    Cli.merge Scripted.ops
      (fun w => (Some MoreInputs.five_and_six, w))
      (fun w => (Some true, w)) [5; 6]
      (Scripted.start Inputs.one_owner) =
      (Return (Catalog.Returned tt), Service.Session w' evs) /\
    EngineSpec.fetched_ids evs = [5] /\
    (forall payload r, Service.Posted payload r ∈ evs ->
                       Service.set_correspondent payload ∈ [6]) /\
    (5 ∉ [6] ->
     forall payload r, Service.Posted payload r ∈ evs ->
                       Service.set_correspondent payload <> 5).
Proof.
  apply (cli_merge_moves_documents_of_first_id Scripted.ops
           (fun w => (Some MoreInputs.five_and_six, w))
           (fun w => (Some true, w)) 5 [6]
           (Scripted.start Inputs.one_owner) MoreInputs.five_and_six).
  - discriminate.
  - reflexivity.
  - intros cid Hcid. apply (bool_decide_unpack _).
    repeat (apply elem_of_cons in Hcid as [->|Hcid]; [vm_compute; reflexivity|]).
    inversion Hcid.
  - reflexivity.
Defined.

(** [merge 5 6] where correspondent 5 owns documents 10 and 11: the two
    documents are assigned to correspondent 6. *)
Example cli_merge_5_6 :
  Cli.merge Scripted.ops
    (fun w => (Some MoreInputs.five_and_six, w))
    (fun w => (Some true, w)) [5; 6]
    (Scripted.start Inputs.one_owner) =
  (Return (Catalog.Returned tt),
   Service.Session Inputs.one_owner
     [Service.Fetched 5 [10; 11];
      Service.Posted (Service.BulkEdit [10; 11] 6) Service.Completed]).
Proof. vm_compute. reflexivity. Qed.

(** [merge 5 5]: nothing in the command compares the ids, and the two
    documents of correspondent 5 are assigned to correspondent 5. *)
Example cli_merge_5_5 :
  Cli.merge Scripted.ops
    (fun w => (Some MoreInputs.five_and_six, w))
    (fun w => (Some true, w)) [5; 5]
    (Scripted.start Inputs.one_owner) =
  (Return (Catalog.Returned tt),
   Service.Session Inputs.one_owner
     [Service.Fetched 5 [10; 11];
      Service.Posted (Service.BulkEdit [10; 11] 5) Service.Completed]).
Proof. vm_compute. reflexivity. Qed.



(** Without ids the program ends with exit code 2, with one id with
    exit code 1; the service is not asked anything. *)
Example cli_merge_too_few :
  Cli.merge Scripted.ops
    (fun w => (Some MoreInputs.five_and_six, w))
    (fun w => (Some true, w)) []
    (Scripted.start Inputs.one_owner) =
  (Return (Catalog.Exited 2), Service.Session Inputs.one_owner []) /\
  Cli.merge Scripted.ops
    (fun w => (Some MoreInputs.five_and_six, w))
    (fun w => (Some true, w)) [5]
    (Scripted.start Inputs.one_owner) =
  (Return (Catalog.Exited 1), Service.Session Inputs.one_owner []).
Proof. split; vm_compute; reflexivity. Qed.

(** * Restoring documents *)

(** [restore_documents_to_correspondent] sends no request for an empty
    list and returns [True]. Otherwise it returns what
    [bulk_reassign_documents] returns with a batch size of 25: every
    request sets the given correspondent on at least one and at most 25
    consecutive ids of the list; when every request completes there are
    [ceil(n / 25)] of them and the result is [True]; and a [True]
    result means that every id went out in a bulk edit that completed. *)
Theorem restore_documents_to_correspondent_batches {W : Type}
    (ops : Service.world_ops W) (ids : list Z) (t : Z)
    (s : Service.session W) :
  Engine.restore_documents_to_correspondent ops [] t s = (Return true, s) /\
  exists ok evs w',
    Engine.restore_documents_to_correspondent ops ids t s =
      (Return ok, Service.Session w' (Service.log s ++ evs)) /\
    Forall (RequestSpec.edits ids t 25) evs /\
    (Forall EngineSpec.is_completed evs ->
     ok = true /\
     Z.of_nat (length evs) = EngineSpec.ceil_div (Z.of_nat (length ids)) 25) /\
    (ok = true -> forall doc, doc ∈ ids -> EngineSpec.reassigned evs doc).
Proof.
  split; [reflexivity|].
  destruct ids as [|d ids].
  { exists true, [], (Service.world s). cbn. unfold Service.ret.
    rewrite app_nil_r. destruct s. split; [reflexivity|].
    split; [constructor|]. split; [auto|].
    intros _ doc Hdoc. inversion Hdoc. }
  destruct (RequestFacts.bulk_requests ops (d :: ids) t 25 s)
    as (ok & evs & w' & Hrun & (_ & Htrue & Hall) & Hedits); [lia|].
  exists ok, evs, w'. split; [exact Hrun|]. split; [exact Hedits|]. split.
  - intros Hdone. destruct (Hall Hdone) as (-> & batches & -> & _ & _ & Hn).
    split; [reflexivity|]. rewrite length_fmap. exact Hn.
  - intros Hok. apply (Htrue Hok).
Qed.

(** * The loops over the pages *)

Module PagesFacts.
Import Catalog Pages.

Section WithItems.
Context {A : Type}.

Lemma has_next_truthy (p : page A) :
  has_next p -> truthy (next p) = Some (default [] (next p)).
Proof.
  unfold has_next, truthy. destruct (next p) as [[|c u]|]; try done.
Qed.

Lemma truthy_nonempty (u : url) : u <> [] -> truthy (Some u) = Some u.
Proof. destruct u; [done|reflexivity]. Qed.

(** Pages that each name a next page, then a failure. *)
Lemma fetch_pages_failure (pages : list (page A)) :
  forall rest u collected requests,
    u <> [] -> Forall has_next pages ->
    fetch_pages ((Some <$> pages) ++ None :: rest) (Some u)
      collected requests =
    Return (Fetched (collected ++ all_results pages) true
              (requests ++ urls_asked u pages)).
Proof.
  induction pages as [|p pages IH]; intros rest u collected requests Hu Hall.
  - cbn [fmap list_fmap app fetch_pages]. rewrite truthy_nonempty by exact Hu.
    unfold all_results. cbn. rewrite app_nil_r. reflexivity.
  - apply Forall_cons in Hall as [Hp Hall].
    cbn [fmap list_fmap app fetch_pages]. rewrite truthy_nonempty by exact Hu.
    pose proof (has_next_truthy p Hp) as Hnext.
    destruct (next p) as [u'|] eqn:En; [|discriminate].
    assert (Hu' : u' <> []).
    { intros ->. discriminate. }
    fold (@fmap list _ _ _ (@Some (page A)) pages).
    rewrite (IH rest u' _ _ Hu' Hall).
    unfold all_results. cbn [fmap list_fmap concat urls_asked].
    rewrite En. cbn [default from_option Datatypes.id].
    rewrite <- !app_assoc. reflexivity.
Qed.

(** Pages that each name a next page, then one that names none. *)
Lemma fetch_pages_complete (pages : list (page A)) :
  forall last rest u collected requests,
    u <> [] -> Forall has_next pages -> ~ has_next last ->
    fetch_pages ((Some <$> pages) ++ Some last :: rest) (Some u)
      collected requests =
    Return (Fetched (collected ++ all_results (pages ++ [last])) false
              (requests ++ urls_asked u pages)).
Proof.
  induction pages as [|p pages IH];
    intros last rest u collected requests Hu Hall Hlast.
  - cbn [fmap list_fmap app fetch_pages]. rewrite truthy_nonempty by exact Hu.
    assert (truthy (next last) = None) as Hend.
    { unfold has_next in Hlast. destruct (truthy (next last)); [|reflexivity].
      exfalso. apply Hlast. discriminate. }
    destruct rest; cbn [fetch_pages]; rewrite Hend;
      unfold all_results; cbn; rewrite app_nil_r; reflexivity.
  - apply Forall_cons in Hall as [Hp Hall].
    cbn [fmap list_fmap app fetch_pages]. rewrite truthy_nonempty by exact Hu.
    pose proof (has_next_truthy p Hp) as Hnext.
    destruct (next p) as [u'|] eqn:En; [|discriminate].
    assert (Hu' : u' <> []).
    { intros ->. discriminate. }
    fold (@fmap list _ _ _ (@Some (page A)) pages).
    rewrite (IH last rest u' _ _ Hu' Hall Hlast).
    unfold all_results. cbn [fmap list_fmap concat urls_asked app].
    rewrite En. cbn [default from_option Datatypes.id].
    rewrite <- !app_assoc. reflexivity.
Qed.

End WithItems.
End PagesFacts.

Module HundredFacts.
Import Catalog Pages.

Section WithItems.
Context {A : Type}.

(** The loop of [find_documents_by_date_range], entered with fewer
    than 100 documents. *)
Lemma fetch_first_hundred_run (replies : list (reply A)) :
  forall url first documents requests,
    (length documents < 100)%nat ->
    match fetch_first_hundred replies url first documents requests with
    | Return (docs, all) =>
        exists new,
          all = requests ++ new /\
          (forall i rq, new !! i = Some rq ->
                        params rq = params_at first i) /\
          (length new <= length replies)%nat /\
          (forall n, Forall (holds_at_most n) replies ->
                     (length docs <= 99 + n)%nat)
    | Raise _ => False
    | OutOfFuel => truthy url <> None /\ Forall links_on replies
    end.
Proof.
  induction replies as [|r replies IH];
    intros url first documents requests Hlen.
  - cbn [fetch_first_hundred]. destruct (truthy url) as [u|] eqn:Hu.
    + split; [discriminate|constructor].
    + exists []. rewrite app_nil_r. split; [reflexivity|].
      split; [intros i rq Hi; discriminate|]. split; [reflexivity|].
      intros n _. lia.
  - cbn [fetch_first_hundred]. destruct (truthy url) as [u|] eqn:Hu.
    2:{ exists []. rewrite app_nil_r. split; [reflexivity|].
        split; [intros i rq Hi; discriminate|]. split; [cbn; lia|].
        intros n _. lia. }
    destruct r as [data|].
    2:{ exists [Get u first]. split; [reflexivity|]. split.
        - intros [|i] rq Hi; [|discriminate]. injection Hi as <-.
          reflexivity.
        - split; [cbn; lia|]. intros n _. lia. }
    cbv zeta.
    destruct (Nat.leb_spec 100 (length (documents ++ results data)))
      as [Hfull|Hmore].
    + exists [Get u first]. split; [reflexivity|]. split.
      * intros [|i] rq Hi; [|discriminate]. injection Hi as <-.
        reflexivity.
      * split; [cbn; lia|]. intros n Hall.
        apply Forall_cons in Hall as [Hn _]. cbn in Hn.
        rewrite length_app in *. lia.
    + specialize (IH (next data) [] (documents ++ results data)
                     (requests ++ [Get u first]) Hmore).
      destruct (fetch_first_hundred replies (next data) []
                  (documents ++ results data) (requests ++ [Get u first]))
        as [[docs all]|e|].
      * destruct IH as (new & -> & Hparams & Hnew & Hbound).
        exists (Get u first :: new). split.
        { rewrite <- app_assoc. reflexivity. }
        split.
        { intros [|i] rq Hi; cbn in Hi.
          - injection Hi as <-. reflexivity.
          - rewrite (Hparams i rq Hi). destruct i; reflexivity. }
        split; [cbn; lia|]. intros n Hall.
        apply Forall_cons in Hall as [_ Hall]. apply Hbound, Hall.
      * exact IH.
      * destruct IH as [Hnext Hall]. split; [discriminate|].
        constructor; [exact Hnext|exact Hall].
Qed.

End WithItems.
End HundredFacts.

(** [get_correspondent_documents] keeps what it has. When the service
    answers with pages that each name a next page and then with a
    failure, the function raises nothing and returns the documents of
    the pages before the failure; when it answers with a page that names
    no next page instead, the function returns the documents of all the
    pages. In both cases the urls asked for are the first url and the
    [next] of every page but the last. *)
Theorem get_correspondent_documents_keeps_pages {A : Type}
    (pages : list (Pages.page A)) (rest : list (Pages.reply A))
    (first_url : Pages.url) :
  first_url <> [] -> Forall Pages.has_next pages ->
  Pages.get_correspondent_documents ((Some <$> pages) ++ None :: rest)
    first_url =
    Return (Pages.all_results pages, Pages.urls_asked first_url pages) /\
  forall last, ~ Pages.has_next last ->
    Pages.get_correspondent_documents ((Some <$> pages) ++ Some last :: rest)
      first_url =
    Return (Pages.all_results (pages ++ [last]),
            Pages.urls_asked first_url pages).
Proof.
  intros Hu Hall. unfold Pages.get_correspondent_documents. split.
  - rewrite PagesFacts.fetch_pages_failure by assumption. reflexivity.
  - intros last Hlast.
    rewrite PagesFacts.fetch_pages_complete by assumption. reflexivity.
Qed.

Lemma get_correspondent_documents_keeps_pages_witness :
  Pages.get_correspondent_documents
    [Some MoreInputs.first_page; None; Some MoreInputs.second_page]
    (Text.lit "/api/documents/?correspondent__id__in=5") =
  Return ([1; 2],
          [Pages.Get (Text.lit "/api/documents/?correspondent__id__in=5") [];
           Pages.Get (Text.lit "/api/documents/?page=2") []]).
Proof.
  apply (get_correspondent_documents_keeps_pages [MoreInputs.first_page]
           [Some MoreInputs.second_page]
           (Text.lit "/api/documents/?correspondent__id__in=5")).
  - discriminate.
  - repeat constructor. discriminate.
Defined.

(** [get_correspondents] returns everything or ends the program. When
    the service answers with pages that each name a next page and then
    with a failure, the program is ended with exit code 1 and what was
    collected is lost; when it answers with a page that names no next
    page instead, the function returns the results of all the pages, in
    order. *)
Theorem get_correspondents_all_or_exit {A : Type}
    (pages : list (Pages.page A)) (rest : list (Pages.reply A))
    (first_url : Pages.url) :
  first_url <> [] -> Forall Pages.has_next pages ->
  Pages.get_correspondents ((Some <$> pages) ++ None :: rest) first_url =
    Return (Catalog.Exited 1, Pages.urls_asked first_url pages) /\
  forall last, ~ Pages.has_next last ->
    Pages.get_correspondents ((Some <$> pages) ++ Some last :: rest)
      first_url =
    Return (Catalog.Returned (Pages.all_results (pages ++ [last])),
            Pages.urls_asked first_url pages).
Proof.
  intros Hu Hall. unfold Pages.get_correspondents. split.
  - rewrite PagesFacts.fetch_pages_failure by assumption. reflexivity.
  - intros last Hlast.
    rewrite PagesFacts.fetch_pages_complete by assumption. reflexivity.
Qed.

Lemma get_correspondents_all_or_exit_witness :
  Pages.get_correspondents
    [Some MoreInputs.first_page; Some MoreInputs.second_page]
    (Text.lit "/api/correspondents/") =
  Return (Catalog.Returned [1; 2; 3],
          [Pages.Get (Text.lit "/api/correspondents/") [];
           Pages.Get (Text.lit "/api/documents/?page=2") []]).
Proof.
  apply (get_correspondents_all_or_exit [MoreInputs.first_page] []
           (Text.lit "/api/correspondents/")).
  - discriminate.
  - repeat constructor. discriminate.
  - intros H. apply H. reflexivity.
Defined.

(** [find_documents_by_date_range] raises nothing. When it returns, the
    date filters went with the first request only, there was at most one
    request per answer of the service, and, if no page holds more than
    [n] results, at most [99 + n] documents are returned: once 100 are
    collected no further page is asked for. It fails to return only when
    every answer is a page that names a next page and fewer than 100
    documents were collected, that is, when the service was not asked
    often enough. *)
Theorem find_documents_by_date_range_limit {A : Type}
    (replies : list (Pages.reply A)) (first_url : Pages.url)
    (start_date end_date : option str) :
  match Pages.find_documents_by_date_range replies first_url
          start_date end_date with
  | Return (docs, requests) =>
      (forall i rq, requests !! i = Some rq ->
         Pages.params rq =
         Pages.params_at (Pages.date_params start_date end_date) i) /\
      (length requests <= length replies)%nat /\
      (forall n, Forall (Pages.holds_at_most n) replies ->
                 (length docs <= 99 + n)%nat)
  | Raise _ => False
  | OutOfFuel => first_url <> [] /\ Forall Pages.links_on replies
  end.
Proof.
  unfold Pages.find_documents_by_date_range.
  pose proof (HundredFacts.fetch_first_hundred_run replies (Some first_url)
                (Pages.date_params start_date end_date) [] []) as Hrun.
  destruct (Pages.fetch_first_hundred replies (Some first_url) _ [] [])
    as [[docs requests]|e|].
  - destruct Hrun as (new & -> & Hparams & Hlen & Hbound); [cbn; lia|].
    auto.
  - apply Hrun. cbn. lia.
  - destruct Hrun as [Hu Hall]; [cbn; lia|]. split; [|exact Hall].
    intros ->. apply Hu. reflexivity.
Qed.

(** * Merging the similar groups one by one *)

Module AutoMergeFacts.
Import Service Engine EngineSpec RequestSpec Catalog AutoMerge.
Local Open Scope service_scope.

Lemma quiet_nil : quiet [].
Proof. repeat split. Qed.

Lemma quiet_asked a evs : quiet evs -> quiet (Asked a :: evs).
Proof. intros H. exact H. Qed.

Lemma consented_app_l evs1 evs2 : consented evs1 -> consented (evs1 ++ evs2).
Proof.
  intros (a & Hin & Hy). exists a. split; [|exact Hy].
  rewrite MergeLogFacts.answers_app. apply elem_of_app. auto.
Qed.

Lemma consented_app_r evs1 evs2 : consented evs2 -> consented (evs1 ++ evs2).
Proof.
  intros (a & Hin & Hy). exists a. split; [|exact Hy].
  rewrite MergeLogFacts.answers_app. apply elem_of_app. auto.
Qed.

Lemma quiet_app evs1 evs2 : quiet evs1 -> quiet evs2 -> quiet (evs1 ++ evs2).
Proof.
  intros (Hf1 & Hp1 & Hd1) (Hf2 & Hp2 & Hd2). unfold quiet.
  rewrite MergeFacts.fetched_ids_app, MergeFacts.posted_app,
    MergeLogFacts.deleted_ids_app, Hf1, Hp1, Hd1, Hf2, Hp2, Hd2.
  repeat split.
Qed.

(** Nothing is fetched, edited or deleted, or the user said yes. *)
Lemma calm_app evs1 evs2 :
  quiet evs1 \/ consented evs1 -> quiet evs2 \/ consented evs2 ->
  quiet (evs1 ++ evs2) \/ consented (evs1 ++ evs2).
Proof.
  intros [H1|H1] [H2|H2].
  - left. apply quiet_app; assumption.
  - right. apply consented_app_r, H2.
  - right. apply consented_app_l, H1.
  - right. apply consented_app_l, H1.
Qed.

Lemma find_similar_returns threshold cs :
  exists groups,
    Similarity.find_similar_correspondents threshold cs = Return groups.
Proof.
  destruct (GroupFacts.group_loop_spec threshold cs (fun _ => True))
    with (remaining := cs) (visited := (∅ : gset Z))
         (groups := @nil (list correspondent))
    as (groups & Hrun & _); auto.
  exists groups. exact Hrun.
Qed.

Section WithWorld.
Context {W : Type} (ops : world_ops W).
Variable listing : W -> option (list correspondent) * W.

(** [merge_correspondent_group] returns, whatever it is given. *)
Lemma merge_group_total group target_id s :
  exists ok evs w',
    merge_correspondent_group ops group target_id s =
      (Return ok, Session w' (log s ++ evs)).
Proof.
  destruct (Nat.ltb_spec (length group) 2) as [Hshort|Hlong].
  { exists false, [], (world s). unfold merge_correspondent_group.
    rewrite (proj2 (Nat.ltb_lt _ _) Hshort), app_nil_r.
    destruct s. reflexivity. }
  destruct (choose_target group target_id) as [target|] eqn:Htarget.
  - destruct (MergeLogFacts.merge_group_log ops group target_id target s
                Hlong Htarget)
      as (ok & evs & w1 & tail & s2 & Hrun & Hlog & _).
    exists ok, (evs ++ tail), (world s2). rewrite Hrun, <- Hlog.
    destruct s2. reflexivity.
  - exists false, [], (world s). unfold merge_correspondent_group.
    rewrite (proj2 (Nat.ltb_ge _ _) Hlong), Htarget, app_nil_r.
    destruct s. reflexivity.
Qed.

(** On a console that answers every prompt the loop for one group
    raises nothing; it asks, and fetches, edits
    or deletes only after a yes; and it has no outcome only after
    [rounds] answers. *)
Lemma choose_target_loop_log rounds : forall group s,
  exists out evs w',
    choose_target_loop ops rounds group s =
      (out, Session w' (log s ++ evs)) /\
    (quiet evs \/ consented evs) /\
    (forall e, out <> Raise e) /\
    (out = OutOfFuel -> (rounds <= length (answers evs))%nat).
Proof.
  induction rounds as [|rounds IH]; intros group s.
  { exists OutOfFuel, [], (world s). cbn. unfold out_of_fuel.
    rewrite app_nil_r. destruct s. split; [reflexivity|].
    split; [left; apply quiet_nil|]. split; [discriminate|].
    intros _. cbn. lia. }
  cbn [choose_target_loop]. unfold bind at 1, input.
  destruct (on_input ops (world s)) as [typed w1].
  set (s1 := Session w1 (log s ++ [Asked typed])).
  assert (Hagain : exists out evs w',
            choose_target_loop ops rounds group s1 =
              (out, Session w' (log s ++ evs)) /\
            (quiet evs \/ consented evs) /\
            (forall e, out <> Raise e) /\
            (out = OutOfFuel -> (S rounds <= length (answers evs))%nat)).
  { destruct (IH group s1)
      as (out & evs & w' & Hrun & Hcalm & Hno & Hfuel).
    exists out, (Asked typed :: evs), w'. split.
    - rewrite Hrun. cbn. rewrite <- app_assoc. reflexivity.
    - split; [|split; [exact Hno|]].
      + apply (calm_app [Asked typed] evs);
          [left; apply quiet_nil|exact Hcalm].
      + intros Hout. specialize (Hfuel Hout).
        change (answers (Asked typed :: evs)) with (typed :: answers evs).
        cbn [length]. lia. }
  assert (Hplain : forall d : decision, exists out evs w',
            ret d s1 = (out, Session w' (log s ++ evs)) /\
            (quiet evs \/ consented evs) /\
            (forall e, out <> Raise e) /\
            (out = OutOfFuel -> (S rounds <= length (answers evs))%nat)).
  { intros d. exists (Return d), [Asked typed], w1.
    split; [reflexivity|]. split; [left; apply quiet_nil|].
    split; discriminate. }
  cbv zeta.
  destruct (decide (Text.lower (Text.strip typed) = Text.lit "q"));
    [apply Hplain|].
  destruct (decide (Text.lower (Text.strip typed) = Text.lit "s"));
    [apply Hplain|].
  destruct (PyInt.int (Text.lower (Text.strip typed))) as [choice_num|];
    [|exact Hagain].
  destruct (1 <=? choice_num); [|exact Hagain].
  destruct (group !! Z.to_nat (choice_num - 1)) as [target|];
    [|exact Hagain].
  unfold bind at 1, input. cbn [world log s1].
  destruct (on_input ops w1) as [confirm w2].
  destruct (decide (Text.lower confirm = Text.lit "y")) as [Hy|Hn].
  - destruct (merge_group_total group (Some (id target))
                (Session w2 ((log s ++ [Asked typed]) ++ [Asked confirm])))
      as (ok & evs & w' & Hrun).
    rewrite Hrun.
    exists (Return (Merged ok)), (Asked typed :: Asked confirm :: evs), w'.
    split.
    { cbn. rewrite <- !app_assoc. reflexivity. }
    split; [|split; discriminate].
    right. exists confirm. split; [|exact Hy].
    cbn. apply list_elem_of_further, list_elem_of_here.
  - exists (Return Skipped), [Asked typed; Asked confirm], w2.
    split.
    { unfold ret. cbn. rewrite <- !app_assoc. reflexivity. }
    split; [left; apply quiet_nil|split; discriminate].
Qed.

(** On such a console the loop over the groups raises nothing
    either, and it counts at most one
    merge per group. *)
Lemma merge_groups_log rounds : forall groups n s,
  exists out evs w',
    merge_groups ops rounds groups n s =
      (out, Session w' (log s ++ evs)) /\
    (quiet evs \/ consented evs) /\
    match out with
    | Return n' => n <= n' <= n + Z.of_nat (length groups)
    | Raise _ => False
    | OutOfFuel => (rounds <= length (answers evs))%nat
    end.
Proof.
  induction groups as [|group rest IH]; intros n s.
  { exists (Return n), [], (world s). cbn. unfold ret. rewrite app_nil_r.
    destruct s. split; [reflexivity|].
    split; [left; apply quiet_nil|lia]. }
  cbn [merge_groups]. unfold bind at 1.
  destruct (choose_target_loop_log rounds group s)
    as (out1 & evs1 & w1 & Hrun1 & Hcalm1 & Hno1 & Hfuel1).
  rewrite Hrun1.
  assert (Hnext : forall n1, n <= n1 <= n + 1 ->
            exists out evs w',
              merge_groups ops rounds rest n1
                (Session w1 (log s ++ evs1)) =
                (out, Session w' (log s ++ evs)) /\
              (quiet evs \/ consented evs) /\
              match out with
              | Return n' =>
                  n <= n' <= n + Z.of_nat (length (group :: rest))
              | Raise _ => False
              | OutOfFuel => (rounds <= length (answers evs))%nat
              end).
  { intros n1 Hn1.
    destruct (IH n1 (Session w1 (log s ++ evs1)))
      as (out & evs & w' & Hrun & Hcalm & Hout).
    exists out, (evs1 ++ evs), w'. split.
    - rewrite Hrun. cbn. rewrite <- app_assoc. reflexivity.
    - split; [apply calm_app; assumption|].
      destruct out; try exact Hout.
      + cbn [length]. lia.
      + rewrite MergeLogFacts.answers_app, length_app. lia. }
  destruct out1 as [d|e|].
  - destruct d as [| |ok].
    + exists (Return n), evs1, w1. split; [reflexivity|].
      split; [exact Hcalm1|]. cbn [length]. lia.
    + apply Hnext. lia.
    + apply Hnext. destruct ok; lia.
  - destruct (Hno1 e eq_refl).
  - exists OutOfFuel, evs1, w1. split; [reflexivity|].
    split; [exact Hcalm1|]. apply Hfuel1. reflexivity.
Qed.

(** The whole of [auto_merge_similar_correspondents]. *)
Lemma auto_merge_log rounds threshold s :
  exists out evs w',
    auto_merge_similar_correspondents ops listing rounds threshold s =
      (out, Session w' (log s ++ evs)) /\
    (quiet evs \/ consented evs) /\
    match out with
    | Return (Returned n) =>
        exists cs groups,
          (listing (world s)).1 = Some cs /\
          Similarity.find_similar_correspondents threshold cs =
            Return groups /\
          0 <= n <= Z.of_nat (length groups)
    | Return (Exited code) =>
        code = 1 /\ evs = [] /\ (listing (world s)).1 = None
    | Raise _ => False
    | OutOfFuel => (rounds <= length (answers evs))%nat
    end.
Proof.
  unfold auto_merge_similar_correspondents, and_then, bind at 1,
    get_correspondents.
  destruct (listing (world s)) as [[cs|] w0]; cbn [fst].
  2:{ exists (Return (Exited 1)), [], w0. rewrite app_nil_r.
      split; [reflexivity|]. split; [left; apply quiet_nil|auto]. }
  cbv beta iota.
  destruct (find_similar_returns threshold cs) as (groups & Hgroups).
  rewrite Hgroups. destruct groups as [|g groups].
  { exists (Return (Returned 0)), [], w0. rewrite app_nil_r.
    split; [reflexivity|]. split; [left; apply quiet_nil|].
    exists cs, []. repeat split; [exact Hgroups|lia|cbn; lia]. }
  unfold bind.
  destruct (merge_groups_log rounds (g :: groups) 0 (Session w0 (log s)))
    as (out & evs & w' & Hrun & Hcalm & Hout).
  rewrite Hrun. destruct out as [n|e|].
  - exists (Return (Returned n)), evs, w'. split; [reflexivity|].
    split; [exact Hcalm|]. exists cs, (g :: groups).
    split; [reflexivity|]. split; [exact Hgroups|]. lia.
  - destruct Hout.
  - exists OutOfFuel, evs, w'. split; [reflexivity|].
    split; [exact Hcalm|exact Hout].
Qed.

End WithWorld.
End AutoMergeFacts.

(** [auto_merge_similar_correspondents] does nothing to the service
    without a yes: however the run ends, and as long as it goes on,
    either no document was fetched, no bulk edit sent and no
    correspondent deleted, or the user answered [y] or [Y] to one of the
    questions. *)
Theorem auto_merge_needs_consent {W : Type}
    (ops : Service.world_ops W)
    (listing : W -> option (list correspondent) * W)
    (rounds : nat) (threshold : Q) (s : Service.session W) :
  exists out evs w',
    AutoMerge.auto_merge_similar_correspondents ops listing rounds threshold s
      = (out, Service.Session w' (Service.log s ++ evs)) /\
    (AutoMerge.quiet evs \/ AutoMerge.consented evs).
Proof.
  destruct (AutoMergeFacts.auto_merge_log ops listing rounds threshold s)
    as (out & evs & w' & Hrun & Hcalm & _).
  exists out, evs, w'. auto.
Qed.

(** What [auto_merge_similar_correspondents] returns. When it returns a
    number, the number is at least 0 and at most the number of groups
    that [find_similar_correspondents] found for the listed
    correspondents. When the program is ended instead, the exit code is
    1, the listing of the correspondents failed and nothing was asked.
    A run on a console that answers every prompt comes to an end unless
    the user keeps answering the first question of a group with
    something that is no choice: a run that allows [rounds] answers to
    that question is cut off only when at least [rounds] answers were
    typed. *)
Theorem auto_merge_counts_groups {W : Type}
    (ops : Service.world_ops W)
    (listing : W -> option (list correspondent) * W)
    (rounds : nat) (threshold : Q) (s : Service.session W) :
  exists out evs w',
    AutoMerge.auto_merge_similar_correspondents ops listing rounds threshold s
      = (out, Service.Session w' (Service.log s ++ evs)) /\
    (forall n, out = Return (Catalog.Returned n) ->
       exists cs groups,
         (listing (Service.world s)).1 = Some cs /\
         Similarity.find_similar_correspondents threshold cs =
           Return groups /\
         0 <= n <= Z.of_nat (length groups)) /\
    (forall code, out = Return (Catalog.Exited code) ->
       code = 1 /\ evs = [] /\ (listing (Service.world s)).1 = None) /\
    (out = OutOfFuel -> (rounds <= length (RequestSpec.answers evs))%nat).
Proof.
  destruct (AutoMergeFacts.auto_merge_log ops listing rounds threshold s)
    as (out & evs & w' & Hrun & _ & Hout).
  exists out, evs, w'. split; [exact Hrun|].
  split; [intros n ->; exact Hout|].
  split; [intros code ->; exact Hout|].
  intros ->. exact Hout.
Qed.

(** Answering the first question with [q], in any case and with blanks
    around it, ends [auto_merge_similar_correspondents]: it returns 0
    and has asked this one question and nothing else. *)
Theorem auto_merge_quit_at_first_question {W : Type}
    (ops : Service.world_ops W)
    (listing : W -> option (list correspondent) * W)
    (rounds : nat) (threshold : Q) (s : Service.session W)
    (cs : list correspondent) (g : list correspondent)
    (gs : list (list correspondent)) :
  (1 <= rounds)%nat ->
  (listing (Service.world s)).1 = Some cs ->
  Similarity.find_similar_correspondents threshold cs = Return (g :: gs) ->
  let typed :=
    (Service.on_input ops (listing (Service.world s)).2).1 in
  Text.lower (Text.strip typed) = Text.lit "q" ->
  exists w',
    AutoMerge.auto_merge_similar_correspondents ops listing rounds threshold s
      = (Return (Catalog.Returned 0),
         Service.Session w' (Service.log s ++ [Service.Asked typed])).
Proof.
  intros Hrounds Hcs Hgroups typed Hq.
  unfold AutoMerge.auto_merge_similar_correspondents, Catalog.and_then,
    Service.bind at 1, Catalog.get_correspondents.
  destruct (listing (Service.world s)) as [r w0]. cbn [fst snd] in *.
  subst r. cbv beta iota. rewrite Hgroups.
  destruct rounds as [|rounds]; [lia|].
  unfold Service.bind at 1. cbn [AutoMerge.merge_groups].
  unfold Service.bind at 1. cbn [AutoMerge.choose_target_loop].
  unfold Service.bind at 1, Engine.input. cbn [Service.world Service.log].
  unfold typed in *. destruct (Service.on_input ops w0) as [a w1].
  cbn [fst] in *. cbv zeta. rewrite decide_True by exact Hq.
  exists w1. reflexivity.
Qed.

Lemma auto_merge_quit_at_first_question_witness :
  exists w',
    AutoMerge.auto_merge_similar_correspondents Scripted.ops
      (fun w => (Some Inputs.john_john_jane, w)) 3 (8 # 10)
      (Scripted.start MoreInputs.quits) =
    (Return (Catalog.Returned 0),
     Service.Session w' [Service.Asked (Text.lit " Q ")]).
Proof.
  apply (auto_merge_quit_at_first_question Scripted.ops
           (fun w => (Some Inputs.john_john_jane, w)) 3 (8 # 10)
           (Scripted.start MoreInputs.quits) Inputs.john_john_jane
           [ Correspondent 2 (Text.lit "John D. Doe") None;
             Correspondent 1 (Text.lit "John Doe") None ] []).
  - lia.
  - reflexivity.
  - vm_compute. reflexivity.
  - vm_compute. reflexivity.
Defined.

(** The user picks the second member of the one group, confirms, and
    declines the deletion: the documents of the other member are moved
    to it and the function returns 1. *)
Example auto_merge_second_member :
  let run := AutoMerge.auto_merge_similar_correspondents Scripted.ops
               (fun w => (Some Inputs.john_john_jane, w)) 3 (8 # 10)
               (Scripted.start MoreInputs.picks_second) in
  run.1 = Return (Catalog.Returned 1) /\
  EngineSpec.posted (Service.log run.2) =
    [(Service.BulkEdit [21; 22] 1, Service.Completed)] /\
  RequestSpec.deleted_ids (Service.log run.2) = [].
Proof. vm_compute. repeat split; reflexivity. Qed.
